(** * gh-ns8: release readiness and version sequencing

    A shallow embedding of the Go sources of the [module-release] command
    group ([internal/module_release], [internal/github] and the cobra
    commands that call them), with the properties the specification
    states about them.

    Conventions of the embedding.
    - A Go [string] is a Rocq [string] (a sequence of bytes).
    - A Go [int] is 64 bits wide; it is a [Z] and arithmetic on it goes
      through [Go.wrap].
    - A Go function returning [(T, error)] returns a [Go.result T]; a
      function returning only [error] returns an [option Go.error].
    - Code that can panic, can fail to return, or calls a library with
      more behaviour than is modelled here, runs in [Go.outcome].
    - The hosting platform is a record of response functions
      ([github.Client]): every read is answered the same way for the
      whole run.
    - A Go [map] is a [gmap]; the order in which [range] visits it is a
      parameter of the function that ranges over it. *)

From Stdlib Require Import ZArith String Ascii List Lia Bool.
From Stdlib Require Import DecimalString DecimalZ.
From stdpp Require Import gmap strings list.

Local Open Scope string_scope.
Local Open Scope list_scope.
Local Open Scope Z_scope.

(** ** The Go run time as far as the sources use it *)

Module Go.

Definition error := string.

Inductive result (A : Type) : Type :=
| Ok (a : A)
| Err (e : error).
Arguments Ok {A} a.
Arguments Err {A} e.

(** What a call can do besides returning: panic, never return (the
    model ran out of [fuel]), or leave the part of a library that is
    modelled here. *)
Inductive outcome (A : Type) : Type :=
| Ret (a : A)
| Panic (msg : string)
| Unmodelled
| OutOfFuel.
Arguments Ret {A} a.
Arguments Panic {A} msg.
Arguments Unmodelled {A}.
Arguments OutOfFuel {A}.

Definition bind {A B : Type} (m : outcome A) (k : A -> outcome B) : outcome B :=
  match m with
  | Ret a => k a
  | Panic msg => Panic msg
  | Unmodelled => Unmodelled
  | OutOfFuel => OutOfFuel
  end.

Definition returns {A : Type} (m : outcome A) : Prop := exists a, m = Ret a.

(** [int] on the 64-bit platforms the extension is built for. *)
Definition MaxInt : Z := 2 ^ 63 - 1.
Definition MinInt : Z := - 2 ^ 63.
Definition wrap (z : Z) : Z := (z + 2 ^ 63) mod 2 ^ 64 - 2 ^ 63.

Definition isDigit (c : ascii) : bool :=
  ((48 <=? nat_of_ascii c) && (nat_of_ascii c <=? 57))%nat.

Definition digitVal (c : ascii) : Z := Z.of_nat (nat_of_ascii c) - 48.

(** The value of a string of decimal digits, most significant first. *)
Definition decimalValue (ds : list ascii) : Z :=
  fold_left (fun acc c => 10 * acc + digitVal c) ds 0.

End Go.

Export Go (result, Ok, Err, outcome, Ret, Panic, Unmodelled, OutOfFuel).

#[export] Instance outcome_bind : MBind outcome :=
  fun A B (k : A -> outcome B) (m : outcome A) => Go.bind m k.

(** ** Package [unicode/utf8] *)

Module utf8.

Definition inRange (lo hi : nat) (c : ascii) : bool :=
  ((lo <=? nat_of_ascii c) && (nat_of_ascii c <=? hi))%nat.

Definition isCont : ascii -> bool := inRange 128 191.

(** The width [utf8.DecodeRuneInString] reports for the first rune of
    [s]: the length of a well-formed encoding, and 1 for a byte that
    starts none (it decodes to [RuneError]). *)
Definition runeWidth (s : list ascii) : nat :=
  match s with
  | [] => 0%nat
  | b0 :: t =>
    let two := match t with b1 :: _ => if isCont b1 then 2 else 1 | _ => 1 end%nat in
    let three (lo hi : nat) :=
      match t with
      | b1 :: b2 :: _ => if inRange lo hi b1 && isCont b2 then 3 else 1
      | _ => 1
      end%nat in
    let four (lo hi : nat) :=
      match t with
      | b1 :: b2 :: b3 :: _ =>
        if inRange lo hi b1 && isCont b2 && isCont b3 then 4 else 1
      | _ => 1
      end%nat in
    let x := nat_of_ascii b0 in
    if (x <? 128)%nat then 1%nat
    else if inRange 194 223 b0 then two
    else if (x =? 224)%nat then three 160%nat 191%nat
    else if inRange 225 236 b0 then three 128%nat 191%nat
    else if (x =? 237)%nat then three 128%nat 159%nat
    else if inRange 238 239 b0 then three 128%nat 191%nat
    else if (x =? 240)%nat then four 144%nat 191%nat
    else if inRange 241 243 b0 then four 128%nat 191%nat
    else if (x =? 244)%nat then four 128%nat 143%nat
    else 1%nat
  end.

End utf8.

(** ** Package [strings] *)

Module gostrings.

(** [strings.Split(s, sep)] for a separator of one byte, which is how
    the sources call it. The result is never empty. *)
Fixpoint splitFrom (cur : list ascii) (s : list ascii) (sep : ascii) : list string :=
  match s with
  | [] => [string_of_list_ascii (rev cur)]
  | c :: t =>
    if Ascii.eqb c sep
    then string_of_list_ascii (rev cur) :: splitFrom [] t sep
    else splitFrom (c :: cur) t sep
  end.

Definition Split (s : string) (sep : ascii) : list string :=
  splitFrom [] (list_ascii_of_string s) sep.

Fixpoint hasPrefix (p s : list ascii) : bool :=
  match p, s with
  | [], _ => true
  | a :: p', b :: s' => Ascii.eqb a b && hasPrefix p' s'
  | _ :: _, [] => false
  end.

Fixpoint containsFrom (s sub : list ascii) : bool :=
  hasPrefix sub s ||
  match s with
  | [] => false
  | _ :: t => containsFrom t sub
  end.

(** [strings.Contains(s, substr)]. *)
Definition Contains (s substr : string) : bool :=
  containsFrom (list_ascii_of_string s) (list_ascii_of_string substr).

(** [strings.Join(elems, sep)]. *)
Definition Join (elems : list string) (sep : string) : string :=
  String.concat sep elems.

End gostrings.

(** ** Packages [strconv] and [fmt] *)

Module strconv.

Definition allDigits (ds : list ascii) : bool := forallb Go.isDigit ds.

(** [strconv.Atoi]: an optional sign, then one or more decimal digits;
    a value outside [int] is a range error. *)
Definition Atoi (s : string) : result Z :=
  let parse (neg : bool) (ds : list ascii) : result Z :=
    match ds with
    | [] => Err ("strconv.Atoi: parsing: invalid syntax")
    | _ =>
      if allDigits ds then
        let v := Go.decimalValue ds in
        if neg then
          if v <=? 2 ^ 63 then Ok (- v)
          else Err ("strconv.Atoi: parsing: value out of range")
        else
          if v <=? Go.MaxInt then Ok v
          else Err ("strconv.Atoi: parsing: value out of range")
      else Err ("strconv.Atoi: parsing: invalid syntax")
    end in
  match list_ascii_of_string s with
  | c :: ds =>
    if Ascii.eqb c "-" then parse true ds
    else if Ascii.eqb c "+" then parse false ds
    else parse false (c :: ds)
  | [] => parse false []
  end.

(** [strconv.Quote], which is also the verb [%q] of [fmt] applied to a
    string, on a string of ASCII bytes: a double quote and a backslash
    get a backslash, a printable byte stands for itself, and the other
    bytes are written as escapes. A byte from 0x80 on starts a rune
    that is treated by the tables of [unicode]; they are left out of
    the model. *)
Definition lowerhex (n : nat) : ascii :=
  nth n (list_ascii_of_string "0123456789abcdef") "0"%char.

Definition appendEscapedRune (r : ascii) : string :=
  let n := nat_of_ascii r in
  if ((n =? 34) || (n =? 92))%nat then String "092"%char (String r "")
  else if ((32 <=? n) && (n <? 127))%nat then String r ""
  else
    match n with
    | 7%nat => "\a"
    | 8%nat => "\b"
    | 12%nat => "\f"
    | 10%nat => "\n"
    | 13%nat => "\r"
    | 9%nat => "\t"
    | 11%nat => "\v"
    | _ => "\x" +:+ String (lowerhex (n / 16)) (String (lowerhex (n mod 16)) "")
    end.

Definition Quote (s : string) : outcome string :=
  let bytes := list_ascii_of_string s in
  if forallb (fun c => (nat_of_ascii c <? 128)%nat) bytes
  then Ret (String "034"%char (String.concat "" (map appendEscapedRune bytes))
            +:+ String "034"%char "")
  else Unmodelled.

End strconv.

Module fmt.

(** The verb [%d] applied to an [int]. *)
Definition FormatInt (z : Z) : string := NilZero.string_of_int (Z.to_int z).

(** [fmt.Sscanf(str, "%d", &num)] on the inputs the sources give it,
    the text of a submatch: [Some v] is a successful scan that stores
    [v], [None] a failed scan that leaves [num] as it was. Input that
    is neither empty nor made of digits alone (signs, spaces,
    underscores) is left out of the model. *)
Definition SscanfInt (str : string) : outcome (option Z) :=
  match list_ascii_of_string str with
  | [] => Ret None
  | ds =>
    if strconv.allDigits ds then
      let v := Go.decimalValue ds in
      Ret (if v <=? Go.MaxInt then Some v else None)
    else Unmodelled
  end.

End fmt.

(** ** Package [regexp]

    The part of Go's regular expressions that the sources and the
    patterns they build from well-formed repository names need:
    literals, [.], [\d], escaped punctuation, bracket classes of ASCII
    characters and ranges and their negations, groups, alternation, the greedy repetitions
    [*], [+], [?], and the anchors [^] and [$]. A pattern is parsed in
    one pass with a stack of open groups, as [regexp/syntax] does, and
    matched by backtracking in priority order, which is the
    leftmost-first match Go reports. *)

Module regexp.

Inductive node : Type :=
| Empty
| Lit (c : ascii)
| AnyNotNL
| Class (ranges : list (ascii * ascii))
| NegClass (ranges : list (ascii * ascii))
| BeginText
| EndText
| Cat (r1 r2 : node)
| Alt (r1 r2 : node)
| Star (r : node)
| Plus (r : node)
| Quest (r : node)
| Capture (i : nat) (r : node).

Record Regexp : Type := { prog : node; NumSubexp : nat }.

(** *** Parsing *)

Inductive parsed : Type :=
| Parsed (re : Regexp)
| SyntaxError (msg : string)
| NotModelled.

(** An open group: the alternatives already closed by [|] and the
    concatenation being read, both most recent first. *)
Record frame : Type := { alts : list node; seq : list node; capIndex : nat }.

Inductive classState : Type :=
| NoPending
| One (c : ascii)
| Dash (lo : ascii)
| DashAlone.

Inductive mode : Type :=
| Normal
| InClass (negated : bool) (ranges : list (ascii * ascii)) (pending : classState).

Fixpoint catOf (rs : list node) : node :=
  match rs with
  | [] => Empty
  | [r] => r
  | r :: rs' => Cat r (catOf rs')
  end.

Fixpoint altOf (rs : list node) : node :=
  match rs with
  | [] => Empty
  | [r] => r
  | r :: rs' => Alt r (altOf rs')
  end.

Definition closeFrame (f : frame) : node :=
  altOf (rev (catOf (rev (seq f)) :: alts f)).

Definition push (r : node) (f : frame) : frame :=
  {| alts := alts f; seq := r :: seq f; capIndex := capIndex f |}.

Fixpoint nullable (r : node) : bool :=
  match r with
  | Empty | BeginText | EndText | Star _ | Quest _ => true
  | Lit _ | AnyNotNL | Class _ | NegClass _ => false
  | Cat r1 r2 => nullable r1 && nullable r2
  | Alt r1 r2 => nullable r1 || nullable r2
  | Plus r1 => nullable r1
  | Capture _ r1 => nullable r1
  end.

Definition isASCII (c : ascii) : bool := (nat_of_ascii c <? 128)%nat.

Definition isAlnum (c : ascii) : bool :=
  utf8.inRange 48 57 c || utf8.inRange 65 90 c || utf8.inRange 97 122 c.

Definition digitClass : node := Class [("0"%char, "9"%char)].

(** The characters that are read as themselves outside a class. *)
Definition isPlain (c : ascii) : bool :=
  isASCII c &&
  negb (existsb (Ascii.eqb c)
          (list_ascii_of_string "\.+*?()|[{^$")).

Fixpoint parseLoop (s : list ascii) (m : mode) (cur : frame) (stack : list frame)
    (ncap : nat) (lastRepeat : bool) : parsed :=
  match m with
  | Normal =>
    match s with
    | [] =>
      match stack with
      | [] => Parsed {| prog := closeFrame cur; NumSubexp := ncap |}
      | _ :: _ => SyntaxError "missing closing )"
      end
    | c :: s' =>
      let repeat (op : node -> node) :=
        if lastRepeat then SyntaxError "invalid nested repetition operator"
        else match s' with
        | "?"%char :: _ => NotModelled
        | _ =>
          match seq cur with
          | [] => SyntaxError "missing argument to repetition operator"
          | r :: rs =>
            if nullable r then NotModelled
            else parseLoop s' Normal
                   {| alts := alts cur; seq := op r :: rs; capIndex := capIndex cur |}
                   stack ncap true
          end
        end in
      if Ascii.eqb c "(" then
        match s' with
        | "?"%char :: _ => NotModelled
        | _ => parseLoop s' Normal {| alts := []; seq := []; capIndex := S ncap |}
                 (cur :: stack) (S ncap) false
        end
      else if Ascii.eqb c ")" then
        match stack with
        | [] => SyntaxError "unexpected )"
        | outer :: stack' =>
          parseLoop s' Normal (push (Capture (capIndex cur) (closeFrame cur)) outer)
            stack' ncap false
        end
      else if Ascii.eqb c "|" then
        parseLoop s' Normal
          {| alts := catOf (rev (seq cur)) :: alts cur; seq := []; capIndex := capIndex cur |}
          stack ncap false
      else if Ascii.eqb c "*" then repeat Star
      else if Ascii.eqb c "+" then repeat Plus
      else if Ascii.eqb c "?" then repeat Quest
      else if Ascii.eqb c "." then parseLoop s' Normal (push AnyNotNL cur) stack ncap false
      else if Ascii.eqb c "^" then parseLoop s' Normal (push BeginText cur) stack ncap false
      else if Ascii.eqb c "$" then parseLoop s' Normal (push EndText cur) stack ncap false
      else if Ascii.eqb c "{" then NotModelled
      else if Ascii.eqb c "[" then
        match s' with
        | "^"%char :: "]"%char :: _ => NotModelled
        | "^"%char :: s'' => parseLoop s'' (InClass true [] NoPending) cur stack ncap false
        | "]"%char :: _ => NotModelled
        | _ => parseLoop s' (InClass false [] NoPending) cur stack ncap false
        end
      else if Ascii.eqb c "\" then
        match s' with
        | [] => SyntaxError "trailing backslash at end of expression"
        | e :: s'' =>
          if Ascii.eqb e "d" then parseLoop s'' Normal (push digitClass cur) stack ncap false
          else if isASCII e && negb (isAlnum e)
          then parseLoop s'' Normal (push (Lit e) cur) stack ncap false
          else NotModelled
        end
      else if isASCII c then parseLoop s' Normal (push (Lit c) cur) stack ncap false
      else NotModelled
    end
  | InClass negated ranges pending =>
    match s with
    | [] => SyntaxError "missing closing ]"
    | c :: s' =>
      if Ascii.eqb c "]" then
        let ranges' :=
          match pending with
          | NoPending => ranges
          | One a => (a, a) :: ranges
          | Dash lo => ("-"%char, "-"%char) :: (lo, lo) :: ranges
          | DashAlone => ("-"%char, "-"%char) :: ranges
          end in
        parseLoop s' Normal
          (push ((if negated then NegClass else Class) (rev ranges')) cur) stack ncap false
      else if Ascii.eqb c "\" || Ascii.eqb c "[" || negb (isASCII c) then NotModelled
      else if Ascii.eqb c "-" then
        match pending with
        | One a => parseLoop s' (InClass negated ranges (Dash a)) cur stack ncap false
        | NoPending =>
          match ranges with
          | [] => NotModelled
          | _ => parseLoop s' (InClass negated ranges DashAlone) cur stack ncap false
          end
        | _ => NotModelled
        end
      else
        match pending with
        | NoPending => parseLoop s' (InClass negated ranges (One c)) cur stack ncap false
        | One a => parseLoop s' (InClass negated ((a, a) :: ranges) (One c)) cur stack ncap false
        | Dash lo =>
          if (nat_of_ascii lo <=? nat_of_ascii c)%nat
          then parseLoop s' (InClass negated ((lo, c) :: ranges) NoPending) cur stack ncap false
          else SyntaxError "invalid character class range"
        | DashAlone => NotModelled
        end
    end
  end.

(** Patterns longer than this are left out: Go's limits on nesting depth
    and program size cannot be reached below it. *)
Definition maxPattern : nat := 500.

Definition parse (pattern : string) : parsed :=
  if (maxPattern <? String.length pattern)%nat then NotModelled
  else parseLoop (list_ascii_of_string pattern) Normal
         {| alts := []; seq := []; capIndex := 0 |} [] 0 false.

(** [regexp.MustCompile]: panics when the pattern does not parse. *)
Definition MustCompile (str : string) : outcome Regexp :=
  match parse str with
  | Parsed re => Ret re
  | SyntaxError msg => Panic ("regexp: Compile: error parsing regexp: " +:+ msg)
  | NotModelled => Unmodelled
  end.

(** *** Matching *)

(** A thread of the match: the offset reached, the input left from
    there, and the bounds of the groups closed so far. *)
Record thread : Type :=
  { pos : nat; rest : list ascii; caps : list (option (nat * nat)) }.

Definition advance (n : nat) (t : thread) : thread :=
  {| pos := pos t + n; rest := drop n (rest t); caps := caps t |}.

Definition setCap (i a b : nat) (t : thread) : thread :=
  {| pos := pos t; rest := rest t; caps := <[i := Some (a, b)]> (caps t) |}.

Definition inClass (ranges : list (ascii * ascii)) (c : ascii) : bool :=
  existsb (fun r => (nat_of_ascii (fst r) <=? nat_of_ascii c)%nat
                    && (nat_of_ascii c <=? nat_of_ascii (snd r))%nat) ranges.

Definition newline : ascii := "010"%char.

(** Greedy iteration of [step], at most [n] times; an iteration that
    consumes nothing ends the thread. *)
Fixpoint starFrom (step : thread -> list thread) (n : nat) (t : thread) : list thread :=
  match n with
  | O => [t]
  | S n' =>
    flat_map (fun t' => if (pos t <? pos t')%nat then starFrom step n' t' else [])
      (step t) ++ [t]
  end.

(** All the ways [r] matches at [t], most preferred first. *)
Fixpoint run (r : node) (t : thread) : list thread :=
  match r with
  | Empty => [t]
  | Lit c =>
    match rest t with
    | c' :: _ => if Ascii.eqb c c' then [advance 1 t] else []
    | [] => []
    end
  | AnyNotNL =>
    match rest t with
    | c' :: _ =>
      if Ascii.eqb c' newline then [] else [advance (utf8.runeWidth (rest t)) t]
    | [] => []
    end
  | Class ranges =>
    match rest t with
    | c' :: _ => if inClass ranges c' then [advance 1 t] else []
    | [] => []
    end
  | NegClass ranges =>
    match rest t with
    | c' :: _ =>
      if inClass ranges c' then [] else [advance (utf8.runeWidth (rest t)) t]
    | [] => []
    end
  | BeginText => if (pos t =? 0)%nat then [t] else []
  | EndText => match rest t with [] => [t] | _ :: _ => [] end
  | Cat r1 r2 => flat_map (run r2) (run r1 t)
  | Alt r1 r2 => run r1 t ++ run r2 t
  | Star r1 => starFrom (run r1) (length (rest t)) t
  | Plus r1 =>
    flat_map (fun t' => starFrom (run r1) (length (rest t')) t') (run r1 t)
  | Quest r1 => run r1 t ++ [t]
  | Capture i r1 => map (fun t' => setCap i (pos t) (pos t') t') (run r1 t)
  end.

Definition startThread (re : Regexp) (input : list ascii) (p : nat) : thread :=
  {| pos := p; rest := drop p input; caps := replicate (S (NumSubexp re)) None |}.

(** The preferred match that starts exactly at offset [p]. *)
Definition matchAt (re : Regexp) (input : list ascii) (p : nat) : option thread :=
  head (run (Capture 0 (prog re)) (startThread re input p)).

(** The leftmost match starting at [p] or later; a start that fails
    moves on by one rune. *)
Fixpoint searchFrom (re : Regexp) (input : list ascii) (fuel : nat) (p : nat)
    : option thread :=
  match matchAt re input p with
  | Some t => Some t
  | None =>
    match fuel with
    | O => None
    | S fuel' =>
      if (p <? length input)%nat
      then searchFrom re input fuel' (p + utf8.runeWidth (drop p input))
      else None
    end
  end.

Definition doExecute (re : Regexp) (input : list ascii) (p : nat) : option thread :=
  searchFrom re input (length input) p.

Definition submatch (input : list ascii) (c : option (nat * nat)) : string :=
  match c with
  | Some (a, b) => string_of_list_ascii (take (b - a) (drop a input))
  | None => ""
  end.

Definition submatches (input : list ascii) (t : thread) : list string :=
  map (submatch input) (caps t).

(** [re.MatchString(s)]. *)
Definition MatchString (re : Regexp) (s : string) : bool :=
  match doExecute re (list_ascii_of_string s) 0 with
  | Some _ => true
  | None => false
  end.

(** [re.FindStringSubmatch(s)]; no match is the nil slice. *)
Definition FindStringSubmatch (re : Regexp) (s : string) : list string :=
  match doExecute re (list_ascii_of_string s) 0 with
  | Some t => submatches (list_ascii_of_string s) t
  | None => []
  end.

(** The loop of [allMatches]: successive matches that do not overlap;
    an empty match moves the search on by one rune and is dropped when
    it touches the match before it. *)
Fixpoint allMatches (re : Regexp) (input : list ascii) (fuel : nat) (p : nat)
    (prevMatchEnd : option nat) : list thread :=
  match fuel with
  | O => []
  | S fuel' =>
    if (length input <? p)%nat then []
    else match doExecute re input p with
    | None => []
    | Some t =>
      match caps t !! 0%nat with
      | Some (Some (m0, m1)) =>
        if (m1 =? p)%nat then
          let accept := negb (bool_decide (prevMatchEnd = Some m0)) in
          let width := utf8.runeWidth (drop p input) in
          let p' := if (0 <? width)%nat then (p + width)%nat else S (length input) in
          (if accept then [t] else []) ++ allMatches re input fuel' p' (Some m1)
        else t :: allMatches re input fuel' m1 (Some m1)
      | _ => []
      end
    end
  end.

(** [re.FindAllStringSubmatch(s, -1)]. *)
Definition FindAllStringSubmatch (re : Regexp) (s : string) : list (list string) :=
  let input := list_ascii_of_string s in
  map (submatches input) (allMatches re input (length input + 2) 0 None).

End regexp.

(** ** Package [internal/github]: the client of the hosting platform *)

Module github.

Record Repository : Type :=
  { OwnerLogin : string; RepoName : string; DefaultBranchRefName : string }.

Record Release : Type :=
  { TagName : string; Name : string; IsPrerelease : bool; CreatedAt : string }.

(** [Labels] holds the [Name] of each label. *)
Record PullRequest : Type :=
  { prNumber : Z; Body : string; prLabels : list string }.

Record Issue : Type :=
  { issueNumber : Z; Title : string; State : string; Labels : list string }.

(** The [io.Reader] that [CreateRelease] is given: the nil interface,
    or an interface that holds a [*bytes.Buffer]. The pointer it holds
    can be nil ([None]); the interface is not nil then. *)
Inductive Reader : Type :=
| NilReader
| BufferReader (buffer : option string).

Definition isNil (r : Reader) : bool :=
  match r with
  | NilReader => true
  | BufferReader _ => false
  end.

(** What the run time panics with when a nil pointer is followed. *)
Definition nilDereference : string :=
  "runtime error: invalid memory address or nil pointer dereference".

(** [io.ReadAll]: [Read] of a [*bytes.Buffer] follows the pointer. *)
Definition ReadAll (r : Reader) : outcome string :=
  match r with
  | BufferReader (Some content) => Ret content
  | BufferReader None => Panic nilDereference
  | NilReader => Panic nilDereference
  end.

(** The arguments of one call of [CreateRelease]. *)
Record ReleaseCall : Type :=
  { callRepo : string; callTag : string; callTitle : string; callDraft : bool;
    callPrerelease : bool; callTarget : string; callNotes : Reader }.

(** What the platform answers. Each field is the method of the same
    name, apart from [queryParent], the GraphQL query behind
    [GetParentIssueNumber]: its answer is the parent's number, if the
    issue has a parent, and from [Exec], the function [gh.Exec] where
    [CreateRelease] calls it: the error, if any, that running [gh] with
    these arguments ends with. *)
Record Client : Type :=
  { GetRepository : string -> result Repository;
    GetLatestCommit : string -> result string;
    GetCommitSHA : string -> string -> result string;
    CompareCommits : string -> string -> string -> result (list string);
    GetMergeBase : string -> string -> string -> result string;
    ListReleases : string -> Z -> bool -> result (list Release);
    ViewRelease : string -> string -> result Release;
    Exec : list string -> option Go.error;
    GetPullRequestsForCommit : string -> string -> result (list Z);
    GetPullRequest : string -> Z -> result PullRequest;
    GetIssue : string -> Z -> result Issue;
    queryParent : string -> string -> Z -> result (option Z) }.

(** [GetParentIssueNumber]: 0 stands for no parent. *)
Definition GetParentIssueNumber (c : Client) (repo : string) (issueNumber : Z)
    : result Z :=
  match gostrings.Split repo "/" with
  | [owner; repoName] =>
    match queryParent c owner repoName issueNumber with
    | Err e => Err ("failed to query parent issue: " +:+ e)
    | Ok (Some number) => Ok number
    | Ok None => Ok 0
    end
  | _ => Err ("invalid repo format: " +:+ repo)
  end.

(** The arguments that [CreateRelease] builds for [gh]. *)
Definition releaseArgs (call : ReleaseCall) : list string :=
  let args := ["release"; "create"; callTag call; "--repo"; callRepo call;
               "--title"; callTitle call; "--generate-notes"] in
  let args := if callDraft call then args ++ ["--draft"] else args in
  let args := if callPrerelease call then args ++ ["--prerelease"] else args in
  let args :=
    if negb (String.eqb (callTarget call) "") then args ++ ["--target"; callTarget call]
    else args in
  if negb (isNil (callNotes call)) then args ++ ["--notes-file"; "-"] else args.

(** The command line that [CreateRelease] gives to [sh] when it has
    notes. *)
Definition releasePipeline (quoted : string) (args : list string) : string :=
  "echo " +:+ quoted +:+ " | gh " +:+ gostrings.Join args " ".

(** [CreateRelease]. With a reader that is not the nil interface the
    notes are read, and [gh] is given a shell command that pipes them
    to a second [gh]. *)
Definition CreateRelease (c : Client) (call : ReleaseCall) : outcome (option Go.error) :=
  let args := releaseArgs call in
  if negb (isNil (callNotes call)) then
    notesBytes ← ReadAll (callNotes call);
    quoted ← strconv.Quote notesBytes;
    match Exec c ["sh"; "-c"; releasePipeline quoted args] with
    | Some e => Ret (Some ("failed to create release: " +:+ e))
    | None => Ret None
    end
  else
    match Exec c args with
    | Some e => Ret (Some ("failed to create release: " +:+ e))
    | None => Ret None
    end.

(** What a command finds around it: whether a client can be made, and
    the repository of the working directory. *)
Record Env : Type :=
  { NewClient : result Client; GetCurrentRepository : result string }.

End github.

(** ** The order of [range] over a map

    Go leaves it unspecified; a function that ranges over a map takes
    it as a parameter. An order is valid when it lists every entry of
    the map once. *)

Definition rangeOrder : Type := forall V : Type, gmap Z V -> list (Z * V).

Definition validOrder (ro : rangeOrder) : Prop :=
  forall (V : Type) (m : gmap Z V), ro V m ≡ₚ map_to_list m.

Definition keyOrder : rangeOrder := fun V m => map_to_list m.

(** ** Package [internal/module_release] *)

Module module_release.
Import github.

(** *** semver.go *)

Definition semverRegex : outcome regexp.Regexp :=
  regexp.MustCompile
    "^(0|[1-9][0-9]*)\.(0|[1-9][0-9]*)\.(0|[1-9][0-9]*)(-((0|[1-9][0-9]*|[0-9]*[a-zA-Z-][0-9a-zA-Z-]*)(\.(0|[1-9][0-9]*|[0-9]*[a-zA-Z-][0-9a-zA-Z-]*))*))?(\+([0-9a-zA-Z-]+(\.[0-9a-zA-Z-]+)*))?$".

Definition IsSemver (version : string) : outcome bool :=
  re ← semverRegex; Ret (regexp.MatchString re version).

Definition incrementTestingNumber (version : string) : outcome (result string) :=
  re ← regexp.MustCompile "^(.*-testing\.)(\d+)$";
  match regexp.FindStringSubmatch re version with
  | [_; prefix; digits] =>
    match strconv.Atoi digits with
    | Err e => Ret (Err ("failed to parse testing number: " +:+ e))
    | Ok num => Ret (Ok (prefix +:+ fmt.FormatInt (Go.wrap (num + 1))))
    end
  | _ => Ret (Err ("invalid testing version format: " +:+ version))
  end.

Definition incrementPatchAndAddTesting (version : string) : outcome (result string) :=
  re ← regexp.MustCompile "^(\d+)\.(\d+)\.(\d+)";
  match regexp.FindStringSubmatch re version with
  | [_; major; minor; patchDigits] =>
    match strconv.Atoi patchDigits with
    | Err e => Ret (Err ("failed to parse patch version: " +:+ e))
    | Ok patch =>
      Ret (Ok (major +:+ "." +:+ minor +:+ "." +:+ fmt.FormatInt (Go.wrap (patch + 1))
               +:+ "-testing.1"))
    end
  | _ => Ret (Err ("invalid semver format: " +:+ version))
  end.

(** *** repo.go *)

Definition ns8ModulePattern : outcome regexp.Regexp :=
  regexp.MustCompile "^[^/]+/ns8-".

Definition ValidateRepository (client : Client) (repo : string)
    : outcome (option Go.error) :=
  re ← ns8ModulePattern;
  if negb (regexp.MatchString re repo)
  then Ret (Some ("invalid NS8 module name: " +:+ repo +:+ " (must match owner/ns8-*)"))
  else match GetRepository client repo with
  | Err e => Ret (Some ("invalid repo: " +:+ repo +:+ " (" +:+ e +:+ ")"))
  | Ok _ => Ret None
  end.

Definition GetOrValidateRepo (env : Env) (client : Client) (repo : string)
    : outcome (result string) :=
  let validate (repo : string) : outcome (result string) :=
    err ← ValidateRepository client repo;
    match err with
    | Some e => Ret (Err e)
    | None => Ret (Ok repo)
    end in
  if String.eqb repo "" then
    match GetCurrentRepository env with
    | Err _ =>
      Ret (Err "could not determine the repo. Please provide the repo name using the --repo flag")
    | Ok currentRepo => validate currentRepo
    end
  else validate repo.

Record CommitInfo : Type := { SHA : string; Target : string }.

Definition GetOrValidateCommit (client : Client) (repo commitSHA : string)
    : result CommitInfo :=
  if String.eqb commitSHA "" then
    match GetLatestCommit client repo with
    | Err _ =>
      Err "could not determine the latest commit sha. Please provide the commit sha using the --release-refs flag"
    | Ok sha => Ok {| SHA := sha; Target := "" |}
    end
  else
    match GetRepository client repo with
    | Err e => Err ("failed to get repository info: " +:+ e)
    | Ok repoInfo =>
      let defaultBranch := DefaultBranchRefName repoInfo in
      match GetMergeBase client repo defaultBranch commitSHA with
      | Err e => Err ("failed to check if commit is on default branch: " +:+ e)
      | Ok mergeBase =>
        if negb (String.eqb mergeBase commitSHA)
        then Err ("the commit sha is not on the default branch: " +:+ defaultBranch)
        else Ok {| SHA := commitSHA; Target := commitSHA |}
      end
    end.

Definition GetLatestRelease (client : Client) (repo : string) (excludePreReleases : bool)
    : result Release :=
  match ListReleases client repo 1 excludePreReleases with
  | Err e => Err ("failed to list releases: " +:+ e)
  | Ok [] => Err "no releases found"
  | Ok (r :: _) => Ok r
  end.

Definition GetReleaseCommitSHA (client : Client) (repo tag : string) : result string :=
  match GetCommitSHA client repo ("tags/" +:+ tag) with
  | Err e => Err ("failed to get commit SHA for tag " +:+ tag +:+ ": " +:+ e)
  | Ok sha => Ok sha
  end.

Definition GetMainBranchSHA (client : Client) (repo : string) : result string :=
  match GetCommitSHA client repo "heads/main" with
  | Err e => Err ("failed to get main branch SHA: " +:+ e)
  | Ok sha => Ok sha
  end.

Definition errNoCommits : Go.error := "no commits found in the specified range".
Definition errNoPRs : Go.error :=
  "no pull requests found for the commits in the specified range".

(** The loop of [ScanForPRs] over the commits: a commit whose lookup
    fails is skipped. *)
Fixpoint collectPRs (client : Client) (repo : string) (commits : list string)
    (prMap : gmap Z bool) : gmap Z bool :=
  match commits with
  | [] => prMap
  | sha :: commits' =>
    match GetPullRequestsForCommit client repo sha with
    | Err _ => collectPRs client repo commits' prMap
    | Ok prs =>
      collectPRs client repo commits'
        (fold_left (fun m prNum => <[prNum := true]> m) prs prMap)
    end
  end.

Definition ScanForPRs (ro : rangeOrder) (client : Client) (repo startRef endRef : string)
    : result (list Z) :=
  match CompareCommits client repo startRef endRef with
  | Err e => Err ("failed to compare commits: " +:+ e)
  | Ok commits =>
    if (length commits =? 0)%nat then Err errNoCommits
    else
      let prMap := collectPRs client repo commits ∅ in
      if (size prMap =? 0)%nat then Err errNoPRs
      else Ok (map fst (ro bool prMap))
  end.

(** The numbers one pattern finds in the body, appended to
    [issueNumbers]. *)
Fixpoint collectNumbers (matches : list (list string)) (issueNumbers : list Z)
    : outcome (list Z) :=
  match matches with
  | [] => Ret issueNumbers
  | match_ :: matches' =>
    match match_ with
    | _ :: text :: _ =>
      scanned ← fmt.SscanfInt text;
      let num := default 0 scanned in
      if 0 <? num
      then collectNumbers matches' (issueNumbers ++ [num])
      else collectNumbers matches' issueNumbers
    | _ => collectNumbers matches' issueNumbers
    end
  end.

Fixpoint scanPatterns (patterns : list string) (prBody : string) (issueNumbers : list Z)
    : outcome (list Z) :=
  match patterns with
  | [] => Ret issueNumbers
  | pattern :: patterns' =>
    re ← regexp.MustCompile pattern;
    found ← collectNumbers (regexp.FindAllStringSubmatch re prBody) issueNumbers;
    scanPatterns patterns' prBody found
  end.

Definition GetLinkedIssues (prBody issuesRepo : string) : outcome (list Z) :=
  match gostrings.Split issuesRepo "/" with
  | [owner; repo] =>
    let patterns :=
      [ owner +:+ "/issues/(\d+)";
        owner +:+ "/" +:+ repo +:+ "#(\d+)";
        "https://github\.com/" +:+ owner +:+ "/" +:+ repo +:+ "/issues/(\d+)" ] in
    scanPatterns patterns prBody []
  | _ => Ret []
  end.

(** *** semver.go, continued: releases in order of recency *)

Definition NextTestingRelease (client : Client) (repo : string)
    : outcome (result string) :=
  match ListReleases client repo 1 false with
  | Err e => Ret (Err ("failed to get latest release: " +:+ e))
  | Ok [] => Ret (Err "no releases found")
  | Ok (latestRelease :: _) =>
    valid ← IsSemver (TagName latestRelease);
    if negb valid
    then Ret (Err ("invalid semver format for the latest release: "
                   +:+ TagName latestRelease))
    else match GetReleaseCommitSHA client repo (TagName latestRelease) with
    | Err e => Ret (Err ("failed to get release commit SHA: " +:+ e))
    | Ok latestSHA =>
      match GetMainBranchSHA client repo with
      | Err e => Ret (Err ("failed to get main branch SHA: " +:+ e))
      | Ok mainSHA =>
        if String.eqb latestSHA mainSHA
        then Ret (Err "the latest release tag is the HEAD of the main branch")
        else if IsPrerelease latestRelease
        then incrementTestingNumber (TagName latestRelease)
        else incrementPatchAndAddTesting (TagName latestRelease)
      end
    end
  end.

(** The index of the first release named [currentTag], counting from
    [i]. *)
Fixpoint findIndex (allReleases : list Release) (currentTag : string) (i : nat)
    : option nat :=
  match allReleases with
  | [] => None
  | r :: rest =>
    if String.eqb (TagName r) currentTag then Some i
    else findIndex rest currentTag (S i)
  end.

(** The first release that is not a pre-release. *)
Fixpoint firstStable (releases : list Release) : option Release :=
  match releases with
  | [] => None
  | r :: rest => if negb (IsPrerelease r) then Some r else firstStable rest
  end.

Definition errNoPrevious : Go.error := "no previous release found".
Definition errNoPreviousStable : Go.error := "no previous stable release found".

Definition FindPreviousRelease (client : Client) (repo currentTag : string)
    : outcome (result string) :=
  match ViewRelease client repo currentTag with
  | Err e => Ret (Err ("failed to view current release: " +:+ e))
  | Ok currentRelease =>
    match ListReleases client repo 1000 false with
    | Err e => Ret (Err ("failed to list releases: " +:+ e))
    | Ok allReleases =>
      match findIndex allReleases currentTag 0 with
      | None => Ret (Err "current release not found in release list")
      | Some currentIndex =>
        if (currentIndex =? length allReleases - 1)%nat
        then Ret (Err errNoPrevious)
        else if IsPrerelease currentRelease then
          match allReleases !! S currentIndex with
          | Some r => Ret (Ok (TagName r))
          | None => Panic "index out of range"
          end
        else
          match firstStable (drop (S currentIndex) allReleases) with
          | Some r => Ret (Ok (TagName r))
          | None => Ret (Err errNoPreviousStable)
          end
      end
    end
  end.

(** [IsPrerelease(version)]: the version has a hyphen. *)
Definition IsPrereleaseVersion (version : string) : bool :=
  gostrings.Contains version "-".

(** *** display.go *)

Definition EmojiOpenIssue : string := "🟢".
Definition EmojiClosedIssue : string := "🟣".
Definition EmojiInProgress : string := "🚧".
Definition EmojiTesting : string := "🔨".
Definition EmojiVerified : string := "✅".

Record IssueInfo : Type :=
  { Number : Z;
    Status : string;
    Progress : string;
    Labels : string;
    RefCount : Z;
    ParentNumber : Z;
    Children : list Z }.

(** [Issues] maps a number to a pointer to its [IssueInfo]. The only
    pointers the code keeps are the ones in the map, so the map holds
    the records themselves and an update through a pointer is an update
    of the entry. *)
Record CheckSummary : Type :=
  { UnlinkedPRs : list string;
    TranslationPRs : list string;
    OrphanCommits : list string;
    Issues : gmap Z IssueInfo;
    IssuesRepo : string }.

Definition NewCheckSummary (issuesRepo : string) : CheckSummary :=
  {| UnlinkedPRs := []; TranslationPRs := []; OrphanCommits := [];
     Issues := ∅; IssuesRepo := issuesRepo |}.

Definition setIssues (cs : CheckSummary) (issues : gmap Z IssueInfo) : CheckSummary :=
  {| UnlinkedPRs := UnlinkedPRs cs; TranslationPRs := TranslationPRs cs;
     OrphanCommits := OrphanCommits cs; Issues := issues; IssuesRepo := IssuesRepo cs |}.

(** [info.RefCount++]. *)
Definition incRefCount (info : IssueInfo) : IssueInfo :=
  {| Number := Number info; Status := Status info; Progress := Progress info;
     Labels := Labels info; RefCount := Go.wrap (RefCount info + 1);
     ParentNumber := ParentNumber info; Children := Children info |}.

(** [info.Children = append(info.Children, child)]. *)
Definition addChild (info : IssueInfo) (child : Z) : IssueInfo :=
  {| Number := Number info; Status := Status info; Progress := Progress info;
     Labels := Labels info; RefCount := RefCount info;
     ParentNumber := ParentNumber info; Children := Children info ++ [child] |}.

(** [cs.Issues[parentNum].Children = append(cs.Issues[parentNum].Children,
    issueNumber)]: an absent entry is a nil pointer. *)
Definition appendChild (cs : CheckSummary) (parentNum issueNumber : Z)
    : outcome CheckSummary :=
  match Issues cs !! parentNum with
  | Some parent => Ret (setIssues cs (<[parentNum := addChild parent issueNumber]> (Issues cs)))
  | None => Panic "invalid memory address or nil pointer dereference"
  end.

(** The loop over the labels of an issue: the names kept for display,
    and whether [verified] and [testing] were seen. *)
Fixpoint scanLabels (labels : list string) (labelNames : list string)
    (hasVerified hasTesting : bool) : list string * bool * bool :=
  match labels with
  | [] => (labelNames, hasVerified, hasTesting)
  | name :: labels' =>
    if String.eqb name "verified" then scanLabels labels' labelNames true hasTesting
    else if String.eqb name "testing" then scanLabels labels' labelNames hasVerified true
    else scanLabels labels' (labelNames ++ [name]) hasVerified hasTesting
  end.

(** The [IssueInfo] made from a fetched issue, before its parent is
    looked up. *)
Definition newIssueInfo (issueNumber : Z) (issue : Issue) : IssueInfo :=
  let '(labelNames, hasVerified, hasTesting) :=
    scanLabels (github.Labels issue) [] false false in
  {| Number := issueNumber;
     Status := if String.eqb (State issue) "CLOSED" || String.eqb (State issue) "closed"
               then EmojiClosedIssue else EmojiOpenIssue;
     Progress := if hasVerified then EmojiVerified
                 else if hasTesting then EmojiTesting
                 else EmojiInProgress;
     Labels := gostrings.Join labelNames " ";
     RefCount := 1;
     ParentNumber := 0;
     Children := [] |}.

Definition setParentNumber (info : IssueInfo) (parentNum : Z) : IssueInfo :=
  {| Number := Number info; Status := Status info; Progress := Progress info;
     Labels := Labels info; RefCount := RefCount info;
     ParentNumber := parentNum; Children := Children info |}.

Definition storeIssue (cs : CheckSummary) (issueNumber : Z) (info : IssueInfo)
    : CheckSummary :=
  setIssues cs (<[issueNumber := info]> (Issues cs)).

(** [ProcessIssue]: the summary after the call and the error returned.
    Each call, the recursive one for the parent too, takes one unit of
    [fuel]. *)
Fixpoint ProcessIssue (fuel : nat) (client : Client) (cs : CheckSummary) (issueNumber : Z)
    : outcome (CheckSummary * option Go.error) :=
  match fuel with
  | O => OutOfFuel
  | S fuel' =>
    match Issues cs !! issueNumber with
    | Some info =>
      Ret (setIssues cs (<[issueNumber := incRefCount info]> (Issues cs)), None)
    | None =>
      match GetIssue client (IssuesRepo cs) issueNumber with
      | Err e =>
        Ret (cs, Some ("failed to get issue " +:+ fmt.FormatInt issueNumber +:+ ": " +:+ e))
      | Ok issue =>
        let info := newIssueInfo issueNumber issue in
        match GetParentIssueNumber client (IssuesRepo cs) issueNumber with
        | Ok parentNum =>
          if 0 <? parentNum then
            let info := setParentNumber info parentNum in
            match Issues cs !! parentNum with
            | None =>
              '(cs1, err) ← ProcessIssue fuel' client cs parentNum;
              match err with
              | None =>
                cs2 ← appendChild cs1 parentNum issueNumber;
                Ret (storeIssue cs2 issueNumber info, None)
              | Some _ => Ret (storeIssue cs1 issueNumber info, None)
              end
            | Some _ =>
              cs2 ← appendChild cs parentNum issueNumber;
              Ret (storeIssue cs2 issueNumber info, None)
            end
          else Ret (storeIssue cs issueNumber info, None)
        | Err _ => Ret (storeIssue cs issueNumber info, None)
        end
      end
    end
  end.

(** The inner loop of the verdict: the children of one issue. A child
    that is not verified clears [allVerified] and ends this loop only. *)
Fixpoint checkChildren (cs : CheckSummary) (children : list Z) (allVerified : bool)
    : outcome bool :=
  match children with
  | [] => Ret allVerified
  | childNum :: children' =>
    match Issues cs !! childNum with
    | None => Panic "invalid memory address or nil pointer dereference"
    | Some child =>
      if negb (String.eqb (Progress child) EmojiVerified) then Ret false
      else checkChildren cs children' allVerified
    end
  end.

(** The outer loop of the verdict, over the issues in the order
    [range] gives them. An issue without children that is not verified
    ends the loop. *)
Fixpoint checkIssues (cs : CheckSummary) (infos : list IssueInfo) (allVerified : bool)
    : outcome bool :=
  match infos with
  | [] => Ret allVerified
  | info :: infos' =>
    if (0 <? length (Children info))%nat then
      allVerified' ← checkChildren cs (Children info) allVerified;
      checkIssues cs infos' allVerified'
    else if negb (String.eqb (Progress info) EmojiVerified) then Ret false
    else checkIssues cs infos' allVerified
  end.

(** [Display], reduced to what it decides: whether the line
    "All checks passed! Ready to release." is printed. *)
Definition Display (ro : rangeOrder) (cs : CheckSummary) : outcome bool :=
  allVerified ← checkIssues cs (map snd (ro IssueInfo (Issues cs))) true;
  Ret ((length (UnlinkedPRs cs) =? 0)%nat && allVerified).

End module_release.

(** ** Package [cmd/module_release]: the commands *)

Module cmd.
Import github module_release.

Definition nl : string := String "010"%char "".

(** *** check.go *)

(** What a run of [check] ends with when it returns no error: one of
    the two short messages, or the summary it displays, with the map of
    the commits found in pull requests and whether the line "All checks
    passed" was printed. *)
Inductive checkReport : Type :=
| NothingToRelease
| NoCommitsFound
| Reported (summary : CheckSummary) (commitsInPRs : gmap string bool) (ready : bool).

(** "Mark all commits that belong to PRs". *)
Fixpoint markCommits (client : Client) (repo : string) (commits : list string)
    (commitsInPRs : gmap string bool) : gmap string bool :=
  match commits with
  | [] => commitsInPRs
  | sha :: commits' =>
    match GetPullRequestsForCommit client repo sha with
    | Ok prs =>
      if (0 <? length prs)%nat
      then markCommits client repo commits' (<[sha := true]> commitsInPRs)
      else markCommits client repo commits' commitsInPRs
    | Err _ => markCommits client repo commits' commitsInPRs
    end
  end.

(** "Process linked issues": a failure is a warning on standard error. *)
Fixpoint processLinked (fuel : nat) (client : Client) (linkedIssues : list Z)
    (summary : CheckSummary) : outcome CheckSummary :=
  match linkedIssues with
  | [] => Ret summary
  | issueNum :: linkedIssues' =>
    '(summary', _) ← ProcessIssue fuel client summary issueNum;
    processLinked fuel client linkedIssues' summary'
  end.

Definition addUnlinked (cs : CheckSummary) (prURL : string) : CheckSummary :=
  {| UnlinkedPRs := UnlinkedPRs cs ++ [prURL]; TranslationPRs := TranslationPRs cs;
     OrphanCommits := OrphanCommits cs; Issues := Issues cs; IssuesRepo := IssuesRepo cs |}.

Definition addTranslation (cs : CheckSummary) (prURL : string) : CheckSummary :=
  {| UnlinkedPRs := UnlinkedPRs cs; TranslationPRs := TranslationPRs cs ++ [prURL];
     OrphanCommits := OrphanCommits cs; Issues := Issues cs; IssuesRepo := IssuesRepo cs |}.

Definition addOrphan (cs : CheckSummary) (commitURL : string) : CheckSummary :=
  {| UnlinkedPRs := UnlinkedPRs cs; TranslationPRs := TranslationPRs cs;
     OrphanCommits := OrphanCommits cs ++ [commitURL]; Issues := Issues cs;
     IssuesRepo := IssuesRepo cs |}.

(** "Process each PR". *)
Fixpoint processPRs (fuel : nat) (client : Client) (repo issuesRepoFlag : string)
    (prNumbers : list Z) (summary : CheckSummary) : outcome CheckSummary :=
  match prNumbers with
  | [] => Ret summary
  | prNum :: prNumbers' =>
    match GetPullRequest client repo prNum with
    | Err _ => processPRs fuel client repo issuesRepoFlag prNumbers' summary
    | Ok pr =>
      linkedIssues ← GetLinkedIssues (Body pr) issuesRepoFlag;
      if (0 <? length linkedIssues)%nat then
        summary' ← processLinked fuel client linkedIssues summary;
        processPRs fuel client repo issuesRepoFlag prNumbers' summary'
      else
        let isTranslation := existsb (fun name => String.eqb name "translation") (prLabels pr) in
        let prURL := "https://github.com/" +:+ repo +:+ "/pull/" +:+ fmt.FormatInt prNum in
        processPRs fuel client repo issuesRepoFlag prNumbers'
          (if isTranslation then addTranslation summary prURL
           else addUnlinked summary prURL)
    end
  end.

Definition commitURL (repo sha : string) : string :=
  "https://github.com/" +:+ repo +:+ "/commit/" +:+ sha.

(** "Find orphan commits (not in any PR)". *)
Fixpoint findOrphans (repo : string) (commits : list string)
    (commitsInPRs : gmap string bool) (summary : CheckSummary) : CheckSummary :=
  match commits with
  | [] => summary
  | sha :: commits' =>
    if negb (default false (commitsInPRs !! sha))
    then findOrphans repo commits' commitsInPRs (addOrphan summary (commitURL repo sha))
    else findOrphans repo commits' commitsInPRs summary
  end.

(** [runCheck]. [fuel] bounds each call of [ProcessIssue]. *)
Definition runCheck (fuel : nat) (ro : rangeOrder) (env : Env)
    (repoFlag issuesRepoFlag : string) : outcome (result checkReport) :=
  match NewClient env with
  | Err e => Ret (Err ("failed to create GitHub client: " +:+ e))
  | Ok client =>
    validated ← GetOrValidateRepo env client repoFlag;
    match validated with
    | Err e => Ret (Err e)
    | Ok repo =>
      match GetLatestRelease client repo true with
      | Err _ => Ret (Err "no releases found")
      | Ok latestRelease =>
        match GetReleaseCommitSHA client repo (TagName latestRelease) with
        | Err e => Ret (Err ("failed to get release commit SHA: " +:+ e))
        | Ok latestSHA =>
          match GetMainBranchSHA client repo with
          | Err e => Ret (Err ("failed to get main branch SHA: " +:+ e))
          | Ok mainSHA =>
            if String.eqb latestSHA mainSHA then Ret (Ok NothingToRelease)
            else
              let summary := NewCheckSummary issuesRepoFlag in
              match CompareCommits client repo (TagName latestRelease) "main" with
              | Err e => Ret (Err ("failed to compare commits: " +:+ e))
              | Ok commits =>
                if (length commits =? 0)%nat then Ret (Ok NoCommitsFound)
                else
                  match ScanForPRs ro client repo (TagName latestRelease) "main" with
                  | Err e => Ret (Err ("error processing PRs: " +:+ e))
                  | Ok prNumbers =>
                    let commitsInPRs := markCommits client repo commits ∅ in
                    summary ← processPRs fuel client repo issuesRepoFlag prNumbers summary;
                    let summary := findOrphans repo commits commitsInPRs summary in
                    ready ← Display ro summary;
                    Ret (Ok (Reported summary commitsInPRs ready))
                  end
              end
          end
        end
      end
    end
  end.

(** *** create.go *)

Record createFlags : Type :=
  { repoFlag : string;
    issuesRepoFlag : string;
    releaseRefsFlag : string;
    testingFlag : bool;
    draftFlag : bool;
    withLinkedIssuesFlag : bool }.

(** "Collect linked issues": the title of an issue is fetched the first
    time its number is seen. *)
Fixpoint collectTitles (client : Client) (issuesRepo : string) (linkedIssues : list Z)
    (issueMap : gmap Z string) : gmap Z string :=
  match linkedIssues with
  | [] => issueMap
  | issueNum :: linkedIssues' =>
    match issueMap !! issueNum with
    | Some _ => collectTitles client issuesRepo linkedIssues' issueMap
    | None =>
      match GetIssue client issuesRepo issueNum with
      | Ok issue =>
        collectTitles client issuesRepo linkedIssues' (<[issueNum := Title issue]> issueMap)
      | Err _ => collectTitles client issuesRepo linkedIssues' issueMap
      end
    end
  end.

Fixpoint collectLinked (client : Client) (repo issuesRepo : string) (prNumbers : list Z)
    (issueMap : gmap Z string) : outcome (gmap Z string) :=
  match prNumbers with
  | [] => Ret issueMap
  | prNum :: prNumbers' =>
    match GetPullRequest client repo prNum with
    | Err _ => collectLinked client repo issuesRepo prNumbers' issueMap
    | Ok pr =>
      linkedIssues ← GetLinkedIssues (Body pr) issuesRepo;
      collectLinked client repo issuesRepo prNumbers'
        (collectTitles client issuesRepo linkedIssues issueMap)
    end
  end.

Definition noteLine (issuesRepo : string) (entry : Z * string) : string :=
  "- [" +:+ issuesRepo +:+ "#" +:+ fmt.FormatInt (fst entry)
  +:+ "](https://github.com/" +:+ issuesRepo +:+ "/issues/" +:+ fmt.FormatInt (fst entry)
  +:+ "): " +:+ snd entry +:+ nl.

Definition generateLinkedIssuesNotes (ro : rangeOrder) (client : Client)
    (repo previousRelease issuesRepo : string) : outcome (result string) :=
  match ScanForPRs ro client repo previousRelease "main" with
  | Err e => Ret (Err e)
  | Ok prNumbers =>
    issueMap ← collectLinked client repo issuesRepo prNumbers ∅;
    if (size issueMap =? 0)%nat then Ret (Ok "")
    else Ret (Ok (("## Linked Issues" +:+ nl)
                  +:+ String.concat "" (map (noteLine issuesRepo) (ro string issueMap))))
  end.

(** What a run of [create] that returns ends with: an error before
    [CreateRelease] is called, or the call of [CreateRelease] it made
    and the error, if any, that the run returns after it. *)
Inductive createReport : Type :=
| Rejected (e : Go.error)
| Requested (call : ReleaseCall) (answer : option Go.error).

(** "Create the release": the call and what follows it. *)
Definition requestRelease (client : Client) (call : ReleaseCall) : outcome createReport :=
  created ← CreateRelease client call;
  match created with
  | Some e => Ret (Requested call (Some ("failed to create release: " +:+ e)))
  | None => Ret (Requested call None)
  end.

(** The body of [runCreate] from "Determine if this is a prerelease"
    on. The two versions of the command differ in where [releaseName]
    comes from and in the words of one error ([missingName]).
    [notesReader] is a [*bytes.Buffer], nil ([None]) until notes are
    put in it; [CreateRelease] gets it as an [io.Reader]. *)
Definition createRelease (ro : rangeOrder) (client : Client) (flags : createFlags)
    (repo : string) (commitInfo : CommitInfo) (releaseName missingName : string)
    : outcome createReport :=
  let isPrerelease := testingFlag flags || gostrings.Contains releaseName "-" in
  generated ←
    (if testingFlag flags && String.eqb releaseName ""
     then NextTestingRelease client repo
     else Ret (Ok releaseName));
  match generated with
  | Err e => Ret (Rejected ("failed to generate testing release name: " +:+ e))
  | Ok releaseName =>
    if String.eqb releaseName "" && negb (testingFlag flags)
    then Ret (Rejected missingName)
    else
      valid ← (if negb (String.eqb releaseName "") then IsSemver releaseName else Ret true);
      if negb valid
      then Ret (Rejected ("invalid semver format for release name: " +:+ releaseName))
      else
        let previousRelease :=
          match GetLatestRelease client repo (negb isPrerelease) with
          | Ok release => TagName release
          | Err _ => ""
          end in
        notesReader ←
          (if withLinkedIssuesFlag flags && negb (String.eqb previousRelease "")
           then
             notes ← generateLinkedIssuesNotes ro client repo previousRelease
                       (issuesRepoFlag flags);
             match notes with
             | Ok text => Ret (if negb (String.eqb text "") then Some text else None)
             | Err _ => Ret None
             end
           else Ret None);
        requestRelease client
          {| callRepo := repo; callTag := releaseName; callTitle := releaseName;
             callDraft := draftFlag flags; callPrerelease := isPrerelease;
             callTarget := Target commitInfo; callNotes := BufferReader notesReader |}
  end.

(** The part of [runCreate] before it: client, repository, commit. *)
Definition createSetup (env : Env) (flags : createFlags)
    (k : Client -> string -> CommitInfo -> outcome createReport) : outcome createReport :=
  match NewClient env with
  | Err e => Ret (Rejected ("failed to create GitHub client: " +:+ e))
  | Ok client =>
    validated ← GetOrValidateRepo env client (repoFlag flags);
    match validated with
    | Err e => Ret (Rejected e)
    | Ok repo =>
      match GetOrValidateCommit client repo (releaseRefsFlag flags) with
      | Err e => Ret (Rejected e)
      | Ok commitInfo => k client repo commitInfo
      end
    end
  end.

(** [runCreate] of the command that takes the version as its argument
    ([create [VERSION]]). *)
Definition runCreate (ro : rangeOrder) (env : Env) (flags : createFlags)
    (args : list string) : outcome createReport :=
  createSetup env flags (fun client repo commitInfo =>
    let releaseName := match args with arg :: _ => arg | [] => "" end in
    createRelease ro client flags repo commitInfo releaseName
      "please provide the release name as an argument").

(** [runCreate] of the command that takes the version from the flag
    [--release-name]. *)
Definition runCreateWithFlag (ro : rangeOrder) (env : Env) (flags : createFlags)
    (releaseNameFlag : string) : outcome createReport :=
  createSetup env flags (fun client repo commitInfo =>
    createRelease ro client flags repo commitInfo releaseNameFlag
      "please provide the release name using the --release-name flag").

End cmd.


(** * Properties *)

(** ** The previous release ([FindPreviousRelease]) *)

Section PreviousRelease.
Import github module_release.

Lemma findIndex_first (before after : list Release) (cur : Release) (tag : string) (i : nat) :
  Forall (fun r => TagName r <> tag) before ->
  TagName cur = tag ->
  findIndex (before ++ cur :: after) tag i = Some (i + length before)%nat.
Proof.
  intros Hbefore Hcur. revert i.
  induction Hbefore as [|r before Hr _ IH]; intros i; simpl.
  - rewrite (proj2 (String.eqb_eq _ _) Hcur). f_equal. lia.
  - rewrite (proj2 (String.eqb_neq _ _) Hr), IH. f_equal. lia.
Qed.

Lemma firstStable_skips (pres older : list Release) (s : Release) :
  Forall (fun r => IsPrerelease r = true) pres ->
  IsPrerelease s = false ->
  firstStable (pres ++ s :: older) = Some s.
Proof.
  intros Hpres Hs. induction Hpres as [|r pres Hr _ IH]; simpl.
  - now rewrite Hs.
  - now rewrite Hr.
Qed.

Lemma firstStable_none (releases : list Release) :
  Forall (fun r => IsPrerelease r = true) releases ->
  firstStable releases = None.
Proof.
  induction 1 as [|r releases Hr _ IH]; simpl; [reflexivity|]. now rewrite Hr.
Qed.

(** C9. In a list of releases ordered by recency in which [currentTag]
    first occurs after [before], with the older releases [after]: for a
    stable current release the result is the first stable release of
    [after], whatever pre-releases stand before it, and an error when
    [after] holds no stable release; for a pre-release it is the
    release that follows at once, stable or not, and an error when
    [after] is empty. *)
Theorem FindPreviousRelease_by_recency (client : Client) (repo currentTag : string)
    (currentRelease cur : Release) (before after : list Release) :
  ViewRelease client repo currentTag = Ok currentRelease ->
  ListReleases client repo 1000 false = Ok (before ++ cur :: after) ->
  Forall (fun r => TagName r <> currentTag) before ->
  TagName cur = currentTag ->
  (IsPrerelease currentRelease = false ->
     (forall pres s older,
        after = pres ++ s :: older ->
        Forall (fun r => IsPrerelease r = true) pres ->
        IsPrerelease s = false ->
        FindPreviousRelease client repo currentTag = Ret (Ok (TagName s)))
     /\ (Forall (fun r => IsPrerelease r = true) after ->
         exists e, FindPreviousRelease client repo currentTag = Ret (Err e)))
  /\ (IsPrerelease currentRelease = true ->
     (forall r older,
        after = r :: older ->
        FindPreviousRelease client repo currentTag = Ret (Ok (TagName r)))
     /\ (after = [] ->
         FindPreviousRelease client repo currentTag = Ret (Err errNoPrevious))).
Proof.
  intros Hview Hlist Hbefore Hcur.
  unfold FindPreviousRelease. rewrite Hview, Hlist.
  rewrite (findIndex_first before after cur currentTag 0 Hbefore Hcur).
  rewrite length_app. simpl length.
  assert (Hdrop : drop (S (0 + length before)) (before ++ cur :: after) = after).
  { replace (S (0 + length before)) with (length (before ++ [cur])).
    - rewrite (cons_middle cur before after), app_assoc. apply drop_app_length.
    - rewrite length_app. simpl. lia. }
  assert (Hnext : (before ++ cur :: after) !! S (0 + length before) = after !! 0%nat).
  { rewrite <- Hdrop at 2. rewrite lookup_drop. f_equal. lia. }
  split; intros Hpre; rewrite Hpre; simpl negb; cbv iota.
  - split.
    + intros pres s older -> Hpres Hs.
      destruct (Nat.eqb_spec (0 + length before)
                  (length before + S (length (pres ++ s :: older)) - 1)) as [E|_].
      { rewrite length_app in E. simpl in E. lia. }
      rewrite Hdrop. now rewrite (firstStable_skips pres older s Hpres Hs).
    + intros Hall.
      destruct (Nat.eqb (0 + length before) (length before + S (length after) - 1)).
      { eexists; reflexivity. }
      rewrite Hdrop, (firstStable_none after Hall). eexists; reflexivity.
  - split.
    + intros r older ->.
      destruct (Nat.eqb_spec (0 + length before)
                  (length before + S (length (r :: older)) - 1)) as [E|_].
      { simpl in E. lia. }
      rewrite Hnext. reflexivity.
    + intros ->.
      destruct (Nat.eqb_spec (0 + length before) (length before + S (length (@nil Release)) - 1))
        as [_|E]; [reflexivity|]. simpl in E. lia.
Qed.

End PreviousRelease.

(** A platform that answers nothing: the starting point of the example
    clients. *)
Definition offline : github.Client :=
  {| github.GetRepository := fun _ => Err "offline";
     github.GetLatestCommit := fun _ => Err "offline";
     github.GetCommitSHA := fun _ _ => Err "offline";
     github.CompareCommits := fun _ _ _ => Err "offline";
     github.GetMergeBase := fun _ _ _ => Err "offline";
     github.ListReleases := fun _ _ _ => Err "offline";
     github.ViewRelease := fun _ _ => Err "offline";
     github.Exec := fun _ => Some "offline";
     github.GetPullRequestsForCommit := fun _ _ => Err "offline";
     github.GetPullRequest := fun _ _ => Err "offline";
     github.GetIssue := fun _ _ => Err "offline";
     github.queryParent := fun _ _ _ => Err "offline" |}.

Section PreviousReleaseExample.
Import github module_release.

Definition release (tag : string) (pre : bool) (created : string) : Release :=
  {| TagName := tag; Name := tag; IsPrerelease := pre; CreatedAt := created |}.

(** Four releases, the most recent first. *)
Definition fourReleases : list Release :=
  [ release "1.0.1" false "2024-01-04"; release "1.0.1-testing.2" true "2024-01-03";
    release "1.0.1-testing.1" true "2024-01-02"; release "1.0.0" false "2024-01-01" ].

Definition releaseClient : Client :=
  {| GetRepository := GetRepository offline;
     GetLatestCommit := GetLatestCommit offline;
     GetCommitSHA := GetCommitSHA offline;
     CompareCommits := CompareCommits offline;
     GetMergeBase := GetMergeBase offline;
     ListReleases := fun _ _ _ => Ok fourReleases;
     ViewRelease := fun _ tag =>
       match find (fun r => String.eqb (TagName r) tag) fourReleases with
       | Some r => Ok r
       | None => Err "release not found"
       end;
     Exec := Exec offline;
     GetPullRequestsForCommit := GetPullRequestsForCommit offline;
     GetPullRequest := GetPullRequest offline;
     GetIssue := GetIssue offline;
     queryParent := queryParent offline |}.

Lemma FindPreviousRelease_by_recency_witness :
  FindPreviousRelease releaseClient "NethServer/ns8-mail" "1.0.1" = Ret (Ok "1.0.0")
  /\ FindPreviousRelease releaseClient "NethServer/ns8-mail" "1.0.1-testing.2"
     = Ret (Ok "1.0.1-testing.1").
Proof.
  split.
  - refine (proj1 (proj1 (FindPreviousRelease_by_recency releaseClient _ "1.0.1"
              (release "1.0.1" false "2024-01-04") (release "1.0.1" false "2024-01-04")
              [] (tl fourReleases) eq_refl eq_refl _ eq_refl) eq_refl)
              [release "1.0.1-testing.2" true "2024-01-03";
               release "1.0.1-testing.1" true "2024-01-02"]
              (release "1.0.0" false "2024-01-01") [] eq_refl _ eq_refl);
      repeat constructor.
  - refine (proj1 (proj2 (FindPreviousRelease_by_recency releaseClient _ "1.0.1-testing.2"
              (release "1.0.1-testing.2" true "2024-01-03")
              (release "1.0.1-testing.2" true "2024-01-03")
              [release "1.0.1" false "2024-01-04"] (tl (tl fourReleases))
              eq_refl eq_refl _ eq_refl) eq_refl) _ _ eq_refl).
    repeat constructor. discriminate.
Defined.

End PreviousReleaseExample.

(** ** The prerelease flag of [create] *)

(** Case analysis on the scrutinee of the [match] at the head of the
    left side of [H], and nothing deeper; an equation between two
    results that differ is discharged. *)
Ltac head_match H :=
  lazymatch type of H with
  | match ?x with _ => _ end = _ => destruct x eqn:?; cbv beta iota in H
  end.

Ltac clash H :=
  lazymatch type of H with
  | Panic _ = _ => discriminate H
  | Unmodelled = _ => discriminate H
  | OutOfFuel = _ => discriminate H
  | Ret (Err _) = Ret (Ok _) => discriminate H
  | Ret (cmd.Rejected _) = Ret (cmd.Requested _ _) => discriminate H
  | _ => idtac
  end.

Section CreatePrerelease.
Import github module_release cmd.

(** A run that comes back from "Create the release" reports the call
    it made, and [CreateRelease] has returned. *)
Lemma requestRelease_returns (client : Client) (made call : ReleaseCall)
    (answer : option Go.error) :
  requestRelease client made = Ret (Requested call answer) ->
  made = call
  /\ exists created,
       CreateRelease client call = Ret created
       /\ answer = match created with
                   | Some e => Some ("failed to create release: " +:+ e)
                   | None => None
                   end.
Proof.
  unfold requestRelease, mbind, outcome_bind, Go.bind. intros H.
  destruct (CreateRelease client made) as [[e|]| | |] eqn:Hcreate; try discriminate H;
    injection H as <- <-; (split; [reflexivity|]); eexists;
    (split; [exact Hcreate|reflexivity]).
Qed.


End CreatePrerelease.

Section CreatePrereleaseClaim.
Import github module_release cmd.


(** A module with one stable release and one commit since, which came
    in through pull request 7; the pull request links issue 42. *)
Definition mailClient : Client :=
  {| GetRepository := fun repo =>
       Ok {| OwnerLogin := "NethServer"; RepoName := "ns8-mail";
             DefaultBranchRefName := "main" |};
     GetLatestCommit := fun _ => Ok "3f2a9c1";
     GetCommitSHA := GetCommitSHA offline;
     CompareCommits := fun _ _ _ => Ok ["3f2a9c1"];
     GetMergeBase := GetMergeBase offline;
     ListReleases := fun _ _ _ => Ok [release "0.9.0" false "2024-01-01"];
     ViewRelease := ViewRelease offline;
     Exec := fun _ => None;
     GetPullRequestsForCommit := fun _ _ => Ok [7];
     GetPullRequest := fun _ number =>
       Ok {| prNumber := number; Body := "Fixes NethServer/dev#42"; prLabels := [] |};
     GetIssue := fun _ number =>
       Ok {| issueNumber := number; Title := "Mail queue stalls"; State := "closed";
             github.Labels := [] |};
     queryParent := queryParent offline |}.

Definition mailEnv : Env :=
  {| NewClient := Ok mailClient; GetCurrentRepository := Err "not a repository" |}.


Definition linkedFlags : createFlags :=
  {| repoFlag := "NethServer/ns8-mail"; issuesRepoFlag := "NethServer/dev";
     releaseRefsFlag := ""; testingFlag := false; draftFlag := false;
     withLinkedIssuesFlag := true |}.

Definition mailNotes : string :=
  "## Linked Issues" +:+ cmd.nl
  +:+ "- [NethServer/dev#42](https://github.com/NethServer/dev/issues/42): Mail queue stalls"
  +:+ cmd.nl.

Definition namedCall (tag : string) (prerelease : bool) : ReleaseCall :=
  {| callRepo := "NethServer/ns8-mail"; callTag := tag; callTitle := tag;
     callDraft := false; callPrerelease := prerelease; callTarget := "";
     callNotes := BufferReader (Some mailNotes) |}.

Definition candidateCall : ReleaseCall := namedCall "1.0.0-rc.1" true.

Lemma mailEnv_candidate :
  runCreate keyOrder mailEnv linkedFlags ["1.0.0-rc.1"] = Ret (Requested candidateCall None).
Proof. vm_compute. reflexivity. Qed.


End CreatePrereleaseClaim.

(** ** Scanning a range for pull requests ([ScanForPRs]) *)

Section ScanForPRs.
Import github module_release.

(** The pull requests of a range: the numbers some commit of the range
    reports when its lookup succeeds. *)
Definition prOfRange (client : Client) (repo : string) (commits : list string) (n : Z) : Prop :=
  exists sha prs,
    sha ∈ commits /\ GetPullRequestsForCommit client repo sha = Ok prs /\ n ∈ prs.

Lemma insertAll_lookup (prs : list Z) (m : gmap Z bool) (n : Z) :
  is_Some (fold_left (fun m prNum => <[prNum := true]> m) prs m !! n)
  <-> is_Some (m !! n) \/ n ∈ prs.
Proof.
  revert m. induction prs as [|p prs IH]; intros m; simpl.
  - rewrite elem_of_nil. tauto.
  - rewrite IH, elem_of_cons, lookup_insert_is_Some.
    destruct (decide (p = n)) as [->|Hne]; [tauto|].
    split; [intros [[[]|[]]|]|intros [|[|]]]; auto; congruence.
Qed.

Lemma collectPRs_lookup (client : Client) (repo : string) (commits : list string)
    (m : gmap Z bool) (n : Z) :
  is_Some (collectPRs client repo commits m !! n)
  <-> is_Some (m !! n) \/ prOfRange client repo commits n.
Proof.
  unfold prOfRange. revert m.
  induction commits as [|sha commits IH]; intros m; simpl.
  - split; [auto|]. intros [H|(sha & prs & H & _)]; [done|]. by apply elem_of_nil in H.
  - destruct (GetPullRequestsForCommit client repo sha) as [prs|e] eqn:Hsha; rewrite IH.
    + rewrite insertAll_lookup. split.
      * intros [[H|H]|(sha' & prs' & H1 & H2 & H3)]; [by left| |].
        -- right. exists sha, prs. by rewrite elem_of_cons; auto.
        -- right. exists sha', prs'. rewrite elem_of_cons; auto.
      * intros [H|(sha' & prs' & H1 & H2 & H3)]; [auto|].
        apply elem_of_cons in H1 as [->|H1].
        -- rewrite Hsha in H2. injection H2 as ->. auto.
        -- right. exists sha', prs'. auto.
    + split.
      * intros [H|(sha' & prs' & H1 & H2 & H3)]; [by left|].
        right. exists sha', prs'. rewrite elem_of_cons; auto.
      * intros [H|(sha' & prs' & H1 & H2 & H3)]; [auto|].
        apply elem_of_cons in H1 as [->|H1]; [congruence|].
        right. exists sha', prs'. auto.
Qed.

Lemma collectPRs_empty (client : Client) (repo : string) (commits : list string) :
  size (collectPRs client repo commits ∅) = 0%nat
  <-> forall n, ~ prOfRange client repo commits n.
Proof.
  rewrite map_size_empty_iff, map_empty. split.
  - intros H n Hn.
    assert (Hs : is_Some (collectPRs client repo commits ∅ !! n))
      by (apply collectPRs_lookup; auto).
    rewrite H in Hs. by destruct Hs.
  - intros H n. apply eq_None_not_Some. intros Hs.
    apply collectPRs_lookup in Hs as [Hs|Hs]; [|by apply (H n)].
    rewrite lookup_empty in Hs. by destruct Hs.
Qed.

(** C8. [ScanForPRs] answers "no commits found" exactly when the range
    was fetched and is empty. For a fetched range [commits] it answers
    "no pull requests found" exactly when the range is not empty and no
    commit whose lookup succeeds reports a pull request; otherwise it
    returns those pull requests, each once, however many lookups of
    other commits failed. *)
Theorem ScanForPRs_outcomes (ro : rangeOrder) (client : Client)
    (repo startRef endRef : string) :
  validOrder ro ->
  (ScanForPRs ro client repo startRef endRef = Err errNoCommits
   <-> CompareCommits client repo startRef endRef = Ok [])
  /\ forall commits,
       CompareCommits client repo startRef endRef = Ok commits ->
       (ScanForPRs ro client repo startRef endRef = Err errNoPRs
        <-> commits <> [] /\ forall n, ~ prOfRange client repo commits n)
       /\ (commits <> [] ->
           (exists n, prOfRange client repo commits n) ->
           exists prNumbers,
             ScanForPRs ro client repo startRef endRef = Ok prNumbers
             /\ NoDup prNumbers
             /\ forall n, n ∈ prNumbers <-> prOfRange client repo commits n).
Proof.
  intros Hro. unfold ScanForPRs. split.
  - destruct (CompareCommits client repo startRef endRef) as [commits|e].
    + destruct commits as [|sha commits]; simpl length; cbv beta iota.
      * rewrite Nat.eqb_refl. tauto.
      * change (S (length commits) =? 0)%nat with false. cbv iota.
        split; [|discriminate].
        destruct (size _ =? 0)%nat; discriminate.
    + split; discriminate.
  - intros commits ->.
    destruct commits as [|sha commits].
    { simpl. split.
      - split; [discriminate|]. intros [H _]. by destruct H.
      - intros H. by destruct H. }
    change (length (sha :: commits) =? 0)%nat with false. cbv iota.
    pose proof (collectPRs_empty client repo (sha :: commits)) as Hempty.
    destruct (Nat.eqb_spec (size (collectPRs client repo (sha :: commits) ∅)) 0) as [E|E].
    + split.
      * split; [intros _; split; [discriminate|by apply Hempty]|reflexivity].
      * intros _ [n Hn]. exfalso. by apply (proj1 Hempty E n).
    + split.
      * split; [discriminate|]. intros [_ H]. exfalso. by apply E, Hempty.
      * intros _ _. eexists. split; [reflexivity|].
        change (map fst ?l) with (fst <$> l). split.
        -- rewrite (Hro bool _). apply NoDup_fst_map_to_list.
        -- intros n. rewrite (Hro bool _), list_elem_of_fmap. split.
           ++ intros ([k v] & -> & Hkv). apply elem_of_map_to_list in Hkv.
              assert (Hs : is_Some (collectPRs client repo (sha :: commits) ∅ !! k))
                by (by exists v).
              apply collectPRs_lookup in Hs as [Hs|Hs]; [|done].
              rewrite lookup_empty in Hs. by destruct Hs.
           ++ intros Hn.
              destruct (proj2 (collectPRs_lookup client repo (sha :: commits) ∅ n)
                          (or_intror Hn)) as [v Hv].
              exists (n, v). split; [done|]. by apply elem_of_map_to_list.
Qed.

End ScanForPRs.

Lemma keyOrder_valid : validOrder keyOrder.
Proof. intros V m. reflexivity. Qed.

Section CheckExample.
Import github module_release.

(** A module with one stable release and three commits since: the
    first came in through pull request 12, which links issue 42, a
    verified sub-issue of issue 40; the lookup of the second fails; the
    third belongs to no pull request. *)
Definition checkClient : Client :=
  {| GetRepository := fun repo =>
       Ok {| OwnerLogin := "NethServer"; RepoName := "ns8-mail";
             DefaultBranchRefName := "main" |};
     GetLatestCommit := fun _ => Ok "c3";
     GetCommitSHA := fun _ ref =>
       if String.eqb ref "heads/main" then Ok "c3" else Ok "c0";
     CompareCommits := fun _ _ _ => Ok ["c1"; "c2"; "c3"];
     GetMergeBase := GetMergeBase offline;
     ListReleases := fun _ _ _ => Ok [release "1.0.0" false "2024-01-01"];
     ViewRelease := ViewRelease offline;
     Exec := Exec offline;
     GetPullRequestsForCommit := fun _ sha =>
       if String.eqb sha "c1" then Ok [12]
       else if String.eqb sha "c2" then Err "failed to get PRs for commit"
       else Ok [];
     GetPullRequest := fun _ number =>
       Ok {| prNumber := number; Body := "Fixes NethServer/dev#42"; prLabels := [] |};
     GetIssue := fun _ number =>
       Ok {| issueNumber := number; Title := "An issue"; State := "open";
             github.Labels := if number =? 42 then ["verified"; "bug"] else ["testing"] |};
     queryParent := fun _ _ number => Ok (if number =? 42 then Some 40 else None) |}.

Definition checkEnv : Env :=
  {| NewClient := Ok checkClient; GetCurrentRepository := Ok "NethServer/ns8-mail" |}.

Lemma ScanForPRs_outcomes_witness :
  validOrder keyOrder
  /\ ScanForPRs keyOrder checkClient "NethServer/ns8-mail" "1.0.0" "main" = Ok [12]
  /\ (ScanForPRs keyOrder checkClient "NethServer/ns8-mail" "1.0.0" "main" = Err errNoCommits
      <-> CompareCommits checkClient "NethServer/ns8-mail" "1.0.0" "main" = Ok []).
Proof.
  split; [exact keyOrder_valid|]. split; [vm_compute; reflexivity|].
  exact (proj1 (ScanForPRs_outcomes keyOrder checkClient "NethServer/ns8-mail" "1.0.0" "main"
                  keyOrder_valid)).
Defined.

End CheckExample.

(** ** Issue processing ([ProcessIssue]) *)

Section IssueProcessing.
Import github module_release.

(** Every child listed in the summary has an entry of its own. *)
Definition childrenKnown (cs : CheckSummary) : Prop :=
  forall n info c,
    Issues cs !! n = Some info -> c ∈ Children info -> is_Some (Issues cs !! c).

Lemma childrenKnown_new (issuesRepo : string) : childrenKnown (NewCheckSummary issuesRepo).
Proof. intros n info c H. simpl in H. by rewrite lookup_empty in H. Qed.

Lemma childrenKnown_replace (cs : CheckSummary) (n : Z) (old new : IssueInfo) :
  childrenKnown cs ->
  Issues cs !! n = Some old ->
  Children new = Children old ->
  childrenKnown (setIssues cs (<[n := new]> (Issues cs))).
Proof.
  intros Hcs Hold Hchildren k info c. simpl.
  rewrite lookup_insert_is_Some. intros Hk Hc.
  destruct (decide (n = c)) as [|Hne]; [by left|]. right. split; [done|].
  destruct (decide (n = k)) as [->|Hnk].
  - rewrite lookup_insert_eq in Hk. injection Hk as <-. rewrite Hchildren in Hc. eauto.
  - rewrite lookup_insert_ne in Hk by done. eauto.
Qed.

Lemma childrenKnown_store (cs : CheckSummary) (n : Z) (info : IssueInfo) :
  childrenKnown cs ->
  Children info = [] ->
  childrenKnown (storeIssue cs n info).
Proof.
  intros Hcs Hnone k info' c. unfold storeIssue. simpl.
  rewrite lookup_insert_is_Some. intros Hk Hc.
  destruct (decide (n = c)) as [|Hne]; [by left|]. right. split; [done|].
  destruct (decide (n = k)) as [->|Hnk].
  - rewrite lookup_insert_eq in Hk. injection Hk as <-.
    rewrite Hnone in Hc. by apply elem_of_nil in Hc.
  - rewrite lookup_insert_ne in Hk by done. eauto.
Qed.

Lemma childrenKnown_adopt (cs : CheckSummary) (p n : Z) (parent info : IssueInfo) :
  childrenKnown cs ->
  Issues cs !! p = Some parent ->
  Children info = [] ->
  childrenKnown
    (storeIssue (setIssues cs (<[p := addChild parent n]> (Issues cs))) n info).
Proof.
  intros Hcs Hp Hnone k info' c. unfold storeIssue. simpl.
  rewrite !lookup_insert_is_Some. intros Hk Hc.
  destruct (decide (n = c)) as [|Hne]; [by left|]. right. split; [done|].
  destruct (decide (p = c)) as [|Hpc]; [by left|]. right. split; [done|].
  destruct (decide (n = k)) as [->|Hnk].
  - rewrite lookup_insert_eq in Hk. injection Hk as <-.
    rewrite Hnone in Hc. by apply elem_of_nil in Hc.
  - rewrite lookup_insert_ne in Hk by done.
    destruct (decide (p = k)) as [->|Hpk].
    + rewrite lookup_insert_eq in Hk. injection Hk as <-. simpl in Hc.
      apply elem_of_app in Hc as [Hc|Hc]; [eauto|].
      apply list_elem_of_singleton in Hc. congruence.
    + rewrite lookup_insert_ne in Hk by done. eauto.
Qed.

Lemma newIssueInfo_Children (n : Z) (issue : Issue) : Children (newIssueInfo n issue) = [].
Proof. unfold newIssueInfo. by destruct (scanLabels _ _ _ _) as [[? ?] ?]. Qed.

(** What a call that returns has done to the summary. *)
Record processed (cs : CheckSummary) (n : Z) (cs' : CheckSummary) (err : option Go.error)
    : Prop :=
  { processed_repo : IssuesRepo cs' = IssuesRepo cs;
    processed_unlinked : UnlinkedPRs cs' = UnlinkedPRs cs;
    processed_translation : TranslationPRs cs' = TranslationPRs cs;
    processed_orphans : OrphanCommits cs' = OrphanCommits cs;
    processed_keeps : forall k, is_Some (Issues cs !! k) -> is_Some (Issues cs' !! k);
    processed_entry : err = None -> is_Some (Issues cs' !! n);
    processed_error : is_Some err -> cs' = cs;
    processed_children : childrenKnown cs -> childrenKnown cs' }.

Lemma processed_trans (cs cs1 cs2 : CheckSummary) (p n : Z) (e1 e2 : option Go.error) :
  processed cs p cs1 e1 ->
  IssuesRepo cs2 = IssuesRepo cs1 ->
  UnlinkedPRs cs2 = UnlinkedPRs cs1 ->
  TranslationPRs cs2 = TranslationPRs cs1 ->
  OrphanCommits cs2 = OrphanCommits cs1 ->
  (forall k, is_Some (Issues cs1 !! k) -> is_Some (Issues cs2 !! k)) ->
  is_Some (Issues cs2 !! n) ->
  (childrenKnown cs1 -> childrenKnown cs2) ->
  processed cs n cs2 None.
Proof.
  intros [Hr Hu Ht Ho Hkeep _ _ Hchildren] Hr' Hu' Ht' Ho' Hkeep' Hn Hchildren'.
  split; try congruence; auto.
  intros Hnone. by destruct Hnone.
Qed.

Lemma processed_stored (cs : CheckSummary) (n : Z) (info : IssueInfo) :
  Children info = [] -> processed cs n (storeIssue cs n info) None.
Proof.
  intros Hnone. split; try reflexivity.
  - intros k Hk. simpl. rewrite lookup_insert_is_Some'. auto.
  - intros _. simpl. by rewrite lookup_insert_eq.
  - intros H. by destruct H.
  - intros H. by apply childrenKnown_store.
Qed.

Lemma processed_adopted (cs : CheckSummary) (p n : Z) (parent info : IssueInfo) :
  Issues cs !! p = Some parent ->
  Children info = [] ->
  processed cs n
    (storeIssue (setIssues cs (<[p := addChild parent n]> (Issues cs))) n info) None.
Proof.
  intros Hp Hnone. split; try reflexivity.
  - intros k Hk. simpl. rewrite !lookup_insert_is_Some'. auto.
  - intros _. simpl. by rewrite lookup_insert_eq.
  - intros H. by destruct H.
  - intros H. by eapply childrenKnown_adopt.
Qed.

(** A call of [ProcessIssue] never panics and never leaves the model:
    it returns, with the effect [processed] describes, or it is still
    running when the fuel is spent. *)
Lemma ProcessIssue_processed (fuel : nat) (client : Client) (cs : CheckSummary) (n : Z) :
  match ProcessIssue fuel client cs n with
  | Ret (cs', err) => processed cs n cs' err
  | OutOfFuel => True
  | Panic _ | Unmodelled => False
  end.
Proof.
  revert cs n. induction fuel as [|fuel IH]; intros cs n; simpl; [done|].
  destruct (Issues cs !! n) as [known|] eqn:Hn.
  { split; try reflexivity.
    - intros k Hk. simpl. rewrite lookup_insert_is_Some'. auto.
    - intros _. simpl. by rewrite lookup_insert_eq.
    - intros H. by destruct H.
    - intros H. by eapply childrenKnown_replace. }
  destruct (GetIssue client (IssuesRepo cs) n) as [issue|e].
  2:{ split; try reflexivity; auto. intros H. discriminate H. }
  pose proof (newIssueInfo_Children n issue) as Hnone.
  destruct (GetParentIssueNumber client (IssuesRepo cs) n) as [p|e];
    [|by apply processed_stored].
  destruct (0 <? p); [|by apply processed_stored].
  destruct (Issues cs !! p) as [parent|] eqn:Hp.
  { unfold appendChild. rewrite Hp. simpl. by apply processed_adopted. }
  specialize (IH cs p). unfold mbind, outcome_bind, Go.bind.
  destruct (ProcessIssue fuel client cs p) as [[cs1 err]| | |]; try done.
  destruct err as [e|].
  - rewrite (processed_error _ _ _ _ IH) by eauto. by apply processed_stored.
  - destruct (processed_entry _ _ _ _ IH eq_refl) as [parent Hparent].
    unfold appendChild. rewrite Hparent.
    pose proof (processed_adopted cs1 p n parent (setParentNumber (newIssueInfo n issue) p)
                  Hparent Hnone) as [].
    eapply (processed_trans cs cs1 _ p n None None IH); eauto.
Qed.

End IssueProcessing.

Section IssueStatus.
Import github module_release.

(** The entry a fetch leaves for the issue: the record made from the
    fetched issue, with the parent's number filled in. *)
Lemma ProcessIssue_fetched (fuel : nat) (client : Client) (cs cs' : CheckSummary) (n : Z)
    (issue : Issue) (err : option Go.error) :
  Issues cs !! n = None ->
  GetIssue client (IssuesRepo cs) n = Ok issue ->
  ProcessIssue fuel client cs n = Ret (cs', err) ->
  exists parentNum,
    Issues cs' !! n = Some (setParentNumber (newIssueInfo n issue) parentNum).
Proof.
  intros Hn Hissue. destruct fuel as [|fuel]; simpl; [discriminate|].
  rewrite Hn, Hissue.
  assert (Hplain : forall cs0, Ret (storeIssue cs0 n (newIssueInfo n issue), None) = Ret (cs', err) ->
            exists parentNum,
              Issues cs' !! n = Some (setParentNumber (newIssueInfo n issue) parentNum)).
  { intros cs0 H. injection H as <- <-. exists 0. simpl. rewrite lookup_insert_eq.
    f_equal. unfold newIssueInfo. by destruct (scanLabels _ _ _ _) as [[? ?] ?]. }
  assert (Hstored : forall cs0 p,
            Ret (storeIssue cs0 n (setParentNumber (newIssueInfo n issue) p), None)
            = Ret (cs', err) ->
            exists parentNum,
              Issues cs' !! n = Some (setParentNumber (newIssueInfo n issue) parentNum)).
  { intros cs0 p H. injection H as <- <-. exists p. simpl. by rewrite lookup_insert_eq. }
  destruct (GetParentIssueNumber client (IssuesRepo cs) n) as [p|e]; [|by apply Hplain].
  destruct (0 <? p); [|by apply Hplain].
  unfold mbind, outcome_bind, Go.bind, appendChild.
  destruct (Issues cs !! p) as [parent|].
  { by apply Hstored. }
  destruct (ProcessIssue fuel client cs p) as [[cs1 [e|]]| | |]; try discriminate.
  { by apply Hstored. }
  destruct (Issues cs1 !! p); [by apply Hstored|discriminate].
Qed.

(** Equality of two strings when the ASCII letters of both are put in
    lower case: the match "ignoring case" of the words of the
    specification. *)
Definition toLower (c : ascii) : ascii :=
  if utf8.inRange 65 90 c then ascii_of_nat (nat_of_ascii c + 32) else c.

Definition equalIgnoringCase (s t : string) : bool :=
  String.eqb (string_of_list_ascii (map toLower (list_ascii_of_string s)))
             (string_of_list_ascii (map toLower (list_ascii_of_string t))).

(** An issue whose state the platform spells "Closed". *)
Definition capitalClient : Client :=
  {| GetRepository := GetRepository offline;
     GetLatestCommit := GetLatestCommit offline;
     GetCommitSHA := GetCommitSHA offline;
     CompareCommits := CompareCommits offline;
     GetMergeBase := GetMergeBase offline;
     ListReleases := ListReleases offline;
     ViewRelease := ViewRelease offline;
     Exec := Exec offline;
     GetPullRequestsForCommit := GetPullRequestsForCommit offline;
     GetPullRequest := GetPullRequest offline;
     GetIssue := fun _ number =>
       Ok {| issueNumber := number; Title := "An issue"; State := "Closed";
             github.Labels := [] |};
     queryParent := fun _ _ _ => Ok None |}.

(** C5, as the specification has it, fails: the state "Closed" equals
    "closed" when case is ignored, and the issue gets the open status. *)
Lemma capital_Closed_is_open :
  equalIgnoringCase "Closed" "closed" = true
  /\ EmojiOpenIssue <> EmojiClosedIssue
  /\ exists cs',
       ProcessIssue 1 capitalClient (NewCheckSummary "NethServer/dev") 7 = Ret (cs', None)
       /\ Status <$> Issues cs' !! 7 = Some EmojiOpenIssue.
Proof.
  split; [reflexivity|]. split; [discriminate|].
  eexists. split; [vm_compute; reflexivity|]. vm_compute. reflexivity.
Qed.

(** C5, amended. When issue processing fetches an issue, its status is
    the closed status when the state string is exactly "CLOSED" or
    exactly "closed", and the open status for every other string. *)
Theorem fetched_issue_status (fuel : nat) (client : Client) (cs cs' : CheckSummary) (n : Z)
    (issue : Issue) (err : option Go.error) :
  Issues cs !! n = None ->
  GetIssue client (IssuesRepo cs) n = Ok issue ->
  ProcessIssue fuel client cs n = Ret (cs', err) ->
  exists info,
    Issues cs' !! n = Some info
    /\ (State issue = "CLOSED" \/ State issue = "closed" -> Status info = EmojiClosedIssue)
    /\ (State issue <> "CLOSED" -> State issue <> "closed" -> Status info = EmojiOpenIssue).
Proof.
  intros Hn Hissue Hrun.
  destruct (ProcessIssue_fetched fuel client cs cs' n issue err Hn Hissue Hrun) as [p Hp].
  eexists. split; [exact Hp|].
  unfold newIssueInfo. destruct (scanLabels _ _ _ _) as [[? ?] ?]. simpl.
  split.
  - intros [->| ->]; reflexivity.
  - intros H1 H2. apply String.eqb_neq in H1, H2. by rewrite H1, H2.
Qed.

Lemma fetched_issue_status_witness :
  exists cs' info,
    ProcessIssue 1 capitalClient (NewCheckSummary "NethServer/dev") 7 = Ret (cs', None)
    /\ Issues cs' !! 7 = Some info
    /\ Status info = EmojiOpenIssue.
Proof.
  destruct (fetched_issue_status 1 capitalClient (NewCheckSummary "NethServer/dev")
              (storeIssue (NewCheckSummary "NethServer/dev") 7
                 (newIssueInfo 7 {| issueNumber := 7; Title := "An issue"; State := "Closed";
                                    github.Labels := [] |}))
              7 {| issueNumber := 7; Title := "An issue"; State := "Closed";
                   github.Labels := [] |} None eq_refl eq_refl eq_refl)
    as (info & Hinfo & _ & Hopen).
  exists (storeIssue (NewCheckSummary "NethServer/dev") 7
            (newIssueInfo 7 {| issueNumber := 7; Title := "An issue"; State := "Closed";
                               github.Labels := [] |})), info.
  split; [reflexivity|]. split; [exact Hinfo|].
  apply Hopen; discriminate.
Defined.

End IssueStatus.

Section IssueAscent.
Import github module_release.

(** More fuel does not change what a call returns. *)
Lemma ProcessIssue_more_fuel (fuel : nat) (client : Client) (cs : CheckSummary) (n : Z)
    (r : CheckSummary * option Go.error) :
  ProcessIssue fuel client cs n = Ret r ->
  forall fuel', (fuel <= fuel')%nat -> ProcessIssue fuel' client cs n = Ret r.
Proof.
  revert cs n r. induction fuel as [|fuel IH]; intros cs n r; simpl; [discriminate|].
  intros H [|fuel'] Hle; [lia|]. simpl.
  destruct (Issues cs !! n); [done|].
  destruct (GetIssue client (IssuesRepo cs) n); [|done].
  destruct (GetParentIssueNumber client (IssuesRepo cs) n) as [p|]; [|done].
  destruct (0 <? p); [|done].
  destruct (Issues cs !! p); [done|].
  unfold mbind, outcome_bind, Go.bind in *.
  destruct (ProcessIssue fuel client cs p) as [r1| | |] eqn:Hp; try discriminate.
  rewrite (IH cs p r1 Hp fuel') by lia. exact H.
Qed.

(** The issue that processing [n] goes up to before it finishes with
    [n]: the parent of [n], when [n] is not in the summary yet, its
    fetch succeeds, and its parent is not in the summary either. *)
Definition nextUp (client : Client) (cs : CheckSummary) (n : Z) : option Z :=
  match Issues cs !! n with
  | Some _ => None
  | None =>
    match GetIssue client (IssuesRepo cs) n with
    | Err _ => None
    | Ok _ =>
      match GetParentIssueNumber client (IssuesRepo cs) n with
      | Ok p =>
        if 0 <? p then match Issues cs !! p with Some _ => None | None => Some p end
        else None
      | Err _ => None
      end
    end
  end.

(** The ascent from [n] ends within [depth] steps. *)
Fixpoint ascentEnds (client : Client) (cs : CheckSummary) (depth : nat) (n : Z) : bool :=
  match nextUp client cs n with
  | None => true
  | Some p =>
    match depth with
    | O => false
    | S depth' => ascentEnds client cs depth' p
    end
  end.

(** A run that gives [OutOfFuel] whatever fuel it gets: the call never
    returns. *)
Definition neverReturns {A : Type} (run : nat -> outcome A) : Prop :=
  forall fuel, run fuel = OutOfFuel.

Lemma ProcessIssue_S (fuel : nat) (client : Client) (cs : CheckSummary) (n : Z) :
  ProcessIssue (S fuel) client cs n =
  match Issues cs !! n with
  | Some info => Ret (setIssues cs (<[n := incRefCount info]> (Issues cs)), None)
  | None =>
    match GetIssue client (IssuesRepo cs) n with
    | Err e => Ret (cs, Some ("failed to get issue " +:+ fmt.FormatInt n +:+ ": " +:+ e))
    | Ok issue =>
      let info := newIssueInfo n issue in
      match GetParentIssueNumber client (IssuesRepo cs) n with
      | Ok parentNum =>
        if 0 <? parentNum then
          let info := setParentNumber info parentNum in
          match Issues cs !! parentNum with
          | None =>
            '(cs1, err) ← ProcessIssue fuel client cs parentNum;
            match err with
            | None =>
              cs2 ← appendChild cs1 parentNum n;
              Ret (storeIssue cs2 n info, None)
            | Some _ => Ret (storeIssue cs1 n info, None)
            end
          | Some _ =>
            cs2 ← appendChild cs parentNum n;
            Ret (storeIssue cs2 n info, None)
          end
        else Ret (storeIssue cs n info, None)
      | Err _ => Ret (storeIssue cs n info, None)
      end
    end
  end.
Proof. reflexivity. Qed.

Lemma ProcessIssue_step (fuel : nat) (client : Client) (cs : CheckSummary) (n : Z) :
  match nextUp client cs n with
  | Some p =>
    ProcessIssue (S fuel) client cs n = OutOfFuel
    <-> ProcessIssue fuel client cs p = OutOfFuel
  | None => exists r, ProcessIssue (S fuel) client cs n = Ret r
  end.
Proof.
  unfold nextUp. rewrite ProcessIssue_S. cbv zeta.
  destruct (Issues cs !! n); [eauto|].
  destruct (GetIssue client (IssuesRepo cs) n); [|eauto].
  destruct (GetParentIssueNumber client (IssuesRepo cs) n) as [p|]; [|eauto].
  destruct (0 <? p); [|eauto].
  destruct (Issues cs !! p) as [parent|] eqn:Hp.
  { unfold appendChild. rewrite Hp. simpl. eauto. }
  pose proof (ProcessIssue_processed fuel client cs p) as Hdone.
  unfold mbind, outcome_bind, Go.bind.
  destruct (ProcessIssue fuel client cs p) as [[cs1 [e|]]| | |]; try done.
  destruct (processed_entry _ _ _ _ Hdone eq_refl) as [parent Hparent].
  unfold appendChild. rewrite Hparent. split; intros H; discriminate H.
Qed.

Lemma ProcessIssue_returns_iff (client : Client) (cs : CheckSummary) (fuel : nat) (n : Z) :
  (exists r, ProcessIssue (S fuel) client cs n = Ret r) <-> ascentEnds client cs fuel n = true.
Proof.
  revert n. induction fuel as [|fuel IH]; intros n.
  - pose proof (ProcessIssue_step 0 client cs n) as Hstep. simpl ascentEnds.
    destruct (nextUp client cs n) as [p|]; [|tauto].
    split; [|discriminate]. intros [r Hr].
    rewrite (proj2 Hstep eq_refl) in Hr. discriminate.
  - pose proof (ProcessIssue_step (S fuel) client cs n) as Hstep.
    change (ascentEnds client cs (S fuel) n)
      with (match nextUp client cs n with
            | None => true
            | Some p => ascentEnds client cs fuel p
            end).
    destruct (nextUp client cs n) as [p|]; [|tauto].
    rewrite <- IH.
    pose proof (ProcessIssue_processed (S (S fuel)) client cs n) as Hn.
    pose proof (ProcessIssue_processed (S fuel) client cs p) as Hp.
    destruct (ProcessIssue (S (S fuel)) client cs n) as [r| | |] eqn:En;
      destruct (ProcessIssue (S fuel) client cs p) as [r'| | |] eqn:Ep;
      try done; try (split; eauto; fail).
    + destruct Hstep as [_ H]. by specialize (H eq_refl).
    + destruct Hstep as [H _]. by specialize (H eq_refl).
Qed.

(** Two issues, each the parent of the other. *)
Definition cycleClient : Client :=
  {| GetRepository := GetRepository offline;
     GetLatestCommit := GetLatestCommit offline;
     GetCommitSHA := GetCommitSHA offline;
     CompareCommits := CompareCommits offline;
     GetMergeBase := GetMergeBase offline;
     ListReleases := ListReleases offline;
     ViewRelease := ViewRelease offline;
     Exec := Exec offline;
     GetPullRequestsForCommit := GetPullRequestsForCommit offline;
     GetPullRequest := GetPullRequest offline;
     GetIssue := fun _ number =>
       Ok {| issueNumber := number; Title := "An issue"; State := "open";
             github.Labels := [] |};
     queryParent := fun _ _ number => Ok (Some (if number =? 1 then 2 else 1)) |}.

Lemma cycle_nextUp (n : Z) :
  n = 1 \/ n = 2 ->
  nextUp cycleClient (NewCheckSummary "NethServer/dev") n = Some (if n =? 1 then 2 else 1).
Proof. intros [->| ->]; reflexivity. Qed.

(** C2, as the specification has it, fails: on two issues that are
    each other's parent the call for the first goes up to the second,
    from there to the first again, and so on without end. *)
Lemma ProcessIssue_cycle_never_returns :
  neverReturns (fun fuel =>
    ProcessIssue fuel cycleClient (NewCheckSummary "NethServer/dev") 1).
Proof.
  assert (H : forall fuel n, n = 1 \/ n = 2 ->
            ProcessIssue fuel cycleClient (NewCheckSummary "NethServer/dev") n = OutOfFuel).
  { induction fuel as [|fuel IH]; intros n Hn; [reflexivity|].
    pose proof (ProcessIssue_step fuel cycleClient (NewCheckSummary "NethServer/dev") n)
      as Hstep.
    rewrite (cycle_nextUp n Hn) in Hstep. apply Hstep, IH.
    destruct Hn as [->| ->]; auto. }
  intros fuel. apply H. auto.
Qed.

(** C2, amended. A call of [ProcessIssue] returns when the ascent from
    its issue ends: when, going from parent to parent, it comes after
    finitely many steps to an issue that is in the summary, or whose
    fetch fails, or that has no parent to go up to; it then returns
    with any fuel above the number of steps. When the ascent does not
    end, the call never returns. *)
Theorem ProcessIssue_returns_when_ascent_ends (client : Client) (cs : CheckSummary) (n : Z) :
  (forall depth,
     ascentEnds client cs depth n = true ->
     exists r, forall fuel, (depth < fuel)%nat -> ProcessIssue fuel client cs n = Ret r)
  /\ ((forall depth, ascentEnds client cs depth n = false) ->
      neverReturns (fun fuel => ProcessIssue fuel client cs n)).
Proof.
  split.
  - intros depth Hends.
    apply ProcessIssue_returns_iff in Hends as [r Hr].
    exists r. intros fuel Hlt. apply (ProcessIssue_more_fuel (S depth)); [done|lia].
  - intros Hnever [|fuel]; [reflexivity|].
    pose proof (ProcessIssue_processed (S fuel) client cs n) as Hn.
    destruct (ProcessIssue (S fuel) client cs n) as [r| | |] eqn:En; try done.
    assert (Hends : ascentEnds client cs fuel n = true)
      by (apply ProcessIssue_returns_iff; eauto).
    rewrite Hnever in Hends. discriminate.
Qed.

End IssueAscent.

(** ** A run of [check] *)

Section CheckRun.
Import github module_release cmd.

Lemma processLinked_invariant (fuel : nat) (client : Client) (linkedIssues : list Z)
    (summary summary' : CheckSummary) :
  processLinked fuel client linkedIssues summary = Ret summary' ->
  UnlinkedPRs summary' = UnlinkedPRs summary
  /\ OrphanCommits summary' = OrphanCommits summary
  /\ (childrenKnown summary -> childrenKnown summary').
Proof.
  revert summary. induction linkedIssues as [|n linkedIssues IH]; intros summary; simpl.
  - intros H. injection H as <-. auto.
  - pose proof (ProcessIssue_processed fuel client summary n) as Hn.
    unfold mbind, outcome_bind, Go.bind.
    destruct (ProcessIssue fuel client summary n) as [[cs1 err]| | |]; try discriminate.
    intros H. destruct (IH cs1 H) as (Hu & Ho & Hc). destruct Hn.
    repeat split; try congruence. auto.
Qed.

Lemma processPRs_invariant (fuel : nat) (client : Client) (repo issuesRepoFlag : string)
    (prNumbers : list Z) (summary summary' : CheckSummary) :
  processPRs fuel client repo issuesRepoFlag prNumbers summary = Ret summary' ->
  OrphanCommits summary' = OrphanCommits summary
  /\ (childrenKnown summary -> childrenKnown summary').
Proof.
  revert summary. induction prNumbers as [|prNum prNumbers IH]; intros summary; simpl.
  - intros H. injection H as <-. auto.
  - destruct (GetPullRequest client repo prNum) as [pr|e]; [|apply IH].
    unfold mbind, outcome_bind, Go.bind.
    destruct (GetLinkedIssues (Body pr) issuesRepoFlag) as [linkedIssues| | |];
      try discriminate.
    destruct (0 <? length linkedIssues)%nat.
    + destruct (processLinked fuel client linkedIssues summary) as [cs1| | |] eqn:Hlinked;
        try discriminate.
      apply processLinked_invariant in Hlinked as (_ & Ho & Hc).
      intros H. destruct (IH cs1 H) as [Ho' Hc']. split; [congruence|auto].
    + intros H. apply IH in H as [Ho Hc].
      destruct (existsb _ (prLabels pr)); simpl in *; auto.
Qed.

Lemma findOrphans_spec (repo : string) (commits : list string)
    (commitsInPRs : gmap string bool) (summary : CheckSummary) :
  let summary' := findOrphans repo commits commitsInPRs summary in
  UnlinkedPRs summary' = UnlinkedPRs summary
  /\ Issues summary' = Issues summary
  /\ OrphanCommits summary' =
     OrphanCommits summary
     ++ map (commitURL repo)
          (filter (fun sha => commitsInPRs !! sha <> Some true) commits).
Proof.
  revert summary. induction commits as [|sha commits IH]; intros summary; simpl.
  - by rewrite app_nil_r.
  - destruct (commitsInPRs !! sha) as [[|]|] eqn:Hsha; simpl.
    + rewrite filter_cons_False by (intros H; by apply H). apply IH.
    + rewrite filter_cons_True by congruence.
      destruct (IH (addOrphan summary (commitURL repo sha))) as (Hu & Hi & Ho).
      repeat split; [done|done|]. rewrite Ho. simpl. by rewrite <- app_assoc.
    + rewrite filter_cons_True by congruence.
      destruct (IH (addOrphan summary (commitURL repo sha))) as (Hu & Hi & Ho).
      repeat split; [done|done|]. rewrite Ho. simpl. by rewrite <- app_assoc.
Qed.

Lemma markCommits_lookup (client : Client) (repo : string) (commits : list string)
    (m : gmap string bool) (sha : string) :
  markCommits client repo commits m !! sha = Some true
  <-> m !! sha = Some true
      \/ (sha ∈ commits
          /\ exists prs, GetPullRequestsForCommit client repo sha = Ok prs /\ prs <> []).
Proof.
  revert m. induction commits as [|c commits IH]; intros m; simpl.
  - split; [auto|]. intros [H|[H _]]; [done|]. by apply elem_of_nil in H.
  - assert (Hskip : markCommits client repo commits m !! sha = Some true
                    <-> m !! sha = Some true
                        \/ (sha ∈ commits
                            /\ exists prs, GetPullRequestsForCommit client repo sha = Ok prs
                                           /\ prs <> [])) by apply IH.
    destruct (GetPullRequestsForCommit client repo c) as [prs|e] eqn:Hc.
    + destruct prs as [|pr prs]; simpl.
      * rewrite Hskip, elem_of_cons. split; [tauto|].
        intros [H|[[->|H] (prs & Hprs & Hne)]]; [tauto| |eauto].
        rewrite Hc in Hprs. injection Hprs as <-. done.
      * rewrite IH, elem_of_cons. destruct (decide (sha = c)) as [->|Hne].
        -- rewrite lookup_insert_eq. split; [|auto]. intros _. right. split; [auto|].
           eexists. split; [exact Hc|done].
        -- rewrite lookup_insert_ne by done. split; [tauto|].
           intros [H|[[H|H] H']]; [tauto|done|tauto].
    + rewrite Hskip, elem_of_cons. split; [tauto|].
      intros [H|[[->|H] (prs & Hprs & Hne)]]; [tauto| |eauto]. congruence.
Qed.

(** What a run that displays a summary has gone through. *)
Lemma runCheck_reported (fuel : nat) (ro : rangeOrder) (env : Env)
    (repoFlag issuesRepoFlag : string) (summary : CheckSummary)
    (commitsInPRs : gmap string bool) (ready : bool) :
  runCheck fuel ro env repoFlag issuesRepoFlag = Ret (Ok (Reported summary commitsInPRs ready)) ->
  exists client repo latestRelease commits prNumbers processed,
    NewClient env = Ok client
    /\ CompareCommits client repo (TagName latestRelease) "main" = Ok commits
    /\ commits <> []
    /\ processPRs fuel client repo issuesRepoFlag prNumbers (NewCheckSummary issuesRepoFlag)
       = Ret processed
    /\ commitsInPRs = markCommits client repo commits ∅
    /\ summary = findOrphans repo commits commitsInPRs processed
    /\ Display ro summary = Ret ready.
Proof.
  unfold runCheck, mbind, outcome_bind, Go.bind. intros H.
  destruct (NewClient env) as [client|]; [|discriminate].
  destruct (GetOrValidateRepo env client repoFlag) as [[repo|]| | |]; try discriminate.
  destruct (GetLatestRelease client repo true) as [latestRelease|]; [|discriminate].
  destruct (GetReleaseCommitSHA client repo (TagName latestRelease)); [|discriminate].
  destruct (GetMainBranchSHA client repo); [|discriminate].
  destruct (String.eqb _ _); [discriminate|].
  destruct (CompareCommits client repo (TagName latestRelease) "main") as [commits|] eqn:Hc;
    [|discriminate].
  destruct (length commits =? 0)%nat eqn:Hlen; [discriminate|].
  destruct (ScanForPRs ro client repo (TagName latestRelease) "main") as [prNumbers|];
    [|discriminate].
  destruct (processPRs fuel client repo issuesRepoFlag prNumbers
              (NewCheckSummary issuesRepoFlag)) as [processed| | |] eqn:Hp; try discriminate.
  destruct (Display ro _) as [ready'| | |] eqn:Hd; try discriminate.
  injection H as <- <- <-.
  exists client, repo, latestRelease, commits, prNumbers, processed.
  repeat split; try done. intros ->. discriminate.
Qed.

End CheckRun.

Section CheckClaims.
Import github module_release cmd.

Lemma append_cancel (p a b : string) : p +:+ a = p +:+ b -> a = b.
Proof. induction p as [|c p IH]; simpl; [auto|]. intros H. injection H as H. auto. Qed.

Lemma commitURL_inj (repo a b : string) : commitURL repo a = commitURL repo b -> a = b.
Proof. unfold commitURL. intros H. by do 3 apply append_cancel in H. Qed.

(** C4. In a run of [check] that displays a summary, every commit of
    the range is either marked as found in a pull request or listed
    among the orphan commits, and never both; nothing else is marked
    or listed; and a commit whose lookup fails is listed as an
    orphan. *)
Theorem commits_partitioned (fuel : nat) (ro : rangeOrder) (env : Env)
    (repoFlag issuesRepoFlag : string) (summary : CheckSummary)
    (commitsInPRs : gmap string bool) (ready : bool) :
  runCheck fuel ro env repoFlag issuesRepoFlag
    = Ret (Ok (Reported summary commitsInPRs ready)) ->
  exists client repo latestRelease commits,
    NewClient env = Ok client
    /\ CompareCommits client repo (TagName latestRelease) "main" = Ok commits
    /\ (forall sha, sha ∈ commits ->
          (commitsInPRs !! sha = Some true
           /\ commitURL repo sha ∉ OrphanCommits summary)
          \/ (commitsInPRs !! sha <> Some true
              /\ commitURL repo sha ∈ OrphanCommits summary))
    /\ (forall sha, commitsInPRs !! sha = Some true -> sha ∈ commits)
    /\ (forall url, url ∈ OrphanCommits summary ->
          exists sha, sha ∈ commits /\ url = commitURL repo sha)
    /\ (forall sha e, sha ∈ commits ->
          GetPullRequestsForCommit client repo sha = Err e ->
          commitURL repo sha ∈ OrphanCommits summary).
Proof.
  intros Hrun.
  apply runCheck_reported in Hrun
    as (client & repo & latestRelease & commits & prNumbers & processed
        & Hclient & Hcommits & _ & Hprs & Hmark & Hsummary & _).
  exists client, repo, latestRelease, commits. split; [done|]. split; [done|].
  apply processPRs_invariant in Hprs as [Hnone _]. simpl in Hnone.
  pose proof (findOrphans_spec repo commits commitsInPRs processed) as (_ & _ & Horphans).
  cbv zeta in Horphans. rewrite <- Hsummary, Hnone in Horphans. simpl in Horphans.
  assert (Hlisted : forall sha,
            commitURL repo sha ∈ OrphanCommits summary
            <-> sha ∈ commits /\ commitsInPRs !! sha <> Some true).
  { intros sha. rewrite Horphans. change (map ?f ?l) with (f <$> l).
    rewrite list_elem_of_fmap. split.
    - intros (sha' & Heq & Hin). apply commitURL_inj in Heq as <-.
      apply list_elem_of_filter in Hin. tauto.
    - intros [Hin Hne]. exists sha. split; [done|]. by apply list_elem_of_filter. }
  assert (Hmarked : forall sha,
            commitsInPRs !! sha = Some true
            <-> sha ∈ commits
                /\ exists prs, GetPullRequestsForCommit client repo sha = Ok prs /\ prs <> []).
  { intros sha. rewrite Hmark, markCommits_lookup, lookup_empty.
    split; [intros [H|H]; [discriminate|done]|auto]. }
  repeat split.
  - intros sha Hin. destruct (decide (commitsInPRs !! sha = Some true)) as [Hyes|Hno].
    + left. split; [done|]. rewrite Hlisted. tauto.
    + right. split; [done|]. by apply Hlisted.
  - intros sha Hyes. by apply Hmarked in Hyes as [? _].
  - intros url Hurl. rewrite Horphans in Hurl. change (map ?f ?l) with (f <$> l) in Hurl.
    apply list_elem_of_fmap in Hurl as (sha & -> & Hin).
    apply list_elem_of_filter in Hin as [_ Hin]. eauto.
  - intros sha e Hin Herr. apply Hlisted. split; [done|].
    intros Hyes. apply Hmarked in Hyes as (_ & prs & Hprs & _). congruence.
Qed.

(** The summary the run on [checkEnv] displays. *)
Definition checkedSummary : CheckSummary :=
  {| UnlinkedPRs := []; TranslationPRs := [];
     OrphanCommits := [ "https://github.com/NethServer/ns8-mail/commit/c2";
                        "https://github.com/NethServer/ns8-mail/commit/c3" ];
     Issues :=
       {[ 40 := {| Number := 40; Status := EmojiOpenIssue; Progress := EmojiTesting;
                   Labels := ""; RefCount := 1; ParentNumber := 0; Children := [42] |};
          42 := {| Number := 42; Status := EmojiOpenIssue; Progress := EmojiVerified;
                   Labels := "bug"; RefCount := 1; ParentNumber := 40; Children := [] |} ]};
     IssuesRepo := "NethServer/dev" |}.

Lemma checkEnv_run :
  runCheck 3 keyOrder checkEnv "" "NethServer/dev"
  = Ret (Ok (Reported checkedSummary {[ "c1" := true ]} true)).
Proof. vm_compute. reflexivity. Qed.

Lemma commits_partitioned_witness :
  exists client repo latestRelease commits,
    NewClient checkEnv = Ok client
    /\ CompareCommits client repo (TagName latestRelease) "main" = Ok commits
    /\ (forall sha, sha ∈ commits ->
          (({[ "c1" := true ]} : gmap string bool) !! sha = Some true
           /\ commitURL repo sha ∉ OrphanCommits checkedSummary)
          \/ (({[ "c1" := true ]} : gmap string bool) !! sha <> Some true
              /\ commitURL repo sha ∈ OrphanCommits checkedSummary)).
Proof.
  destruct (commits_partitioned 3 keyOrder checkEnv "" "NethServer/dev" checkedSummary
              {[ "c1" := true ]} true checkEnv_run)
    as (client & repo & latestRelease & commits & H1 & H2 & H3 & _).
  exists client, repo, latestRelease, commits. auto.
Defined.

End CheckClaims.

Section Verdict.
Import github module_release cmd.

Definition verified (info : IssueInfo) : bool := String.eqb (Progress info) EmojiVerified.

(** What the loops of [Display] ask of one child and of one entry. *)
Definition childVerified (cs : CheckSummary) (childNum : Z) : bool :=
  match Issues cs !! childNum with
  | Some child => verified child
  | None => false
  end.

Definition entryPasses (cs : CheckSummary) (info : IssueInfo) : bool :=
  if (0 <? length (Children info))%nat
  then forallb (childVerified cs) (Children info)
  else verified info.

Lemma checkChildren_result (cs : CheckSummary) (children : list Z) (allVerified : bool) :
  (forall c, c ∈ children -> is_Some (Issues cs !! c)) ->
  checkChildren cs children allVerified
  = Ret (if forallb (childVerified cs) children then allVerified else false).
Proof.
  induction children as [|c children IH]; intros Hknown; simpl; [done|].
  destruct (Hknown c) as [child Hchild]; [apply elem_of_cons; auto|].
  unfold childVerified at 1. rewrite Hchild. fold (verified child).
  destruct (verified child); simpl; [|done].
  apply IH. intros c' Hc'. apply Hknown, elem_of_cons. auto.
Qed.

Lemma checkIssues_result (cs : CheckSummary) (infos : list IssueInfo) (allVerified : bool) :
  (forall info c, info ∈ infos -> c ∈ Children info -> is_Some (Issues cs !! c)) ->
  checkIssues cs infos allVerified
  = Ret (allVerified && forallb (entryPasses cs) infos).
Proof.
  revert allVerified. induction infos as [|info infos IH]; intros allVerified Hknown; simpl.
  { by rewrite andb_true_r. }
  assert (Hrest : forall info' c, info' ∈ infos -> c ∈ Children info' ->
            is_Some (Issues cs !! c)).
  { intros info' c Hin. apply Hknown, elem_of_cons. auto. }
  unfold entryPasses at 1.
  destruct (0 <? length (Children info))%nat.
  - rewrite checkChildren_result
      by (intros c Hc; apply (Hknown info c); [apply elem_of_cons; auto|done]).
    unfold mbind, outcome_bind, Go.bind. rewrite IH by done.
    destruct (forallb (childVerified cs) (Children info)); simpl; [done|].
    by rewrite andb_false_r.
  - fold (verified info). destruct (verified info); simpl.
    + by apply IH.
    + by rewrite andb_false_r.
Qed.

Lemma Display_result (ro : rangeOrder) (cs : CheckSummary) :
  validOrder ro ->
  childrenKnown cs ->
  exists ready,
    Display ro cs = Ret ready
    /\ (ready = true
        <-> UnlinkedPRs cs = []
            /\ forall n info, Issues cs !! n = Some info -> entryPasses cs info = true).
Proof.
  intros Hro Hknown. unfold Display.
  assert (Hin : forall info, info ∈ map snd (ro IssueInfo (Issues cs))
                  <-> exists n, Issues cs !! n = Some info).
  { intros info. change (map snd ?l) with (snd <$> l).
    rewrite (Hro IssueInfo (Issues cs)), list_elem_of_fmap. split.
    - intros ([n info'] & -> & Hn). apply elem_of_map_to_list in Hn. eauto.
    - intros [n Hn]. exists (n, info). split; [done|]. by apply elem_of_map_to_list. }
  rewrite checkIssues_result.
  2:{ intros info c Hinfo Hc. apply Hin in Hinfo as [n Hn]. eauto. }
  unfold mbind, outcome_bind, Go.bind. simpl andb.
  eexists. split; [reflexivity|].
  rewrite andb_true_iff, Nat.eqb_eq, length_zero_iff_nil, forallb_forall.
  split; intros [Hu Hall]; (split; [done|]).
  - intros n info Hn. apply Hall, list_elem_of_In, Hin. eauto.
  - intros info Hinfo. apply list_elem_of_In, Hin in Hinfo as [n Hn]. eauto.
Qed.

Lemma entryPasses_iff (cs : CheckSummary) (info : IssueInfo) :
  entryPasses cs info = true
  <-> (Children info = [] -> Progress info = EmojiVerified)
      /\ (forall c, c ∈ Children info ->
            exists child, Issues cs !! c = Some child /\ Progress child = EmojiVerified).
Proof.
  unfold entryPasses, verified. destruct (Children info) as [|c0 children] eqn:Hc.
  - simpl. rewrite String.eqb_eq. split.
    + intros H. split; [auto|]. intros c Hin. by apply elem_of_nil in Hin.
    + intros [H _]. auto.
  - change (0 <? length (c0 :: children))%nat with true. cbv iota.
    rewrite forallb_forall. split.
    + intros H. split; [discriminate|]. intros c Hin.
      apply list_elem_of_In, H in Hin. unfold childVerified, verified in Hin.
      destruct (Issues cs !! c) as [child|]; [|discriminate].
      exists child. split; [done|]. by apply String.eqb_eq.
    + intros [_ H] c Hin. apply list_elem_of_In, H in Hin as (child & Hchild & Hv).
      unfold childVerified, verified. rewrite Hchild. by apply String.eqb_eq.
Qed.

(** C1. For the summary a run of [check] displays, with the map of the
    issues ranged over in any order: the line "All checks passed" is
    printed exactly when no pull request is unlinked, every issue
    without children is verified, and every child listed under an
    issue is verified. The progress of an issue that has children is
    not part of its own test: one more unlinked pull request makes the
    verdict false, and so does a single unverified child, whatever the
    progress of its parent. *)
Theorem readiness_verdict (fuel : nat) (ro : rangeOrder) (env : Env)
    (repoFlag issuesRepoFlag : string) (summary : CheckSummary)
    (commitsInPRs : gmap string bool) (ready : bool) :
  validOrder ro ->
  runCheck fuel ro env repoFlag issuesRepoFlag
    = Ret (Ok (Reported summary commitsInPRs ready)) ->
  (ready = true
   <-> UnlinkedPRs summary = []
       /\ (forall n info, Issues summary !! n = Some info ->
             Children info = [] -> Progress info = EmojiVerified)
       /\ (forall n info c, Issues summary !! n = Some info ->
             c ∈ Children info ->
             exists child, Issues summary !! c = Some child
                           /\ Progress child = EmojiVerified))
  /\ (forall prURL, Display ro (addUnlinked summary prURL) = Ret false)
  /\ (forall n info c child,
        Issues summary !! n = Some info ->
        c ∈ Children info ->
        Issues summary !! c = Some child ->
        Progress child <> EmojiVerified ->
        ready = false).
Proof.
  intros Hro Hrun.
  apply runCheck_reported in Hrun
    as (client & repo & latestRelease & commits & prNumbers & processed
        & _ & _ & _ & Hprs & _ & Hsummary & Hdisplay).
  apply processPRs_invariant in Hprs as [_ Hknown].
  specialize (Hknown (childrenKnown_new issuesRepoFlag)).
  pose proof (findOrphans_spec repo commits commitsInPRs processed) as (_ & Hissues & _).
  cbv zeta in Hissues. rewrite <- Hsummary in Hissues.
  assert (Hknown' : childrenKnown summary).
  { intros n info c. rewrite Hissues. apply Hknown. }
  destruct (Display_result ro summary Hro Hknown') as (ready' & Hready & Hiff).
  rewrite Hdisplay in Hready. injection Hready as <-.
  assert (Hiff' : ready = true
            <-> UnlinkedPRs summary = []
                /\ (forall n info, Issues summary !! n = Some info ->
                      Children info = [] -> Progress info = EmojiVerified)
                /\ (forall n info c, Issues summary !! n = Some info ->
                      c ∈ Children info ->
                      exists child, Issues summary !! c = Some child
                                    /\ Progress child = EmojiVerified)).
  { rewrite Hiff. split.
    - intros [Hu Hall]. split; [done|]. split.
      + intros n info Hn. by apply (entryPasses_iff summary info), (Hall n).
      + intros n info c Hn. by apply (entryPasses_iff summary info), (Hall n).
    - intros (Hu & Hleaf & Hchild). split; [done|].
      intros n info Hn. apply entryPasses_iff. split; eauto. }
  split; [exact Hiff'|]. split.
  - intros prURL.
    destruct (Display_result ro (addUnlinked summary prURL) Hro Hknown')
      as (r & Hr & Hr').
    rewrite Hr. f_equal. destruct r; [|done].
    destruct (proj1 Hr' eq_refl) as [Hu _]. simpl in Hu.
    by apply app_eq_nil in Hu as [_ Hu].
  - intros n info c child Hn Hc Hchild Hnot.
    destruct ready; [|done]. exfalso.
    destruct (proj1 Hiff' eq_refl) as (_ & _ & Hall).
    destruct (Hall n info c Hn Hc) as (child' & Hchild' & Hv). congruence.
Qed.

Lemma readiness_verdict_witness :
  validOrder keyOrder
  /\ runCheck 3 keyOrder checkEnv "" "NethServer/dev"
     = Ret (Ok (Reported checkedSummary {[ "c1" := true ]} true))
  /\ forall prURL, Display keyOrder (addUnlinked checkedSummary prURL) = Ret false.
Proof.
  split; [exact keyOrder_valid|]. split; [exact checkEnv_run|].
  exact (proj1 (proj2 (readiness_verdict 3 keyOrder checkEnv "" "NethServer/dev"
                         checkedSummary {[ "c1" := true ]} true
                         keyOrder_valid checkEnv_run))).
Defined.

End Verdict.

(** ** Matching: the building blocks *)

Section Matching.
Import regexp.

Lemma advance_0 (t : thread) : advance 0 t = t.
Proof. destruct t. unfold advance. simpl. f_equal. lia. Qed.

Lemma advance_advance (a b : nat) (t : thread) :
  advance a (advance b t) = advance (b + a) t.
Proof. unfold advance. simpl. f_equal; [lia|]. by rewrite drop_drop. Qed.

Lemma flat_map_map {A B C : Type} (f : B -> list C) (g : A -> B) (l : list A) :
  flat_map f (map g l) = flat_map (fun x => f (g x)) l.
Proof. induction l as [|x l IH]; simpl; [done|]. by rewrite IH. Qed.

Lemma flat_map_flat_map {A B C : Type} (f : B -> list C) (g : A -> list B) (l : list A) :
  flat_map f (flat_map g l) = flat_map (fun x => flat_map f (g x)) l.
Proof. induction l as [|x l IH]; simpl; [done|]. by rewrite flat_map_app, IH. Qed.

Lemma head_map {A B : Type} (f : A -> B) (l : list A) :
  head (map f l) = option_map f (head l).
Proof. by destruct l. Qed.

Lemma take_drop_middle3 {A : Type} (a b c : list A) (n m : nat) :
  n = length a -> m = length b -> take m (drop n (a ++ b ++ c)) = b.
Proof. intros -> ->. by rewrite drop_app_length, take_app_length. Qed.

Lemma flat_map_none {A B : Type} (f : A -> list B) (l : list A) :
  (forall x, In x l -> f x = []) -> flat_map f l = [].
Proof.
  induction l as [|x l IH]; intros H; simpl; [done|].
  rewrite (H x) by (by left). apply IH. intros y Hy. apply H. by right.
Qed.

(** A run of literal characters. *)
Definition lits (l : list ascii) : node := catOf (map Lit l).

Lemma run_Lit (c : ascii) (t : thread) :
  run (Lit c) t =
  match rest t with
  | c' :: _ => if Ascii.eqb c c' then [advance 1 t] else []
  | [] => []
  end.
Proof. reflexivity. Qed.

Lemma run_Cat (r1 r2 : node) (t : thread) :
  run (Cat r1 r2) t = flat_map (run r2) (run r1 t).
Proof. reflexivity. Qed.

Lemma run_Class (ranges : list (ascii * ascii)) (t : thread) :
  run (Class ranges) t =
  match rest t with
  | c' :: _ => if inClass ranges c' then [advance 1 t] else []
  | [] => []
  end.
Proof. reflexivity. Qed.

Lemma run_Plus (r : node) (t : thread) :
  run (Plus r) t = flat_map (fun t' => starFrom (run r) (length (rest t')) t') (run r t).
Proof. reflexivity. Qed.

Lemma run_Star (r : node) (t : thread) :
  run (Star r) t = starFrom (run r) (length (rest t)) t.
Proof. reflexivity. Qed.

Lemma run_Capture (i : nat) (r : node) (t : thread) :
  run (Capture i r) t = map (fun t' => setCap i (pos t) (pos t') t') (run r t).
Proof. reflexivity. Qed.

Lemma starFrom_S (step : thread -> list thread) (n : nat) (t : thread) :
  starFrom step (S n) t =
  flat_map (fun t' => if (pos t <? pos t')%nat then starFrom step n t' else []) (step t)
  ++ [t].
Proof. reflexivity. Qed.

Lemma rest_advance (n : nat) (t : thread) : rest (advance n t) = drop n (rest t).
Proof. reflexivity. Qed.

Lemma pos_advance (n : nat) (t : thread) : pos (advance n t) = (pos t + n)%nat.
Proof. reflexivity. Qed.

Lemma rest_setCap (i a b : nat) (t : thread) : rest (setCap i a b t) = rest t.
Proof. reflexivity. Qed.

Lemma pos_setCap (i a b : nat) (t : thread) : pos (setCap i a b t) = pos t.
Proof. reflexivity. Qed.

Lemma run_lits (l : list ascii) (t : thread) :
  run (lits l) t = if gostrings.hasPrefix l (rest t) then [advance (length l) t] else [].
Proof.
  revert t. induction l as [|c l IH]; intros t.
  - simpl. by rewrite advance_0.
  - destruct l as [|c2 l].
    + unfold lits. simpl map. simpl catOf. rewrite run_Lit. simpl.
      destruct (rest t) as [|c' s]; [done|].
      rewrite andb_true_r. by destruct (Ascii.eqb c c').
    + change (lits (c :: c2 :: l)) with (Cat (Lit c) (lits (c2 :: l))).
      rewrite run_Cat, run_Lit.
      change (gostrings.hasPrefix (c :: c2 :: l) (rest t))
        with (match rest t with
              | [] => false
              | b :: s' => Ascii.eqb c b && gostrings.hasPrefix (c2 :: l) s'
              end).
      destruct (rest t) as [|c' s] eqn:Hrest; [done|].
      destruct (Ascii.eqb c c'); [|done].
      simpl flat_map. rewrite app_nil_r, IH, rest_advance, Hrest.
      change (drop 1 (c' :: s)) with s. cbn [andb].
      destruct (gostrings.hasPrefix (c2 :: l) s); [|done].
      rewrite advance_advance. reflexivity.
Qed.

(** The number of leading characters of [s] in the class. *)
Fixpoint span (ranges : list (ascii * ascii)) (s : list ascii) : nat :=
  match s with
  | c :: s' => if inClass ranges c then S (span ranges s') else 0%nat
  | [] => 0%nat
  end.

(** The threads [m], [m - 1], ..., 1 characters further than [t]. *)
Fixpoint countdown (t : thread) (m : nat) : list thread :=
  match m with
  | O => []
  | S m' => advance (S m') t :: countdown t m'
  end.

Lemma span_le (ranges : list (ascii * ascii)) (s : list ascii) :
  (span ranges s <= length s)%nat.
Proof. induction s as [|c s IH]; simpl; [lia|]. destruct (inClass ranges c); simpl; lia. Qed.

Lemma countdown_shift (t : thread) (m : nat) :
  countdown (advance 1 t) m ++ [advance 1 t] = countdown t (S m).
Proof.
  induction m as [|m IH]; [done|].
  change (countdown (advance 1 t) (S m))
    with (advance (S m) (advance 1 t) :: countdown (advance 1 t) m).
  rewrite <- app_comm_cons, IH, advance_advance. reflexivity.
Qed.

Lemma starFrom_class (ranges : list (ascii * ascii)) (n : nat) (t : thread) :
  (length (rest t) <= n)%nat ->
  starFrom (run (Class ranges)) n t = countdown t (span ranges (rest t)) ++ [t].
Proof.
  revert t. induction n as [|n IH]; intros t Hn.
  - destruct (rest t); [done|simpl in Hn; lia].
  - rewrite starFrom_S, run_Class. destruct (rest t) as [|c s] eqn:Hrest; [done|].
    cbn [span]. destruct (inClass ranges c); [|done].
    cbn [flat_map]. rewrite app_nil_r, pos_advance.
    replace (pos t <? pos t + 1)%nat with true by (symmetry; apply Nat.ltb_lt; lia).
    assert (Hs : rest (advance 1 t) = s) by (by rewrite rest_advance, Hrest).
    rewrite IH by (rewrite Hs; simpl in Hn; lia).
    rewrite Hs, <- app_assoc.
    rewrite (app_assoc _ [advance 1 t] [t]), countdown_shift. reflexivity.
Qed.

Lemma run_plus_class (ranges : list (ascii * ascii)) (t : thread) :
  run (Plus (Class ranges)) t = countdown t (span ranges (rest t)).
Proof.
  rewrite run_Plus, run_Class. destruct (rest t) as [|c s] eqn:Hrest; [done|].
  cbn [span]. destruct (inClass ranges c); [|done].
  cbn [flat_map]. rewrite app_nil_r.
  assert (Hs : rest (advance 1 t) = s) by (by rewrite rest_advance, Hrest).
  rewrite starFrom_class by done. rewrite Hs. apply countdown_shift.
Qed.

Lemma flat_map_countdown (f : thread -> list thread) (t : thread) (m : nat) :
  (forall k, (1 <= k < m)%nat -> f (advance k t) = []) ->
  flat_map f (countdown t m) = match m with O => [] | S _ => f (advance m t) end.
Proof.
  destruct m as [|m]; [done|]. intros H. simpl.
  rewrite flat_map_none; [by rewrite app_nil_r|].
  intros u Hu. clear -H Hu.
  assert (Hall : forall j, (j <= m)%nat -> In u (countdown t j) -> f u = []).
  { induction j as [|j IH]; intros Hj; simpl; [done|].
    intros [<-|Hin]; [apply H; lia|]. apply IH; [lia|done]. }
  by apply (Hall m).
Qed.

End Matching.

(** Equality of two lists that differ in how they are bracketed. *)
Ltac list_assoc :=
  repeat first [ rewrite <- app_assoc | progress cbn [app] ]; reflexivity.

(** Brings [rest] and [pos] of a thread reached by [advance] and
    [setCap] back to those of the thread it came from. *)
Ltac thread_norm :=
  repeat first [ rewrite rest_advance | rewrite rest_setCap
               | rewrite pos_advance | rewrite pos_setCap ].

Section Runes.

(** The bytes of a rune after its first are not ASCII. *)
Lemma runeWidth_high (s : list ascii) (k : nat) :
  (0 < k < utf8.runeWidth s)%nat ->
  exists c, s !! k = Some c /\ (128 <= nat_of_ascii c)%nat.
Proof.
  unfold utf8.runeWidth, utf8.isCont, utf8.inRange.
  destruct s as [|b0 t]; [lia|].
  repeat match goal with
         | |- context [if ?c then _ else _] => destruct c eqn:?
         | |- context [match ?l with [] => _ | _ :: _ => _ end] => destruct l
         end;
    intros Hk; try lia;
    repeat match goal with
           | H : (_ && _) = true |- _ => apply andb_true_iff in H as [? ?]
           | H : (_ <=? _)%nat = true |- _ => apply Nat.leb_le in H
           end;
    (destruct k as [|[|[|[|k]]]]; try lia; simpl; eexists; (split; [reflexivity|lia])).
Qed.

Lemma runeWidth_pos (c : ascii) (s : list ascii) : (1 <= utf8.runeWidth (c :: s))%nat.
Proof.
  unfold utf8.runeWidth.
  repeat match goal with
         | |- context [if ?c then _ else _] => destruct c
         | |- context [match ?l with [] => _ | _ :: _ => _ end] => destruct l
         end; lia.
Qed.

(** A rune does not reach over an ASCII byte. *)
Lemma runeWidth_before_ascii (p s : list ascii) (a : ascii) :
  p <> [] ->
  (nat_of_ascii a < 128)%nat ->
  (utf8.runeWidth (p ++ a :: s) <= length p)%nat.
Proof.
  intros Hp Ha.
  destruct (Nat.le_gt_cases (utf8.runeWidth (p ++ a :: s)) (length p)) as [|Hgt]; [done|].
  destruct (runeWidth_high (p ++ a :: s) (length p)) as (c & Hc & Hhigh).
  { split; [|done]. destruct p; [done|simpl; lia]. }
  rewrite list_lookup_middle in Hc by done. injection Hc as <-. lia.
Qed.

Lemma runeWidth_ascii (a : ascii) (s : list ascii) :
  (nat_of_ascii a < 128)%nat -> utf8.runeWidth (a :: s) = 1%nat.
Proof.
  intros Ha. unfold utf8.runeWidth.
  by replace (nat_of_ascii a <? 128)%nat with true by (symmetry; by apply Nat.ltb_lt).
Qed.

End Runes.

(** ** The pattern of [incrementTestingNumber] *)

Section TestingPattern.
Import regexp.

Definition testingSuffix : list ascii := list_ascii_of_string "-testing.".

Definition testingRegexp : Regexp :=
  {| prog :=
       Cat BeginText
         (Cat (Capture 1 (Cat (Star AnyNotNL) (lits testingSuffix)))
              (Cat (Capture 2 (Plus digitClass)) EndText));
     NumSubexp := 2 |}.

Lemma compile_testing : MustCompile "^(.*-testing\.)(\d+)$" = Ret testingRegexp.
Proof. reflexivity. Qed.

Definition digitRanges : list (ascii * ascii) := [("0"%char, "9"%char)].

Lemma inClass_digit (c : ascii) : inClass digitRanges c = Go.isDigit c.
Proof. unfold inClass, digitRanges, Go.isDigit. simpl. by rewrite orb_false_r. Qed.

Lemma forallb_digit (ds : list ascii) :
  forallb (inClass digitRanges) ds = strconv.allDigits ds.
Proof.
  unfold strconv.allDigits. induction ds as [|c ds IH]; cbn [forallb]; [done|].
  by rewrite inClass_digit, IH.
Qed.

Lemma span_all (ranges : list (ascii * ascii)) (s : list ascii) :
  span ranges s = length s <-> forallb (inClass ranges) s = true.
Proof.
  induction s as [|c s IH]; simpl; [done|].
  destruct (inClass ranges c); simpl; [|split; [lia|discriminate]].
  rewrite <- IH. lia.
Qed.

Lemma hasPrefix_app (p s : list ascii) :
  gostrings.hasPrefix p s = true <-> exists r, s = p ++ r.
Proof.
  revert s. induction p as [|a p IH]; intros s; simpl.
  - split; [eauto|done].
  - destruct s as [|b s]; [split; [done|intros [r Hr]; discriminate]|].
    rewrite andb_true_iff, IH. split.
    + intros [Hab [r ->]]. apply Ascii.eqb_eq in Hab as ->. eauto.
    + intros [r Hr]. injection Hr as -> ->. split; [apply Ascii.eqb_refl|eauto].
Qed.

(** A group of class characters that must reach the end of the text. *)
Lemma run_class_to_end (i : nat) (ranges : list (ascii * ascii)) (v : thread) :
  run (Cat (Capture i (Plus (Class ranges))) EndText) v =
  if (0 <? length (rest v))%nat && forallb (inClass ranges) (rest v)
  then [setCap i (pos v) (pos v + length (rest v)) (advance (length (rest v)) v)]
  else [].
Proof.
  rewrite run_Cat, run_Capture, run_plus_class, flat_map_map.
  pose proof (span_le ranges (rest v)) as Hle.
  rewrite flat_map_countdown.
  2:{ intros k Hk. cbn [run rest setCap]. rewrite rest_advance.
      destruct (drop k (rest v)) eqn:Hdrop; [|done].
      apply (f_equal length) in Hdrop. rewrite length_drop in Hdrop. simpl in Hdrop. lia. }
  pose proof (span_all ranges (rest v)) as Hall.
  destruct (span ranges (rest v)) as [|m] eqn:Hspan.
  - destruct (rest v) as [|c s]; [done|].
    change (0 <? length (c :: s))%nat with true. cbn [andb].
    destruct (forallb (inClass ranges) (c :: s)); [|done].
    destruct Hall as [_ Hall]. specialize (Hall eq_refl). discriminate.
  - cbn [run rest setCap]. rewrite rest_advance, pos_advance.
    destruct (forallb (inClass ranges) (rest v)).
    + destruct Hall as [_ Hall]. rewrite <- (Hall eq_refl).
      rewrite andb_true_r. replace (0 <? S m)%nat with true by done.
      rewrite (Hall eq_refl), drop_all. reflexivity.
    + rewrite andb_false_r.
      destruct (drop (S m) (rest v)) eqn:Hdrop; [|done].
      apply (f_equal length) in Hdrop. rewrite length_drop in Hdrop. simpl in Hdrop.
      assert (S m = length (rest v)) as Heq by lia.
      apply Hall in Heq. discriminate.
Qed.

(** Where group 1 may end: before the text there is "-testing." and
    then digits up to the end. *)
Definition suffixHere (s : list ascii) : bool :=
  gostrings.hasPrefix testingSuffix s
  && (0 <? length (drop 9 s))%nat
  && forallb (inClass digitRanges) (drop 9 s).

Lemma suffixHere_form (s : list ascii) :
  suffixHere s = true
  <-> exists ds, s = testingSuffix ++ ds /\ ds <> [] /\ strconv.allDigits ds = true.
Proof.
  unfold suffixHere. rewrite !andb_true_iff, hasPrefix_app, forallb_digit, Nat.ltb_lt. split.
  - intros [[[ds ->] Hlen] Hds]. change (drop 9 (testingSuffix ++ ds)) with ds in *.
    exists ds. split; [done|]. split; [|done]. intros ->. simpl in Hlen. lia.
  - intros (ds & -> & Hne & Hds). change (drop 9 (testingSuffix ++ ds)) with ds.
    split; [split; [eauto|]|done]. destruct ds; [done|simpl; lia].
Qed.

(** What follows the star within the pattern, for a group 1 that
    started at offset [a]. *)
Definition afterStar (a : nat) (u : thread) : list thread :=
  flat_map (run (Cat (Capture 2 (Plus digitClass)) EndText))
    (map (fun t' => setCap 1 a (pos t') t') (run (lits testingSuffix) u)).

Definition matched (a : nat) (u : thread) : thread :=
  let v := setCap 1 a (pos u + 9) (advance 9 u) in
  setCap 2 (pos v) (pos v + length (rest v)) (advance (length (rest v)) v).

Lemma afterStar_eq (a : nat) (u : thread) :
  afterStar a u = if suffixHere (rest u) then [matched a u] else [].
Proof.
  unfold afterStar, suffixHere. rewrite run_lits.
  destruct (gostrings.hasPrefix testingSuffix (rest u)); [|done].
  cbn [map flat_map]. rewrite app_nil_r.
  unfold digitClass. rewrite run_class_to_end. reflexivity.
Qed.

Lemma run_testing (t : thread) :
  run (prog testingRegexp) t =
  if (pos t =? 0)%nat
  then flat_map (afterStar (pos t)) (starFrom (run AnyNotNL) (length (rest t)) t)
  else [].
Proof.
  unfold testingRegexp, prog. rewrite run_Cat. cbn [run]. fold run.
  destruct (pos t =? 0)%nat; [|done].
  cbn [flat_map]. rewrite app_nil_r.
  rewrite flat_map_map, flat_map_flat_map. unfold afterStar.
  apply flat_map_ext. intros u. by rewrite flat_map_map.
Qed.

End TestingPattern.

Section TestingSearch.
Import regexp.

Lemma run_AnyNotNL (t : thread) :
  run AnyNotNL t =
  match rest t with
  | c' :: _ =>
    if Ascii.eqb c' newline then [] else [advance (utf8.runeWidth (rest t)) t]
  | [] => []
  end.
Proof. reflexivity. Qed.

Lemma suffixHere_dash (s : list ascii) :
  suffixHere s = true -> exists s', s = "-"%char :: s'.
Proof. intros H. apply suffixHere_form in H as (ds & -> & _). eexists. reflexivity. Qed.

Lemma suffixHere_needs_dash (s : list ascii) (k : nat) :
  suffixHere (drop k s) = true -> "-"%char ∈ s.
Proof.
  intros H. apply suffixHere_dash in H as [s' Hs'].
  rewrite <- (take_drop k s), Hs'. apply elem_of_app. right. apply elem_of_cons. auto.
Qed.

Lemma digit_not_dash (ds : list ascii) :
  strconv.allDigits ds = true -> "-"%char ∉ ds.
Proof.
  intros Hds Hin. unfold strconv.allDigits in Hds. rewrite forallb_forall in Hds.
  apply list_elem_of_In, Hds in Hin. discriminate.
Qed.

Lemma digit_not_dot (ds : list ascii) :
  strconv.allDigits ds = true -> "."%char ∉ ds.
Proof.
  intros Hds Hin. unfold strconv.allDigits in Hds. rewrite forallb_forall in Hds.
  apply list_elem_of_In, Hds in Hin. discriminate.
Qed.

(** The suffix pattern stands at one place only. *)
Lemma suffixHere_once (p ds : list ascii) :
  p <> [] ->
  strconv.allDigits ds = true ->
  suffixHere (p ++ testingSuffix ++ ds) = false.
Proof.
  intros Hp Hds. destruct (suffixHere _) eqn:Hhere; [|done]. exfalso.
  apply suffixHere_form in Hhere as (ds' & Heq & _ & Hds').
  apply (f_equal (drop 9)) in Heq. change (drop 9 (testingSuffix ++ ds')) with ds' in Heq.
  change testingSuffix with (list_ascii_of_string "-testing" ++ ["."%char]) in Heq.
  rewrite <- app_assoc, app_assoc in Heq.
  rewrite drop_app_le in Heq.
  2:{ rewrite length_app. destruct p; [done|]. simpl. lia. }
  apply (digit_not_dot ds' Hds'). rewrite <- Heq.
  apply elem_of_app. right. apply elem_of_app. left. apply list_elem_of_singleton. done.
Qed.

Lemma star_dot_nothing (a n : nat) (t : thread) :
  (forall k, suffixHere (drop k (rest t)) = false) ->
  flat_map (afterStar a) (starFrom (run AnyNotNL) n t) = [].
Proof.
  revert t. induction n as [|n IH]; intros t Hnone;
    assert (H0 : suffixHere (rest t) = false) by exact (Hnone 0%nat).
  - simpl. by rewrite app_nil_r, afterStar_eq, H0.
  - rewrite starFrom_S, flat_map_app. cbn [flat_map].
    rewrite app_nil_r, afterStar_eq, H0, app_nil_r.
    rewrite run_AnyNotNL. destruct (rest t) as [|c s] eqn:Hrest; [done|].
    destruct (Ascii.eqb c newline); [done|].
    cbn [flat_map]. rewrite app_nil_r.
    destruct (pos t <? _)%nat; [|done].
    apply IH. intros k. rewrite rest_advance, drop_drop, Hrest. apply Hnone.
Qed.

Lemma star_dot_found (a n : nat) (t : thread) (p ds : list ascii) :
  rest t = p ++ testingSuffix ++ ds ->
  newline ∉ p ->
  ds <> [] ->
  strconv.allDigits ds = true ->
  (length (rest t) <= n)%nat ->
  flat_map (afterStar a) (starFrom (run AnyNotNL) n t) = [matched a (advance (length p) t)].
Proof.
  revert t p. induction n as [|n IH]; intros t p Hrest Hnl Hne Hds Hn.
  { rewrite Hrest, length_app in Hn. simpl in Hn. lia. }
  assert (Hhere : suffixHere (testingSuffix ++ ds) = true).
  { apply suffixHere_form. eauto. }
  rewrite starFrom_S, flat_map_app. cbn [flat_map]. rewrite app_nil_r, afterStar_eq.
  rewrite run_AnyNotNL.
  destruct p as [|c p].
  - rewrite Hrest. cbn [app]. rewrite Hhere.
    change (testingSuffix ++ ds) with ("-"%char :: list_ascii_of_string "testing." ++ ds).
    cbv iota. rewrite runeWidth_ascii by (by apply Nat.ltb_lt).
    change (Ascii.eqb "-" newline) with false. cbv iota.
    cbn [flat_map]. rewrite app_nil_r, pos_advance.
    replace (pos t <? pos t + 1)%nat with true by (symmetry; apply Nat.ltb_lt; lia).
    rewrite star_dot_nothing; [by rewrite advance_0|].
    intros k. rewrite rest_advance, Hrest.
    change (drop 1 ([] ++ testingSuffix ++ ds)) with (list_ascii_of_string "testing." ++ ds).
    destruct (suffixHere (drop k _)) eqn:Hk; [|done]. exfalso.
    apply suffixHere_needs_dash in Hk as Hin.
    apply elem_of_app in Hin as [Hin|Hin]; [|by apply (digit_not_dash ds)].
    simpl in Hin. repeat (apply elem_of_cons in Hin as [Hin|Hin]; [discriminate|]).
    by apply elem_of_nil in Hin.
  - assert (Hnot : suffixHere (rest t) = false) by (rewrite Hrest; by apply suffixHere_once).
    assert (Hw1 : (1 <= utf8.runeWidth (rest t))%nat) by (rewrite Hrest; apply runeWidth_pos).
    assert (Hw : (utf8.runeWidth (rest t) <= length (c :: p))%nat).
    { rewrite Hrest.
      change (testingSuffix ++ ds) with ("-"%char :: list_ascii_of_string "testing." ++ ds).
      apply runeWidth_before_ascii; [done|by apply Nat.ltb_lt]. }
    rewrite Hnot, app_nil_r.
    remember (utf8.runeWidth (rest t)) as w eqn:Ew.
    assert (Hfirst : exists s, rest t = c :: s) by (rewrite Hrest; eauto).
    destruct Hfirst as [s Hs]. rewrite Hs.
    destruct (Ascii.eqb_spec c newline) as [->|Hc].
    { exfalso. apply Hnl, elem_of_cons. auto. }
    cbn [flat_map]. rewrite app_nil_r, pos_advance.
    replace (pos t <? pos t + w)%nat with true by (symmetry; apply Nat.ltb_lt; lia).
    rewrite (IH (advance w t) (drop w (c :: p))); try done.
    + rewrite advance_advance, length_drop.
      by replace (w + (length (c :: p) - w))%nat with (length (c :: p)) by lia.
    + rewrite rest_advance, Hrest. rewrite drop_app_le by done. reflexivity.
    + intros Hin. apply Hnl. rewrite <- (take_drop w (c :: p)). apply elem_of_app. auto.
    + rewrite rest_advance, length_drop. lia.
Qed.

(** The threads of the star: some bytes further, none of them a line
    feed. *)
Lemma starFrom_dot_in (n : nat) (t u : thread) :
  In u (starFrom (run AnyNotNL) n t) ->
  exists k, u = advance k t /\ (k <= length (rest t))%nat /\ newline ∉ take k (rest t).
Proof.
  revert t. induction n as [|n IH]; intros t.
  - simpl. intros [<-|[]]. exists 0%nat. rewrite advance_0. split; [done|].
    split; [lia|]. rewrite take_0. apply not_elem_of_nil.
  - rewrite starFrom_S, in_app_iff. intros [Hin|[<-|[]]].
    2:{ exists 0%nat. rewrite advance_0. split; [done|].
        split; [lia|]. rewrite take_0. apply not_elem_of_nil. }
    rewrite run_AnyNotNL in Hin. destruct (rest t) as [|c s] eqn:Hrest; [done|].
    destruct (Ascii.eqb_spec c newline) as [|Hc]; [done|].
    cbn [flat_map] in Hin. rewrite app_nil_r in Hin.
    destruct (pos t <? _)%nat; [|done].
    apply IH in Hin as (k & -> & Hk & Hnl).
    set (w := utf8.runeWidth (c :: s)) in *.
    assert (Hw1 : (1 <= w)%nat) by apply runeWidth_pos.
    assert (Hw : (w <= length (c :: s))%nat).
    { destruct (Nat.le_gt_cases w (length (c :: s))) as [|Hgt]; [done|].
      destruct (runeWidth_high (c :: s) (length (c :: s))) as (x & Hx & _).
      { subst w. cbn [length] in *. lia. }
      rewrite lookup_ge_None_2 in Hx by done. discriminate. }
    rewrite rest_advance, Hrest in Hk, Hnl. rewrite length_drop in Hk.
    exists (w + k)%nat. split; [by rewrite advance_advance|]. split; [lia|].
    rewrite <- take_take_drop.
    intros Hin. apply elem_of_app in Hin as [Hin|Hin]; [|done].
    apply list_elem_of_lookup in Hin as [i Hi].
    apply lookup_take_Some in Hi as [Hi Hlt].
    destruct i as [|i].
    + simpl in Hi. injection Hi as ->. done.
    + destruct (runeWidth_high (c :: s) (S i)) as (x & Hx & Hhigh); [subst w; lia|].
      rewrite Hi in Hx. injection Hx as <-. apply Nat.leb_le in Hhigh. discriminate Hhigh.
Qed.

End TestingSearch.

Section TestingFind.
Import regexp.

Lemma searchFrom_eq (re : Regexp) (input : list ascii) (fuel p : nat) :
  searchFrom re input fuel p =
  match matchAt re input p with
  | Some t => Some t
  | None =>
    match fuel with
    | O => None
    | S fuel' =>
      if (p <? length input)%nat
      then searchFrom re input fuel' (p + utf8.runeWidth (drop p input))
      else None
    end
  end.
Proof. destruct fuel; reflexivity. Qed.

Lemma searchFrom_none (re : Regexp) (input : list ascii) (fuel p : nat) :
  (forall q, (p <= q)%nat -> matchAt re input q = None) ->
  searchFrom re input fuel p = None.
Proof.
  revert p. induction fuel as [|fuel IH]; intros p Hnone;
    rewrite searchFrom_eq, (Hnone p) by lia; [done|].
  destruct (p <? length input)%nat; [|done].
  apply IH. intros q Hq. apply Hnone. lia.
Qed.

Lemma matchAt_eq (re : Regexp) (input : list ascii) (p : nat) :
  matchAt re input p =
  head (map (fun t' => setCap 0 p (pos t') t') (run (prog re) (startThread re input p))).
Proof. reflexivity. Qed.

Lemma matchAt_testing_later (input : list ascii) (p : nat) :
  (1 <= p)%nat -> matchAt testingRegexp input p = None.
Proof.
  intros Hp. rewrite matchAt_eq, run_testing.
  replace (pos (startThread testingRegexp input p) =? 0)%nat with false; [done|].
  symmetry. apply Nat.eqb_neq. simpl. lia.
Qed.

Lemma list_string_inv (l : list ascii) : list_ascii_of_string (string_of_list_ascii l) = l.
Proof. apply list_ascii_of_string_of_list_ascii. Qed.

Lemma list_of_append (a b : string) :
  list_ascii_of_string (a +:+ b) = list_ascii_of_string a ++ list_ascii_of_string b.
Proof. induction a as [|c a IH]; simpl; [done|]. by rewrite IH. Qed.

Lemma string_of_app (a b : list ascii) :
  string_of_list_ascii (a ++ b) = string_of_list_ascii a +:+ string_of_list_ascii b.
Proof. induction a as [|c a IH]; simpl; [done|]. by rewrite IH. Qed.

(** The submatches of a tag of the form [p ++ "-testing." ++ ds]. *)
Lemma find_testing (p ds : list ascii) :
  newline ∉ p ->
  ds <> [] ->
  strconv.allDigits ds = true ->
  FindStringSubmatch testingRegexp (string_of_list_ascii (p ++ testingSuffix ++ ds)) =
  [ string_of_list_ascii (p ++ testingSuffix ++ ds);
    string_of_list_ascii (p ++ testingSuffix);
    string_of_list_ascii ds ].
Proof.
  intros Hnl Hne Hds. unfold FindStringSubmatch, doExecute.
  rewrite list_string_inv. set (input := p ++ testingSuffix ++ ds).
  rewrite searchFrom_eq, matchAt_eq, run_testing.
  change (pos (startThread testingRegexp input 0) =? 0)%nat with true. cbv iota.
  rewrite (star_dot_found _ _ _ p ds); try done.
  cbn [map head]. unfold submatches, matched.
  cbn -[string_of_list_ascii testingSuffix Nat.sub length].
  rewrite !drop_drop, !Nat.add_0_l, !Nat.sub_0_r.
  assert (Hlen : length (drop (length p + 9) input) = length ds).
  { subst input. rewrite app_assoc, drop_app_length'; [done|]. by rewrite length_app. }
  rewrite Hlen.
  replace (length p + 9 + length ds - (length p + 9))%nat with (length ds) by lia.
  replace (length p + 9 + length ds)%nat with (length input)
    by (subst input; rewrite !length_app; simpl; lia).
  rewrite firstn_all, !drop_0. f_equal. f_equal; [|f_equal].
  - subst input. rewrite app_assoc, take_app_length'; [done|]. by rewrite length_app.
  - subst input. rewrite app_assoc, drop_app_length' by (by rewrite length_app).
    by rewrite firstn_all.
Qed.

(** A tag that has no such form has no match. *)
Lemma find_testing_none (input : list ascii) :
  (forall p ds, input = p ++ testingSuffix ++ ds ->
                newline ∉ p -> ds <> [] -> strconv.allDigits ds = true -> False) ->
  FindStringSubmatch testingRegexp (string_of_list_ascii input) = [].
Proof.
  intros Hform. unfold FindStringSubmatch, doExecute. rewrite list_string_inv.
  rewrite searchFrom_none; [done|]. intros q _.
  destruct q as [|q]; [|apply matchAt_testing_later; lia].
  rewrite matchAt_eq, run_testing.
  change (pos (startThread testingRegexp input 0) =? 0)%nat with true. cbv iota.
  rewrite flat_map_none; [done|]. intros u Hu.
  apply starFrom_dot_in in Hu as (k & -> & Hk & Hnl).
  rewrite afterStar_eq, rest_advance.
  destruct (suffixHere _) eqn:Hhere; [|done]. exfalso.
  apply suffixHere_form in Hhere as (ds & Heq & Hne & Hds).
  change (rest (startThread testingRegexp input 0)) with input in *.
  apply (Hform (take k input) ds); try done.
  by rewrite <- Heq, take_drop.
Qed.

End TestingFind.

(** ** The pattern of [incrementPatchAndAddTesting] *)

Section PatchPattern.
Import regexp.

Definition patchTriple : node :=
  Cat (Capture 1 (Plus (Class digitRanges)))
    (Cat (Lit ".")
       (Cat (Capture 2 (Plus (Class digitRanges)))
          (Cat (Lit ".") (Capture 3 (Plus (Class digitRanges)))))).

Definition patchRegexp : Regexp :=
  {| prog := Cat BeginText patchTriple; NumSubexp := 3 |}.

Lemma run_patch (t : thread) :
  run (prog patchRegexp) t = if (pos t =? 0)%nat then run patchTriple t else [].
Proof.
  unfold patchRegexp, prog. rewrite run_Cat. cbn [run].
  destruct (pos t =? 0)%nat; [|done]. cbn [flat_map]. by rewrite app_nil_r.
Qed.

Lemma compile_patch : MustCompile "^(\d+)\.(\d+)\.(\d+)" = Ret patchRegexp.
Proof. reflexivity. Qed.

Lemma span_drop_in (ranges : list (ascii * ascii)) (s : list ascii) (k : nat) :
  (k < span ranges s)%nat ->
  exists c s', drop k s = c :: s' /\ inClass ranges c = true.
Proof.
  revert k. induction s as [|c s IH]; intros k; simpl; [lia|].
  destruct (inClass ranges c) eqn:Hc; [|lia].
  destruct k as [|k]; [eauto|]. intros Hk. apply IH. lia.
Qed.

Lemma span_drop_out (ranges : list (ascii * ascii)) (s : list ascii) :
  match drop (span ranges s) s with
  | [] => True
  | c :: _ => inClass ranges c = false
  end.
Proof.
  induction s as [|c s IH]; simpl; [done|].
  destruct (inClass ranges c) eqn:Hc; simpl; done.
Qed.

Lemma span_take (ranges : list (ascii * ascii)) (s : list ascii) :
  forallb (inClass ranges) (take (span ranges s) s) = true.
Proof.
  induction s as [|c s IH]; simpl; [done|].
  destruct (inClass ranges c) eqn:Hc; simpl; [|done]. by rewrite Hc.
Qed.

Lemma span_app_stop (ranges : list (ascii * ascii)) (a s : list ascii) :
  forallb (inClass ranges) a = true ->
  match s with [] => True | c :: _ => inClass ranges c = false end ->
  span ranges (a ++ s) = length a.
Proof.
  intros Ha Hs. induction a as [|c a IH]; simpl.
  - destruct s as [|c s]; [done|]. simpl. by rewrite Hs.
  - simpl in Ha. apply andb_true_iff in Ha as [Hc Ha]. rewrite Hc. f_equal. auto.
Qed.

(** A group of class characters followed by a literal outside the
    class: the group takes all the class characters there are. *)
Lemma run_group_then (i : nat) (ranges : list (ascii * ascii)) (c : ascii) (r : node)
    (v : thread) :
  inClass ranges c = false ->
  run (Cat (Capture i (Plus (Class ranges))) (Cat (Lit c) r)) v =
  if (0 <? span ranges (rest v))%nat then
    match drop (span ranges (rest v)) (rest v) with
    | c' :: _ =>
      if Ascii.eqb c c'
      then run r (advance 1 (setCap i (pos v) (pos v + span ranges (rest v))
                               (advance (span ranges (rest v)) v)))
      else []
    | [] => []
    end
  else [].
Proof.
  intros Hc. rewrite run_Cat, run_Capture, run_plus_class, flat_map_map.
  rewrite flat_map_countdown.
  2:{ intros k Hk. rewrite run_Cat, run_Lit. cbn [rest setCap]. rewrite rest_advance.
      destruct (span_drop_in ranges (rest v) k) as (c' & s' & -> & Hc'); [lia|].
      destruct (Ascii.eqb_spec c c') as [->|]; [congruence|done]. }
  destruct (span ranges (rest v)) as [|m]; [done|].
  change (0 <? S m)%nat with true. cbv iota.
  rewrite run_Cat, run_Lit. cbn [rest setCap]. rewrite rest_advance, pos_advance.
  destruct (drop (S m) (rest v)) as [|c' s']; [done|].
  destruct (Ascii.eqb c c'); [|done].
  cbn [flat_map]. by rewrite app_nil_r.
Qed.

Lemma run_group_last (i : nat) (ranges : list (ascii * ascii)) (v : thread) :
  head (run (Capture i (Plus (Class ranges))) v) =
  if (0 <? span ranges (rest v))%nat
  then Some (setCap i (pos v) (pos v + span ranges (rest v))
               (advance (span ranges (rest v)) v))
  else None.
Proof.
  rewrite run_Capture, run_plus_class. by destruct (span ranges (rest v)).
Qed.

Lemma length_pos {A : Type} (l : list A) : l <> [] -> (0 <? length l)%nat = true.
Proof. destruct l; [done|]. intros _. reflexivity. Qed.

Lemma dot_not_digit : inClass digitRanges "." = false.
Proof. reflexivity. Qed.

(** The preferred match at the start of a text that begins with three
    runs of digits separated by dots, the third run ending where [rest]
    begins. *)
Lemma find_patch (major minor patch rest_ : list ascii) :
  major <> [] -> minor <> [] -> patch <> [] ->
  strconv.allDigits major = true ->
  strconv.allDigits minor = true ->
  strconv.allDigits patch = true ->
  match rest_ with [] => True | c :: _ => Go.isDigit c = false end ->
  FindStringSubmatch patchRegexp
    (string_of_list_ascii (major ++ "."%char :: minor ++ "."%char :: patch ++ rest_)) =
  [ string_of_list_ascii (major ++ "."%char :: minor ++ "."%char :: patch);
    string_of_list_ascii major; string_of_list_ascii minor; string_of_list_ascii patch ].
Proof.
  intros Hmajor Hminor Hpatch Hd1 Hd2 Hd3 Hrest.
  rewrite <- forallb_digit in Hd1, Hd2, Hd3.
  assert (Hrest' : match rest_ with [] => True | c :: _ => inClass digitRanges c = false end).
  { destruct rest_; [done|]. by rewrite inClass_digit. }
  unfold FindStringSubmatch, doExecute. rewrite list_string_inv.
  set (input := major ++ "."%char :: minor ++ "."%char :: patch ++ rest_).
  assert (H1 : span digitRanges input = length major)
    by (subst input; by apply span_app_stop).
  assert (H2 : span digitRanges (minor ++ "."%char :: patch ++ rest_) = length minor)
    by (by apply span_app_stop).
  assert (H3 : span digitRanges (patch ++ rest_) = length patch) by (by apply span_app_stop).
  assert (Hdrop1 : drop (length major) input = "."%char :: minor ++ "."%char :: patch ++ rest_)
    by (subst input; by rewrite drop_app_length).
  rewrite searchFrom_eq, matchAt_eq, head_map, run_patch.
  change (pos (startThread patchRegexp input 0) =? 0)%nat with true. cbv iota.
  unfold patchTriple.
  rewrite run_group_then by exact dot_not_digit.
  change (rest (startThread patchRegexp input 0)) with input.
  rewrite H1, length_pos, Hdrop1 by done.
  change (Ascii.eqb "." ".") with true. cbv iota.
  rewrite run_group_then by exact dot_not_digit.
  thread_norm.
  change (rest (startThread patchRegexp input 0)) with input.
  rewrite Hdrop1. change (drop 1 ("."%char :: ?l)) with l.
  rewrite H2, length_pos, drop_app_length by done.
  change (Ascii.eqb "." ".") with true. cbv iota.
  rewrite run_group_last.
  thread_norm.
  change (rest (startThread patchRegexp input 0)) with input.
  rewrite Hdrop1. change (drop 1 ("."%char :: ?l)) with l.
  rewrite drop_app_length. change (drop 1 ("."%char :: ?l)) with l.
  rewrite H3, length_pos by done.
  cbn [option_map]. unfold submatches.
  cbn -[string_of_list_ascii Nat.sub length Nat.add take drop].
  rewrite !Nat.add_0_l, !Nat.sub_0_r.
  replace (length major + 1 + length minor - (length major + 1))%nat
    with (length minor) by lia.
  replace (length major + 1 + length minor + 1 + length patch
           - (length major + 1 + length minor + 1))%nat with (length patch) by lia.
  rewrite !drop_0.
  f_equal; [|f_equal; [|f_equal; [|f_equal]]]; f_equal.
  - replace input with ((major ++ "."%char :: minor ++ "."%char :: patch) ++ rest_)
      by (subst input; list_assoc).
    apply take_app_length'.
    rewrite !length_app. cbn [length]. rewrite !length_app. cbn [length]. lia.
  - subst input. apply take_app_length.
  - replace input with ((major ++ ["."%char]) ++ minor ++ "."%char :: patch ++ rest_)
      by (subst input; list_assoc).
    apply take_drop_middle3; [|done]. rewrite length_app. cbn [length]. lia.
  - replace input with ((major ++ "."%char :: minor ++ ["."%char]) ++ patch ++ rest_)
      by (subst input; list_assoc).
    apply take_drop_middle3; [|done].
    rewrite !length_app. cbn [length]. rewrite !length_app. cbn [length]. lia.
Qed.

End PatchPattern.

Section PatchNone.
Import regexp.

Lemma span_split (ranges : list (ascii * ascii)) (s : list ascii) :
  (0 <? span ranges s)%nat = true ->
  exists a b,
    s = a ++ b /\ a <> [] /\ forallb (inClass ranges) a = true
    /\ length a = span ranges s /\ b = drop (span ranges s) s.
Proof.
  intros Hpos. apply Nat.ltb_lt in Hpos.
  exists (take (span ranges s) s), (drop (span ranges s) s).
  split; [by rewrite take_drop|]. split.
  - intros Hnil. apply (f_equal length) in Hnil. rewrite length_take in Hnil.
    pose proof (span_le ranges s). simpl in Hnil. lia.
  - split; [apply span_take|]. split; [|done].
    rewrite length_take. pose proof (span_le ranges s). lia.
Qed.

(** A text that does not begin with three runs of digits separated by
    dots has no match. *)
Lemma find_patch_none (input : list ascii) :
  (forall major minor patch rest_,
     input = major ++ "."%char :: minor ++ "."%char :: patch ++ rest_ ->
     major <> [] -> minor <> [] -> patch <> [] ->
     strconv.allDigits major = true ->
     strconv.allDigits minor = true ->
     strconv.allDigits patch = true ->
     False) ->
  FindStringSubmatch patchRegexp (string_of_list_ascii input) = [].
Proof.
  intros Hform. unfold FindStringSubmatch, doExecute. rewrite list_string_inv.
  rewrite searchFrom_none; [done|]. intros q _.
  rewrite matchAt_eq, head_map, run_patch.
  destruct q as [|q]; [|done].
  change (pos (startThread patchRegexp input 0) =? 0)%nat with true. cbv iota.
  unfold patchTriple. rewrite run_group_then by exact dot_not_digit.
  change (rest (startThread patchRegexp input 0)) with input.
  destruct (0 <? span digitRanges input)%nat eqn:Hm1; [|done].
  apply span_split in Hm1 as (major & s1 & Hin & Hmajor & Hd1 & Hlen1 & Hs1).
  rewrite <- Hs1. destruct s1 as [|c1 s1]; [done|].
  destruct (Ascii.eqb_spec "." c1) as [<-|]; [|done].
  rewrite run_group_then by exact dot_not_digit. thread_norm.
  change (rest (startThread patchRegexp input 0)) with input.
  rewrite <- Hs1. change (drop 1 ("."%char :: s1)) with s1.
  destruct (0 <? span digitRanges s1)%nat eqn:Hm2; [|done].
  apply span_split in Hm2 as (minor & s2 & Hin2 & Hminor & Hd2 & Hlen2 & Hs2).
  rewrite <- Hs2. destruct s2 as [|c2 s2]; [done|].
  destruct (Ascii.eqb_spec "." c2) as [<-|]; [|done].
  rewrite run_group_last. thread_norm.
  change (rest (startThread patchRegexp input 0)) with input.
  rewrite <- Hs1. change (drop 1 ("."%char :: s1)) with s1.
  rewrite <- Hs2. change (drop 1 ("."%char :: s2)) with s2.
  destruct (0 <? span digitRanges s2)%nat eqn:Hm3; [|done].
  apply span_split in Hm3 as (patch & s3 & Hin3 & Hpatch & Hd3 & _ & _).
  exfalso. apply (Hform major minor patch s3); try done.
  - by rewrite Hin, Hin2, Hin3.
  - by rewrite <- forallb_digit.
  - by rewrite <- forallb_digit.
  - by rewrite <- forallb_digit.
Qed.

End PatchNone.

(** ** Numbers in decimal *)

Section Decimal.

Lemma digit_not_sign (c : ascii) :
  Go.isDigit c = true -> Ascii.eqb c "-" = false /\ Ascii.eqb c "+" = false.
Proof.
  intros Hc. split.
  - destruct (Ascii.eqb_spec c "-") as [->|]; [discriminate|done].
  - destruct (Ascii.eqb_spec c "+") as [->|]; [discriminate|done].
Qed.

Lemma Atoi_digits (ds : list ascii) :
  ds <> [] ->
  strconv.allDigits ds = true ->
  strconv.Atoi (string_of_list_ascii ds) =
  if Go.decimalValue ds <=? Go.MaxInt then Ok (Go.decimalValue ds)
  else Err "strconv.Atoi: parsing: value out of range".
Proof.
  intros Hne Hds. unfold strconv.Atoi. rewrite list_string_inv.
  destruct ds as [|c ds]; [done|].
  assert (Hc : Go.isDigit c = true).
  { unfold strconv.allDigits in Hds. simpl in Hds. by apply andb_true_iff in Hds as [? _]. }
  destruct (digit_not_sign c Hc) as [-> ->]. by rewrite Hds.
Qed.

Lemma decimalValue_nonneg (ds : list ascii) :
  strconv.allDigits ds = true -> 0 <= Go.decimalValue ds.
Proof.
  unfold Go.decimalValue, strconv.allDigits.
  assert (H : forall acc, 0 <= acc -> forallb Go.isDigit ds = true ->
            0 <= fold_left (fun acc c => 10 * acc + Go.digitVal c) ds acc).
  { induction ds as [|c ds IH]; intros acc Hacc Hds; simpl; [done|].
    simpl in Hds. apply andb_true_iff in Hds as [Hc Hds].
    apply IH; [|done]. unfold Go.digitVal, Go.isDigit in *.
    apply andb_true_iff in Hc as [Hc _]. apply Nat.leb_le in Hc. lia. }
  by apply H.
Qed.

Lemma wrap_small (z : Z) : Go.MinInt <= z <= Go.MaxInt -> Go.wrap z = z.
Proof.
  unfold Go.wrap, Go.MinInt, Go.MaxInt. intros Hz.
  rewrite Z.mod_small by lia. lia.
Qed.

Lemma append_assoc (a b c : string) : (a +:+ b) +:+ c = a +:+ b +:+ c.
Proof.
  induction a as [|x a IH]; [done|].
  change (String x ((a +:+ b) +:+ c) = String x (a +:+ b +:+ c)). by rewrite IH.
Qed.

Lemma string_list_inv (s : string) : string_of_list_ascii (list_ascii_of_string s) = s.
Proof. apply string_of_list_ascii_of_string. Qed.

Lemma list_of_string_nil (s : string) : list_ascii_of_string s = [] -> s = "".
Proof. by destruct s. Qed.

End Decimal.

(** ** Printing a number *)

Section Printing.

Let next (acc : Z) (c : ascii) : Z := 10 * acc + Go.digitVal c.

Lemma printed_from (d : Decimal.uint) (acc : positive) :
  fold_left next (list_ascii_of_string (NilEmpty.string_of_uint d)) (Z.pos acc)
  = Z.pos (Pos.of_uint_acc d acc)
  /\ strconv.allDigits (list_ascii_of_string (NilEmpty.string_of_uint d)) = true.
Proof.
  revert acc. induction d as [|d IH|d IH|d IH|d IH|d IH|d IH|d IH|d IH|d IH|d IH];
    intros acc; [done|..];
    cbn [NilEmpty.string_of_uint list_ascii_of_string fold_left Pos.of_uint_acc
         strconv.allDigits forallb];
    (split; [|exact (proj2 (IH acc))]);
    rewrite <- (proj1 (IH _)); f_equal; unfold next, Go.digitVal;
    match goal with
    | |- context [Z.of_nat (nat_of_ascii ?c)] =>
      let v := eval vm_compute in (Z.of_nat (nat_of_ascii c)) in
      change (Z.of_nat (nat_of_ascii c)) with v
    end; lia.
Qed.

Lemma printed_uint (d : Decimal.uint) :
  fold_left next (list_ascii_of_string (NilEmpty.string_of_uint d)) 0
  = Z.of_N (Pos.of_uint d)
  /\ strconv.allDigits (list_ascii_of_string (NilEmpty.string_of_uint d)) = true.
Proof.
  induction d as [|d IH|d IH|d IH|d IH|d IH|d IH|d IH|d IH|d IH|d IH]; [done|exact IH|..];
    cbn [NilEmpty.string_of_uint list_ascii_of_string fold_left Pos.of_uint
         strconv.allDigits forallb];
    (split; [|exact (proj2 (printed_from d 1))]);
    cbn [Z.of_N]; rewrite <- (proj1 (printed_from d _)); f_equal.
Qed.

(** [FormatInt] prints a number that is not negative as digits whose
    value is the number. *)
Lemma FormatInt_value (z : Z) :
  0 <= z ->
  strconv.allDigits (list_ascii_of_string (fmt.FormatInt z)) = true
  /\ Go.decimalValue (list_ascii_of_string (fmt.FormatInt z)) = z.
Proof.
  intros Hz. unfold fmt.FormatInt, Go.decimalValue.
  destruct z as [|p|p]; [done| |lia].
  cbn [Z.to_int NilZero.string_of_int].
  pose proof (DecimalPos.Unsigned.of_to p) as Hp.
  destruct (Pos.to_uint p) as [|d|d|d|d|d|d|d|d|d|d] eqn:Hd;
    try (cbn [NilZero.string_of_uint];
         match goal with |- context [NilEmpty.string_of_uint ?u] =>
           destruct (printed_uint u) as [Hv Hdigits] end;
         split; [exact Hdigits|];
         fold next; rewrite Hv, Hp; reflexivity).
  discriminate Hp.
Qed.

End Printing.

(** ** The next testing version *)

Section NextTestingVersion.
Import module_release.

(** A string of one or more decimal digits, its value, and a string
    without a line feed. *)
Definition decimal (digits : string) : Prop :=
  digits <> "" /\ strconv.allDigits (list_ascii_of_string digits) = true.

Definition valueOf (digits : string) : Z := Go.decimalValue (list_ascii_of_string digits).

Definition oneLine (s : string) : Prop := regexp.newline ∉ list_ascii_of_string s.

Lemma decimal_list (digits : string) :
  decimal digits ->
  list_ascii_of_string digits <> []
  /\ strconv.allDigits (list_ascii_of_string digits) = true.
Proof. intros [Hne Hds]. split; [|done]. intros H. by apply list_of_string_nil in H. Qed.

Lemma incrementTestingNumber_form (prefix digits : string) :
  oneLine prefix ->
  decimal digits ->
  incrementTestingNumber (prefix +:+ "-testing." +:+ digits) =
  Ret (if valueOf digits <=? Go.MaxInt
       then Ok ((prefix +:+ "-testing.") +:+ fmt.FormatInt (Go.wrap (valueOf digits + 1)))
       else Err ("failed to parse testing number: "
                 +:+ "strconv.Atoi: parsing: value out of range")).
Proof.
  intros Hline Hdec. destruct (decimal_list digits Hdec) as [Hne Hds].
  unfold incrementTestingNumber. rewrite compile_testing.
  unfold mbind, outcome_bind, Go.bind.
  rewrite <- (string_list_inv (prefix +:+ "-testing." +:+ digits)), !list_of_append.
  change (list_ascii_of_string "-testing.") with testingSuffix.
  rewrite find_testing by done.
  rewrite Atoi_digits by done. fold (valueOf digits).
  rewrite string_of_app, string_list_inv.
  by destruct (valueOf digits <=? Go.MaxInt).
Qed.

Lemma incrementTestingNumber_other (version : string) :
  (forall prefix digits,
     version = prefix +:+ "-testing." +:+ digits -> oneLine prefix -> decimal digits -> False) ->
  incrementTestingNumber version = Ret (Err ("invalid testing version format: " +:+ version)).
Proof.
  intros Hform. unfold incrementTestingNumber. rewrite compile_testing.
  unfold mbind, outcome_bind, Go.bind.
  rewrite <- (string_list_inv version) at 1.
  rewrite find_testing_none; [done|].
  intros p ds Hin Hnl Hne Hds.
  apply (Hform (string_of_list_ascii p) (string_of_list_ascii ds)).
  - rewrite <- (string_list_inv version), Hin, !string_of_app. reflexivity.
  - unfold oneLine. by rewrite list_string_inv.
  - split; [|by rewrite list_string_inv]. by destruct ds.
Qed.

Definition noLeadingDigit (s : string) : Prop :=
  match s with
  | EmptyString => True
  | String c _ => Go.isDigit c = false
  end.

Lemma incrementPatch_form (major minor patch rest_ : string) :
  decimal major -> decimal minor -> decimal patch -> noLeadingDigit rest_ ->
  incrementPatchAndAddTesting (major +:+ "." +:+ minor +:+ "." +:+ patch +:+ rest_) =
  Ret (if valueOf patch <=? Go.MaxInt
       then Ok (major +:+ "." +:+ minor +:+ "."
                +:+ fmt.FormatInt (Go.wrap (valueOf patch + 1)) +:+ "-testing.1")
       else Err ("failed to parse patch version: "
                 +:+ "strconv.Atoi: parsing: value out of range")).
Proof.
  intros H1 H2 H3 Hrest.
  destruct (decimal_list major H1) as [Hne1 Hd1].
  destruct (decimal_list minor H2) as [Hne2 Hd2].
  destruct (decimal_list patch H3) as [Hne3 Hd3].
  unfold incrementPatchAndAddTesting. rewrite compile_patch.
  unfold mbind, outcome_bind, Go.bind.
  rewrite <- (string_list_inv (major +:+ "." +:+ minor +:+ "." +:+ patch +:+ rest_)).
  rewrite !list_of_append. cbn [list_ascii_of_string app].
  rewrite find_patch; try done.
  2:{ destruct rest_; done. }
  rewrite Atoi_digits by done. fold (valueOf patch).
  rewrite !string_list_inv.
  by destruct (valueOf patch <=? Go.MaxInt).
Qed.

Lemma incrementPatch_other (version : string) :
  (forall major minor patch rest_,
     version = major +:+ "." +:+ minor +:+ "." +:+ patch +:+ rest_ ->
     decimal major -> decimal minor -> decimal patch -> False) ->
  incrementPatchAndAddTesting version = Ret (Err ("invalid semver format: " +:+ version)).
Proof.
  intros Hform. unfold incrementPatchAndAddTesting. rewrite compile_patch.
  unfold mbind, outcome_bind, Go.bind.
  rewrite <- (string_list_inv version) at 1.
  rewrite find_patch_none; [done|].
  intros major minor patch rest_ Hin Hne1 Hne2 Hne3 Hd1 Hd2 Hd3.
  apply (Hform (string_of_list_ascii major) (string_of_list_ascii minor)
           (string_of_list_ascii patch) (string_of_list_ascii rest_)).
  - rewrite <- (string_list_inv version), Hin.
    rewrite string_of_app. cbn [string_of_list_ascii].
    rewrite string_of_app. cbn [string_of_list_ascii]. rewrite string_of_app. reflexivity.
  - split; [by destruct major|by rewrite list_string_inv].
  - split; [by destruct minor|by rewrite list_string_inv].
  - split; [by destruct patch|by rewrite list_string_inv].
Qed.

End NextTestingVersion.

Section NextTestingVersionClaim.
Import module_release.

(** C3, as the specification has it, fails at the largest [int]: the
    testing number 9223372036854775807 is followed by a negative
    number, and so is the patch number. *)
Lemma testing_number_wraps :
  incrementTestingNumber "1.0.1-testing.9223372036854775807"
    = Ret (Ok "1.0.1-testing.-9223372036854775808")
  /\ "1.0.1-testing." +:+ fmt.FormatInt (9223372036854775807 + 1)
     = "1.0.1-testing.9223372036854775808"
  /\ incrementPatchAndAddTesting "1.0.9223372036854775807"
     = Ret (Ok "1.0.-9223372036854775808-testing.1").
Proof. repeat split; vm_compute; reflexivity. Qed.

(** C3, amended. For a pre-release, a tag [prefix-testing.N], where
    [prefix] has no line feed and [N] is a run of decimal digits of
    value below 2^63 - 1, gives [prefix-testing.] followed by [N + 1]
    in decimal; a larger [N] and every tag of another form give an
    error. For a stable release, a tag that starts with
    [major.minor.patch], three runs of digits of which the third ends
    where the digits end and has a value below 2^63 - 1, gives
    [major.minor.] followed by [patch + 1] in decimal and
    [-testing.1]; a larger patch number and every tag that does not
    start with such a triple give an error. *)
Theorem next_testing_version :
  (forall prefix digits,
     oneLine prefix -> decimal digits ->
     (valueOf digits < Go.MaxInt ->
      incrementTestingNumber (prefix +:+ "-testing." +:+ digits)
      = Ret (Ok (prefix +:+ "-testing." +:+ fmt.FormatInt (valueOf digits + 1))))
     /\ (Go.MaxInt < valueOf digits ->
         exists e, incrementTestingNumber (prefix +:+ "-testing." +:+ digits) = Ret (Err e)))
  /\ (forall version,
        (forall prefix digits,
           version = prefix +:+ "-testing." +:+ digits ->
           oneLine prefix -> decimal digits -> False) ->
        exists e, incrementTestingNumber version = Ret (Err e))
  /\ (forall major minor patch rest_,
        decimal major -> decimal minor -> decimal patch -> noLeadingDigit rest_ ->
        (valueOf patch < Go.MaxInt ->
         incrementPatchAndAddTesting (major +:+ "." +:+ minor +:+ "." +:+ patch +:+ rest_)
         = Ret (Ok (major +:+ "." +:+ minor +:+ "."
                    +:+ fmt.FormatInt (valueOf patch + 1) +:+ "-testing.1")))
        /\ (Go.MaxInt < valueOf patch ->
            exists e,
              incrementPatchAndAddTesting
                (major +:+ "." +:+ minor +:+ "." +:+ patch +:+ rest_) = Ret (Err e)))
  /\ (forall version,
        (forall major minor patch rest_,
           version = major +:+ "." +:+ minor +:+ "." +:+ patch +:+ rest_ ->
           decimal major -> decimal minor -> decimal patch -> False) ->
        exists e, incrementPatchAndAddTesting version = Ret (Err e)).
Proof.
  split; [|split; [|split]].
  - intros prefix digits Hline Hdec.
    rewrite (incrementTestingNumber_form prefix digits Hline Hdec).
    pose proof (decimalValue_nonneg _ (proj2 Hdec)) as Hpos. fold (valueOf digits) in Hpos.
    split; intros Hv.
    + replace (valueOf digits <=? Go.MaxInt) with true by (symmetry; apply Z.leb_le; lia).
      rewrite wrap_small, append_assoc by (unfold Go.MinInt, Go.MaxInt in *; lia).
      reflexivity.
    + replace (valueOf digits <=? Go.MaxInt) with false by (symmetry; apply Z.leb_gt; lia).
      eauto.
  - intros version Hform. rewrite incrementTestingNumber_other by done. eauto.
  - intros major minor patch rest_ H1 H2 H3 Hrest.
    rewrite (incrementPatch_form major minor patch rest_ H1 H2 H3 Hrest).
    pose proof (decimalValue_nonneg _ (proj2 H3)) as Hpos. fold (valueOf patch) in Hpos.
    split; intros Hv.
    + replace (valueOf patch <=? Go.MaxInt) with true by (symmetry; apply Z.leb_le; lia).
      rewrite wrap_small by (unfold Go.MinInt, Go.MaxInt in *; lia). reflexivity.
    + replace (valueOf patch <=? Go.MaxInt) with false by (symmetry; apply Z.leb_gt; lia).
      eauto.
  - intros version Hform. rewrite incrementPatch_other by done. eauto.
Qed.

Lemma next_testing_version_witness :
  incrementTestingNumber "1.0.1-testing.9" = Ret (Ok "1.0.1-testing.10")
  /\ incrementPatchAndAddTesting "1.0.0" = Ret (Ok "1.0.1-testing.1").
Proof.
  split.
  - refine (proj1 (proj1 next_testing_version "1.0.1" "9" _ _) _).
    + unfold oneLine. vm_compute. intros H.
      repeat (apply elem_of_cons in H as [H|H]; [discriminate H|]).
      by apply elem_of_nil in H.
    + split; [discriminate|reflexivity].
    + reflexivity.
  - refine (proj1 (proj1 (proj2 (proj2 next_testing_version)) "1" "0" "0" "" _ _ _ _) _);
      try (split; [discriminate|reflexivity]); reflexivity.
Defined.

End NextTestingVersionClaim.

(** ** Patterns built from plain tokens *)

Section PlainPatterns.
Import regexp.

Definition pushAll (l : list ascii) (f : frame) : frame :=
  {| alts := alts f; seq := rev (map Lit l) ++ seq f; capIndex := capIndex f |}.

Lemma isPlain_tests (c : ascii) :
  isPlain c = true ->
  isASCII c = true
  /\ Ascii.eqb c "(" = false /\ Ascii.eqb c ")" = false /\ Ascii.eqb c "|" = false
  /\ Ascii.eqb c "*" = false /\ Ascii.eqb c "+" = false /\ Ascii.eqb c "?" = false
  /\ Ascii.eqb c "." = false /\ Ascii.eqb c "^" = false /\ Ascii.eqb c "$" = false
  /\ Ascii.eqb c "{" = false /\ Ascii.eqb c "[" = false /\ Ascii.eqb c "\" = false.
Proof.
  unfold isPlain. intros H. apply andb_true_iff in H as [Hascii H].
  apply negb_true_iff in H. cbn [list_ascii_of_string existsb] in H.
  repeat (apply orb_false_iff in H as [? H]). repeat split; assumption.
Qed.

Lemma parseLoop_plain_char (c : ascii) (s : list ascii) (cur : frame) (stack : list frame)
    (ncap : nat) (lastRepeat : bool) :
  isPlain c = true ->
  parseLoop (c :: s) Normal cur stack ncap lastRepeat
  = parseLoop s Normal (push (Lit c) cur) stack ncap false.
Proof.
  intros H. apply isPlain_tests in H
    as (Ha & H1 & H2 & H3 & H4 & H5 & H6 & H7 & H8 & H9 & H10 & H11 & H12).
  cbn [parseLoop]. by rewrite H1, H2, H3, H4, H5, H6, H7, H8, H9, H10, H11, H12, Ha.
Qed.

Lemma parseLoop_plain (l s : list ascii) (cur : frame) (stack : list frame)
    (ncap : nat) (lastRepeat : bool) :
  forallb isPlain l = true ->
  parseLoop (l ++ s) Normal cur stack ncap lastRepeat
  = parseLoop s Normal (pushAll l cur) stack ncap
      (match l with [] => lastRepeat | _ :: _ => false end).
Proof.
  revert cur lastRepeat. induction l as [|c l IH]; intros cur lastRepeat Hl.
  - by destruct cur.
  - cbn [forallb] in Hl. apply andb_true_iff in Hl as [Hc Hl].
    rewrite <- app_comm_cons, parseLoop_plain_char, IH by done.
    assert (Hpush : pushAll l (push (Lit c) cur) = pushAll (c :: l) cur).
    { unfold pushAll, push. cbn [alts seq capIndex map rev]. f_equal.
      by rewrite <- app_assoc. }
    rewrite Hpush. by destruct l.
Qed.

(** The pattern of a reference: a literal prefix, then the number as
    group 1. *)
Definition refProg (prefix : list ascii) : node :=
  catOf (map Lit prefix ++ [Capture 1 (Plus (Class digitRanges))]).

Definition refRegexp (prefix : list ascii) : Regexp :=
  {| prog := refProg prefix; NumSubexp := 1 |}.

Definition numberGroup : list ascii := list_ascii_of_string "(\d+)".

Lemma parseLoop_numberGroup (cur : frame) (lastRepeat : bool) :
  parseLoop numberGroup Normal cur [] 0 lastRepeat
  = Parsed {| prog := closeFrame (push (Capture 1 (Plus (Class digitRanges))) cur);
              NumSubexp := 1 |}.
Proof. reflexivity. Qed.

Lemma closeFrame_pushAll (l : list ascii) (r : node) :
  closeFrame (push r (pushAll l {| alts := []; seq := []; capIndex := 0 |}))
  = catOf (map Lit l ++ [r]).
Proof.
  unfold closeFrame, push, pushAll. cbn [alts seq capIndex].
  rewrite app_nil_r. cbn [rev altOf app]. by rewrite rev_involutive.
Qed.

Lemma parse_ref (prefix : list ascii) :
  forallb isPlain prefix = true ->
  (length prefix + 5 <= maxPattern)%nat ->
  parse (string_of_list_ascii (prefix ++ numberGroup)) = Parsed (refRegexp prefix).
Proof.
  intros Hplain Hlen. unfold parse.
  replace (maxPattern <? String.length _)%nat with false.
  2:{ symmetry. apply Nat.ltb_ge.
      rewrite <- (list_string_inv (prefix ++ numberGroup)) at 1.
      rewrite string_list_inv.
      assert (Hl : forall l, String.length (string_of_list_ascii l) = length l).
      { induction l as [|c l IH]; simpl; [done|]. by rewrite IH. }
      rewrite Hl, length_app. simpl. lia. }
  rewrite list_string_inv, parseLoop_plain, parseLoop_numberGroup by done.
  by rewrite closeFrame_pushAll.
Qed.

End PlainPatterns.

(** ** Matching a reference pattern *)

Section ReferenceMatch.
Import regexp.

Lemma catOf_cons (r : node) (rs : list node) :
  rs <> [] -> catOf (r :: rs) = Cat r (catOf rs).
Proof. by destruct rs. Qed.

Lemma run_lits_then (p : list ascii) (r : node) (t : thread) :
  run (catOf (map Lit p ++ [r])) t =
  if gostrings.hasPrefix p (rest t) then run r (advance (length p) t) else [].
Proof.
  revert t. induction p as [|c p IH]; intros t.
  - cbn [map app catOf gostrings.hasPrefix length]. by rewrite advance_0.
  - cbn [map app]. rewrite catOf_cons by (by destruct p).
    rewrite run_Cat, run_Lit.
    destruct (rest t) as [|c' s] eqn:Hrest; [done|].
    cbn [gostrings.hasPrefix].
    destruct (Ascii.eqb c c'); [|done].
    cbn [flat_map andb]. rewrite app_nil_r, IH, rest_advance, Hrest.
    change (drop 1 (c' :: s)) with s.
    destruct (gostrings.hasPrefix p s); [|done].
    by rewrite advance_advance.
Qed.

(** Where the reference that starts at offset [q] ends: after the
    prefix and the longest run of digits. *)
Definition refEnd (prefix input : list ascii) (q : nat) : nat :=
  (q + length prefix + span digitRanges (drop (q + length prefix) input))%nat.

Definition refThread (prefix input : list ascii) (q : nat) : thread :=
  {| pos := refEnd prefix input q;
     rest := drop (refEnd prefix input q) input;
     caps := [ Some (q, refEnd prefix input q);
               Some ((q + length prefix)%nat, refEnd prefix input q) ] |}.

(** [s] begins with the prefix and at least one digit. *)
Definition refHere (prefix s : list ascii) : bool :=
  gostrings.hasPrefix prefix s && (0 <? span digitRanges (drop (length prefix) s))%nat.

Lemma matchAt_ref (prefix input : list ascii) (q : nat) :
  matchAt (refRegexp prefix) input q =
  if refHere prefix (drop q input) then Some (refThread prefix input q) else None.
Proof.
  rewrite matchAt_eq, head_map. cbn [prog refRegexp]. unfold refProg.
  rewrite run_lits_then.
  change (rest (startThread (refRegexp prefix) input q)) with (drop q input).
  unfold refHere. destruct (gostrings.hasPrefix prefix (drop q input)); [|done].
  rewrite run_group_last. thread_norm.
  change (rest (startThread (refRegexp prefix) input q)) with (drop q input).
  change (pos (startThread (refRegexp prefix) input q)) with q.
  cbn [andb]. rewrite drop_drop.
  destruct (0 <? span digitRanges (drop (q + length prefix) input))%nat; [|done].
  cbn [option_map]. f_equal.
  unfold refThread, refEnd, setCap, advance, startThread.
  cbn [pos rest caps NumSubexp refRegexp replicate].
  rewrite !drop_drop, Nat.add_assoc. reflexivity.
Qed.

End ReferenceMatch.

(** ** The references of a text *)

Section ReferenceScan.
Import regexp.

(** The digits of the reference that [s] begins with, when it begins
    with one. *)
Definition refAt (prefix s : list ascii) : option (list ascii) :=
  if refHere prefix s
  then Some (take (span digitRanges (drop (length prefix) s)) (drop (length prefix) s))
  else None.

(** The references of [body] from left to right, none overlapping
    another: [skip] counts the characters that remain of the reference
    found last. *)
Fixpoint referencesOf (prefix body : list ascii) (skip : nat) : list (list ascii) :=
  match body with
  | [] => []
  | _ :: body' =>
    match skip with
    | S skip' => referencesOf prefix body' skip'
    | O =>
      match refAt prefix body with
      | Some ds => ds :: referencesOf prefix body' (length prefix + length ds - 1)
      | None => referencesOf prefix body' 0
      end
    end
  end.

(** The number of a reference, as the loop of [GetLinkedIssues] keeps
    it: positive and within the range of [int]. *)
Definition issueNumber (ds : list ascii) : option Z :=
  let v := Go.decimalValue ds in
  if (0 <? v) && (v <=? Go.MaxInt) then Some v else None.

Lemma refAt_digits (prefix s ds : list ascii) :
  refAt prefix s = Some ds ->
  refHere prefix s = true
  /\ length ds = span digitRanges (drop (length prefix) s)
  /\ ds <> [] /\ strconv.allDigits ds = true.
Proof.
  unfold refAt. destruct (refHere prefix s) eqn:Hhere; [|done].
  intros [= <-]. split; [done|].
  unfold refHere in Hhere. apply andb_true_iff in Hhere as [_ Hspan].
  apply Nat.ltb_lt in Hspan.
  assert (Hlen : length (take (span digitRanges (drop (length prefix) s))
                           (drop (length prefix) s))
                 = span digitRanges (drop (length prefix) s)).
  { rewrite length_take. pose proof (span_le digitRanges (drop (length prefix) s)). lia. }
  split; [done|]. split.
  - intros Hnil. rewrite Hnil in Hlen. cbn [length] in Hlen. lia.
  - rewrite <- forallb_digit. apply span_take.
Qed.

Lemma referencesOf_skip (prefix s : list ascii) (k : nat) :
  referencesOf prefix s k = referencesOf prefix (drop k s) 0.
Proof.
  revert k. induction s as [|c s IH]; intros k.
  - by rewrite drop_nil.
  - destruct k as [|k]; [done|]. cbn [referencesOf drop]. apply IH.
Qed.

Lemma referencesOf_miss (prefix s : list ascii) :
  refAt prefix s = None -> referencesOf prefix s 0 = referencesOf prefix (drop 1 s) 0.
Proof.
  destruct s as [|c s]; [done|]. intros H. cbn [referencesOf]. by rewrite H.
Qed.

Lemma referencesOf_hit (prefix s ds : list ascii) :
  refAt prefix s = Some ds ->
  referencesOf prefix s 0 = ds :: referencesOf prefix (drop (length prefix + length ds) s) 0.
Proof.
  intros H. destruct (refAt_digits _ _ _ H) as (_ & _ & Hds & _).
  destruct s as [|c s].
  - unfold refAt, refHere in H. rewrite drop_nil in H. cbn [span] in H.
    rewrite andb_false_r in H. done.
  - cbn [referencesOf]. rewrite H, referencesOf_skip. do 2 f_equal.
    destruct ds as [|d ds]; [done|]. cbn [length].
    replace (length prefix + S (length ds))%nat with (S (length prefix + length ds)) by lia.
    cbn [drop]. f_equal. lia.
Qed.

Lemma referencesOf_misses (prefix s : list ascii) (w : nat) :
  (forall k, (k < w)%nat -> refAt prefix (drop k s) = None) ->
  referencesOf prefix s 0 = referencesOf prefix (drop w s) 0.
Proof.
  induction w as [|w IH]; intros H.
  - by rewrite drop_0.
  - rewrite IH by (intros k Hk; apply H; lia).
    rewrite referencesOf_miss by (apply H; lia).
    rewrite drop_drop. do 2 f_equal. lia.
Qed.

Lemma hasPrefix_length (p s : list ascii) :
  gostrings.hasPrefix p s = true -> (length p <= length s)%nat.
Proof.
  intros H. apply hasPrefix_app in H as [r ->]. rewrite length_app. lia.
Qed.

Lemma refHere_end (prefix input : list ascii) (q : nat) :
  refHere prefix (drop q input) = true ->
  (q + length prefix < refEnd prefix input q <= length input)%nat.
Proof.
  unfold refHere, refEnd. intros H. apply andb_true_iff in H as [Hp Hspan].
  apply Nat.ltb_lt in Hspan. apply hasPrefix_length in Hp.
  rewrite drop_drop in Hspan. rewrite length_drop in Hp.
  pose proof (span_le digitRanges (drop (q + length prefix) input)) as Hle.
  rewrite length_drop in Hle. lia.
Qed.

End ReferenceScan.

Section ReferenceSearch.
Import regexp module_release.

Variables (prefix input : list ascii) (a : ascii).
Hypothesis prefix_head : head prefix = Some a.
Hypothesis a_ascii : isASCII a = true.

Lemma refAt_high (c : ascii) (s : list ascii) :
  (128 <= nat_of_ascii c)%nat -> refAt prefix (c :: s) = None.
Proof.
  intros Hc. unfold refAt, refHere.
  destruct prefix as [|a' prefix']; [done|]. injection prefix_head as ->.
  cbn [gostrings.hasPrefix].
  replace (Ascii.eqb a c) with false; [done|].
  symmetry. apply Ascii.eqb_neq. intros ->.
  unfold isASCII in a_ascii. apply Nat.ltb_lt in a_ascii. lia.
Qed.

Lemma refHere_refAt (s : list ascii) : refHere prefix s = false -> refAt prefix s = None.
Proof. unfold refAt. by intros ->. Qed.

(** A start that fails moves on by one rune; no reference begins inside
    the rune. *)
Lemma referencesOf_rune (s : list ascii) :
  refHere prefix s = false ->
  referencesOf prefix s 0 = referencesOf prefix (drop (utf8.runeWidth s) s) 0.
Proof.
  intros Hhere. apply referencesOf_misses. intros k Hk.
  destruct k as [|k]; [by rewrite drop_0; apply refHere_refAt|].
  destruct (runeWidth_high s (S k)) as (c & Hc & Hhigh); [lia|].
  pose proof (lookup_lt_Some _ _ _ Hc) as Hlt.
  apply take_drop_middle in Hc.
  rewrite <- Hc at 1. rewrite drop_app_length'.
  - by apply refAt_high.
  - rewrite length_take. lia.
Qed.

Lemma search_ref (fuel p : nat) :
  (length input - p <= fuel)%nat ->
  match searchFrom (refRegexp prefix) input fuel p with
  | None => referencesOf prefix (drop p input) 0 = []
  | Some t =>
    exists q, (p <= q)%nat
      /\ refHere prefix (drop q input) = true
      /\ t = refThread prefix input q
      /\ referencesOf prefix (drop p input) 0 = referencesOf prefix (drop q input) 0
  end.
Proof.
  revert p. induction fuel as [|fuel IH]; intros p Hfuel;
    rewrite searchFrom_eq, matchAt_ref;
    destruct (refHere prefix (drop p input)) eqn:Hhere;
    try (by exists p).
  - by rewrite drop_ge by lia.
  - destruct (p <? length input)%nat eqn:Hp.
    + apply Nat.ltb_lt in Hp.
      assert (Hw : (1 <= utf8.runeWidth (drop p input))%nat).
      { destruct (drop p input) as [|c s] eqn:Hdrop; [|apply runeWidth_pos].
        apply (f_equal length) in Hdrop. rewrite length_drop in Hdrop.
        cbn [length] in Hdrop. lia. }
      specialize (IH (p + utf8.runeWidth (drop p input))%nat).
      rewrite referencesOf_rune, drop_drop by done.
      destruct (searchFrom (refRegexp prefix) input fuel
                  (p + utf8.runeWidth (drop p input))) as [t|].
      * destruct IH as (q & Hq & Hq' & -> & Hscan); [lia|].
        exists q. repeat split; [lia|done|done].
      * apply IH. lia.
    + apply Nat.ltb_ge in Hp. by rewrite drop_ge by lia.
Qed.

Lemma Sscanf_digits (ds : list ascii) :
  ds <> [] ->
  strconv.allDigits ds = true ->
  fmt.SscanfInt (string_of_list_ascii ds) =
  Ret (if Go.decimalValue ds <=? Go.MaxInt then Some (Go.decimalValue ds) else None).
Proof.
  intros Hds Hdigits. unfold fmt.SscanfInt. rewrite list_string_inv.
  destruct ds as [|d ds]; [done|]. by rewrite Hdigits.
Qed.

Lemma collectNumbers_ref (whole : string) (ds : list ascii)
    (matches : list (list string)) (issueNumbers : list Z) :
  ds <> [] ->
  strconv.allDigits ds = true ->
  collectNumbers ([whole; string_of_list_ascii ds] :: matches) issueNumbers =
  collectNumbers matches (issueNumbers ++ omap issueNumber [ds]).
Proof.
  intros Hds Hdigits. cbn [collectNumbers]. rewrite Sscanf_digits by done.
  cbn [mbind outcome_bind Go.bind omap list_omap]. unfold issueNumber.
  destruct (Go.decimalValue ds <=? Go.MaxInt); cbn [default andb]; unfold id.
  - rewrite andb_true_r. by destruct (0 <? Go.decimalValue ds); rewrite ?app_nil_r.
  - rewrite andb_false_r. change (0 <? 0) with false. cbv iota. by rewrite app_nil_r.
Qed.

Lemma submatches_ref (q : nat) (ds : list ascii) :
  refAt prefix (drop q input) = Some ds ->
  exists whole, submatches input (refThread prefix input q) = [whole; string_of_list_ascii ds].
Proof.
  intros H. destruct (refAt_digits _ _ _ H) as (Hhere & Hlen & _ & _).
  unfold refAt in H. rewrite Hhere in H. injection H as <-.
  unfold submatches, refThread. cbn [caps map submatch].
  eexists. apply f_equal2; [reflexivity|]. do 2 f_equal.
  rewrite !drop_drop. unfold refEnd. f_equal. lia.
Qed.

(** The matches that [FindAllStringSubmatch] returns from offset [p] on
    are the references of the text from there, and the loop keeps their
    numbers. *)
Lemma collectNumbers_all (fuel p : nat) (prevMatchEnd : option nat) (issueNumbers : list Z) :
  (p <= length input)%nat ->
  (length input - p < fuel)%nat ->
  collectNumbers
    (map (submatches input) (allMatches (refRegexp prefix) input fuel p prevMatchEnd))
    issueNumbers
  = Ret (issueNumbers ++ omap issueNumber (referencesOf prefix (drop p input) 0)).
Proof.
  revert p prevMatchEnd issueNumbers.
  induction fuel as [|fuel IH]; intros p prevMatchEnd issueNumbers Hp Hfuel; [lia|].
  cbn [allMatches].
  replace (length input <? p)%nat with false by (symmetry; apply Nat.ltb_ge; lia).
  unfold doExecute.
  pose proof (search_ref (length input) p) as Hsearch.
  destruct (searchFrom (refRegexp prefix) input (length input) p) as [t|].
  - destruct Hsearch as (q & Hq & Hhere & -> & Hscan); [lia|].
    pose proof (refHere_end _ _ _ Hhere) as Hend.
    change (caps (refThread prefix input q) !! 0%nat)
      with (Some (Some (q, refEnd prefix input q))).
    cbv iota beta.
    replace (refEnd prefix input q =? p)%nat with false
      by (symmetry; apply Nat.eqb_neq; lia).
    cbn [map].
    assert (Hat : exists ds, refAt prefix (drop q input) = Some ds)
      by (unfold refAt; rewrite Hhere; by eexists).
    destruct Hat as [ds Hat].
    destruct (submatches_ref q ds Hat) as [whole ->].
    destruct (refAt_digits _ _ _ Hat) as (_ & Hlen & Hds & Hdigits).
    rewrite collectNumbers_ref, IH by (done || lia).
    rewrite Hscan, (referencesOf_hit _ _ _ Hat), drop_drop.
    replace (q + (length prefix + length ds))%nat with (refEnd prefix input q)
      by (unfold refEnd; rewrite Hlen, drop_drop; lia).
    rewrite <- app_assoc. do 2 f_equal.
    cbn [omap list_omap]. by destruct (issueNumber ds).
  - cbn [map collectNumbers]. rewrite Hsearch by lia. cbn [omap list_omap].
    by rewrite app_nil_r.
Qed.

End ReferenceSearch.

Section ReferenceFind.
Import regexp module_release.

Lemma FindAll_ref (prefix : list ascii) (a : ascii) (body : string) (issueNumbers : list Z) :
  head prefix = Some a ->
  isASCII a = true ->
  collectNumbers (FindAllStringSubmatch (refRegexp prefix) body) issueNumbers
  = Ret (issueNumbers ++ omap issueNumber (referencesOf prefix (list_ascii_of_string body) 0)).
Proof.
  intros Hhead Ha. unfold FindAllStringSubmatch. cbv zeta.
  rewrite (collectNumbers_all _ _ a) by (done || lia). by rewrite drop_0.
Qed.

End ReferenceFind.

(** ** The repository argument and its three patterns *)

Section RepositoryPatterns.
Import regexp module_release.

Lemma splitFrom_sep (cur a b : list ascii) (sep : ascii) :
  sep ∉ a ->
  gostrings.splitFrom cur (a ++ sep :: b) sep
  = string_of_list_ascii (rev cur ++ a) :: gostrings.splitFrom [] b sep.
Proof.
  revert cur. induction a as [|c a IH]; intros cur Ha.
  - cbn [app gostrings.splitFrom]. by rewrite Ascii.eqb_refl, app_nil_r.
  - apply not_elem_of_cons in Ha as [Hc Ha].
    cbn [app gostrings.splitFrom].
    replace (Ascii.eqb c sep) with false by (symmetry; apply Ascii.eqb_neq; congruence).
    rewrite IH by done. cbn [rev]. by rewrite <- app_assoc.
Qed.

Lemma splitFrom_last (cur s : list ascii) (sep : ascii) :
  sep ∉ s -> gostrings.splitFrom cur s sep = [string_of_list_ascii (rev cur ++ s)].
Proof.
  revert cur. induction s as [|c s IH]; intros cur Hs.
  - cbn [gostrings.splitFrom]. by rewrite app_nil_r.
  - apply not_elem_of_cons in Hs as [Hc Hs].
    cbn [gostrings.splitFrom].
    replace (Ascii.eqb c sep) with false by (symmetry; apply Ascii.eqb_neq; congruence).
    rewrite IH by done. cbn [rev]. by rewrite <- app_assoc.
Qed.

(** The number of separators of the repository argument. *)
Definition separators (s : string) : nat :=
  length (List.filter (fun c => Ascii.eqb c "/") (list_ascii_of_string s)).

Lemma length_splitFrom (cur s : list ascii) (sep : ascii) :
  length (gostrings.splitFrom cur s sep)
  = S (length (List.filter (fun c => Ascii.eqb c sep) s)).
Proof.
  revert cur. induction s as [|c s IH]; intros cur; [done|].
  cbn [gostrings.splitFrom List.filter].
  destruct (Ascii.eqb c sep); cbn [length]; by rewrite IH.
Qed.

(** A token whose characters all stand for themselves in a pattern and
    none of which is the separator. *)
Definition plainToken (s : string) : bool :=
  forallb (fun c => isPlain c && negb (Ascii.eqb c "/")) (list_ascii_of_string s).

Lemma plainToken_plain (s : string) :
  plainToken s = true ->
  forallb isPlain (list_ascii_of_string s) = true /\ "/"%char ∉ list_ascii_of_string s.
Proof.
  unfold plainToken. induction (list_ascii_of_string s) as [|c l IH]; intros H.
  - split; [done|]. apply not_elem_of_nil.
  - cbn [forallb] in H. apply andb_true_iff in H as [Hc Hl].
    apply andb_true_iff in Hc as [Hplain Hsep]. destruct (IH Hl) as [IH1 IH2].
    split; [cbn [forallb]; by rewrite Hplain|].
    apply not_elem_of_cons. split; [|done].
    intros <-. by rewrite Ascii.eqb_refl in Hsep.
Qed.

Lemma Split_repository (owner repo : string) :
  plainToken owner = true -> plainToken repo = true ->
  gostrings.Split (owner +:+ "/" +:+ repo) "/" = [owner; repo].
Proof.
  intros Ho Hr. apply plainToken_plain in Ho as [_ Ho], Hr as [_ Hr].
  unfold gostrings.Split. rewrite !list_of_append.
  change (list_ascii_of_string "/" ++ ?l) with ("/"%char :: l).
  rewrite splitFrom_sep, splitFrom_last by done.
  cbn [rev app]. by rewrite !string_list_inv.
Qed.

Lemma length_list_of_string (s : string) :
  length (list_ascii_of_string s) = String.length s.
Proof. induction s as [|c s IH]; [done|]. cbn [list_ascii_of_string length String.length]. by rewrite IH. Qed.

Lemma string_of_lists (s t : string) :
  list_ascii_of_string s = list_ascii_of_string t -> s = t.
Proof. intros H. by rewrite <- (string_list_inv s), H, string_list_inv. Qed.

(** The text that precedes the number in each of the three forms. *)
Definition issuesPrefix (owner : string) : list ascii :=
  list_ascii_of_string (owner +:+ "/issues/").

Definition hashPrefix (owner repo : string) : list ascii :=
  list_ascii_of_string (owner +:+ "/" +:+ repo +:+ "#").

Definition urlPrefix (owner repo : string) : list ascii :=
  list_ascii_of_string ("https://github.com/" +:+ owner +:+ "/" +:+ repo +:+ "/issues/").

Lemma parseLoop_escaped_dot (s : list ascii) (cur : frame) (stack : list frame)
    (ncap : nat) (lastRepeat : bool) :
  parseLoop ("\"%char :: "."%char :: s) Normal cur stack ncap lastRepeat
  = parseLoop s Normal (push (Lit ".") cur) stack ncap false.
Proof. reflexivity. Qed.

Lemma parse_ref_escaped (before after : list ascii) :
  forallb isPlain before = true ->
  forallb isPlain after = true ->
  (length before + length after + 7 <= maxPattern)%nat ->
  parse (string_of_list_ascii (before ++ "\"%char :: "."%char :: after ++ numberGroup))
  = Parsed (refRegexp (before ++ "."%char :: after)).
Proof.
  intros Hb Ha Hlen. unfold parse.
  replace (maxPattern <? String.length _)%nat with false.
  2:{ symmetry. apply Nat.ltb_ge. rewrite <- length_list_of_string, list_string_inv.
      rewrite length_app. cbn [length]. rewrite length_app. cbn [length numberGroup].
      simpl. lia. }
  rewrite list_string_inv, parseLoop_plain, parseLoop_escaped_dot, parseLoop_plain by done.
  rewrite parseLoop_numberGroup.
  assert (Hpush : pushAll after (push (Lit ".")
                    (pushAll before {| alts := []; seq := []; capIndex := 0 |}))
                  = pushAll (before ++ "."%char :: after)
                      {| alts := []; seq := []; capIndex := 0 |}).
  { unfold pushAll, push. cbn [alts seq capIndex]. f_equal.
    rewrite map_app, rev_app_distr. cbn [map rev]. rewrite !app_nil_r.
    rewrite <- app_assoc. reflexivity. }
  by rewrite Hpush, closeFrame_pushAll.
Qed.

End RepositoryPatterns.

Section LinkedIssues.
Import regexp module_release.

Variables owner repo : string.
Hypothesis owner_plain : plainToken owner = true.
Hypothesis repo_plain : plainToken repo = true.
Hypothesis tokens_short : (String.length owner + String.length repo <= 400)%nat.

Ltac as_lists :=
  apply string_of_lists;
  unfold issuesPrefix, hashPrefix, urlPrefix, numberGroup;
  rewrite ?list_string_inv, ?list_of_append;
  repeat first [ rewrite <- app_assoc | progress cbn [app list_ascii_of_string] ];
  rewrite ?list_of_append;
  repeat first [ rewrite <- app_assoc | progress cbn [app list_ascii_of_string] ];
  reflexivity.

Ltac plain_parts :=
  rewrite ?list_of_append, ?forallb_app;
  repeat (apply andb_true_iff; split);
  first [ exact (proj1 (plainToken_plain _ owner_plain))
        | exact (proj1 (plainToken_plain _ repo_plain))
        | reflexivity ].

Ltac lengths :=
  rewrite ?list_of_append, ?length_app, ?length_list_of_string;
  cbn [String.length]; unfold maxPattern; lia.

Lemma compile_issues :
  MustCompile (owner +:+ "/issues/(\d+)") = Ret (refRegexp (issuesPrefix owner)).
Proof.
  unfold MustCompile.
  replace (owner +:+ "/issues/(\d+)")
    with (string_of_list_ascii (issuesPrefix owner ++ numberGroup)) by as_lists.
  rewrite parse_ref; [done| |]; unfold issuesPrefix; [plain_parts|lengths].
Qed.

Lemma compile_hash :
  MustCompile (owner +:+ "/" +:+ repo +:+ "#(\d+)") = Ret (refRegexp (hashPrefix owner repo)).
Proof.
  unfold MustCompile.
  replace (owner +:+ "/" +:+ repo +:+ "#(\d+)")
    with (string_of_list_ascii (hashPrefix owner repo ++ numberGroup)) by as_lists.
  rewrite parse_ref; [done| |]; unfold hashPrefix; [plain_parts|lengths].
Qed.

Lemma compile_url :
  MustCompile ("https://github\.com/" +:+ owner +:+ "/" +:+ repo +:+ "/issues/(\d+)")
  = Ret (refRegexp (urlPrefix owner repo)).
Proof.
  unfold MustCompile.
  replace ("https://github\.com/" +:+ owner +:+ "/" +:+ repo +:+ "/issues/(\d+)")
    with (string_of_list_ascii
            (list_ascii_of_string "https://github"
             ++ "\"%char :: "."%char
                :: list_ascii_of_string ("com/" +:+ owner +:+ "/" +:+ repo +:+ "/issues/")
             ++ numberGroup)) by as_lists.
  rewrite parse_ref_escaped; [| reflexivity | plain_parts | lengths].
  replace (list_ascii_of_string "https://github"
           ++ "."%char :: list_ascii_of_string ("com/" +:+ owner +:+ "/" +:+ repo +:+ "/issues/"))
    with (urlPrefix owner repo); [done|].
  unfold urlPrefix. by rewrite !list_of_append.
Qed.

Lemma plain_head (l : list ascii) :
  forallb isPlain l = true -> l <> [] ->
  exists a, head l = Some a /\ isASCII a = true.
Proof.
  destruct l as [|a l]; [done|]. cbn [forallb]. intros H _.
  apply andb_true_iff in H as [H _]. exists a. split; [done|].
  by apply isPlain_tests in H as [H _].
Qed.

Lemma nonempty_length {A : Type} (l : list A) : (0 < length l)%nat -> l <> [].
Proof. destruct l; cbn [length]; [lia|done]. Qed.

(** The numbers [GetLinkedIssues] keeps of the references with one
    prefix. *)
Definition numbersOf (prefix : list ascii) (prBody : string) : list Z :=
  omap issueNumber (referencesOf prefix (list_ascii_of_string prBody) 0).

Lemma GetLinkedIssues_refs (prBody : string) :
  GetLinkedIssues prBody (owner +:+ "/" +:+ repo)
  = Ret (numbersOf (issuesPrefix owner) prBody
         ++ numbersOf (hashPrefix owner repo) prBody
         ++ numbersOf (urlPrefix owner repo) prBody).
Proof.
  unfold GetLinkedIssues. rewrite Split_repository by done. cbv zeta.
  destruct (plain_head (issuesPrefix owner)) as (a1 & Hhead1 & Ha1);
    [unfold issuesPrefix; plain_parts
    |apply nonempty_length; unfold issuesPrefix; lengths|].
  destruct (plain_head (hashPrefix owner repo)) as (a2 & Hhead2 & Ha2);
    [unfold hashPrefix; plain_parts
    |apply nonempty_length; unfold hashPrefix; lengths|].
  assert (Hhead3 : head (urlPrefix owner repo) = Some "h"%char)
    by (unfold urlPrefix; by rewrite list_of_append).
  cbn [scanPatterns].
  rewrite compile_issues. cbn [mbind outcome_bind Go.bind].
  rewrite (FindAll_ref _ a1) by done. cbn [mbind outcome_bind Go.bind].
  rewrite compile_hash. cbn [mbind outcome_bind Go.bind].
  rewrite (FindAll_ref _ a2) by done. cbn [mbind outcome_bind Go.bind].
  rewrite compile_url. cbn [mbind outcome_bind Go.bind].
  rewrite (FindAll_ref _ "h"%char) by done. cbn [mbind outcome_bind Go.bind].
  unfold numbersOf. cbn [app]. by rewrite <- app_assoc.
Qed.

End LinkedIssues.

Section LinkedIssuesClaims.
Import regexp module_release.

Lemma GetLinkedIssues_other_shape (prBody issuesRepo : string) :
  separators issuesRepo <> 1%nat -> GetLinkedIssues prBody issuesRepo = Ret [].
Proof.
  intros Hsep. unfold GetLinkedIssues, gostrings.Split.
  pose proof (length_splitFrom [] (list_ascii_of_string issuesRepo) "/") as Hlen.
  fold (separators issuesRepo) in Hlen.
  destruct (gostrings.splitFrom [] (list_ascii_of_string issuesRepo) "/")
    as [|x [|y [|z l]]]; try reflexivity.
  cbn [length] in Hlen. lia.
Qed.

(** C6, as the specification has it, fails: the tokens are put into
    the patterns as they are, and a token with an unmatched parenthesis
    makes a pattern that [regexp.MustCompile] refuses by panicking. *)
Lemma GetLinkedIssues_panics_on_parenthesis :
  separators "a(/b" = 1%nat
  /\ exists msg, GetLinkedIssues "Fixes a(/b#1" "a(/b" = Panic msg.
Proof. split; [reflexivity|]. eexists. vm_compute. reflexivity. Qed.

(** C6, amended. [GetLinkedIssues] returns the empty list for every
    repository argument that does not have exactly one separator. For
    an argument [owner/name] whose two tokens hold only characters
    that stand for themselves in a pattern (none of
    [\ . + * ? ( ) | [ { ^ $], no byte above 127) and are at most 400
    bytes long together, it returns a list for every body, without
    panic, and the list is empty when the body has no reference of one
    of the three forms. *)
Theorem GetLinkedIssues_returns_for_plain_tokens :
  (forall prBody issuesRepo,
     separators issuesRepo <> 1%nat -> GetLinkedIssues prBody issuesRepo = Ret [])
  /\ (forall prBody owner repo,
        plainToken owner = true -> plainToken repo = true ->
        (String.length owner + String.length repo <= 400)%nat ->
        (exists issueNumbers,
           GetLinkedIssues prBody (owner +:+ "/" +:+ repo) = Ret issueNumbers)
        /\ (referencesOf (issuesPrefix owner) (list_ascii_of_string prBody) 0 = [] ->
            referencesOf (hashPrefix owner repo) (list_ascii_of_string prBody) 0 = [] ->
            referencesOf (urlPrefix owner repo) (list_ascii_of_string prBody) 0 = [] ->
            GetLinkedIssues prBody (owner +:+ "/" +:+ repo) = Ret [])).
Proof.
  split; [exact GetLinkedIssues_other_shape|].
  intros prBody owner repo Ho Hr Hlen.
  rewrite (GetLinkedIssues_refs owner repo Ho Hr Hlen). split; [by eexists|].
  unfold numbersOf. by intros -> -> ->.
Qed.

Lemma GetLinkedIssues_returns_for_plain_tokens_witness :
  GetLinkedIssues "Fixes NethServer/dev#42" "NethServer" = Ret []
  /\ (exists issueNumbers,
        GetLinkedIssues "Fixes NethServer/dev#42" ("NethServer" +:+ "/" +:+ "dev")
        = Ret issueNumbers)
  /\ GetLinkedIssues "Bump dependencies" ("NethServer" +:+ "/" +:+ "dev") = Ret [].
Proof.
  split; [|split].
  - apply (proj1 GetLinkedIssues_returns_for_plain_tokens). vm_compute. lia.
  - refine (proj1 (proj2 GetLinkedIssues_returns_for_plain_tokens
                     "Fixes NethServer/dev#42" "NethServer" "dev" _ _ _));
      [reflexivity|reflexivity|vm_compute; lia].
  - refine (proj2 (proj2 GetLinkedIssues_returns_for_plain_tokens
                     "Bump dependencies" "NethServer" "dev" _ _ _) _ _ _);
      [reflexivity|reflexivity|vm_compute; lia| | |]; vm_compute; reflexivity.
Defined.

(** C7, as the specification has it, fails: a reference with the
    number 0 is a match of its form, and the loop leaves it out; and
    the third form is recognised for the host [github.com] only. *)
Lemma GetLinkedIssues_drops_references :
  referencesOf (hashPrefix "NethServer" "dev")
    (list_ascii_of_string "Fixes NethServer/dev#0") 0 = [ list_ascii_of_string "0" ]
  /\ GetLinkedIssues "Fixes NethServer/dev#0" "NethServer/dev" = Ret []
  /\ GetLinkedIssues "see https://example.com/NethServer/dev/issues/7" "NethServer/dev"
     = Ret [].
Proof. repeat split; vm_compute; reflexivity. Qed.

(** C7, amended. For an argument [owner/name] with plain tokens of at
    most 400 bytes together, [GetLinkedIssues] returns, for the form
    [owner/issues/N], then for [owner/name#N], then for
    [https://github.com/owner/name/issues/N], the numbers of the
    references of that form in the body, from left to right and none
    overlapping another of the same form, each [N] the longest run of
    digits there, a reference being kept when its number is between 1
    and 2^63 - 1. The tokens and the host are compared byte by byte,
    and a number found under two forms is listed twice. *)
Theorem GetLinkedIssues_collects_references (prBody owner repo : string) :
  plainToken owner = true -> plainToken repo = true ->
  (String.length owner + String.length repo <= 400)%nat ->
  GetLinkedIssues prBody (owner +:+ "/" +:+ repo)
  = Ret (numbersOf (issuesPrefix owner) prBody
         ++ numbersOf (hashPrefix owner repo) prBody
         ++ numbersOf (urlPrefix owner repo) prBody).
Proof. intros Ho Hr Hlen. exact (GetLinkedIssues_refs owner repo Ho Hr Hlen prBody). Qed.

Lemma GetLinkedIssues_collects_references_witness :
  GetLinkedIssues
    "Fixes NethServer/dev#42 and see https://github.com/NethServer/dev/issues/43"
    "NethServer/dev" = Ret [42; 43]
  /\ GetLinkedIssues "Fixes nethserver/dev#42" "NethServer/dev" = Ret []
  /\ GetLinkedIssues "NethServer/dev#5, https://github.com/NethServer/dev/issues/5"
       "NethServer/dev" = Ret [5; 5].
Proof.
  split; [|split].
  - refine (eq_trans
              (GetLinkedIssues_collects_references
                 "Fixes NethServer/dev#42 and see https://github.com/NethServer/dev/issues/43"
                 "NethServer" "dev" _ _ _) _);
      [reflexivity|reflexivity|vm_compute; lia|vm_compute; reflexivity].
  - refine (eq_trans
              (GetLinkedIssues_collects_references
                 "Fixes nethserver/dev#42" "NethServer" "dev" _ _ _) _);
      [reflexivity|reflexivity|vm_compute; lia|vm_compute; reflexivity].
  - refine (eq_trans
              (GetLinkedIssues_collects_references
                 "NethServer/dev#5, https://github.com/NethServer/dev/issues/5"
                 "NethServer" "dev" _ _ _) _);
      [reflexivity|reflexivity|vm_compute; lia|vm_compute; reflexivity].
Defined.

End LinkedIssuesClaims.

(** * Further properties of the code *)

(** ** [FindPreviousRelease]: bounds and the release it names *)

Section PreviousReleaseBounds.
Import github module_release.

Lemma findIndex_lookup (allReleases : list Release) (tag : string) (start i : nat) :
  findIndex allReleases tag start = Some i ->
  (start <= i)%nat
  /\ Forall (fun r => TagName r <> tag) (take (i - start) allReleases)
  /\ exists cur, allReleases !! (i - start)%nat = Some cur /\ TagName cur = tag.
Proof.
  revert start. induction allReleases as [|r rest IH]; intros start; cbn [findIndex];
    [discriminate|].
  destruct (String.eqb (TagName r) tag) eqn:Hr.
  - intros [= <-]. rewrite Nat.sub_diag. split; [lia|]. split; [constructor|].
    exists r. split; [done|]. by apply String.eqb_eq.
  - intros H. apply IH in H as (Hle & Hbefore & cur & Hcur & Htag).
    replace (i - start)%nat with (S (i - S start)) by lia.
    split; [lia|]. split.
    + cbn [take]. constructor; [by apply String.eqb_neq|done].
    + exists cur. by split.
Qed.

Lemma firstStable_lookup (releases : list Release) (r : Release) :
  firstStable releases = Some r ->
  exists k, releases !! k = Some r /\ IsPrerelease r = false.
Proof.
  induction releases as [|r0 releases IH]; cbn [firstStable]; [discriminate|].
  destruct (IsPrerelease r0) eqn:Hr0; cbn [negb].
  - intros H. destruct (IH H) as (k & Hk & Hstable). by exists (S k).
  - intros [= <-]. by exists 0%nat.
Qed.

(** X1. [FindPreviousRelease] always returns: the index [currentIndex+1]
    is never out of range. When it returns a tag, this is the tag of a
    release that the list holds after the first release named
    [currentTag]: the one that follows at once when the current release
    is a pre-release, and a release that is not a pre-release when the
    current release is not one. *)
Theorem FindPreviousRelease_in_list (client : Client) (repo currentTag : string) :
  exists r,
    FindPreviousRelease client repo currentTag = Ret r
    /\ forall tag,
         r = Ok tag ->
         exists currentRelease allReleases i j cur previous,
           ViewRelease client repo currentTag = Ok currentRelease
           /\ ListReleases client repo 1000 false = Ok allReleases
           /\ allReleases !! i = Some cur
           /\ TagName cur = currentTag
           /\ Forall (fun r => TagName r <> currentTag) (take i allReleases)
           /\ allReleases !! j = Some previous
           /\ (i < j)%nat
           /\ TagName previous = tag
           /\ (IsPrerelease currentRelease = true -> j = S i)
           /\ (IsPrerelease currentRelease = false -> IsPrerelease previous = false).
Proof.
  unfold FindPreviousRelease.
  destruct (ViewRelease client repo currentTag) as [currentRelease|e];
    [|eexists; split; [reflexivity|discriminate]].
  destruct (ListReleases client repo 1000 false) as [allReleases|e];
    [|eexists; split; [reflexivity|discriminate]].
  destruct (findIndex allReleases currentTag 0) as [i|] eqn:Hi;
    [|eexists; split; [reflexivity|discriminate]].
  apply findIndex_lookup in Hi as (_ & Hbefore & cur & Hcur & Htag).
  rewrite Nat.sub_0_r in Hbefore, Hcur.
  pose proof (lookup_lt_Some _ _ _ Hcur) as Hlt.
  destruct (i =? length allReleases - 1)%nat eqn:Hlast;
    [eexists; split; [reflexivity|discriminate]|].
  apply Nat.eqb_neq in Hlast.
  destruct (IsPrerelease currentRelease) eqn:Hpre.
  - destruct (lookup_lt_is_Some_2 allReleases (S i)) as [previous Hprevious]; [lia|].
    rewrite Hprevious. eexists. split; [reflexivity|].
    intros tag [= <-].
    exists currentRelease, allReleases, i, (S i), cur, previous.
    repeat split; try done; try lia; congruence.
  - destruct (firstStable (drop (S i) allReleases)) as [previous|] eqn:Hstable;
      [|eexists; split; [reflexivity|discriminate]].
    apply firstStable_lookup in Hstable as (k & Hk & Hstable).
    rewrite lookup_drop in Hk.
    eexists. split; [reflexivity|].
    intros tag [= <-].
    exists currentRelease, allReleases, i, (S i + k)%nat, cur, previous.
    repeat split; try done; try lia; congruence.
Qed.

End PreviousReleaseBounds.

(** ** [GetLinkedIssues]: the numbers it returns *)

Section LinkedNumbers.
Import module_release.

Definition issueNumberRange (n : Z) : Prop := 0 < n <= Go.MaxInt.

Lemma Sscanf_range (text : string) (v : Z) :
  fmt.SscanfInt text = Ret (Some v) -> v <= Go.MaxInt.
Proof.
  unfold fmt.SscanfInt.
  destruct (list_ascii_of_string text) as [|d ds]; [discriminate|].
  destruct (strconv.allDigits (d :: ds)); [|discriminate].
  destruct (Go.decimalValue (d :: ds) <=? Go.MaxInt) eqn:Hle; [|discriminate].
  intros [= <-]. by apply Z.leb_le.
Qed.

Lemma collectNumbers_range (matches : list (list string)) (issueNumbers found : list Z) :
  Forall issueNumberRange issueNumbers ->
  collectNumbers matches issueNumbers = Ret found ->
  Forall issueNumberRange found.
Proof.
  revert issueNumbers. induction matches as [|match_ matches IH]; intros issueNumbers Hacc;
    cbn [collectNumbers].
  - by intros [= <-].
  - destruct match_ as [|whole [|text more]]; try by apply IH.
    unfold mbind, outcome_bind, Go.bind.
    destruct (fmt.SscanfInt text) as [scanned| | |] eqn:Hscan; try discriminate.
    destruct scanned as [v|]; cbn [default]; unfold id.
    + destruct (0 <? v) eqn:Hpos; [|by apply IH].
      apply IH, Forall_app. split; [done|].
      apply Forall_singleton. split; [by apply Z.ltb_lt|by eapply Sscanf_range].
    + change (0 <? 0) with false. cbv iota. by apply IH.
Qed.

Lemma scanPatterns_range (patterns : list string) (prBody : string)
    (issueNumbers found : list Z) :
  Forall issueNumberRange issueNumbers ->
  scanPatterns patterns prBody issueNumbers = Ret found ->
  Forall issueNumberRange found.
Proof.
  revert issueNumbers. induction patterns as [|pattern patterns IH];
    intros issueNumbers Hacc; cbn [scanPatterns].
  - by intros [= <-].
  - unfold mbind, outcome_bind, Go.bind.
    destruct (regexp.MustCompile pattern) as [re| | |]; try discriminate.
    destruct (collectNumbers (regexp.FindAllStringSubmatch re prBody) issueNumbers)
      as [found'| | |] eqn:Hfound; try discriminate.
    apply IH. by eapply collectNumbers_range.
Qed.

(** X2. Whatever the body and the repository argument, every number
    [GetLinkedIssues] returns is positive and within the range of
    [int]: 0, a number too large to scan, or a negative number is
    never returned. *)
Theorem GetLinkedIssues_numbers_in_range (prBody issuesRepo : string) (issueNumbers : list Z) :
  GetLinkedIssues prBody issuesRepo = Ret issueNumbers ->
  Forall issueNumberRange issueNumbers.
Proof.
  unfold GetLinkedIssues.
  destruct (gostrings.Split issuesRepo "/") as [|owner [|repo [|more parts]]];
    try (intros [= <-]; constructor).
  cbv zeta. by apply scanPatterns_range.
Qed.

Lemma GetLinkedIssues_numbers_in_range_witness :
  GetLinkedIssues "Fixes NethServer/dev#0, NethServer/dev#42, NethServer/issues/0043"
    "NethServer/dev" = Ret [43; 42]
  /\ Forall issueNumberRange [43; 42].
Proof.
  assert (H : GetLinkedIssues
                "Fixes NethServer/dev#0, NethServer/dev#42, NethServer/issues/0043"
                "NethServer/dev" = Ret [43; 42]) by (vm_compute; reflexivity).
  split; [exact H|].
  exact (GetLinkedIssues_numbers_in_range _ _ _ H).
Defined.

End LinkedNumbers.

(** ** [ProcessIssue]: the entry of a fetched issue, and failures *)

Section IssueEntry.
Import github module_release.

(** The labels that are shown: all but [verified] and [testing]. *)
Definition shownLabel (name : string) : bool :=
  negb (String.eqb name "verified") && negb (String.eqb name "testing").

Definition hasLabel (label : string) (labels : list string) : bool :=
  existsb (fun name => String.eqb name label) labels.

Lemma scanLabels_spec (labels labelNames : list string) (hasVerified hasTesting : bool) :
  scanLabels labels labelNames hasVerified hasTesting
  = (labelNames ++ List.filter shownLabel labels,
     hasVerified || hasLabel "verified" labels,
     hasTesting || hasLabel "testing" labels).
Proof.
  revert labelNames hasVerified hasTesting.
  induction labels as [|name labels IH]; intros labelNames hasVerified hasTesting;
    cbn [scanLabels List.filter hasLabel existsb].
  - by rewrite app_nil_r, !orb_false_r.
  - unfold shownLabel at 1.
    destruct (String.eqb_spec name "verified") as [->|Hv].
    + change (String.eqb "verified" "testing") with false.
      cbn [negb andb orb]. rewrite IH. by rewrite !orb_true_r.
    + cbn [negb andb orb]. destruct (String.eqb name "testing"); cbn [negb orb]; rewrite IH.
      * by rewrite !orb_true_r.
      * by rewrite <- app_assoc.
Qed.

(** X3. The entry that [ProcessIssue] makes for an issue it fetches:
    the progress is "verified" when the issue has the label
    [verified], whatever its other labels and their order; "testing"
    when it has [testing] and not [verified]; "in progress" otherwise.
    The labels shown are the other labels, in their order, separated by
    spaces; the entry carries the number of the issue and counts one
    reference. *)
Theorem fetched_issue_progress (fuel : nat) (client : Client) (cs cs' : CheckSummary) (n : Z)
    (issue : Issue) (err : option Go.error) :
  Issues cs !! n = None ->
  GetIssue client (IssuesRepo cs) n = Ok issue ->
  ProcessIssue fuel client cs n = Ret (cs', err) ->
  exists info,
    Issues cs' !! n = Some info
    /\ Progress info
       = (if hasLabel "verified" (github.Labels issue) then EmojiVerified
          else if hasLabel "testing" (github.Labels issue) then EmojiTesting
          else EmojiInProgress)
    /\ module_release.Labels info
       = gostrings.Join (List.filter shownLabel (github.Labels issue)) " "
    /\ Number info = n
    /\ RefCount info = 1
    /\ Children info = [].
Proof.
  intros Hn Hissue Hrun.
  destruct (ProcessIssue_fetched fuel client cs cs' n issue err Hn Hissue Hrun) as [p Hp].
  eexists. split; [exact Hp|].
  unfold newIssueInfo. rewrite scanLabels_spec. cbn. done.
Qed.

Lemma fetched_issue_progress_witness :
  exists cs' info,
    ProcessIssue 2 checkClient (NewCheckSummary "NethServer/dev") 42 = Ret (cs', None)
    /\ Issues cs' !! 42 = Some info
    /\ Progress info = EmojiVerified
    /\ module_release.Labels info = "bug".
Proof.
  assert (Hrun : exists cs',
             ProcessIssue 2 checkClient (NewCheckSummary "NethServer/dev") 42
             = Ret (cs', None)) by (eexists; vm_compute; reflexivity).
  destruct Hrun as [cs' Hrun].
  destruct (fetched_issue_progress 2 checkClient (NewCheckSummary "NethServer/dev") cs' 42
              {| issueNumber := 42; Title := "An issue"; State := "open";
                 github.Labels := ["verified"; "bug"] |} None eq_refl eq_refl Hrun)
    as (info & Hinfo & Hprogress & Hlabels & _).
  exists cs', info. repeat split; done.
Defined.

(** X4. [ProcessIssue] returns an error in one case only: the issue is
    not in the summary yet and fetching it fails. The summary is then
    left as it was. A failure met while going up to the parent (its
    lookup or its fetch) is never returned. *)
Theorem ProcessIssue_error (fuel : nat) (client : Client) (cs cs' : CheckSummary) (n : Z)
    (e : Go.error) :
  ProcessIssue (S fuel) client cs n = Ret (cs', Some e)
  <-> cs' = cs
      /\ Issues cs !! n = None
      /\ exists cause,
           GetIssue client (IssuesRepo cs) n = Err cause
           /\ e = "failed to get issue " +:+ fmt.FormatInt n +:+ ": " +:+ cause.
Proof.
  rewrite ProcessIssue_S. cbv zeta. split.
  - destruct (Issues cs !! n); [discriminate|].
    destruct (GetIssue client (IssuesRepo cs) n) as [issue|cause].
    + destruct (GetParentIssueNumber client (IssuesRepo cs) n) as [p|]; [|discriminate].
      destruct (0 <? p); [|discriminate].
      unfold mbind, outcome_bind, Go.bind, appendChild.
      destruct (Issues cs !! p).
      * discriminate.
      * destruct (ProcessIssue fuel client cs p) as [[cs1 [e1|]]| | |]; try discriminate.
        destruct (Issues cs1 !! p); discriminate.
    + intros [= <- <-]. eauto.
  - intros (-> & Hn & cause & Hcause & ->). by rewrite Hn, Hcause.
Qed.

End IssueEntry.

(** ** [Display]: the verdict and the order of the map *)

Section VerdictOrder.
Import github module_release cmd.

Definition reverseOrder : rangeOrder := fun V m => reverse (map_to_list m).

Lemma reverseOrder_valid : validOrder reverseOrder.
Proof. intros V m. unfold reverseOrder. by rewrite reverse_Permutation. Qed.

Lemma Display_any_order (ro ro' : rangeOrder) (cs : CheckSummary) :
  validOrder ro -> validOrder ro' -> childrenKnown cs ->
  Display ro cs = Display ro' cs.
Proof.
  intros Hro Hro' Hknown.
  destruct (Display_result ro cs Hro Hknown) as (ready & -> & Hready).
  destruct (Display_result ro' cs Hro' Hknown) as (ready' & -> & Hready').
  f_equal. destruct ready, ready'; try done.
  - symmetry. apply Hready', Hready. done.
  - apply Hready, Hready'. done.
Qed.

(** X5. Go ranges over the map of the issues in an order of its own
    choosing. For the summary a run of [check] displays, the verdict
    is the same in every order: [Display] prints "All checks passed"
    in one order exactly if it does in any other. *)
Theorem verdict_in_any_order (fuel : nat) (ro ro' : rangeOrder) (env : Env)
    (repoFlag issuesRepoFlag : string) (summary : CheckSummary)
    (commitsInPRs : gmap string bool) (ready : bool) :
  validOrder ro -> validOrder ro' ->
  runCheck fuel ro env repoFlag issuesRepoFlag
    = Ret (Ok (Reported summary commitsInPRs ready)) ->
  Display ro' summary = Ret ready.
Proof.
  intros Hro Hro' Hrun.
  apply runCheck_reported in Hrun
    as (client & repo & latestRelease & commits & prNumbers & processed
        & _ & _ & _ & Hprs & _ & Hsummary & Hdisplay).
  apply processPRs_invariant in Hprs as [_ Hknown].
  specialize (Hknown (childrenKnown_new issuesRepoFlag)).
  pose proof (findOrphans_spec repo commits commitsInPRs processed) as (_ & Hissues & _).
  cbv zeta in Hissues. rewrite <- Hsummary in Hissues.
  assert (Hknown' : childrenKnown summary).
  { intros n info c. rewrite Hissues. apply Hknown. }
  by rewrite <- Hdisplay, (Display_any_order ro' ro).
Qed.

Lemma verdict_in_any_order_witness :
  runCheck 3 keyOrder checkEnv "" "NethServer/dev"
  = Ret (Ok (Reported checkedSummary {[ "c1" := true ]} true))
  /\ Display reverseOrder checkedSummary = Ret true.
Proof.
  split; [exact checkEnv_run|].
  exact (verdict_in_any_order 3 keyOrder reverseOrder checkEnv "" "NethServer/dev"
           checkedSummary {[ "c1" := true ]} true
           keyOrder_valid reverseOrder_valid checkEnv_run).
Defined.

End VerdictOrder.

(** * The commands that write: [clean] and [comment] *)

(** ** The writes of the client

    [DeleteRelease] and [CreateIssueComment] change the platform. A
    run is given the platform as the function that answers a write from
    the writes made before it (the most recent last), and returns the
    writes it made. *)

Module writes.

Inductive write : Type :=
| Deleted (repo tag : string)
| Commented (repo : string) (number : Z) (body : string).

Record Writer : Type :=
  { DeleteRelease : list write -> string -> string -> option Go.error;
    CreateIssueComment : list write -> string -> Z -> string -> result string }.

End writes.

(** ** semver.go: [GetPreReleasesBetween] *)

Module semver.
Import github.

(** The first loop: the creation times of the releases named
    [startTag] and [endTag]. There is no [break]: a later release of
    the same name replaces the time of an earlier one. *)
Fixpoint findTimes (allReleases : list Release) (startTag endTag : string)
    (startTime endTime : string) : string * string :=
  match allReleases with
  | [] => (startTime, endTime)
  | r :: allReleases' =>
    let startTime := if String.eqb (TagName r) startTag then CreatedAt r else startTime in
    let endTime := if String.eqb (TagName r) endTag then CreatedAt r else endTime in
    findTimes allReleases' startTag endTag startTime endTime
  end.

(** [r.IsPrerelease && r.CreatedAt > startTime && r.CreatedAt <= endTime];
    Go orders strings byte by byte. *)
Definition between (startTime endTime : string) (r : Release) : bool :=
  IsPrerelease r && String.ltb startTime (CreatedAt r) && String.leb (CreatedAt r) endTime.

(** The second loop. *)
Fixpoint selectPreReleases (allReleases : list Release) (startTime endTime : string)
    (preReleases : list string) : list string :=
  match allReleases with
  | [] => preReleases
  | r :: allReleases' =>
    if between startTime endTime r
    then selectPreReleases allReleases' startTime endTime (preReleases ++ [TagName r])
    else selectPreReleases allReleases' startTime endTime preReleases
  end.

Definition errNoStartOrEnd : Go.error := "could not find start or end release".

Definition GetPreReleasesBetween (client : Client) (repo startTag endTag : string)
    : result (list string) :=
  match ListReleases client repo 1000 false with
  | Err e => Err ("failed to list releases: " +:+ e)
  | Ok allReleases =>
    let '(startTime, endTime) := findTimes allReleases startTag endTag "" "" in
    if String.eqb startTime "" || String.eqb endTime ""
    then Err errNoStartOrEnd
    else Ok (selectPreReleases allReleases startTime endTime [])
  end.

End semver.

(** ** clean.go *)

Module clean.
Import github module_release writes semver cmd.

(** What a run leaves: the writes made, standard output, and the error
    returned. *)
Record cleanRun : Type :=
  { cleanWrites : list write; cleanOut : string; cleanErr : option Go.error }.

(** The first loop over the pre-releases: the list that is printed. *)
Definition listed (preReleases : list string) : string :=
  String.concat "" (map (fun tag => "  - " +:+ tag +:+ nl) preReleases).

(** "Delete each pre-release": a deletion that fails is reported and
    the loop goes on. *)
Fixpoint deleteAll (w : Writer) (repo : string) (preReleases : list string)
    (history : list write) (out : string) (deletedCount : Z) : list write * string * Z :=
  match preReleases with
  | [] => (history, out, deletedCount)
  | tag :: preReleases' =>
    let out := out +:+ "Deleting " +:+ tag +:+ "... " in
    let history' := history ++ [Deleted repo tag] in
    match DeleteRelease w history repo tag with
    | Some e =>
      deleteAll w repo preReleases' history' (out +:+ "❌ Failed: " +:+ e +:+ nl) deletedCount
    | None =>
      deleteAll w repo preReleases' history' (out +:+ "✅" +:+ nl)
        (Go.wrap (deletedCount + 1))
    end
  end.

Definition failed (history : list write) (e : Go.error) : outcome cleanRun :=
  Ret {| cleanWrites := history; cleanOut := ""; cleanErr := Some e |}.

Definition runClean (env : Env) (w : Writer) (repoFlag releaseNameFlag : string)
    (history : list write) : outcome cleanRun :=
  match NewClient env with
  | Err e => failed history ("failed to create GitHub client: " +:+ e)
  | Ok client =>
    validated ← GetOrValidateRepo env client repoFlag;
    match validated with
    | Err e => failed history e
    | Ok repo =>
      let stable :=
        if String.eqb releaseNameFlag "" then
          match GetLatestRelease client repo true with
          | Err _ => Err "no stable release found in the repository"
          | Ok release => Ok (TagName release)
          end
        else Ok releaseNameFlag in
      match stable with
      | Err e => failed history e
      | Ok stableRelease =>
        previous ← FindPreviousRelease client repo stableRelease;
        match previous with
        | Err e => failed history ("failed to find previous release: " +:+ e)
        | Ok previousRelease =>
          match GetPreReleasesBetween client repo previousRelease stableRelease with
          | Err e => failed history ("failed to get pre-releases: " +:+ e)
          | Ok preReleases =>
            if (length preReleases =? 0)%nat then
              Ret {| cleanWrites := history;
                     cleanOut := "No pre-releases found between " +:+ previousRelease
                                 +:+ " and " +:+ stableRelease +:+ nl;
                     cleanErr := None |}
            else
              let out :=
                "Found " +:+ fmt.FormatInt (Z.of_nat (length preReleases))
                +:+ " pre-release(s) to delete between " +:+ previousRelease
                +:+ " and " +:+ stableRelease +:+ ":" +:+ nl
                +:+ listed preReleases +:+ nl in
              let '(history', out, deletedCount) :=
                deleteAll w repo preReleases history out 0 in
              Ret {| cleanWrites := history';
                     cleanOut := out +:+ nl +:+ "✅ Deleted " +:+ fmt.FormatInt deletedCount
                                 +:+ " pre-release(s) successfully" +:+ nl;
                     cleanErr := None |}
          end
        end
      end
    end
  end.

End clean.

(** ** comment.go *)

Module comment.
Import github module_release writes cmd.

Record commentRun : Type :=
  { commentWrites : list write;
    commentOut : string;
    commentErrOut : string;
    commentedCount : Z;
    commentErr : option Go.error }.

(** "Collect all linked issues": the numbers are the keys of a map. *)
Fixpoint collectIssues (client : Client) (repo issuesRepoFlag : string) (prNumbers : list Z)
    (issueMap : gmap Z bool) : outcome (gmap Z bool) :=
  match prNumbers with
  | [] => Ret issueMap
  | prNum :: prNumbers' =>
    match GetPullRequest client repo prNum with
    | Err _ => collectIssues client repo issuesRepoFlag prNumbers' issueMap
    | Ok pr =>
      linkedIssues ← GetLinkedIssues (Body pr) issuesRepoFlag;
      collectIssues client repo issuesRepoFlag prNumbers'
        (fold_left (fun m issueNum => <[issueNum := true]> m) linkedIssues issueMap)
    end
  end.

Definition commentBody (release : Release) (repo releaseName : string) : string :=
  (if IsPrerelease release then "Testing release `" else "Release `")
  +:+ repo +:+ "` [" +:+ releaseName +:+ "](https://github.com/" +:+ repo
  +:+ "/releases/tag/" +:+ releaseName +:+ ")".

Definition closed (issue : Issue) : bool :=
  String.eqb (State issue) "CLOSED" || String.eqb (State issue) "closed".

(** The part of the loop body after the comment on the issue: the
    comment on its parent. *)
Definition commentOnParent (client : Client) (w : Writer) (issuesRepoFlag body : string)
    (run : commentRun) (issueNum : Z) : commentRun :=
  match GetParentIssueNumber client issuesRepoFlag issueNum with
  | Err _ => run
  | Ok parentNum =>
    if 0 <? parentNum then
      match GetIssue client issuesRepoFlag parentNum with
      | Err _ => run
      | Ok parentIssue =>
        if negb (String.eqb (State parentIssue) "CLOSED")
           && negb (String.eqb (State parentIssue) "closed")
        then
          let writes := commentWrites run ++ [Commented issuesRepoFlag parentNum body] in
          match CreateIssueComment w (commentWrites run) issuesRepoFlag parentNum body with
          | Err e =>
            {| commentWrites := writes;
               commentOut := commentOut run;
               commentErrOut :=
                 commentErrOut run +:+ "Warning: failed to comment on parent issue "
                 +:+ fmt.FormatInt parentNum +:+ ": " +:+ e +:+ nl;
               commentedCount := commentedCount run;
               commentErr := commentErr run |}
          | Ok parentCommentURL =>
            {| commentWrites := writes;
               commentOut :=
                 commentOut run +:+ "✅ Commented on parent issue " +:+ issuesRepoFlag
                 +:+ "#" +:+ fmt.FormatInt parentNum +:+ nl +:+ "   "
                 +:+ parentCommentURL +:+ nl;
               commentErrOut := commentErrOut run;
               commentedCount := Go.wrap (commentedCount run + 1);
               commentErr := commentErr run |}
          end
        else run
      end
    else run
  end.

(** The body of the loop "Post comments on open issues". *)
Definition commentOn (client : Client) (w : Writer) (issuesRepoFlag body : string)
    (run : commentRun) (issueNum : Z) : commentRun :=
  match GetIssue client issuesRepoFlag issueNum with
  | Err e =>
    {| commentWrites := commentWrites run;
       commentOut := commentOut run;
       commentErrOut :=
         commentErrOut run +:+ "Warning: failed to get issue " +:+ fmt.FormatInt issueNum
         +:+ ": " +:+ e +:+ nl;
       commentedCount := commentedCount run;
       commentErr := commentErr run |}
  | Ok issue =>
    if closed issue then run
    else
      let writes := commentWrites run ++ [Commented issuesRepoFlag issueNum body] in
      match CreateIssueComment w (commentWrites run) issuesRepoFlag issueNum body with
      | Err e =>
        {| commentWrites := writes;
           commentOut := commentOut run;
           commentErrOut :=
             commentErrOut run +:+ "Warning: failed to comment on issue "
             +:+ fmt.FormatInt issueNum +:+ ": " +:+ e +:+ nl;
           commentedCount := commentedCount run;
           commentErr := commentErr run |}
      | Ok commentURL =>
        commentOnParent client w issuesRepoFlag body
          {| commentWrites := writes;
             commentOut :=
               commentOut run +:+ "✅ Commented on issue " +:+ issuesRepoFlag
               +:+ "#" +:+ fmt.FormatInt issueNum +:+ nl +:+ "   " +:+ commentURL +:+ nl;
             commentErrOut := commentErrOut run;
             commentedCount := Go.wrap (commentedCount run + 1);
             commentErr := commentErr run |}
          issueNum
      end
  end.

Definition failed (history : list write) (e : Go.error) : outcome commentRun :=
  Ret {| commentWrites := history; commentOut := ""; commentErrOut := "";
         commentedCount := 0; commentErr := Some e |}.

Definition runComment (ro : rangeOrder) (env : Env) (w : Writer)
    (repoFlag issuesRepoFlag : string) (args : list string) (history : list write)
    : outcome commentRun :=
  match NewClient env with
  | Err e => failed history ("failed to create GitHub client: " +:+ e)
  | Ok client =>
    validated ← GetOrValidateRepo env client repoFlag;
    match validated with
    | Err e => failed history e
    | Ok repo =>
      let releaseName := match args with arg :: _ => arg | [] => "" end in
      let named :=
        if String.eqb releaseName "" then
          match GetLatestRelease client repo false with
          | Err e => Err ("failed to get latest release: " +:+ e)
          | Ok release => Ok (TagName release)
          end
        else Ok releaseName in
      match named with
      | Err e => failed history e
      | Ok releaseName =>
        match ViewRelease client repo releaseName with
        | Err e => failed history ("failed to view release: " +:+ e)
        | Ok release =>
          previous ← FindPreviousRelease client repo releaseName;
          match previous with
          | Err e => failed history ("failed to find previous release: " +:+ e)
          | Ok previousRelease =>
            match ScanForPRs ro client repo previousRelease releaseName with
            | Err e => failed history ("failed to scan PRs: " +:+ e)
            | Ok prNumbers =>
              issueMap ← collectIssues client repo issuesRepoFlag prNumbers ∅;
              if (size issueMap =? 0)%nat then
                Ret {| commentWrites := history;
                       commentOut := "No linked issues found for this release." +:+ nl;
                       commentErrOut := ""; commentedCount := 0; commentErr := None |}
              else
                let body := commentBody release repo releaseName in
                let run :=
                  fold_left (commentOn client w issuesRepoFlag body)
                    (map fst (ro bool issueMap))
                    {| commentWrites := history; commentOut := ""; commentErrOut := "";
                       commentedCount := 0; commentErr := None |} in
                Ret {| commentWrites := commentWrites run;
                       commentOut :=
                         if commentedCount run =? 0
                         then commentOut run +:+ "No open issues to comment on." +:+ nl
                         else commentOut run +:+ nl +:+ "✅ Posted "
                              +:+ fmt.FormatInt (commentedCount run)
                              +:+ " comment(s) successfully" +:+ nl;
                       commentErrOut := commentErrOut run;
                       commentedCount := commentedCount run;
                       commentErr := None |}
            end
          end
        end
      end
    end
  end.

End comment.

(** ** [GetPreReleasesBetween] *)

Section PreReleasesBetween.
Import github module_release semver.

Definition named (tag : string) (r : Release) : bool := String.eqb (TagName r) tag.

(** The creation time that stands for a tag: that of the last release
    of the list with this name, and the empty string when there is
    none. *)
Definition timeOf (tag : string) (allReleases : list Release) : string :=
  from_option CreatedAt "" (last (List.filter (named tag) allReleases)).

Lemma last_filter_cons {A : Type} (f : A -> bool) (x : A) (l : list A) :
  last (List.filter f (x :: l))
  = match last (List.filter f l) with
    | Some y => Some y
    | None => if f x then Some x else None
    end.
Proof.
  cbn [List.filter]. destruct (f x); [|by destruct (last (List.filter f l))].
  destruct (List.filter f l) as [|y l'] eqn:Hl; [done|].
  rewrite last_cons. by destruct (last (y :: l')) eqn:Hlast.
Qed.

Lemma findTimes_spec (allReleases : list Release) (startTag endTag startTime endTime : string) :
  findTimes allReleases startTag endTag startTime endTime
  = (from_option CreatedAt startTime (last (List.filter (named startTag) allReleases)),
     from_option CreatedAt endTime (last (List.filter (named endTag) allReleases))).
Proof.
  revert startTime endTime.
  induction allReleases as [|r allReleases IH]; intros startTime endTime; [done|].
  cbn [findTimes]. cbv zeta. rewrite IH, !last_filter_cons.
  change (named startTag r) with (String.eqb (TagName r) startTag).
  change (named endTag r) with (String.eqb (TagName r) endTag).
  f_equal.
  - destruct (last (List.filter (named startTag) allReleases)); [done|].
    by destruct (String.eqb (TagName r) startTag).
  - destruct (last (List.filter (named endTag) allReleases)); [done|].
    by destruct (String.eqb (TagName r) endTag).
Qed.

Lemma selectPreReleases_spec (allReleases : list Release) (startTime endTime : string)
    (preReleases : list string) :
  selectPreReleases allReleases startTime endTime preReleases
  = preReleases ++ map TagName (List.filter (between startTime endTime) allReleases).
Proof.
  revert preReleases. induction allReleases as [|r allReleases IH]; intros preReleases;
    cbn [selectPreReleases List.filter].
  - by rewrite app_nil_r.
  - destruct (between startTime endTime r); rewrite IH; [|done].
    cbn [map]. by rewrite <- app_assoc.
Qed.

Lemma ltb_not_leb (a b : string) : String.ltb a b = true -> String.leb b a = false.
Proof.
  unfold String.ltb, String.leb. rewrite (String.compare_antisym a b).
  by destruct (String.compare b a).
Qed.

Lemma ltb_irrefl (a : string) : String.ltb a a = false.
Proof.
  destruct (String.ltb a a) eqn:H; [|done].
  pose proof (ltb_not_leb _ _ H) as H'. unfold String.ltb, String.leb in *.
  by destruct (String.compare a a).
Qed.

Lemma between_same (time : string) (allReleases : list Release) :
  List.filter (between time time) allReleases = [].
Proof.
  induction allReleases as [|r l IH]; [done|]. cbn [List.filter].
  replace (between time time r) with false; [done|].
  symmetry. unfold between.
  destruct (String.ltb time (CreatedAt r)) eqn:Hlt.
  - by rewrite (ltb_not_leb _ _ Hlt), andb_false_r.
  - by rewrite andb_false_r.
Qed.

Lemma GetPreReleasesBetween_run (client : Client) (repo startTag endTag : string)
    (allReleases : list Release) :
  ListReleases client repo 1000 false = Ok allReleases ->
  GetPreReleasesBetween client repo startTag endTag
  = if String.eqb (timeOf startTag allReleases) "" || String.eqb (timeOf endTag allReleases) ""
    then Err errNoStartOrEnd
    else Ok (map TagName
               (List.filter (between (timeOf startTag allReleases) (timeOf endTag allReleases))
                  allReleases)).
Proof.
  intros Hlist. unfold GetPreReleasesBetween. rewrite Hlist, findTimes_spec.
  fold (timeOf startTag allReleases) (timeOf endTag allReleases).
  by rewrite selectPreReleases_spec.
Qed.

Lemma selected_prerelease (startTime endTime tag : string) (allReleases : list Release) :
  tag ∈ map TagName (List.filter (between startTime endTime) allReleases) ->
  exists r, r ∈ allReleases /\ TagName r = tag /\ IsPrerelease r = true
            /\ CreatedAt r <> startTime.
Proof.
  intros Htag. change (map ?f ?l) with (f <$> l) in Htag.
  apply list_elem_of_fmap in Htag as (r & -> & Hr).
  apply list_elem_of_In, filter_In in Hr as [Hr Hbetween].
  unfold between in Hbetween.
  apply andb_true_iff in Hbetween as [Hbetween _].
  apply andb_true_iff in Hbetween as [Hpre Hafter].
  exists r. repeat split; [by apply list_elem_of_In|done|].
  intros Heq. rewrite Heq in Hafter. by rewrite ltb_irrefl in Hafter.
Qed.

(** X6. With the list of releases fetched, [GetPreReleasesBetween]
    fails exactly when the list has no release named [startTag] with a
    creation time that is not empty, or none named [endTag]. Otherwise
    it returns, in the order of the list, the tags of the releases
    that are marked as pre-releases and were created after the release
    named [startTag] and not after the one named [endTag] (times
    compared as strings). A release that is not marked as a
    pre-release is never returned, nor is a release created at the
    time of the start release; with the same tag on both sides the
    result is empty. *)
Theorem GetPreReleasesBetween_selects (client : Client) (repo startTag endTag : string)
    (allReleases : list Release) :
  ListReleases client repo 1000 false = Ok allReleases ->
  let startTime := timeOf startTag allReleases in
  let endTime := timeOf endTag allReleases in
  (GetPreReleasesBetween client repo startTag endTag = Err errNoStartOrEnd
   <-> startTime = "" \/ endTime = "")
  /\ (startTime <> "" -> endTime <> "" ->
      GetPreReleasesBetween client repo startTag endTag
      = Ok (map TagName (List.filter (between startTime endTime) allReleases)))
  /\ (forall preReleases tag,
        GetPreReleasesBetween client repo startTag endTag = Ok preReleases ->
        tag ∈ preReleases ->
        exists r, r ∈ allReleases /\ TagName r = tag /\ IsPrerelease r = true
                  /\ CreatedAt r <> startTime)
  /\ (startTag = endTag -> startTime <> "" ->
      GetPreReleasesBetween client repo startTag endTag = Ok []).
Proof.
  intros Hlist startTime endTime.
  pose proof (GetPreReleasesBetween_run client repo startTag endTag allReleases Hlist) as Hrun.
  fold startTime endTime in Hrun.
  assert (Hfound : startTime <> "" -> endTime <> "" ->
            GetPreReleasesBetween client repo startTag endTag
            = Ok (map TagName (List.filter (between startTime endTime) allReleases))).
  { intros Hs He. rewrite Hrun.
    apply String.eqb_neq in Hs, He. by rewrite Hs, He. }
  repeat split.
  - rewrite Hrun. destruct (String.eqb_spec startTime ""); [auto|].
    destruct (String.eqb_spec endTime ""); [auto|]. discriminate.
  - rewrite Hrun. intros [-> | ->]; [done|]. by rewrite orb_true_r.
  - exact Hfound.
  - intros preReleases tag. rewrite Hrun.
    destruct (String.eqb startTime "" || String.eqb endTime ""); [discriminate|].
    intros [= <-]. apply selected_prerelease.
  - intros <- Hs. rewrite Hfound by done. by rewrite between_same.
Qed.

Lemma GetPreReleasesBetween_selects_witness :
  GetPreReleasesBetween releaseClient "NethServer/ns8-mail" "1.0.0" "1.0.1"
  = Ok ["1.0.1-testing.2"; "1.0.1-testing.1"]
  /\ GetPreReleasesBetween releaseClient "NethServer/ns8-mail" "1.0.1" "1.0.1" = Ok [].
Proof.
  pose proof (GetPreReleasesBetween_selects releaseClient "NethServer/ns8-mail"
                "1.0.0" "1.0.1" fourReleases eq_refl) as (_ & Hfound & _).
  pose proof (GetPreReleasesBetween_selects releaseClient "NethServer/ns8-mail"
                "1.0.1" "1.0.1" fourReleases eq_refl) as (_ & _ & _ & Hsame).
  split.
  - apply Hfound; discriminate.
  - apply Hsame; [reflexivity|discriminate].
Defined.

End PreReleasesBetween.

(** ** [runClean] *)

Section Clean.
Import github module_release writes semver cmd clean.

Lemma deleteAll_writes (w : Writer) (repo : string) (preReleases : list string)
    (history : list write) (out : string) (deletedCount : Z) :
  (deleteAll w repo preReleases history out deletedCount).1.1
  = history ++ map (Deleted repo) preReleases.
Proof.
  revert history out deletedCount.
  induction preReleases as [|tag preReleases IH]; intros history out deletedCount;
    cbn [deleteAll map].
  - by rewrite app_nil_r.
  - cbv zeta. destruct (DeleteRelease w history repo tag); rewrite IH;
      by rewrite <- app_assoc.
Qed.

(** What a run that returns has gone through. *)
Lemma runClean_run (env : Env) (w : Writer) (repoFlag releaseNameFlag : string)
    (history : list write) (run : cleanRun) :
  runClean env w repoFlag releaseNameFlag history = Ret run ->
  (exists e, cleanErr run = Some e /\ cleanWrites run = history)
  \/ (cleanErr run = None
      /\ exists client repo stableRelease previousRelease preReleases,
           NewClient env = Ok client
           /\ GetOrValidateRepo env client repoFlag = Ret (Ok repo)
           /\ (if String.eqb releaseNameFlag ""
               then exists release,
                      GetLatestRelease client repo true = Ok release
                      /\ stableRelease = TagName release
               else stableRelease = releaseNameFlag)
           /\ FindPreviousRelease client repo stableRelease = Ret (Ok previousRelease)
           /\ GetPreReleasesBetween client repo previousRelease stableRelease
              = Ok preReleases
           /\ cleanWrites run = history ++ map (Deleted repo) preReleases).
Proof.
  unfold runClean, clean.failed, mbind, outcome_bind, Go.bind. intros H.
  destruct (NewClient env) as [client|e]; [|injection H as <-; left; eauto].
  destruct (GetOrValidateRepo env client repoFlag) as [[repo|e]| | |] eqn:Hrepo;
    try discriminate; [|injection H as <-; left; eauto].
  cbv zeta in H.
  set (stable := if String.eqb releaseNameFlag "" then _ else _) in H.
  destruct stable as [stableRelease|e] eqn:Hstable; [|injection H as <-; left; eauto].
  destruct (FindPreviousRelease client repo stableRelease) as [[previousRelease|e]| | |]
    eqn:Hprevious; try discriminate; [|injection H as <-; left; eauto].
  destruct (GetPreReleasesBetween client repo previousRelease stableRelease)
    as [preReleases|e] eqn:Hbetween; [|injection H as <-; left; eauto].
  right.
  assert (Hname : if String.eqb releaseNameFlag ""
                  then exists release,
                         GetLatestRelease client repo true = Ok release
                         /\ stableRelease = TagName release
                  else stableRelease = releaseNameFlag).
  { subst stable. destruct (String.eqb releaseNameFlag "").
    - destruct (GetLatestRelease client repo true) as [release|]; [|discriminate].
      injection Hstable as <-. eauto.
    - by injection Hstable as <-. }
  destruct (length preReleases =? 0)%nat eqn:Hlen.
  - injection H as <-. split; [done|].
    exists client, repo, stableRelease, previousRelease, preReleases.
    repeat split; try done. cbn [cleanWrites].
    apply Nat.eqb_eq, length_zero_iff_nil in Hlen as ->. by rewrite app_nil_r.
  - pose proof (deleteAll_writes w repo preReleases history
                  ("Found " +:+ fmt.FormatInt (Z.of_nat (length preReleases))
                   +:+ " pre-release(s) to delete between " +:+ previousRelease
                   +:+ " and " +:+ stableRelease +:+ ":" +:+ nl
                   +:+ listed preReleases +:+ nl) 0) as Hwrites.
    destruct (deleteAll w repo preReleases history _ 0) as [[history' out] deletedCount].
    injection H as <-. split; [done|].
    exists client, repo, stableRelease, previousRelease, preReleases.
    repeat split; done.
Qed.

(** X7. A run of [clean] that returns an error has written nothing.
    A run that returns without error has asked once, in their order,
    for the deletion of each tag [GetPreReleasesBetween] gives between
    the release before the stable release and the stable release (the
    release named by the flag, or the latest stable release), and has
    made no other write; a deletion that fails does not stop the ones
    after it and is not returned as an error. *)
Theorem runClean_deletions (env : Env) (w : Writer) (repoFlag releaseNameFlag : string)
    (history : list write) (run : cleanRun) :
  runClean env w repoFlag releaseNameFlag history = Ret run ->
  (forall e, cleanErr run = Some e -> cleanWrites run = history)
  /\ (cleanErr run = None ->
      exists client repo stableRelease previousRelease preReleases,
        NewClient env = Ok client
        /\ GetOrValidateRepo env client repoFlag = Ret (Ok repo)
        /\ (releaseNameFlag <> "" -> stableRelease = releaseNameFlag)
        /\ (releaseNameFlag = "" ->
            exists release,
              GetLatestRelease client repo true = Ok release
              /\ stableRelease = TagName release)
        /\ FindPreviousRelease client repo stableRelease = Ret (Ok previousRelease)
        /\ GetPreReleasesBetween client repo previousRelease stableRelease = Ok preReleases
        /\ cleanWrites run = history ++ map (Deleted repo) preReleases).
Proof.
  intros Hrun. apply runClean_run in Hrun as [(e & He & Hwrites)|[Hnone Hrun]].
  - split; [done|]. rewrite He. discriminate.
  - split; [rewrite Hnone; discriminate|]. intros _.
    destruct Hrun as (client & repo & stableRelease & previousRelease & preReleases
                      & H1 & H2 & H3 & H4 & H5 & H6).
    exists client, repo, stableRelease, previousRelease, preReleases.
    repeat split; try done.
    + intros Hflag. apply String.eqb_neq in Hflag. by rewrite Hflag in H3.
    + intros ->. done.
Qed.

(** A module with the four releases of [fourReleases], listed as the
    platform lists them: the most recent first, at most [limit] of
    them, without the pre-releases when asked so. *)
Definition cleanClient : Client :=
  {| GetRepository := fun repo =>
       Ok {| OwnerLogin := "NethServer"; RepoName := "ns8-mail";
             DefaultBranchRefName := "main" |};
     GetLatestCommit := GetLatestCommit offline;
     GetCommitSHA := GetCommitSHA offline;
     CompareCommits := CompareCommits offline;
     GetMergeBase := GetMergeBase offline;
     ListReleases := fun _ limit excludePreReleases =>
       Ok (take (Z.to_nat limit)
             (if excludePreReleases
              then List.filter (fun r => negb (IsPrerelease r)) fourReleases
              else fourReleases));
     ViewRelease := ViewRelease releaseClient;
     Exec := Exec offline;
     GetPullRequestsForCommit := GetPullRequestsForCommit offline;
     GetPullRequest := GetPullRequest offline;
     GetIssue := GetIssue offline;
     queryParent := queryParent offline |}.

Definition cleanEnv : Env :=
  {| NewClient := Ok cleanClient; GetCurrentRepository := Ok "NethServer/ns8-mail" |}.

(** A platform that refuses to delete [1.0.1-testing.2]. *)
Definition stubbornWriter : Writer :=
  {| DeleteRelease := fun _ _ tag =>
       if String.eqb tag "1.0.1-testing.2" then Some "failed to delete release: HTTP 403"
       else None;
     CreateIssueComment := fun _ _ _ _ => Err "failed to create comment" |}.

Lemma cleanEnv_run :
  exists run,
    runClean cleanEnv stubbornWriter "" "" [] = Ret run
    /\ cleanErr run = None
    /\ cleanWrites run
       = [ Deleted "NethServer/ns8-mail" "1.0.1-testing.2";
           Deleted "NethServer/ns8-mail" "1.0.1-testing.1" ].
Proof. eexists. split; [vm_compute; reflexivity|]. split; reflexivity. Qed.

Lemma runClean_deletions_witness :
  exists run repo preReleases,
    runClean cleanEnv stubbornWriter "" "" [] = Ret run
    /\ cleanErr run = None
    /\ cleanWrites run = [] ++ map (Deleted repo) preReleases.
Proof.
  destruct cleanEnv_run as (run & Hrun & Herr & _).
  destruct (proj2 (runClean_deletions cleanEnv stubbornWriter "" "" [] run Hrun) Herr)
    as (client & repo & stableRelease & previousRelease & preReleases & _ & _ & _ & _ & _ & _
        & Hwrites).
  exists run, repo, preReleases. auto.
Defined.

(** X8. Every write of a run of [clean] is the deletion of a release
    that the list of the repository's releases holds and marks as a
    pre-release: a release that is not marked so is never deleted,
    and no comment is made. *)
Theorem runClean_only_prereleases (env : Env) (w : Writer) (repoFlag releaseNameFlag : string)
    (history : list write) (run : cleanRun) :
  runClean env w repoFlag releaseNameFlag history = Ret run ->
  exists made,
    cleanWrites run = history ++ made
    /\ forall wr,
         wr ∈ made ->
         exists client repo allReleases r,
           NewClient env = Ok client
           /\ ListReleases client repo 1000 false = Ok allReleases
           /\ r ∈ allReleases
           /\ IsPrerelease r = true
           /\ wr = Deleted repo (TagName r).
Proof.
  intros Hrun. apply runClean_run in Hrun as [(e & He & Hwrites)|[Hnone Hrun]].
  - exists []. rewrite app_nil_r. split; [done|]. intros wr Hwr. by apply elem_of_nil in Hwr.
  - destruct Hrun as (client & repo & stableRelease & previousRelease & preReleases
                      & Hclient & _ & _ & _ & Hbetween & Hwrites).
    exists (map (Deleted repo) preReleases). split; [done|].
    intros wr Hwr. change (map ?f ?l) with (f <$> l) in Hwr.
    apply list_elem_of_fmap in Hwr as (tag & -> & Htag).
    destruct (ListReleases client repo 1000 false) as [allReleases|e] eqn:Hlist.
    2:{ unfold GetPreReleasesBetween in Hbetween. by rewrite Hlist in Hbetween. }
    rewrite (GetPreReleasesBetween_run _ _ _ _ _ Hlist) in Hbetween.
    destruct (_ || _); [discriminate|]. injection Hbetween as <-.
    apply selected_prerelease in Htag as (r & Hr & <- & Hpre & _).
    exists client, repo, allReleases, r. done.
Qed.

Lemma runClean_only_prereleases_witness :
  exists run made,
    runClean cleanEnv stubbornWriter "" "" [] = Ret run
    /\ cleanWrites run = [] ++ made
    /\ forall wr, wr ∈ made -> exists repo r, IsPrerelease r = true /\ wr = Deleted repo (TagName r).
Proof.
  destruct cleanEnv_run as (run & Hrun & _ & _).
  destruct (runClean_only_prereleases cleanEnv stubbornWriter "" "" [] run Hrun)
    as (made & Hwrites & Hmade).
  exists run, made. split; [done|]. split; [done|].
  intros wr Hwr. destruct (Hmade wr Hwr) as (client & repo & allReleases & r & _ & _ & _ & Hpre & ->).
  eauto.
Defined.

End Clean.

(** ** [runComment] *)

Section Comment.
Import github module_release writes cmd comment.

Variables (client : Client) (w : Writer) (issuesRepoFlag body : string).

(** A comment with the body of the run on an issue that is fetched and
    is not closed. *)
Definition commentOnOpen (wr : write) : Prop :=
  exists number issue,
    wr = Commented issuesRepoFlag number body
    /\ GetIssue client issuesRepoFlag number = Ok issue
    /\ State issue <> "CLOSED" /\ State issue <> "closed".

Lemma not_closed (issue : Issue) :
  closed issue = false -> State issue <> "CLOSED" /\ State issue <> "closed".
Proof.
  unfold closed. intros H. apply orb_false_iff in H as [H1 H2].
  by apply String.eqb_neq in H1, H2.
Qed.

Lemma commentOnParent_writes (run : commentRun) (issueNum : Z) :
  exists made,
    commentWrites (commentOnParent client w issuesRepoFlag body run issueNum)
    = commentWrites run ++ made
    /\ Forall commentOnOpen made
    /\ commentErr (commentOnParent client w issuesRepoFlag body run issueNum)
       = commentErr run.
Proof.
  unfold commentOnParent.
  assert (Hsame : exists made, commentWrites run = commentWrites run ++ made
                               /\ Forall commentOnOpen made /\ commentErr run = commentErr run)
    by (exists []; by rewrite app_nil_r).
  destruct (GetParentIssueNumber client issuesRepoFlag issueNum) as [parentNum|]; [|done].
  destruct (0 <? parentNum); [|done].
  destruct (GetIssue client issuesRepoFlag parentNum) as [parentIssue|] eqn:Hparent; [|done].
  destruct (negb (String.eqb (State parentIssue) "CLOSED")
            && negb (String.eqb (State parentIssue) "closed")) eqn:Hopen; [|done].
  apply andb_true_iff in Hopen as [H1 H2].
  apply negb_true_iff, String.eqb_neq in H1, H2.
  exists [Commented issuesRepoFlag parentNum body].
  destruct (CreateIssueComment w (commentWrites run) issuesRepoFlag parentNum body);
    cbn [commentWrites commentErr]; (split; [done|]); (split; [|done]);
    apply Forall_singleton; by exists parentNum, parentIssue.
Qed.

Lemma commentOn_writes (run : commentRun) (issueNum : Z) :
  exists made,
    commentWrites (commentOn client w issuesRepoFlag body run issueNum)
    = commentWrites run ++ made
    /\ Forall commentOnOpen made
    /\ commentErr (commentOn client w issuesRepoFlag body run issueNum) = commentErr run.
Proof.
  unfold commentOn.
  destruct (GetIssue client issuesRepoFlag issueNum) as [issue|] eqn:Hissue.
  2:{ exists []. cbn [commentWrites commentErr]. by rewrite app_nil_r. }
  destruct (closed issue) eqn:Hclosed.
  { exists []. by rewrite app_nil_r. }
  apply not_closed in Hclosed as [H1 H2].
  assert (Hthis : commentOnOpen (Commented issuesRepoFlag issueNum body))
    by (by exists issueNum, issue).
  destruct (CreateIssueComment w (commentWrites run) issuesRepoFlag issueNum body).
  - match goal with
    | |- context [commentOnParent client w issuesRepoFlag body ?r issueNum] =>
      destruct (commentOnParent_writes r issueNum) as (made & -> & Hmade & ->)
    end.
    cbn [commentWrites commentErr].
    exists (Commented issuesRepoFlag issueNum body :: made).
    rewrite <- app_assoc. split; [done|]. split; [|done]. by constructor.
  - exists [Commented issuesRepoFlag issueNum body]. cbn [commentWrites commentErr].
    split; [done|]. split; [|done]. by apply Forall_singleton.
Qed.

Lemma commentAll_writes (issueNumbers : list Z) (run : commentRun) :
  exists made,
    commentWrites (fold_left (commentOn client w issuesRepoFlag body) issueNumbers run)
    = commentWrites run ++ made
    /\ Forall commentOnOpen made.
Proof.
  revert run. induction issueNumbers as [|issueNum issueNumbers IH]; intros run;
    cbn [fold_left].
  - exists []. by rewrite app_nil_r.
  - destruct (IH (commentOn client w issuesRepoFlag body run issueNum))
      as (made' & -> & Hmade').
    destruct (commentOn_writes run issueNum) as (made & -> & Hmade & _).
    exists (made ++ made'). rewrite <- app_assoc. split; [done|].
    by apply Forall_app.
Qed.

(** An issue that is fetched and is not closed gets a comment. *)
Lemma commentOn_attempt (run : commentRun) (issueNum : Z) (issue : Issue) :
  GetIssue client issuesRepoFlag issueNum = Ok issue ->
  closed issue = false ->
  Commented issuesRepoFlag issueNum body
  ∈ commentWrites (commentOn client w issuesRepoFlag body run issueNum).
Proof.
  intros Hissue Hopen. unfold commentOn. rewrite Hissue, Hopen.
  destruct (CreateIssueComment w (commentWrites run) issuesRepoFlag issueNum body).
  - match goal with
    | |- context [commentOnParent client w issuesRepoFlag body ?r issueNum] =>
      destruct (commentOnParent_writes r issueNum) as (made & -> & _ & _)
    end.
    cbn [commentWrites]. rewrite !elem_of_app, list_elem_of_singleton. auto.
  - cbn [commentWrites]. rewrite elem_of_app, list_elem_of_singleton. auto.
Qed.

(** When the platform accepts the comment on the issue, a parent that
    is fetched and is not closed gets one too. *)
Lemma commentOn_parent_attempt (run : commentRun) (issueNum parentNum : Z)
    (issue parentIssue : Issue) (commentURL : string) :
  GetIssue client issuesRepoFlag issueNum = Ok issue ->
  closed issue = false ->
  CreateIssueComment w (commentWrites run) issuesRepoFlag issueNum body = Ok commentURL ->
  GetParentIssueNumber client issuesRepoFlag issueNum = Ok parentNum ->
  0 < parentNum ->
  GetIssue client issuesRepoFlag parentNum = Ok parentIssue ->
  closed parentIssue = false ->
  Commented issuesRepoFlag parentNum body
  ∈ commentWrites (commentOn client w issuesRepoFlag body run issueNum).
Proof.
  intros Hissue Hopen Hanswer Hparent Hpos HparentIssue HparentOpen.
  unfold commentOn. rewrite Hissue, Hopen, Hanswer.
  unfold commentOnParent. rewrite Hparent, HparentIssue.
  replace (0 <? parentNum) with true by (symmetry; by apply Z.ltb_lt).
  unfold closed in HparentOpen. apply orb_false_iff in HparentOpen as [-> ->].
  cbn [negb andb commentWrites].
  destruct (CreateIssueComment w _ issuesRepoFlag parentNum body);
    cbn [commentWrites]; rewrite elem_of_app, list_elem_of_singleton; auto.
Qed.

Lemma commentAll_keeps (issueNumbers : list Z) (run : commentRun) (wr : write) :
  wr ∈ commentWrites run ->
  wr ∈ commentWrites (fold_left (commentOn client w issuesRepoFlag body) issueNumbers run).
Proof.
  intros Hwr. destruct (commentAll_writes issueNumbers run) as (made & -> & _).
  apply elem_of_app. auto.
Qed.

Lemma commentAll_attempts (issueNumbers : list Z) (run : commentRun) (issueNum : Z)
    (issue : Issue) :
  issueNum ∈ issueNumbers ->
  GetIssue client issuesRepoFlag issueNum = Ok issue ->
  closed issue = false ->
  Commented issuesRepoFlag issueNum body
  ∈ commentWrites (fold_left (commentOn client w issuesRepoFlag body) issueNumbers run).
Proof.
  intros Hin Hissue Hopen. revert run.
  induction issueNumbers as [|n issueNumbers IH]; intros run; [by apply elem_of_nil in Hin|].
  cbn [fold_left]. apply elem_of_cons in Hin as [<-|Hin]; [|by apply IH].
  apply commentAll_keeps. by eapply commentOn_attempt.
Qed.

Lemma commentAll_parent_attempts (issueNumbers : list Z) (run : commentRun)
    (issueNum parentNum : Z) (issue parentIssue : Issue) :
  issueNum ∈ issueNumbers ->
  GetIssue client issuesRepoFlag issueNum = Ok issue ->
  closed issue = false ->
  (forall history, exists commentURL,
     CreateIssueComment w history issuesRepoFlag issueNum body = Ok commentURL) ->
  GetParentIssueNumber client issuesRepoFlag issueNum = Ok parentNum ->
  0 < parentNum ->
  GetIssue client issuesRepoFlag parentNum = Ok parentIssue ->
  closed parentIssue = false ->
  Commented issuesRepoFlag parentNum body
  ∈ commentWrites (fold_left (commentOn client w issuesRepoFlag body) issueNumbers run).
Proof.
  intros Hin Hissue Hopen Hanswer Hparent Hpos HparentIssue HparentOpen. revert run.
  induction issueNumbers as [|n issueNumbers IH]; intros run; [by apply elem_of_nil in Hin|].
  cbn [fold_left]. apply elem_of_cons in Hin as [<-|Hin]; [|by apply IH].
  apply commentAll_keeps. destruct (Hanswer (commentWrites run)) as [commentURL Hurl].
  by eapply commentOn_parent_attempt.
Qed.

End Comment.

Section CommentRun.
Import github module_release writes cmd comment.

Lemma collectIssues_lookup (client : Client) (repo issuesRepoFlag : string)
    (prNumbers : list Z) (issueMap issueMap' : gmap Z bool) (issueNum : Z) :
  collectIssues client repo issuesRepoFlag prNumbers issueMap = Ret issueMap' ->
  is_Some (issueMap' !! issueNum)
  <-> is_Some (issueMap !! issueNum)
      \/ exists prNum pr linkedIssues,
           prNum ∈ prNumbers
           /\ GetPullRequest client repo prNum = Ok pr
           /\ GetLinkedIssues (Body pr) issuesRepoFlag = Ret linkedIssues
           /\ issueNum ∈ linkedIssues.
Proof.
  revert issueMap. induction prNumbers as [|prNum prNumbers IH]; intros issueMap;
    cbn [collectIssues].
  - intros [= <-]. split; [auto|]. intros [H|(prNum & _ & _ & H & _)]; [done|].
    by apply elem_of_nil in H.
  - destruct (GetPullRequest client repo prNum) as [pr|e] eqn:Hpr.
    + unfold mbind, outcome_bind, Go.bind.
      destruct (GetLinkedIssues (Body pr) issuesRepoFlag) as [linkedIssues| | |] eqn:Hlinked;
        try discriminate.
      intros H. rewrite (IH _ H), insertAll_lookup. split.
      * intros [[H1|H1]|(prNum' & pr' & linked' & Hin & H')]; [auto| |].
        -- right. exists prNum, pr, linkedIssues. rewrite elem_of_cons. auto.
        -- right. exists prNum', pr', linked'. rewrite elem_of_cons. auto.
      * intros [H1|(prNum' & pr' & linked' & Hin & Hpr' & Hlinked' & Hnum)]; [auto|].
        apply elem_of_cons in Hin as [->|Hin].
        -- rewrite Hpr in Hpr'. injection Hpr' as <-.
           rewrite Hlinked in Hlinked'. injection Hlinked' as <-. auto.
        -- right. exists prNum', pr', linked'. auto.
    + intros H. rewrite (IH _ H). split.
      * intros [H1|(prNum' & pr' & linked' & Hin & H')]; [auto|].
        right. exists prNum', pr', linked'. rewrite elem_of_cons. auto.
      * intros [H1|(prNum' & pr' & linked' & Hin & Hpr' & H')]; [auto|].
        apply elem_of_cons in Hin as [->|Hin]; [congruence|].
        right. exists prNum', pr', linked'. auto.
Qed.

Definition fresh (history : list write) : commentRun :=
  {| commentWrites := history; commentOut := ""; commentErrOut := "";
     commentedCount := 0; commentErr := None |}.

(** What a run that returns has gone through. *)
Lemma runComment_run (ro : rangeOrder) (env : Env) (w : Writer)
    (repoFlag issuesRepoFlag : string) (args : list string) (history : list write)
    (run : commentRun) :
  runComment ro env w repoFlag issuesRepoFlag args history = Ret run ->
  (exists e, commentErr run = Some e /\ commentWrites run = history)
  \/ (commentErr run = None
      /\ exists client repo releaseName release previousRelease prNumbers issueMap,
           NewClient env = Ok client
           /\ ViewRelease client repo releaseName = Ok release
           /\ ScanForPRs ro client repo previousRelease releaseName = Ok prNumbers
           /\ collectIssues client repo issuesRepoFlag prNumbers ∅ = Ret issueMap
           /\ commentWrites run
              = if (size issueMap =? 0)%nat then history
                else commentWrites
                       (fold_left
                          (commentOn client w issuesRepoFlag
                             (commentBody release repo releaseName))
                          (map fst (ro bool issueMap)) (fresh history))).
Proof.
  unfold runComment, comment.failed, mbind, outcome_bind, Go.bind. intros H.
  destruct (NewClient env) as [client|e]; [|injection H as <-; left; eauto].
  destruct (GetOrValidateRepo env client repoFlag) as [[repo|e]| | |];
    try discriminate; [|injection H as <-; left; eauto].
  cbv zeta in H.
  set (named := if String.eqb _ "" then _ else _) in H.
  destruct named as [releaseName|e]; [|injection H as <-; left; eauto].
  destruct (ViewRelease client repo releaseName) as [release|e] eqn:Hview;
    [|injection H as <-; left; eauto].
  destruct (FindPreviousRelease client repo releaseName) as [[previousRelease|e]| | |];
    try discriminate; [|injection H as <-; left; eauto].
  destruct (ScanForPRs ro client repo previousRelease releaseName) as [prNumbers|e] eqn:Hscan;
    [|injection H as <-; left; eauto].
  destruct (collectIssues client repo issuesRepoFlag prNumbers ∅) as [issueMap| | |]
    eqn:Hcollect; try discriminate.
  right.
  destruct (size issueMap =? 0)%nat eqn:Hsize; injection H as <-; (split; [done|]);
    exists client, repo, releaseName, release, previousRelease, prNumbers, issueMap;
    rewrite Hsize; done.
Qed.

(** X9. A run of [comment] that returns an error has written nothing.
    Every write of a run is a comment, in the repository of the issues,
    on an issue that was fetched and whose state is neither "CLOSED"
    nor "closed"; its body is the notice of the release of the run. An
    issue that is closed, or that cannot be fetched, gets no comment,
    and nothing is deleted. *)
Theorem runComment_comments_open_issues (ro : rangeOrder) (env : Env) (w : Writer)
    (repoFlag issuesRepoFlag : string) (args : list string) (history : list write)
    (run : commentRun) :
  runComment ro env w repoFlag issuesRepoFlag args history = Ret run ->
  (forall e, commentErr run = Some e -> commentWrites run = history)
  /\ exists made,
       commentWrites run = history ++ made
       /\ forall wr,
            wr ∈ made ->
            exists client repo releaseName release number issue,
              NewClient env = Ok client
              /\ ViewRelease client repo releaseName = Ok release
              /\ wr = Commented issuesRepoFlag number (commentBody release repo releaseName)
              /\ GetIssue client issuesRepoFlag number = Ok issue
              /\ State issue <> "CLOSED"
              /\ State issue <> "closed".
Proof.
  intros Hrun. apply runComment_run in Hrun as [(e & He & Hwrites)|[Hnone Hrun]].
  - split; [done|]. exists []. rewrite app_nil_r. split; [done|].
    intros wr Hwr. by apply elem_of_nil in Hwr.
  - split; [rewrite Hnone; discriminate|].
    destruct Hrun as (client & repo & releaseName & release & previousRelease & prNumbers
                      & issueMap & Hclient & Hview & _ & _ & Hwrites).
    destruct (size issueMap =? 0)%nat.
    { exists []. rewrite app_nil_r. split; [done|].
      intros wr Hwr. by apply elem_of_nil in Hwr. }
    destruct (commentAll_writes client w issuesRepoFlag (commentBody release repo releaseName)
                (map fst (ro bool issueMap)) (fresh history)) as (made & Hmade & Hopen).
    exists made. split; [by rewrite Hwrites, Hmade|].
    intros wr Hwr. rewrite Forall_forall in Hopen.
    destruct (Hopen wr Hwr) as (number & issue & -> & Hissue & H1 & H2).
    exists client, repo, releaseName, release, number, issue. done.
Qed.

(** X10. In a run of [comment] that returns without error, with the
    map of the linked issues ranged over in any order: every issue
    that the body of a fetched pull request of the range links, that
    is fetched and is not closed, gets a comment; and when the
    platform accepts that comment, so does its parent, if it has one
    that is fetched and is not closed. *)
Theorem runComment_reaches_open_issues (ro : rangeOrder) (env : Env) (w : Writer)
    (repoFlag issuesRepoFlag : string) (args : list string) (history : list write)
    (run : commentRun) :
  validOrder ro ->
  runComment ro env w repoFlag issuesRepoFlag args history = Ret run ->
  commentErr run = None ->
  exists client repo releaseName release previousRelease prNumbers,
    NewClient env = Ok client
    /\ ViewRelease client repo releaseName = Ok release
    /\ ScanForPRs ro client repo previousRelease releaseName = Ok prNumbers
    /\ forall prNum pr linkedIssues issueNum issue,
         prNum ∈ prNumbers ->
         GetPullRequest client repo prNum = Ok pr ->
         GetLinkedIssues (Body pr) issuesRepoFlag = Ret linkedIssues ->
         issueNum ∈ linkedIssues ->
         GetIssue client issuesRepoFlag issueNum = Ok issue ->
         closed issue = false ->
         Commented issuesRepoFlag issueNum (commentBody release repo releaseName)
         ∈ commentWrites run
         /\ forall parentNum parentIssue,
              (forall history, exists commentURL,
                 CreateIssueComment w history issuesRepoFlag issueNum
                   (commentBody release repo releaseName) = Ok commentURL) ->
              GetParentIssueNumber client issuesRepoFlag issueNum = Ok parentNum ->
              0 < parentNum ->
              GetIssue client issuesRepoFlag parentNum = Ok parentIssue ->
              closed parentIssue = false ->
              Commented issuesRepoFlag parentNum (commentBody release repo releaseName)
              ∈ commentWrites run.
Proof.
  intros Hro Hrun Hnone.
  apply runComment_run in Hrun as [(e & He & _)|[_ Hrun]]; [congruence|].
  destruct Hrun as (client & repo & releaseName & release & previousRelease & prNumbers
                    & issueMap & Hclient & Hview & Hscan & Hcollect & Hwrites).
  exists client, repo, releaseName, release, previousRelease, prNumbers.
  split; [done|]. split; [done|]. split; [done|].
  intros prNum pr linkedIssues issueNum issue Hpr Hfetched Hlinked Hnum Hissue Hopen.
  assert (Hkey : is_Some (issueMap !! issueNum)).
  { apply (collectIssues_lookup _ _ _ _ _ _ _ Hcollect). right.
    exists prNum, pr, linkedIssues. done. }
  assert (Hsize : (size issueMap =? 0)%nat = false).
  { apply Nat.eqb_neq. intros Hsize. apply map_size_empty_iff in Hsize as ->.
    rewrite lookup_empty in Hkey. by destruct Hkey. }
  assert (Hranged : issueNum ∈ map fst (ro bool issueMap)).
  { destruct Hkey as [b Hb]. change (map fst ?l) with (fst <$> l).
    apply list_elem_of_fmap. exists (issueNum, b). split; [done|].
    rewrite (Hro bool issueMap). by apply elem_of_map_to_list. }
  rewrite Hwrites, Hsize. split.
  - by eapply commentAll_attempts.
  - intros parentNum parentIssue Haccepts Hparent Hpos HparentIssue HparentOpen.
    by eapply commentAll_parent_attempts.
Qed.

End CommentRun.

Section CommentExample.
Import github module_release writes cmd comment.

(** The release [1.0.1] of a module: two commits since [1.0.0], from
    the pull requests 12 and 13, which link the issues 42 and 43.
    Issue 42 is open, issue 43 is closed; both are sub-issues of the
    open issue 40. *)
Definition commentClient : Client :=
  {| GetRepository := GetRepository cleanClient;
     GetLatestCommit := GetLatestCommit offline;
     GetCommitSHA := GetCommitSHA offline;
     CompareCommits := fun _ _ _ => Ok ["c1"; "c2"];
     GetMergeBase := GetMergeBase offline;
     ListReleases := ListReleases cleanClient;
     ViewRelease := ViewRelease releaseClient;
     Exec := Exec offline;
     GetPullRequestsForCommit := fun _ sha =>
       if String.eqb sha "c1" then Ok [12] else Ok [13];
     GetPullRequest := fun _ number =>
       Ok {| prNumber := number;
             Body := if number =? 12 then "Fixes NethServer/dev#42"
                     else "See NethServer/dev#43";
             prLabels := [] |};
     GetIssue := fun _ number =>
       Ok {| issueNumber := number; Title := "An issue";
             State := if number =? 43 then "closed" else "open";
             github.Labels := [] |};
     queryParent := fun _ _ number => Ok (if number =? 40 then None else Some 40) |}.

Definition commentEnv : Env :=
  {| NewClient := Ok commentClient; GetCurrentRepository := Ok "NethServer/ns8-mail" |}.

Definition acceptingWriter : Writer :=
  {| DeleteRelease := fun _ _ _ => Some "failed to delete release";
     CreateIssueComment := fun history _ _ _ =>
       Ok ("https://github.com/NethServer/dev/issues/comment-"
           +:+ fmt.FormatInt (Z.of_nat (length history))) |}.

Definition notice : string :=
  "Release `NethServer/ns8-mail` [1.0.1](https://github.com/NethServer/ns8-mail/releases/tag/1.0.1)".

Lemma commentEnv_run :
  exists run,
    runComment keyOrder commentEnv acceptingWriter "" "NethServer/dev" [] [] = Ret run
    /\ commentErr run = None
    /\ commentedCount run = 2
    /\ commentWrites run
       = [ Commented "NethServer/dev" 42 notice; Commented "NethServer/dev" 40 notice ].
Proof. eexists. split; [vm_compute; reflexivity|]. repeat split; reflexivity. Qed.

Lemma runComment_comments_open_issues_witness :
  exists run made,
    runComment keyOrder commentEnv acceptingWriter "" "NethServer/dev" [] [] = Ret run
    /\ commentWrites run = [] ++ made
    /\ forall wr, wr ∈ made ->
         exists number issue body,
           wr = Commented "NethServer/dev" number body
           /\ GetIssue commentClient "NethServer/dev" number = Ok issue
           /\ State issue <> "closed".
Proof.
  destruct commentEnv_run as (run & Hrun & _).
  destruct (proj2 (runComment_comments_open_issues keyOrder commentEnv acceptingWriter ""
                     "NethServer/dev" [] [] run Hrun)) as (made & Hwrites & Hmade).
  exists run, made. split; [done|]. split; [done|].
  intros wr Hwr.
  destruct (Hmade wr Hwr)
    as (client & repo & releaseName & release & number & issue & Hclient & _ & -> & Hissue
        & _ & Hopen).
  injection Hclient as <-.
  exists number, issue, (commentBody release repo releaseName).
  split; [reflexivity|]. split; [exact Hissue|exact Hopen].
Defined.

Lemma runComment_reaches_open_issues_witness :
  exists run,
    runComment keyOrder commentEnv acceptingWriter "" "NethServer/dev" [] [] = Ret run
    /\ exists body,
         Commented "NethServer/dev" 42 body ∈ commentWrites run
         /\ Commented "NethServer/dev" 40 body ∈ commentWrites run.
Proof.
  destruct commentEnv_run as (run & Hrun & Hnone & _).
  destruct (runComment_reaches_open_issues keyOrder commentEnv acceptingWriter ""
              "NethServer/dev" [] [] run keyOrder_valid Hrun Hnone)
    as (client & repo & releaseName & release & previousRelease & prNumbers
        & Hclient & _ & Hscan & Hreached).
  injection Hclient as <-.
  assert (Hprs : 12 ∈ prNumbers).
  { revert Hscan. unfold ScanForPRs. cbn [CompareCommits commentClient].
    change (length ["c1"; "c2"] =? 0)%nat with false. cbv iota.
    destruct (size _ =? 0)%nat; [discriminate|]. intros [= <-].
    change (map fst ?l) with (fst <$> l). apply list_elem_of_fmap.
    exists (12, true). split; [done|]. apply elem_of_map_to_list.
    vm_compute. reflexivity. }
  destruct (Hreached 12
              {| prNumber := 12; Body := "Fixes NethServer/dev#42"; prLabels := [] |}
              [42] 42
              {| issueNumber := 42; Title := "An issue"; State := "open";
                 github.Labels := [] |}
              Hprs eq_refl ltac:(vm_compute; reflexivity)
              ltac:(apply list_elem_of_singleton; reflexivity) eq_refl eq_refl)
    as [Hissue Hparent].
  exists run. split; [done|].
  exists (commentBody release repo releaseName). split; [exact Hissue|].
  apply (Hparent 40 {| issueNumber := 40; Title := "An issue"; State := "open";
                       github.Labels := [] |}); try reflexivity.
  intros history. eexists. reflexivity.
Defined.

End CommentExample.

(** ** Matching [[^c]+]: a run of characters other than one *)

Section NegatedRun.
Import regexp.

Variable stop : ascii.
Hypothesis stop_ascii : (nat_of_ascii stop < 128)%nat.

Definition allBut : node := NegClass [(stop, stop)].

Lemma inClass_one (c : ascii) : inClass [(stop, stop)] c = Ascii.eqb c stop.
Proof.
  unfold inClass. cbn [existsb fst snd]. rewrite orb_false_r.
  destruct (Ascii.eqb_spec c stop) as [->|Hne].
  - by rewrite Nat.leb_refl.
  - apply andb_false_iff.
    destruct (Nat.leb_spec (nat_of_ascii stop) (nat_of_ascii c)) as [H1|]; [|auto].
    destruct (Nat.leb_spec (nat_of_ascii c) (nat_of_ascii stop)) as [H2|]; [|auto].
    exfalso. apply Hne. rewrite <- (ascii_nat_embedding c), <- (ascii_nat_embedding stop).
    f_equal. lia.
Qed.

Lemma run_allBut (t : thread) :
  run allBut t =
  match rest t with
  | c :: _ => if Ascii.eqb c stop then [] else [advance (utf8.runeWidth (rest t)) t]
  | [] => []
  end.
Proof.
  unfold allBut. cbn [run]. destruct (rest t) as [|c s]; [done|]. by rewrite inClass_one.
Qed.

Lemma runeWidth_le (s : list ascii) : (utf8.runeWidth s <= length s)%nat.
Proof.
  destruct (Nat.le_gt_cases (utf8.runeWidth s) (length s)) as [|Hgt]; [done|].
  destruct s as [|c s]; [cbn in Hgt; lia|].
  pose proof (runeWidth_pos c s) as Hpos.
  destruct (runeWidth_high (c :: s) (length (c :: s))) as (x & Hx & _).
  { cbn [length] in *. lia. }
  rewrite lookup_ge_None_2 in Hx by done. discriminate.
Qed.

(** No byte of the first rune is [stop], when the first byte is not. *)
Lemma rune_without (c : ascii) (s : list ascii) :
  c <> stop -> stop ∉ take (utf8.runeWidth (c :: s)) (c :: s).
Proof.
  intros Hc Hin. apply list_elem_of_lookup in Hin as [i Hi].
  apply lookup_take_Some in Hi as [Hi Hlt].
  destruct i as [|i].
  - cbn in Hi. injection Hi as ->. done.
  - destruct (runeWidth_high (c :: s) (S i)) as (x & Hx & Hhigh); [lia|].
    rewrite Hi in Hx. injection Hx as <-. lia.
Qed.

Lemma in_drop {A : Type} (x : A) (n : nat) (l : list A) : x ∈ drop n l -> x ∈ l.
Proof. intros H. rewrite <- (take_drop n l). apply elem_of_app. auto. Qed.

Lemma star_allBut_in (n : nat) (t u : thread) :
  In u (starFrom (run allBut) n t) ->
  exists k, u = advance k t /\ (k <= length (rest t))%nat /\ stop ∉ take k (rest t).
Proof.
  revert t. induction n as [|n IH]; intros t.
  - cbn [starFrom]. intros [<-|[]]. exists 0%nat. rewrite advance_0. split; [done|].
    split; [lia|]. rewrite take_0. apply not_elem_of_nil.
  - rewrite starFrom_S, in_app_iff. intros [Hin|[<-|[]]].
    2:{ exists 0%nat. rewrite advance_0. split; [done|].
        split; [lia|]. rewrite take_0. apply not_elem_of_nil. }
    rewrite run_allBut in Hin. destruct (rest t) as [|c s] eqn:Hrest; [done|].
    destruct (Ascii.eqb_spec c stop) as [|Hc]; [done|].
    cbn [flat_map] in Hin. rewrite app_nil_r in Hin.
    destruct (pos t <? _)%nat; [|done].
    apply IH in Hin as (k & -> & Hk & Hstop).
    pose proof (runeWidth_le (c :: s)) as Hw.
    rewrite rest_advance, Hrest in Hk, Hstop. rewrite length_drop in Hk.
    exists (utf8.runeWidth (c :: s) + k)%nat.
    split; [by rewrite advance_advance|]. split; [lia|].
    rewrite <- take_take_drop. intros Hin.
    apply elem_of_app in Hin as [Hin|Hin]; [|done]. by apply (rune_without c s).
Qed.

Lemma star_allBut_reach (n : nat) (t : thread) (p s : list ascii) :
  rest t = p ++ stop :: s ->
  stop ∉ p ->
  (length (rest t) <= n)%nat ->
  In (advance (length p) t) (starFrom (run allBut) n t).
Proof.
  revert t p. induction n as [|n IH]; intros t p Hrest Hp Hn.
  { rewrite Hrest, length_app in Hn. cbn [length] in Hn. lia. }
  rewrite starFrom_S, in_app_iff.
  destruct p as [|c p].
  { right. left. by rewrite advance_0. }
  left. rewrite run_allBut, Hrest. cbn [app].
  apply not_elem_of_cons in Hp as [Hc Hp].
  destruct (Ascii.eqb_spec c stop) as [Heq|_]; [congruence|].
  cbn [flat_map]. rewrite app_nil_r, pos_advance.
  assert (Hw1 : (1 <= utf8.runeWidth (c :: p ++ stop :: s))%nat) by apply runeWidth_pos.
  assert (Hw : (utf8.runeWidth (c :: p ++ stop :: s) <= length (c :: p))%nat).
  { change (c :: p ++ stop :: s) with ((c :: p) ++ stop :: s).
    by apply runeWidth_before_ascii. }
  replace (pos t <? pos t + _)%nat with true by (symmetry; apply Nat.ltb_lt; lia).
  set (w := utf8.runeWidth (c :: p ++ stop :: s)) in *.
  replace (advance (length (c :: p)) t)
    with (advance (length (drop w (c :: p))) (advance w t)).
  2:{ rewrite advance_advance, length_drop. f_equal. lia. }
  apply (IH (advance w t) (drop w (c :: p))).
  - rewrite rest_advance, Hrest.
    change (c :: p ++ stop :: s) with ((c :: p) ++ stop :: s).
    by rewrite drop_app_le.
  - intros Hin. apply in_drop in Hin.
    apply elem_of_cons in Hin as [Hin|Hin]; [congruence|done].
  - rewrite rest_advance, length_drop. lia.
Qed.

Lemma plus_allBut_in (t u : thread) :
  In u (run (Plus allBut) t) ->
  exists k, u = advance k t /\ (1 <= k <= length (rest t))%nat /\ stop ∉ take k (rest t).
Proof.
  rewrite run_Plus, run_allBut. destruct (rest t) as [|c s] eqn:Hrest; [done|].
  destruct (Ascii.eqb_spec c stop) as [|Hc]; [done|].
  cbn [flat_map]. rewrite app_nil_r. intros Hin.
  apply star_allBut_in in Hin as (k & -> & Hk & Hstop).
  pose proof (runeWidth_le (c :: s)) as Hw.
  pose proof (runeWidth_pos c s) as Hw1.
  rewrite rest_advance, Hrest in Hk, Hstop. rewrite length_drop in Hk.
  exists (utf8.runeWidth (c :: s) + k)%nat.
  split; [by rewrite advance_advance|]. split; [lia|].
  rewrite <- take_take_drop. intros Hin.
  apply elem_of_app in Hin as [Hin|Hin]; [|done]. by apply (rune_without c s).
Qed.

Lemma plus_allBut_reach (t : thread) (p s : list ascii) :
  rest t = p ++ stop :: s ->
  p <> [] ->
  stop ∉ p ->
  In (advance (length p) t) (run (Plus allBut) t).
Proof.
  intros Hrest Hne Hp. rewrite run_Plus, run_allBut, Hrest.
  destruct p as [|c p]; [done|]. cbn [app].
  pose proof Hp as Hp'. apply not_elem_of_cons in Hp' as [Hc _].
  destruct (Ascii.eqb_spec c stop) as [Heq|_]; [congruence|].
  cbn [flat_map]. rewrite app_nil_r.
  assert (Hw : (utf8.runeWidth (c :: p ++ stop :: s) <= length (c :: p))%nat).
  { change (c :: p ++ stop :: s) with ((c :: p) ++ stop :: s).
    by apply runeWidth_before_ascii. }
  set (w := utf8.runeWidth (c :: p ++ stop :: s)) in *.
  replace (advance (length (c :: p)) t)
    with (advance (length (drop w (c :: p))) (advance w t)).
  2:{ rewrite advance_advance, length_drop. f_equal. lia. }
  apply (star_allBut_reach _ _ (drop w (c :: p)) s).
  - rewrite rest_advance, Hrest.
    change (c :: p ++ stop :: s) with ((c :: p) ++ stop :: s).
    by rewrite drop_app_le.
  - intros Hin. by apply in_drop in Hin.
  - done.
Qed.

End NegatedRun.

(** ** [ValidateRepository]: the names it accepts *)

Section RepositoryName.
Import regexp github module_release.

Definition slashNs8 : list ascii := list_ascii_of_string "/ns8-".

Definition ns8Regexp : Regexp :=
  {| prog := Cat BeginText (Cat (Plus (allBut "/")) (lits slashNs8)); NumSubexp := 0 |}.

Lemma compile_ns8 : ns8ModulePattern = Ret ns8Regexp.
Proof. reflexivity. Qed.

(** [owner/ns8-...]: a first part that is not empty and has no slash,
    then [/ns8-], then anything. *)
Definition ns8Name (repo : string) : Prop :=
  exists owner name,
    repo = owner +:+ "/ns8-" +:+ name
    /\ owner <> ""
    /\ "/"%char ∉ list_ascii_of_string owner.

Lemma slash_ascii : (nat_of_ascii "/" < 128)%nat.
Proof. by apply Nat.ltb_lt. Qed.

Lemma run_ns8 (t : thread) :
  run (prog ns8Regexp) t
  = if (pos t =? 0)%nat
    then flat_map (run (lits slashNs8)) (run (Plus (allBut "/")) t)
    else [].
Proof.
  cbn [prog ns8Regexp]. rewrite run_Cat.
  change (run BeginText t) with (if (pos t =? 0)%nat then [t] else []).
  destruct (pos t =? 0)%nat; [|done]. cbn [flat_map]. by rewrite app_nil_r, run_Cat.
Qed.

Lemma matchAt_ns8_later (input : list ascii) (p : nat) :
  (1 <= p)%nat -> matchAt ns8Regexp input p = None.
Proof.
  intros Hp. rewrite matchAt_eq, run_ns8.
  change (pos (startThread ns8Regexp input p)) with p.
  by replace (p =? 0)%nat with false by (symmetry; apply Nat.eqb_neq; lia).
Qed.

Lemma MatchString_start (re : Regexp) (s : string) :
  (forall p, (1 <= p)%nat -> matchAt re (list_ascii_of_string s) p = None) ->
  MatchString re s
  = match run (prog re) (startThread re (list_ascii_of_string s) 0) with
    | [] => false
    | _ :: _ => true
    end.
Proof.
  intros Hlater. unfold MatchString, doExecute.
  rewrite searchFrom_eq, matchAt_eq.
  destruct (run (prog re) (startThread re (list_ascii_of_string s) 0)) as [|u l]; [|done].
  cbn [map head].
  destruct (length (list_ascii_of_string s)) as [|fuel] eqn:Hlen; [done|].
  change (0 <? S fuel)%nat with true. cbv iota.
  rewrite searchFrom_none; [done|].
  intros q Hq. apply Hlater.
  destruct (list_ascii_of_string s) as [|c l]; [discriminate|].
  pose proof (runeWidth_pos c l). rewrite drop_0 in Hq. lia.
Qed.

Lemma MatchString_ns8 (repo : string) : MatchString ns8Regexp repo = true <-> ns8Name repo.
Proof.
  rewrite MatchString_start by (intros p; apply matchAt_ns8_later).
  rewrite run_ns8. change (pos (startThread ns8Regexp _ 0) =? 0)%nat with true. cbv iota.
  set (input := list_ascii_of_string repo).
  set (t := startThread ns8Regexp input 0).
  assert (Hrest : rest t = input) by (subst t; cbn [rest startThread]; by rewrite drop_0).
  split.
  - intros Hmatch.
    destruct (flat_map _ _) as [|v l] eqn:Hflat; [discriminate|].
    assert (Hin : In v (flat_map (run (lits slashNs8)) (run (Plus (allBut "/")) t)))
      by (rewrite Hflat; by left).
    apply in_flat_map in Hin as (u & Hu & Hv).
    apply (plus_allBut_in "/" slash_ascii) in Hu as (k & -> & [Hk1 Hk] & Hstop).
    rewrite run_lits, rest_advance, Hrest in Hv.
    destruct (gostrings.hasPrefix slashNs8 (drop k input)) eqn:Hprefix; [|done].
    apply hasPrefix_app in Hprefix as [name Hname]. rewrite Hrest in Hk, Hstop.
    exists (string_of_list_ascii (take k input)), (string_of_list_ascii name).
    split; [|split].
    + apply string_of_lists. rewrite !list_of_append, !list_string_inv.
      change (list_ascii_of_string "/ns8-") with slashNs8.
      rewrite <- Hname. symmetry. apply take_drop.
    + intros Hempty. apply (f_equal list_ascii_of_string) in Hempty.
      rewrite list_string_inv in Hempty. apply (f_equal length) in Hempty.
      rewrite length_take in Hempty. cbn [list_ascii_of_string length] in Hempty. lia.
    + by rewrite list_string_inv.
  - intros (owner & name & Hrepo & Hne & Hslash).
    assert (Hinput : input = list_ascii_of_string owner
                             ++ "/"%char :: list_ascii_of_string ("ns8-" +:+ name)).
    { subst input. rewrite Hrepo, list_of_append. f_equal. }
    assert (Hreach : In (advance (length (list_ascii_of_string owner)) t)
                       (run (Plus (allBut "/")) t)).
    { apply (plus_allBut_reach "/" slash_ascii t _
               (list_ascii_of_string ("ns8-" +:+ name))); [by rewrite Hrest| |done].
      intros Hnil. apply Hne, list_of_string_nil, Hnil. }
    assert (Hthen : run (lits slashNs8) (advance (length (list_ascii_of_string owner)) t)
                    <> []).
    { rewrite run_lits, rest_advance, Hrest, Hinput, drop_app_length.
      replace (gostrings.hasPrefix slashNs8 _) with true; [done|].
      symmetry. apply hasPrefix_app. exists (list_ascii_of_string name).
      rewrite list_of_append. reflexivity. }
    destruct (run (lits slashNs8) (advance _ t)) as [|v l] eqn:Hv; [done|].
    assert (Hin : In v (flat_map (run (lits slashNs8)) (run (Plus (allBut "/")) t))).
    { apply in_flat_map. eexists. split; [exact Hreach|]. rewrite Hv. by left. }
    by destruct (flat_map _ _).
Qed.

(** X11. [ValidateRepository] always returns. It accepts a repository
    exactly when its name is [owner/ns8-...], with an owner part that
    is not empty and has no slash, and the platform knows the
    repository; a name of another form is refused as an invalid module
    name, whatever the platform knows. *)
Theorem ValidateRepository_accepts (client : Client) (repo : string) :
  (exists err, ValidateRepository client repo = Ret err)
  /\ (ValidateRepository client repo = Ret None
      <-> ns8Name repo /\ exists info, GetRepository client repo = Ok info)
  /\ (~ ns8Name repo ->
      ValidateRepository client repo
      = Ret (Some ("invalid NS8 module name: " +:+ repo +:+ " (must match owner/ns8-*)"))).
Proof.
  unfold ValidateRepository. rewrite compile_ns8.
  cbn [mbind outcome_bind Go.bind].
  pose proof (MatchString_ns8 repo) as Hmatch.
  destruct (MatchString ns8Regexp repo); cbn [negb].
  - assert (Hname : ns8Name repo) by (by apply Hmatch).
    split; [destruct (GetRepository client repo); eauto|]. split; [|done].
    destruct (GetRepository client repo) as [info|e].
    + split; [eauto|done].
    + split; [discriminate|]. intros [_ [info Hinfo]]. discriminate.
  - assert (Hname : ~ ns8Name repo) by (intros H; by apply Hmatch in H).
    split; [eauto|]. split; [|done].
    split; [discriminate|]. intros [H _]. done.
Qed.

End RepositoryName.

(** ** [runCreate]: what the request for a release carries *)

Section CreateRequest.
Import github module_release cmd.

(** The error a run returns when [gh] has failed: [CreateRelease] and
    [runCreate] each put their words before it. *)
Definition createAnswer (failure : option Go.error) : option Go.error :=
  match failure with
  | Some e => Some ("failed to create release: " +:+ ("failed to create release: " +:+ e))
  | None => None
  end.

(** [CreateRelease] on a buffer: it returns only when the buffer is
    there, and then it has run one command. *)
Lemma CreateRelease_buffer (client : Client) (call : ReleaseCall) (buffer : option string)
    (created : option Go.error) :
  callNotes call = BufferReader buffer ->
  CreateRelease client call = Ret created ->
  exists notes quoted,
    buffer = Some notes
    /\ strconv.Quote notes = Ret quoted
    /\ created = match Exec client ["sh"; "-c"; releasePipeline quoted (releaseArgs call)] with
                 | Some e => Some ("failed to create release: " +:+ e)
                 | None => None
                 end.
Proof.
  unfold CreateRelease, mbind, outcome_bind, Go.bind. intros Hnotes. rewrite Hnotes.
  cbn [isNil negb ReadAll].
  destruct buffer as [notes|]; [|discriminate].
  destruct (strconv.Quote notes) as [quoted| | |] eqn:Hquoted; try discriminate.
  intros H. exists notes, quoted. split; [reflexivity|]. split; [exact Hquoted|].
  destruct (Exec client _); injection H as <-; reflexivity.
Qed.


Lemma releaseArgs_buffer (call : ReleaseCall) (buffer : option string) :
  callNotes call = BufferReader buffer ->
  releaseArgs call
  = ["release"; "create"; callTag call; "--repo"; callRepo call;
     "--title"; callTitle call; "--generate-notes"]
    ++ (if callDraft call then ["--draft"] else [])
    ++ (if callPrerelease call then ["--prerelease"] else [])
    ++ (if String.eqb (callTarget call) "" then [] else ["--target"; callTarget call])
    ++ ["--notes-file"; "-"].
Proof.
  intros Hnotes. unfold releaseArgs. rewrite Hnotes.
  destruct (callDraft call), (callPrerelease call), (String.eqb (callTarget call) "");
    reflexivity.
Qed.

Lemma createRelease_request (ro : rangeOrder) (client : Client) (flags : createFlags)
    (repo : string) (commitInfo : CommitInfo) (releaseName missingName : string)
    (call : ReleaseCall) (answer : option Go.error) :
  createRelease ro client flags repo commitInfo releaseName missingName
    = Ret (Requested call answer) ->
  callRepo call = repo
  /\ callTitle call = callTag call
  /\ callDraft call = draftFlag flags
  /\ callTarget call = Target commitInfo
  /\ (exists notes quoted,
        callNotes call = BufferReader (Some notes)
        /\ strconv.Quote notes = Ret quoted
        /\ answer
           = createAnswer
               (Exec client ["sh"; "-c"; releasePipeline quoted (releaseArgs call)]))
  /\ (if testingFlag flags && String.eqb releaseName ""
      then NextTestingRelease client repo
      else Ret (Ok releaseName)) = Ret (Ok (callTag call))
  /\ (String.eqb (callTag call) "" && negb (testingFlag flags)) = false
  /\ (if negb (String.eqb (callTag call) "") then IsSemver (callTag call) else Ret true)
     = Ret true.
Proof.
  unfold createRelease, mbind, outcome_bind, Go.bind. cbv zeta.
  intros H.
  head_match H; clash H. head_match H; clash H. head_match H; clash H.
  head_match H; clash H. head_match H; clash H.
  match goal with Hv : negb ?v = false |- _ => apply negb_false_iff in Hv; subst v end.
  head_match H; clash H.
  apply requestRelease_returns in H as [<- (created & Hcreate & ->)].
  match type of Hcreate with
  | CreateRelease _ ?made = _ =>
    destruct (CreateRelease_buffer client made _ created eq_refl Hcreate)
      as (notes & quoted & -> & Hquoted & ->)
  end.
  cbn [callRepo callTitle callTag callDraft callTarget callNotes].
  repeat split; try assumption.
  exists notes, quoted. split; [reflexivity|]. split; [exact Hquoted|].
  unfold createAnswer. by destruct (Exec client _).
Qed.

Lemma createSetup_request (env : Env) (flags : createFlags)
    (k : Client -> string -> CommitInfo -> outcome createReport)
    (call : ReleaseCall) (answer : option Go.error) :
  createSetup env flags k = Ret (Requested call answer) ->
  exists client repo commitInfo,
    NewClient env = Ok client
    /\ GetOrValidateRepo env client (repoFlag flags) = Ret (Ok repo)
    /\ GetOrValidateCommit client repo (releaseRefsFlag flags) = Ok commitInfo
    /\ k client repo commitInfo = Ret (Requested call answer).
Proof.
  unfold createSetup, mbind, outcome_bind, Go.bind. intros H.
  destruct (NewClient env) as [client|e]; [|discriminate H].
  destruct (GetOrValidateRepo env client (repoFlag flags)) as [[repo|e]| | |] eqn:Hrepo;
    try discriminate H.
  destruct (GetOrValidateCommit client repo (releaseRefsFlag flags)) as [commitInfo|e]
    eqn:Hcommit; [|discriminate H].
  exists client, repo, commitInfo. auto.
Qed.

Lemma GetOrValidateRepo_ok (env : Env) (client : Client) (repoFlag repo : string) :
  GetOrValidateRepo env client repoFlag = Ret (Ok repo) ->
  ValidateRepository client repo = Ret None
  /\ (repoFlag <> "" -> repo = repoFlag)
  /\ (repoFlag = "" -> GetCurrentRepository env = Ok repo).
Proof.
  unfold GetOrValidateRepo, mbind, outcome_bind, Go.bind. cbv zeta.
  assert (Hvalidate : forall candidate,
            match ValidateRepository client candidate with
            | Ret (Some e) => Ret (Err e)
            | Ret None => Ret (Ok candidate)
            | Panic msg => Panic msg
            | Unmodelled => Unmodelled
            | OutOfFuel => OutOfFuel
            end = Ret (Ok repo) ->
            ValidateRepository client repo = Ret None /\ candidate = repo).
  { intros candidate H.
    destruct (ValidateRepository client candidate) as [[e|]| | |] eqn:Hv;
      try discriminate H.
    injection H as <-. auto. }
  destruct (String.eqb_spec repoFlag "") as [->|Hflag].
  - destruct (GetCurrentRepository env) as [currentRepo|e]; [|intros H; discriminate H].
    intros H. apply Hvalidate in H as [Hv ->].
    split; [exact Hv|]. split; [intros H; by destruct H|reflexivity].
  - intros H. apply Hvalidate in H as [Hv <-].
    split; [exact Hv|]. split; [reflexivity|]. intros Hempty. by destruct Hflag.
Qed.

Lemma GetOrValidateCommit_ok (client : Client) (repo commitSHA : string) (info : CommitInfo) :
  GetOrValidateCommit client repo commitSHA = Ok info ->
  Target info = commitSHA
  /\ (commitSHA = "" -> GetLatestCommit client repo = Ok (SHA info))
  /\ (commitSHA <> "" ->
      SHA info = commitSHA
      /\ exists repoInfo,
           GetRepository client repo = Ok repoInfo
           /\ GetMergeBase client repo (DefaultBranchRefName repoInfo) commitSHA
              = Ok commitSHA).
Proof.
  unfold GetOrValidateCommit. destruct (String.eqb_spec commitSHA "") as [->|Hsha].
  - destruct (GetLatestCommit client repo) as [sha|e]; [|discriminate].
    intros [= <-]. cbn [Target SHA]. split; [done|]. split; [done|].
    intros H. by destruct H.
  - destruct (GetRepository client repo) as [repoInfo|e] eqn:Hinfo; [|discriminate].
    cbv zeta.
    destruct (GetMergeBase client repo (DefaultBranchRefName repoInfo) commitSHA)
      as [mergeBase|e] eqn:Hbase; [|discriminate].
    destruct (String.eqb_spec mergeBase commitSHA) as [->|Hne]; [|discriminate].
    cbn [negb]. intros [= <-]. cbn [Target SHA]. split; [done|].
    split; [intros Hempty; by destruct Hsha|].
    intros _. split; [done|]. by exists repoInfo.
Qed.

(** X12. When a run of [create], in either version of the command,
    comes back from [CreateRelease]: the repository of the call has
    passed [ValidateRepository], and is the one the flag [--repo]
    names when the flag is given, the one of the working directory
    otherwise; the target of the call is the value of
    [--release-refs], empty when the flag is not given, and a commit
    given there is the merge base of itself and the default branch;
    the title is the tag, and the call is for a draft exactly when
    [--draft] is given. The call got a buffer of notes (their quoting
    is modelled for ASCII bytes) and ran one command: [gh] with the
    arguments [sh], [-c] and a command line that echoes the quoted
    notes to [gh release create] with the tag, the repository, the
    title, [--generate-notes], then [--draft], [--prerelease] and
    [--target] as far as they apply, and [--notes-file -]. The error
    of the run is the error of that command with the words of
    [CreateRelease] and of [runCreate] before it. *)
Theorem create_request_repository_and_target (ro : rangeOrder) (env : Env)
    (flags : createFlags) (args : list string) (releaseNameFlag : string)
    (call : ReleaseCall) (answer : option Go.error) :
  runCreate ro env flags args = Ret (Requested call answer)
  \/ runCreateWithFlag ro env flags releaseNameFlag = Ret (Requested call answer) ->
  exists client,
    NewClient env = Ok client
    /\ ValidateRepository client (callRepo call) = Ret None
    /\ (repoFlag flags <> "" -> callRepo call = repoFlag flags)
    /\ (repoFlag flags = "" -> GetCurrentRepository env = Ok (callRepo call))
    /\ callTarget call = releaseRefsFlag flags
    /\ (releaseRefsFlag flags <> "" ->
        exists repoInfo,
          GetRepository client (callRepo call) = Ok repoInfo
          /\ GetMergeBase client (callRepo call) (DefaultBranchRefName repoInfo)
               (releaseRefsFlag flags) = Ok (releaseRefsFlag flags))
    /\ callTitle call = callTag call
    /\ callDraft call = draftFlag flags
    /\ exists notes quoted,
         callNotes call = BufferReader (Some notes)
         /\ strconv.Quote notes = Ret quoted
         /\ answer
            = createAnswer
                (Exec client
                   ["sh"; "-c";
                    "echo " +:+ quoted +:+ " | gh "
                    +:+ gostrings.Join
                          (["release"; "create"; callTag call; "--repo"; callRepo call;
                            "--title"; callTag call; "--generate-notes"]
                           ++ (if draftFlag flags then ["--draft"] else [])
                           ++ (if callPrerelease call then ["--prerelease"] else [])
                           ++ (if String.eqb (releaseRefsFlag flags) "" then []
                               else ["--target"; releaseRefsFlag flags])
                           ++ ["--notes-file"; "-"]) " "]).
Proof.
  intros Hrun.
  assert (Hsetup : exists client repo commitInfo releaseName missingName,
            NewClient env = Ok client
            /\ GetOrValidateRepo env client (repoFlag flags) = Ret (Ok repo)
            /\ GetOrValidateCommit client repo (releaseRefsFlag flags) = Ok commitInfo
            /\ createRelease ro client flags repo commitInfo releaseName missingName
               = Ret (Requested call answer)).
  { destruct Hrun as [Hrun|Hrun]; unfold runCreate, runCreateWithFlag in Hrun;
      apply createSetup_request in Hrun as (client & repo & commitInfo & H1 & H2 & H3 & H4);
      cbv beta zeta in H4; exists client, repo, commitInfo; do 2 eexists;
      (split; [exact H1|]); (split; [exact H2|]); (split; [exact H3|]); exact H4. }
  destruct Hsetup as (client & repo & commitInfo & releaseName & missingName
                      & Hclient & Hrepo & Hcommit & Hcreate).
  apply createRelease_request in Hcreate
    as (Hcallrepo & Htitle & Hdraft & Htarget & Hanswer & _).
  apply GetOrValidateRepo_ok in Hrepo as (Hvalid & Hflag & Hcurrent).
  apply GetOrValidateCommit_ok in Hcommit as (Htarget' & _ & Hbase).
  destruct Hanswer as (notes & quoted & Hnotes & Hquoted & Hanswer).
  pose proof (releaseArgs_buffer call _ Hnotes) as Hargs.
  unfold releasePipeline in Hanswer.
  rewrite Hargs, Htitle, Hdraft, Htarget, Htarget', Hcallrepo in Hanswer.
  exists client. rewrite Hcallrepo, Htarget, Htarget'.
  split; [assumption|]. split; [assumption|]. split; [assumption|].
  split; [assumption|]. split; [reflexivity|]. split.
  { intros Hrefs. destruct (Hbase Hrefs) as (_ & repoInfo & H1 & H2). eauto. }
  split; [assumption|]. split; [assumption|].
  exists notes, quoted. split; [exact Hnotes|]. split; [exact Hquoted|exact Hanswer].
Qed.

Lemma create_request_repository_and_target_witness :
  runCreate keyOrder mailEnv linkedFlags ["1.0.0-rc.1"] = Ret (Requested candidateCall None)
  /\ callRepo candidateCall = repoFlag linkedFlags
  /\ callTarget candidateCall = releaseRefsFlag linkedFlags
  /\ callTitle candidateCall = callTag candidateCall
  /\ exists notes, callNotes candidateCall = BufferReader (Some notes).
Proof.
  pose proof mailEnv_candidate as Hrun.
  destruct (create_request_repository_and_target keyOrder mailEnv linkedFlags
              ["1.0.0-rc.1"] "" candidateCall None (or_introl Hrun))
    as (client & _ & _ & Hflag & _ & Htarget & _ & Htitle & _ & notes & _ & Hnotes & _).
  split; [exact Hrun|]. split; [apply Hflag; discriminate|]. split; [exact Htarget|].
  split; [exact Htitle|]. exists notes. exact Hnotes.
Defined.

Lemma FormatInt_nonempty (z : Z) : fmt.FormatInt z <> "".
Proof.
  assert (Huint : forall d, NilZero.string_of_uint d <> "").
  { intros d. unfold NilZero.string_of_uint. by destruct d. }
  unfold fmt.FormatInt. destruct (Z.to_int z); cbn [NilZero.string_of_int]; [apply Huint|done].
Qed.











End CreateRequest.


(** ** The sequence of testing versions *)

Section TestingSequence.
Import module_release.

(** [k] calls of [incrementTestingNumber], each on the result of the
    one before. *)
Fixpoint bump (k : nat) (version : string) : outcome (result string) :=
  match k with
  | O => Ret (Ok version)
  | S k' =>
    next ← incrementTestingNumber version;
    match next with
    | Ok version' => bump k' version'
    | Err e => Ret (Err e)
    end
  end.

Lemma decimal_FormatInt (n : Z) : 0 <= n -> decimal (fmt.FormatInt n).
Proof.
  intros Hn. split; [apply FormatInt_nonempty|]. by apply FormatInt_value.
Qed.

Lemma valueOf_FormatInt (n : Z) : 0 <= n -> valueOf (fmt.FormatInt n) = n.
Proof. intros Hn. by apply FormatInt_value. Qed.

Lemma bump_counts (prefix : string) (n : Z) (k : nat) :
  oneLine prefix ->
  0 <= n ->
  n + Z.of_nat k <= Go.MaxInt ->
  bump k (prefix +:+ "-testing." +:+ fmt.FormatInt n)
  = Ret (Ok (prefix +:+ "-testing." +:+ fmt.FormatInt (n + Z.of_nat k))).
Proof.
  intros Hline. revert n. induction k as [|k IH]; intros n Hn Hmax; cbn [bump].
  - by rewrite Z.add_0_r.
  - rewrite (incrementTestingNumber_form prefix (fmt.FormatInt n) Hline (decimal_FormatInt n Hn)).
    rewrite valueOf_FormatInt by done.
    replace (n <=? Go.MaxInt) with true by (symmetry; apply Z.leb_le; lia).
    cbn [mbind outcome_bind Go.bind].
    rewrite wrap_small, append_assoc by (unfold Go.MinInt, Go.MaxInt in *; lia).
    rewrite IH by lia.
    by replace (n + 1 + Z.of_nat k) with (n + Z.of_nat (S k)) by lia.
Qed.

Lemma oneLine_append (a b : string) : oneLine a -> oneLine b -> oneLine (a +:+ b).
Proof.
  unfold oneLine. rewrite list_of_append. intros Ha Hb Hin.
  apply elem_of_app in Hin as [Hin|Hin]; auto.
Qed.

Lemma oneLine_decimal (digits : string) : decimal digits -> oneLine digits.
Proof.
  intros [_ Hdigits] Hin. unfold strconv.allDigits in Hdigits.
  rewrite forallb_forall in Hdigits.
  apply list_elem_of_In, Hdigits in Hin. discriminate Hin.
Qed.

Lemma oneLine_dot : oneLine ".".
Proof.
  unfold oneLine. cbn. intros Hin. apply list_elem_of_singleton in Hin. discriminate Hin.
Qed.

(** X14. Testing versions follow one another without a gap. From a
    tag [prefix-testing.N], [k] successive calls of
    [incrementTestingNumber] give [prefix-testing.(N+k)], as long as
    the number stays within [int]. From a stable tag that starts with
    [major.minor.patch], [incrementPatchAndAddTesting] gives the
    first testing version of the next patch, and [k] calls of
    [incrementTestingNumber] after it give
    [major.minor.(patch+1)-testing.(1+k)]. *)
Theorem testing_versions_follow :
  (forall prefix n k,
     oneLine prefix -> 0 <= n -> n + Z.of_nat k <= Go.MaxInt ->
     bump k (prefix +:+ "-testing." +:+ fmt.FormatInt n)
     = Ret (Ok (prefix +:+ "-testing." +:+ fmt.FormatInt (n + Z.of_nat k))))
  /\ (forall major minor patch rest_ k,
        decimal major -> decimal minor -> decimal patch -> noLeadingDigit rest_ ->
        valueOf patch < Go.MaxInt -> 1 + Z.of_nat k <= Go.MaxInt ->
        exists first,
          incrementPatchAndAddTesting (major +:+ "." +:+ minor +:+ "." +:+ patch +:+ rest_)
          = Ret (Ok first)
          /\ bump k first
             = Ret (Ok (major +:+ "." +:+ minor +:+ "."
                        +:+ fmt.FormatInt (valueOf patch + 1)
                        +:+ "-testing." +:+ fmt.FormatInt (1 + Z.of_nat k)))).
Proof.
  split; [exact bump_counts|].
  intros major minor patch rest_ k Hmajor Hminor Hpatch Hrest Hbound Hk.
  rewrite (incrementPatch_form major minor patch rest_ Hmajor Hminor Hpatch Hrest).
  pose proof (decimalValue_nonneg _ (proj2 Hpatch)) as Hpos. fold (valueOf patch) in Hpos.
  replace (valueOf patch <=? Go.MaxInt) with true by (symmetry; apply Z.leb_le; lia).
  rewrite wrap_small by (unfold Go.MinInt, Go.MaxInt in *; lia).
  eexists. split; [reflexivity|].
  set (next := fmt.FormatInt (valueOf patch + 1)).
  assert (Hline : oneLine (major +:+ "." +:+ minor +:+ "." +:+ next)).
  { repeat apply oneLine_append; try apply oneLine_dot; apply oneLine_decimal; try done.
    apply decimal_FormatInt. lia. }
  pose proof (bump_counts _ 1 k Hline ltac:(lia) Hk) as Hbump.
  rewrite !append_assoc in Hbump. exact Hbump.
Qed.

Lemma testing_versions_follow_witness :
  bump 3 "1.0.1-testing.8" = Ret (Ok "1.0.1-testing.11")
  /\ exists first,
       incrementPatchAndAddTesting "1.4.9" = Ret (Ok first)
       /\ bump 2 first = Ret (Ok "1.4.10-testing.3").
Proof.
  split.
  - refine (proj1 testing_versions_follow "1.0.1" 8 3%nat _ _ _).
    + unfold oneLine. vm_compute. intros H.
      repeat (apply elem_of_cons in H as [H|H]; [discriminate H|]).
      by apply elem_of_nil in H.
    + lia.
    + vm_compute. discriminate.
  - refine (proj2 testing_versions_follow "1" "4" "9" "" 2%nat _ _ _ _ _ _);
      try (split; [discriminate|reflexivity]); try reflexivity.
    vm_compute. discriminate.
Defined.

End TestingSequence.


(** ** [runCheck]: how the pull requests are classified *)

Section Classification.
Import github module_release cmd.

Inductive prKind : Type := Linked | Translation | Unlinked.

(** The kind of a pull request of the range: none when it cannot be
    fetched. *)
Definition kindOf (client : Client) (repo issuesRepoFlag : string) (prNum : Z)
    : option prKind :=
  match GetPullRequest client repo prNum with
  | Err _ => None
  | Ok pr =>
    match GetLinkedIssues (Body pr) issuesRepoFlag with
    | Ret [] =>
      if existsb (fun name => String.eqb name "translation") (prLabels pr)
      then Some Translation else Some Unlinked
    | _ => Some Linked
    end
  end.

Definition isTranslation (k : option prKind) : bool :=
  match k with Some Translation => true | _ => false end.

Definition isUnlinked (k : option prKind) : bool :=
  match k with Some Unlinked => true | _ => false end.

Definition prURL (repo : string) (prNum : Z) : string :=
  "https://github.com/" +:+ repo +:+ "/pull/" +:+ fmt.FormatInt prNum.

Lemma processLinked_lists (fuel : nat) (client : Client) (linkedIssues : list Z)
    (summary summary' : CheckSummary) :
  processLinked fuel client linkedIssues summary = Ret summary' ->
  UnlinkedPRs summary' = UnlinkedPRs summary
  /\ TranslationPRs summary' = TranslationPRs summary.
Proof.
  revert summary. induction linkedIssues as [|n linkedIssues IH]; intros summary;
    cbn [processLinked].
  - intros [= <-]. auto.
  - pose proof (ProcessIssue_processed fuel client summary n) as Hn.
    unfold mbind, outcome_bind, Go.bind.
    destruct (ProcessIssue fuel client summary n) as [[cs1 err]| | |]; try discriminate.
    intros H. destruct (IH cs1 H) as [Hu Ht]. destruct Hn. split; congruence.
Qed.

Lemma processPRs_lists (fuel : nat) (client : Client) (repo issuesRepoFlag : string)
    (prNumbers : list Z) (summary summary' : CheckSummary) :
  processPRs fuel client repo issuesRepoFlag prNumbers summary = Ret summary' ->
  UnlinkedPRs summary'
  = UnlinkedPRs summary
    ++ map (prURL repo)
         (List.filter (fun n => isUnlinked (kindOf client repo issuesRepoFlag n)) prNumbers)
  /\ TranslationPRs summary'
     = TranslationPRs summary
       ++ map (prURL repo)
            (List.filter (fun n => isTranslation (kindOf client repo issuesRepoFlag n))
               prNumbers).
Proof.
  revert summary. induction prNumbers as [|prNum prNumbers IH]; intros summary;
    cbn [processPRs List.filter].
  - intros [= <-]. by rewrite !app_nil_r.
  - destruct (GetPullRequest client repo prNum) as [pr|e] eqn:Hpr.
    2:{ assert (Hk : kindOf client repo issuesRepoFlag prNum = None)
          by (unfold kindOf; by rewrite Hpr).
        rewrite Hk. cbn [isUnlinked isTranslation]. apply IH. }
    unfold mbind, outcome_bind, Go.bind.
    destruct (GetLinkedIssues (Body pr) issuesRepoFlag) as [linkedIssues| | |] eqn:Hlinked;
      try discriminate.
    destruct linkedIssues as [|n linkedIssues].
    + change (0 <? length (@nil Z))%nat with false. cbv iota zeta.
      fold (prURL repo prNum).
      assert (Hk : kindOf client repo issuesRepoFlag prNum
                   = if existsb (fun name => String.eqb name "translation") (prLabels pr)
                     then Some Translation else Some Unlinked)
        by (unfold kindOf; by rewrite Hpr, Hlinked).
      rewrite Hk.
      destruct (existsb _ (prLabels pr)); cbn [isUnlinked isTranslation map];
        intros H; apply IH in H as [-> ->];
        cbn [UnlinkedPRs TranslationPRs addUnlinked addTranslation];
        by rewrite <- ?app_assoc.
    + change (0 <? length (n :: linkedIssues))%nat with true. cbv iota.
      assert (Hk : kindOf client repo issuesRepoFlag prNum = Some Linked)
        by (unfold kindOf; by rewrite Hpr, Hlinked).
      rewrite Hk. cbn [isUnlinked isTranslation].
      destruct (processLinked fuel client (n :: linkedIssues) summary) as [cs1| | |]
        eqn:Hprocessed; try discriminate.
      apply processLinked_lists in Hprocessed as [Hu Ht].
      intros H. apply IH in H as [-> ->]. by rewrite Hu, Ht.
Qed.

Lemma runCheck_scanned (fuel : nat) (ro : rangeOrder) (env : Env)
    (repoFlag issuesRepoFlag : string) (summary : CheckSummary)
    (commitsInPRs : gmap string bool) (ready : bool) :
  runCheck fuel ro env repoFlag issuesRepoFlag = Ret (Ok (Reported summary commitsInPRs ready)) ->
  exists client repo latestRelease commits prNumbers processed,
    NewClient env = Ok client
    /\ ScanForPRs ro client repo (TagName latestRelease) "main" = Ok prNumbers
    /\ processPRs fuel client repo issuesRepoFlag prNumbers (NewCheckSummary issuesRepoFlag)
       = Ret processed
    /\ summary = findOrphans repo commits commitsInPRs processed.
Proof.
  unfold runCheck, mbind, outcome_bind, Go.bind. intros H.
  destruct (NewClient env) as [client|]; [|discriminate H].
  destruct (GetOrValidateRepo env client repoFlag) as [[repo|]| | |]; try discriminate H.
  destruct (GetLatestRelease client repo true) as [latestRelease|]; [|discriminate H].
  destruct (GetReleaseCommitSHA client repo (TagName latestRelease)); [|discriminate H].
  destruct (GetMainBranchSHA client repo); [|discriminate H].
  destruct (String.eqb _ _); [discriminate H|].
  destruct (CompareCommits client repo (TagName latestRelease) "main") as [commits|];
    [|discriminate H].
  destruct (length commits =? 0)%nat; [discriminate H|].
  destruct (ScanForPRs ro client repo (TagName latestRelease) "main") as [prNumbers|]
    eqn:Hscan; [|discriminate H].
  destruct (processPRs fuel client repo issuesRepoFlag prNumbers
              (NewCheckSummary issuesRepoFlag)) as [processed| | |] eqn:Hp;
    try discriminate H.
  destruct (Display ro _) as [ready'| | |]; try discriminate H.
  injection H as <- <- <-.
  exists client, repo, latestRelease, commits, prNumbers, processed. auto.
Qed.

(** X15. In the summary a run of [check] displays, the list of the
    pull requests without linked issues holds, in the order of the
    scan, the address of each pull request of the range that was
    fetched, whose body links no issue and that has no label
    [translation]; the list of the translation pull requests holds
    those that link no issue and have the label. A pull request that
    links an issue, or that could not be fetched, is in neither list,
    whatever its labels. *)
Theorem pull_requests_classified (fuel : nat) (ro : rangeOrder) (env : Env)
    (repoFlag issuesRepoFlag : string) (summary : CheckSummary)
    (commitsInPRs : gmap string bool) (ready : bool) :
  runCheck fuel ro env repoFlag issuesRepoFlag = Ret (Ok (Reported summary commitsInPRs ready)) ->
  exists client repo latestRelease prNumbers,
    NewClient env = Ok client
    /\ ScanForPRs ro client repo (TagName latestRelease) "main" = Ok prNumbers
    /\ UnlinkedPRs summary
       = map (prURL repo)
           (List.filter (fun n => isUnlinked (kindOf client repo issuesRepoFlag n)) prNumbers)
    /\ TranslationPRs summary
       = map (prURL repo)
           (List.filter (fun n => isTranslation (kindOf client repo issuesRepoFlag n))
              prNumbers).
Proof.
  intros Hrun.
  apply runCheck_scanned in Hrun
    as (client & repo & latestRelease & commits & prNumbers & processed
        & Hclient & Hscan & Hprs & ->).
  exists client, repo, latestRelease, prNumbers.
  split; [exact Hclient|]. split; [exact Hscan|].
  apply processPRs_lists in Hprs as [Hu Ht]. cbn [NewCheckSummary UnlinkedPRs TranslationPRs app] in Hu, Ht.
  assert (Hkept : forall cs,
            UnlinkedPRs (findOrphans repo commits commitsInPRs cs) = UnlinkedPRs cs
            /\ TranslationPRs (findOrphans repo commits commitsInPRs cs) = TranslationPRs cs).
  { clear. induction commits as [|sha commits IH]; intros cs; cbn [findOrphans]; [done|].
    destruct (negb _); [|apply IH].
    destruct (IH (addOrphan cs (commitURL repo sha))) as [-> ->]. done. }
  destruct (Hkept processed) as [-> ->]. by split.
Qed.

(** Four pull requests: 12 links an issue, 13 carries the label
    [translation], 14 has neither, 15 cannot be fetched. *)
Definition mixedClient : Client :=
  {| GetRepository := GetRepository checkClient;
     GetLatestCommit := GetLatestCommit checkClient;
     GetCommitSHA := GetCommitSHA checkClient;
     CompareCommits := fun _ _ _ => Ok ["c1"; "c2"; "c3"; "c4"];
     GetMergeBase := GetMergeBase checkClient;
     ListReleases := ListReleases checkClient;
     ViewRelease := ViewRelease checkClient;
     Exec := Exec checkClient;
     GetPullRequestsForCommit := fun _ sha =>
       if String.eqb sha "c1" then Ok [12]
       else if String.eqb sha "c2" then Ok [13]
       else if String.eqb sha "c3" then Ok [14]
       else Ok [15];
     GetPullRequest := fun _ number =>
       if number =? 15 then Err "failed to get PR"
       else Ok {| prNumber := number;
                  Body := if number =? 12 then "Fixes NethServer/dev#42" else "Update";
                  prLabels := if number =? 13 then ["translation"] else [] |};
     GetIssue := GetIssue checkClient;
     queryParent := queryParent checkClient |}.

Definition mixedEnv : Env :=
  {| NewClient := Ok mixedClient; GetCurrentRepository := Ok "NethServer/ns8-mail" |}.

Lemma mixedEnv_run :
  exists summary commitsInPRs ready,
    runCheck 3 keyOrder mixedEnv "" "NethServer/dev"
    = Ret (Ok (Reported summary commitsInPRs ready))
    /\ UnlinkedPRs summary = ["https://github.com/NethServer/ns8-mail/pull/14"]
    /\ TranslationPRs summary = ["https://github.com/NethServer/ns8-mail/pull/13"].
Proof. eexists _, _, _. split; [vm_compute; reflexivity|]. split; reflexivity. Qed.

Lemma pull_requests_classified_witness :
  exists summary commitsInPRs ready repo prNumbers,
    runCheck 3 keyOrder mixedEnv "" "NethServer/dev"
    = Ret (Ok (Reported summary commitsInPRs ready))
    /\ UnlinkedPRs summary = ["https://github.com/NethServer/ns8-mail/pull/14"]
    /\ UnlinkedPRs summary
       = map (prURL repo)
           (List.filter (fun n => isUnlinked (kindOf mixedClient repo "NethServer/dev" n))
              prNumbers).
Proof.
  destruct mixedEnv_run as (summary & commitsInPRs & ready & Hrun & Hu & _).
  destruct (pull_requests_classified 3 keyOrder mixedEnv "" "NethServer/dev" summary
              commitsInPRs ready Hrun)
    as (client & repo & latestRelease & prNumbers & Hclient & _ & Hunlinked & _).
  injection Hclient as <-.
  exists summary, commitsInPRs, ready, repo, prNumbers.
  split; [exact Hrun|]. split; [exact Hu|exact Hunlinked].
Defined.

End Classification.


(** ** [generateLinkedIssuesNotes]: the notes of a release *)

Section ReleaseNotes.
Import github module_release cmd.

Variables (client : Client) (repo issuesRepo : string).

(** An issue number that a fetched pull request of the list links. *)
Definition linkedBy (prNumbers : list Z) (issueNum : Z) : Prop :=
  exists prNum pr linkedIssues,
    prNum ∈ prNumbers
    /\ GetPullRequest client repo prNum = Ok pr
    /\ GetLinkedIssues (Body pr) issuesRepo = Ret linkedIssues
    /\ issueNum ∈ linkedIssues.

(** The title the platform gives for an issue. *)
Definition titled (issueNum : Z) (title : string) : Prop :=
  exists issue, GetIssue client issuesRepo issueNum = Ok issue /\ Title issue = title.

Definition allTitled (issueMap : gmap Z string) : Prop :=
  forall n t, issueMap !! n = Some t -> titled n t.

Lemma titled_once (n : Z) (t t' : string) : titled n t -> titled n t' -> t = t'.
Proof. intros (i & Hi & <-) (i' & Hi' & <-). congruence. Qed.

Lemma collectTitles_spec (linkedIssues : list Z) (issueMap : gmap Z string) :
  allTitled issueMap ->
  forall n t,
    collectTitles client issuesRepo linkedIssues issueMap !! n = Some t
    <-> issueMap !! n = Some t \/ (n ∈ linkedIssues /\ titled n t).
Proof.
  revert issueMap.
  induction linkedIssues as [|x linkedIssues IH]; intros issueMap Hall n t;
    cbn [collectTitles].
  - split; [auto|]. intros [H|[H _]]; [exact H|]. by apply elem_of_nil in H.
  - destruct (issueMap !! x) as [t0|] eqn:Hx.
    + rewrite (IH issueMap Hall). split.
      * intros [H|[H1 H2]]; [by left|]. right. split; [by apply elem_of_cons; right|done].
      * intros [H|[H1 H2]]; [by left|].
        apply elem_of_cons in H1 as [->|H1]; [|by right].
        left. rewrite Hx. f_equal. exact (titled_once x t0 t (Hall x t0 Hx) H2).
    + destruct (GetIssue client issuesRepo x) as [issue|e] eqn:Hissue.
      * assert (Hall' : allTitled (<[x := Title issue]> issueMap)).
        { intros n' t'. destruct (decide (n' = x)) as [->|Hne].
          - rewrite lookup_insert_eq. intros [= <-]. by exists issue.
          - rewrite lookup_insert_ne by done. apply Hall. }
        rewrite (IH _ Hall'). split.
        -- intros [H|[H1 H2]].
           ++ destruct (decide (n = x)) as [->|Hne].
              ** rewrite lookup_insert_eq in H. injection H as <-.
                 right. split; [by apply elem_of_cons; left|by exists issue].
              ** rewrite lookup_insert_ne in H by done. by left.
           ++ right. split; [by apply elem_of_cons; right|done].
        -- intros [H|[H1 H2]].
           ++ left. rewrite lookup_insert_ne; [done|]. intros <-. congruence.
           ++ apply elem_of_cons in H1 as [->|H1]; [|by right].
              left. rewrite lookup_insert_eq. f_equal.
              apply (titled_once x); [by exists issue|done].
      * rewrite (IH issueMap Hall). split.
        -- intros [H|[H1 H2]]; [by left|]. right. split; [by apply elem_of_cons; right|done].
        -- intros [H|[H1 H2]]; [by left|].
           apply elem_of_cons in H1 as [->|H1]; [|by right].
           destruct H2 as (i & Hi & _). congruence.
Qed.

Lemma collectTitles_titled (linkedIssues : list Z) (issueMap : gmap Z string) :
  allTitled issueMap -> allTitled (collectTitles client issuesRepo linkedIssues issueMap).
Proof.
  intros Hall n t H. apply (collectTitles_spec _ _ Hall) in H as [H|[_ H]]; [by apply Hall|done].
Qed.

Lemma collectLinked_spec (prNumbers : list Z) (issueMap collected : gmap Z string) :
  collectLinked client repo issuesRepo prNumbers issueMap = Ret collected ->
  allTitled issueMap ->
  forall n t,
    collected !! n = Some t <-> issueMap !! n = Some t \/ (linkedBy prNumbers n /\ titled n t).
Proof.
  revert issueMap.
  induction prNumbers as [|prNum prNumbers IH]; intros issueMap; cbn [collectLinked].
  - intros [= <-] _ n t. split; [auto|]. intros [H|[(p & _ & _ & H & _) _]]; [exact H|].
    by apply elem_of_nil in H.
  - assert (Hmore : forall n, linkedBy prNumbers n -> linkedBy (prNum :: prNumbers) n).
    { intros n (p & pr & l & H1 & H2). exists p, pr, l. split; [by apply elem_of_cons; right|done]. }
    destruct (GetPullRequest client repo prNum) as [pr|e] eqn:Hpr.
    + unfold mbind, outcome_bind.
      destruct (GetLinkedIssues (Body pr) issuesRepo) as [linkedIssues| | |] eqn:Hlinked;
        try discriminate.
      intros Hrun Hall n t.
      rewrite (IH _ Hrun (collectTitles_titled linkedIssues issueMap Hall)).
      rewrite (collectTitles_spec linkedIssues issueMap Hall). split.
      * intros [[H|[H1 H2]]|[H1 H2]]; [by left| |right; split; [by apply Hmore|done]].
        right. split; [|done]. exists prNum, pr, linkedIssues.
        split; [by apply elem_of_cons; left|done].
      * intros [H|[(p & pr' & l & H1 & H2 & H3 & H4) Ht]]; [by left; left|].
        apply elem_of_cons in H1 as [->|H1].
        -- left. right. split; [|done]. congruence.
        -- right. split; [|done]. by exists p, pr', l.
    + intros Hrun Hall n t. rewrite (IH _ Hrun Hall). split.
      * intros [H|[H1 H2]]; [by left|]. right. split; [by apply Hmore|done].
      * intros [H|[(p & pr' & l & H1 & H2 & H3 & H4) Ht]]; [by left|].
        apply elem_of_cons in H1 as [->|H1]; [congruence|].
        right. split; [|done]. by exists p, pr', l.
Qed.

(** The text of the notes for a list of entries: nothing for no entry,
    else the heading and one line for each. *)
Definition notesOf (entries : list (Z * string)) : string :=
  match entries with
  | [] => ""
  | _ => ("## Linked Issues" +:+ nl)
         +:+ String.concat "" (map (noteLine issuesRepo) entries)
  end.

(** X16. When [generateLinkedIssuesNotes] gives a text, the text is
    made of a list of entries, each an issue number with a title, in
    which no number occurs twice: an entry is in the list exactly when
    a pull request of the range since the previous release that could
    be fetched links the number and the platform gives the title for
    it. The text is empty when there is no entry, and otherwise the
    heading followed by one line for each entry. An issue whose title
    cannot be fetched is left out, and so is every issue of a pull
    request that cannot be fetched. *)
Theorem notes_list_linked_issues (ro : rangeOrder) (previousRelease text : string) :
  validOrder ro ->
  generateLinkedIssuesNotes ro client repo previousRelease issuesRepo = Ret (Ok text) ->
  exists prNumbers entries,
    ScanForPRs ro client repo previousRelease "main" = Ok prNumbers
    /\ NoDup entries.*1
    /\ (forall n title, (n, title) ∈ entries <-> linkedBy prNumbers n /\ titled n title)
    /\ text = notesOf entries.
Proof.
  intros Hro. unfold generateLinkedIssuesNotes, mbind, outcome_bind.
  destruct (ScanForPRs ro client repo previousRelease "main") as [prNumbers|e];
    [|discriminate].
  destruct (collectLinked client repo issuesRepo prNumbers ∅) as [issueMap| | |] eqn:Hrun;
    try discriminate.
  unfold Go.bind. intros Htext. exists prNumbers, (ro string issueMap).
  pose proof (Hro string issueMap) as Hperm.
  split; [done|]. split.
  { rewrite Hperm. apply NoDup_fst_map_to_list. }
  split.
  { intros n title. rewrite Hperm, elem_of_map_to_list.
    rewrite (collectLinked_spec _ _ _ Hrun); [|by intros ? ? H; rewrite lookup_empty in H].
    rewrite lookup_empty. split; [by intros [?|?]|auto]. }
  assert (Hsize : size issueMap = length (ro string issueMap)).
  { rewrite Hperm. symmetry. apply length_map_to_list. }
  rewrite Hsize in Htext. unfold notesOf.
  destruct (ro string issueMap) as [|entry entries]; cbn [length Nat.eqb] in Htext;
    by injection Htext as <-.
Qed.

End ReleaseNotes.

Section ReleaseNotesExample.
Import github module_release cmd.

Lemma notes_list_linked_issues_witness :
  validOrder keyOrder
  /\ generateLinkedIssuesNotes keyOrder checkClient "NethServer/ns8-mail" "1.0.0"
       "NethServer/dev"
     = Ret (Ok (notesOf "NethServer/dev" [(42, "An issue")]))
  /\ exists prNumbers entries,
       ScanForPRs keyOrder checkClient "NethServer/ns8-mail" "1.0.0" "main" = Ok prNumbers
       /\ NoDup entries.*1
       /\ notesOf "NethServer/dev" [(42, "An issue")] = notesOf "NethServer/dev" entries.
Proof.
  assert (Hrun : generateLinkedIssuesNotes keyOrder checkClient "NethServer/ns8-mail" "1.0.0"
                   "NethServer/dev"
                 = Ret (Ok (notesOf "NethServer/dev" [(42, "An issue")])))
    by (vm_compute; reflexivity).
  split; [exact keyOrder_valid|]. split; [exact Hrun|].
  destruct (notes_list_linked_issues checkClient "NethServer/ns8-mail" "NethServer/dev"
              keyOrder "1.0.0" _ keyOrder_valid Hrun)
    as (prNumbers & entries & Hscan & Hnodup & _ & Htext).
  exists prNumbers, entries. split; [exact Hscan|]. split; [exact Hnodup|exact Htext].
Defined.

End ReleaseNotesExample.


(** ** The shape of the summary that issue processing builds *)

Section SummaryShape.
Import github module_release cmd.

Variable client : Client.

(** Every entry is stored under its own number; its children are
    listed once each, are not the entry itself, and each has an entry
    of its own that names this entry as its parent. *)
Definition wellFormed (cs : CheckSummary) : Prop :=
  forall n info,
    Issues cs !! n = Some info ->
    Number info = n
    /\ NoDup (Children info)
    /\ (n ∉ Children info)
    /\ forall c, c ∈ Children info ->
         exists child, Issues cs !! c = Some child /\ ParentNumber child = n.

Lemma wellFormed_new (issuesRepo : string) : wellFormed (NewCheckSummary issuesRepo).
Proof. intros n info H. cbn in H. by rewrite lookup_empty in H. Qed.

Lemma newIssueInfo_Number (n : Z) (issue : Issue) : Number (newIssueInfo n issue) = n.
Proof. unfold newIssueInfo. by destruct (scanLabels _ _ _ _) as [[? ?] ?]. Qed.

Lemma wellFormed_listed (cs : CheckSummary) (n c : Z) (info : IssueInfo) :
  wellFormed cs -> Issues cs !! n = Some info -> c ∈ Children info ->
  is_Some (Issues cs !! c).
Proof. intros Hcs Hn Hc. destruct (Hcs n info Hn) as (_ & _ & _ & H). destruct (H c Hc) as (? & ? & _). eauto. Qed.

(** A reference to an issue that is in the summary. *)
Lemma wellFormed_counted (cs : CheckSummary) (n : Z) (known : IssueInfo) :
  wellFormed cs -> Issues cs !! n = Some known ->
  wellFormed (setIssues cs (<[n := incRefCount known]> (Issues cs))).
Proof.
  intros Hcs Hn k info. cbn [setIssues Issues]. intros Hk.
  assert (Hold : exists old, Issues cs !! k = Some old /\ Number info = Number old
                             /\ Children info = Children old).
  { destruct (decide (k = n)) as [->|Hne].
    - rewrite lookup_insert_eq in Hk. injection Hk as <-. by exists known.
    - rewrite lookup_insert_ne in Hk by done. by exists info. }
  destruct Hold as (old & Hold & -> & ->).
  destruct (Hcs k old Hold) as (H1 & H2 & H3 & H4).
  split; [done|]. split; [done|]. split; [done|].
  intros c Hc. destruct (H4 c Hc) as (child & Hchild & Hparent).
  destruct (decide (c = n)) as [->|Hne].
  - rewrite lookup_insert_eq. exists (incRefCount known). split; [done|].
    cbn [incRefCount ParentNumber]. congruence.
  - rewrite lookup_insert_ne by done. by exists child.
Qed.

(** A new issue stored without being made a child. *)
Lemma wellFormed_stored (cs : CheckSummary) (n : Z) (info : IssueInfo) :
  wellFormed cs -> Issues cs !! n = None ->
  Number info = n -> Children info = [] ->
  wellFormed (storeIssue cs n info).
Proof.
  intros Hcs Hn Hnumber Hchildren k entry. cbn [storeIssue setIssues Issues]. intros Hk.
  destruct (decide (k = n)) as [->|Hne].
  - rewrite lookup_insert_eq in Hk. injection Hk as <-. rewrite Hchildren.
    split; [done|]. split; [constructor|]. split; [apply not_elem_of_nil|].
    intros c Hc. by apply elem_of_nil in Hc.
  - rewrite lookup_insert_ne in Hk by done.
    destruct (Hcs k entry Hk) as (H1 & H2 & H3 & H4).
    split; [done|]. split; [done|]. split; [done|].
    intros c Hc. destruct (H4 c Hc) as (child & Hchild & Hparent).
    rewrite lookup_insert_ne; [by exists child|]. intros <-. congruence.
Qed.

(** A new issue stored and made a child of an entry. *)
Lemma wellFormed_adopted (cs : CheckSummary) (p n : Z) (parent info : IssueInfo) :
  wellFormed cs -> Issues cs !! p = Some parent -> Issues cs !! n = None ->
  Number info = n -> Children info = [] -> ParentNumber info = p ->
  wellFormed (storeIssue (setIssues cs (<[p := addChild parent n]> (Issues cs))) n info).
Proof.
  intros Hcs Hp Hn Hnumber Hchildren Hparent k entry.
  cbn [storeIssue setIssues Issues]. intros Hk.
  assert (Hnp : n <> p) by congruence.
  assert (Hfresh : forall q e, Issues cs !! q = Some e -> n ∉ Children e).
  { intros q e Hq Hin. destruct (wellFormed_listed cs q n e Hcs Hq Hin) as [? ?]. congruence. }
  assert (Hlookup : forall c child,
            Issues cs !! c = Some child ->
            exists child', <[n := info]> (<[p := addChild parent n]> (Issues cs)) !! c
                           = Some child'
                           /\ ParentNumber child' = ParentNumber child).
  { intros c child Hc.
    rewrite lookup_insert_ne by congruence.
    destruct (decide (c = p)) as [->|Hcp].
    - rewrite lookup_insert_eq. exists (addChild parent n). split; [done|].
      cbn [addChild ParentNumber]. congruence.
    - rewrite lookup_insert_ne by done. by exists child. }
  destruct (decide (k = n)) as [->|Hkn].
  { rewrite lookup_insert_eq in Hk. injection Hk as <-. rewrite Hchildren.
    split; [done|]. split; [constructor|]. split; [apply not_elem_of_nil|].
    intros c Hc. by apply elem_of_nil in Hc. }
  rewrite lookup_insert_ne in Hk by done.
  destruct (decide (k = p)) as [->|Hkp].
  - rewrite lookup_insert_eq in Hk. injection Hk as <-.
    destruct (Hcs p parent Hp) as (H1 & H2 & H3 & H4).
    cbn [addChild Number Children].
    split; [done|]. split.
    { apply NoDup_app. split; [done|]. split; [|apply NoDup_singleton].
      intros x Hx Hx'. apply list_elem_of_singleton in Hx' as ->.
      by apply (Hfresh p parent Hp). }
    split.
    { intros Hin. apply elem_of_app in Hin as [Hin|Hin]; [done|].
      apply list_elem_of_singleton in Hin. congruence. }
    intros c Hc. apply elem_of_app in Hc as [Hc|Hc].
    + destruct (H4 c Hc) as (child & Hchild & Hpc).
      destruct (Hlookup c child Hchild) as (child' & Hchild' & Hsame).
      exists child'. split; [done|congruence].
    + apply list_elem_of_singleton in Hc as ->. rewrite lookup_insert_eq. by exists info.
  - rewrite lookup_insert_ne in Hk by done.
    destruct (Hcs k entry Hk) as (H1 & H2 & H3 & H4).
    split; [done|]. split; [done|]. split; [done|].
    intros c Hc. destruct (H4 c Hc) as (child & Hchild & Hpc).
    destruct (Hlookup c child Hchild) as (child' & Hchild' & Hsame).
    exists child'. split; [done|congruence].
Qed.

(** The entries a call adds are the issue itself and issues for which
    a call returns with less fuel. *)
Lemma ProcessIssue_new_entries (fuel : nat) (cs cs1 : CheckSummary) (q k : Z)
    (err : option Go.error) :
  ProcessIssue fuel client cs q = Ret (cs1, err) ->
  Issues cs !! k = None -> is_Some (Issues cs1 !! k) ->
  k = q \/ exists r, ProcessIssue (pred fuel) client cs k = Ret r.
Proof.
  revert cs cs1 q k err. induction fuel as [|fuel IH]; intros cs cs1 q k err;
    [discriminate|].
  rewrite ProcessIssue_S. cbv zeta. cbn [pred].
  intros Hrun Hk Hk1.
  assert (Hstore : forall cs0 info,
            is_Some (Issues (storeIssue cs0 q info) !! k) ->
            k = q \/ is_Some (Issues cs0 !! k)).
  { intros cs0 info. cbn [storeIssue setIssues Issues].
    rewrite lookup_insert_is_Some. intros [<-|[_ H]]; auto. }
  assert (Happend : forall cs0 p cs2,
            appendChild cs0 p q = Ret cs2 ->
            is_Some (Issues cs2 !! k) -> is_Some (Issues cs0 !! k)).
  { intros cs0 p cs2. unfold appendChild.
    destruct (Issues cs0 !! p) as [parent|] eqn:Hp; [|discriminate].
    intros [= <-]. cbn [setIssues Issues]. rewrite lookup_insert_is_Some.
    intros [<-|[_ H]]; [eauto|done]. }
  destruct (Issues cs !! q) as [known|] eqn:Hq.
  { injection Hrun as <- <-. cbn [setIssues Issues] in Hk1.
    apply lookup_insert_is_Some in Hk1 as [<-|[_ Hk1]]; [auto|].
    rewrite Hk in Hk1. by destruct Hk1. }
  assert (Hdirect : forall info, cs1 = storeIssue cs q info -> k = q).
  { intros info ->. apply Hstore in Hk1 as [?|Hk1]; [done|].
    rewrite Hk in Hk1. by destruct Hk1. }
  destruct (GetIssue client (IssuesRepo cs) q) as [issue|e].
  2:{ injection Hrun as <- <-. rewrite Hk in Hk1. by destruct Hk1. }
  destruct (GetParentIssueNumber client (IssuesRepo cs) q) as [p|e].
  2:{ injection Hrun as <- <-. left. by eapply Hdirect. }
  destruct (0 <? p).
  2:{ injection Hrun as <- <-. left. by eapply Hdirect. }
  destruct (Issues cs !! p) as [parent|] eqn:Hp.
  { unfold mbind, outcome_bind, Go.bind in Hrun.
    destruct (appendChild cs p q) as [cs2| | |] eqn:Hcs2; try discriminate Hrun.
    injection Hrun as <- <-. apply Hstore in Hk1 as [?|Hk1]; [by left|].
    apply (Happend _ _ _ Hcs2) in Hk1. rewrite Hk in Hk1. by destruct Hk1. }
  unfold mbind, outcome_bind, Go.bind in Hrun.
  destruct (ProcessIssue fuel client cs p) as [[cs1' err']| | |] eqn:Hup;
    try discriminate Hrun.
  assert (Hinner : is_Some (Issues cs1' !! k) ->
            k = q \/ exists r, ProcessIssue fuel client cs k = Ret r).
  { intros Hin. destruct (IH cs cs1' p k err' Hup Hk Hin) as [->|[r Hr]].
    - right. eauto.
    - right. exists r. apply (ProcessIssue_more_fuel (pred fuel)); [done|lia]. }
  destruct err' as [e|].
  - injection Hrun as <- <-. apply Hstore in Hk1 as [?|Hk1]; [by left|]. by apply Hinner.
  - destruct (appendChild cs1' p q) as [cs2| | |] eqn:Hcs2; try discriminate Hrun.
    injection Hrun as <- <-. apply Hstore in Hk1 as [?|Hk1]; [by left|].
    apply (Happend _ _ _ Hcs2) in Hk1. by apply Hinner.
Qed.

(** A call for an issue that is to be fetched and whose parent is to be
    processed first is a call for the parent with one unit of fuel
    less. *)
Lemma ProcessIssue_ascends (fuel : nat) (cs cs' : CheckSummary) (c p : Z)
    (err : option Go.error) :
  nextUp client cs c = Some p ->
  ProcessIssue (S fuel) client cs c = Ret (cs', err) ->
  err = None /\ exists cs1 err1, ProcessIssue fuel client cs p = Ret (cs1, err1).
Proof.
  unfold nextUp. rewrite ProcessIssue_S. cbv zeta.
  destruct (Issues cs !! c); [discriminate|].
  destruct (GetIssue client (IssuesRepo cs) c); [|discriminate].
  destruct (GetParentIssueNumber client (IssuesRepo cs) c) as [p'|]; [|discriminate].
  destruct (0 <? p'); [|discriminate].
  destruct (Issues cs !! p'); [discriminate|].
  intros [= ->]. unfold mbind, outcome_bind, Go.bind.
  destruct (ProcessIssue fuel client cs p) as [[cs1 err1]| | |]; try discriminate.
  intros Hrun. split; [|eauto].
  destruct err1.
  - by injection Hrun as _ <-.
  - destruct (appendChild cs1 p c); try discriminate Hrun. by injection Hrun as _ <-.
Qed.

(** The call for the parent does not bring in the issue it was made
    for: that would take a call for the issue inside the call for its
    parent, and so on without end. *)
Lemma ascent_leaves_out (fuel : nat) (cs cs1 : CheckSummary) (c p : Z)
    (err : option Go.error) :
  nextUp client cs c = Some p ->
  ProcessIssue fuel client cs p = Ret (cs1, err) ->
  Issues cs1 !! c = None.
Proof.
  revert cs1 err. induction (lt_wf fuel) as [fuel _ IH]. intros cs1 err Hup Hrun.
  destruct (Issues cs1 !! c) as [entry|] eqn:Hc; [exfalso|reflexivity].
  assert (Hfresh : Issues cs !! c = None).
  { unfold nextUp in Hup. by destruct (Issues cs !! c). }
  assert (Hagain : exists fuel' r, (fuel' < fuel)%nat
                                   /\ ProcessIssue (S fuel') client cs c = Ret r).
  { destruct (ProcessIssue_new_entries fuel cs cs1 p c err Hrun Hfresh) as [->|[r Hr]];
      [by eexists| |].
    - destruct fuel as [|fuel']; [discriminate Hrun|]. exists fuel', (cs1, err). by split; [lia|].
    - destruct fuel as [|[|fuel']]; try discriminate Hr; try discriminate Hrun.
      exists fuel', r. split; [lia|exact Hr]. }
  destruct Hagain as (fuel' & [cs' err'] & Hlt & Hagain).
  destruct (ProcessIssue_ascends fuel' cs cs' c p err' Hup Hagain)
    as (_ & cs2 & err2 & Hinner).
  assert (Hsame : (cs2, err2) = (cs1, err)).
  { pose proof (ProcessIssue_more_fuel fuel' client cs p (cs2, err2) Hinner fuel) as H.
    rewrite Hrun in H. symmetry. assert (Hle : (fuel' <= fuel)%nat) by lia.
    specialize (H Hle). congruence. }
  injection Hsame as -> ->.
  specialize (IH fuel' Hlt cs1 err Hup Hinner). congruence.
Qed.

Lemma ProcessIssue_wellFormed (fuel : nat) (cs cs' : CheckSummary) (n : Z)
    (err : option Go.error) :
  ProcessIssue fuel client cs n = Ret (cs', err) ->
  wellFormed cs -> wellFormed cs'.
Proof.
  revert cs cs' n err. induction fuel as [|fuel IH]; intros cs cs' n err; [discriminate|].
  intros Hrun Hcs.
  pose proof (ascent_leaves_out fuel cs) as Hout.
  unfold nextUp in Hout. specialize (fun cs1 p err => Hout cs1 n p err).
  revert Hrun. rewrite ProcessIssue_S. cbv zeta.
  destruct (Issues cs !! n) as [known|] eqn:Hn.
  { intros [= <- <-]. by apply wellFormed_counted. }
  destruct (GetIssue client (IssuesRepo cs) n) as [issue|e]; [|by intros [= <- <-]].
  pose proof (newIssueInfo_Number n issue) as Hnumber.
  pose proof (newIssueInfo_Children n issue) as Hnone.
  destruct (GetParentIssueNumber client (IssuesRepo cs) n) as [p|e].
  2:{ intros [= <- <-]. by apply wellFormed_stored. }
  destruct (0 <? p).
  2:{ intros [= <- <-]. by apply wellFormed_stored. }
  destruct (Issues cs !! p) as [parent|] eqn:Hp.
  { unfold appendChild. rewrite Hp. unfold mbind, outcome_bind, Go.bind.
    intros [= <- <-]. by apply wellFormed_adopted. }
  unfold mbind, outcome_bind, Go.bind.
  pose proof (ProcessIssue_processed fuel client cs p) as Hdone.
  destruct (ProcessIssue fuel client cs p) as [[cs1 err1]| | |] eqn:Hup; try discriminate.
  specialize (Hout cs1 p err1 eq_refl Hup).
  specialize (IH cs cs1 p err1 Hup Hcs).
  destruct err1 as [e|].
  - intros [= <- <-]. by apply wellFormed_stored.
  - destruct (processed_entry _ _ _ _ Hdone eq_refl) as [parent Hparent].
    unfold appendChild. rewrite Hparent. intros [= <- <-]. by apply wellFormed_adopted.
Qed.

Lemma processLinked_wellFormed (fuel : nat) (linkedIssues : list Z)
    (summary summary' : CheckSummary) :
  processLinked fuel client linkedIssues summary = Ret summary' ->
  wellFormed summary -> wellFormed summary'.
Proof.
  revert summary. induction linkedIssues as [|n linkedIssues IH]; intros summary;
    cbn [processLinked].
  - by intros [= <-].
  - unfold mbind, outcome_bind, Go.bind.
    destruct (ProcessIssue fuel client summary n) as [[cs1 err]| | |] eqn:Hn;
      try discriminate.
    intros Hrun Hcs. apply (IH cs1 Hrun). by eapply ProcessIssue_wellFormed.
Qed.

Lemma processPRs_wellFormed (fuel : nat) (repo issuesRepoFlag : string)
    (prNumbers : list Z) (summary summary' : CheckSummary) :
  processPRs fuel client repo issuesRepoFlag prNumbers summary = Ret summary' ->
  wellFormed summary -> wellFormed summary'.
Proof.
  revert summary. induction prNumbers as [|prNum prNumbers IH]; intros summary;
    cbn [processPRs].
  - by intros [= <-].
  - destruct (GetPullRequest client repo prNum) as [pr|e]; [|apply IH].
    unfold mbind, outcome_bind, Go.bind.
    destruct (GetLinkedIssues (Body pr) issuesRepoFlag) as [linkedIssues| | |];
      try discriminate.
    destruct (0 <? length linkedIssues)%nat.
    + destruct (processLinked fuel client linkedIssues summary) as [cs1| | |] eqn:Hlinked;
        try discriminate.
      intros Hrun Hcs. apply (IH cs1 Hrun). by eapply processLinked_wellFormed.
    + cbv zeta. intros Hrun Hcs. apply (IH _ Hrun).
      by destruct (existsb _ (prLabels pr)).
Qed.

End SummaryShape.

Section SummaryShapeRun.
Import github module_release cmd.

(** X18. In the summary a run of [check] displays, every entry of the
    issue map is stored under its own number; the children of an entry
    are listed once each; no entry is its own child; and every child
    has an entry of its own, whose parent number is the number of the
    entry that lists it, so that no issue is listed as a child of two
    entries. (The platform is taken to answer the same request the same
    way throughout the run.) *)
Theorem summary_entries_consistent (fuel : nat) (ro : rangeOrder) (env : Env)
    (repoFlag issuesRepoFlag : string) (summary : CheckSummary)
    (commitsInPRs : gmap string bool) (ready : bool) :
  runCheck fuel ro env repoFlag issuesRepoFlag = Ret (Ok (Reported summary commitsInPRs ready)) ->
  forall n info,
    Issues summary !! n = Some info ->
    Number info = n
    /\ NoDup (Children info)
    /\ (n ∉ Children info)
    /\ (forall c, c ∈ Children info ->
          exists child, Issues summary !! c = Some child /\ ParentNumber child = n)
    /\ (forall c n' info', c ∈ Children info ->
          Issues summary !! n' = Some info' -> c ∈ Children info' -> n' = n).
Proof.
  intros Hrun.
  apply runCheck_scanned in Hrun
    as (client & repo & latestRelease & commits & prNumbers & processed
        & _ & _ & Hprs & ->).
  apply processPRs_wellFormed in Hprs; [|apply wellFormed_new].
  destruct (findOrphans_spec repo commits commitsInPRs processed) as (_ & -> & _).
  intros n info Hn. destruct (Hprs n info Hn) as (H1 & H2 & H3 & H4).
  split; [done|]. split; [done|]. split; [done|]. split; [done|].
  intros c n' info' Hc Hn' Hc'.
  destruct (H4 c Hc) as (child & Hchild & Hparent).
  destruct (Hprs n' info' Hn') as (_ & _ & _ & H4').
  destruct (H4' c Hc') as (child' & Hchild' & Hparent'). congruence.
Qed.

Lemma summary_entries_consistent_witness :
  runCheck 3 keyOrder checkEnv "" "NethServer/dev"
  = Ret (Ok (Reported checkedSummary {[ "c1" := true ]} true))
  /\ exists info child,
       Issues checkedSummary !! 40 = Some info
       /\ Children info = [42]
       /\ Issues checkedSummary !! 42 = Some child
       /\ ParentNumber child = 40.
Proof.
  split; [exact checkEnv_run|].
  assert (H40 : Issues checkedSummary !! 40
                = Some {| Number := 40; Status := EmojiOpenIssue; Progress := EmojiTesting;
                          Labels := ""; RefCount := 1; ParentNumber := 0;
                          Children := [42] |}) by (vm_compute; reflexivity).
  destruct (summary_entries_consistent 3 keyOrder checkEnv "" "NethServer/dev"
              checkedSummary _ true checkEnv_run 40 _ H40) as (_ & _ & _ & Hchildren & _).
  destruct (Hchildren 42) as (child & Hchild & Hparent); [by apply list_elem_of_singleton|].
  eexists _, child. split; [exact H40|]. split; [reflexivity|]. split; [exact Hchild|exact Hparent].
Defined.

End SummaryShapeRun.


(** ** How the entries of the summary name their parents *)

Section ParentLinks.
Import github module_release cmd.

Variable client : Client.

(** Children are listed under positive numbers only. An entry has the
    parent number 0, or a positive one; in the second case the parent's
    entry lists it as a child, or there is no entry for the parent and
    the parent cannot be fetched. *)
Definition parentsListed (cs : CheckSummary) : Prop :=
  forall n info,
    Issues cs !! n = Some info ->
    (Children info <> [] -> 0 < n)
    /\ (ParentNumber info = 0
        \/ 0 < ParentNumber info
           /\ match Issues cs !! ParentNumber info with
              | Some parent => n ∈ Children parent
              | None => exists e, GetIssue client (IssuesRepo cs) (ParentNumber info) = Err e
              end).

Lemma parentsListed_new (issuesRepo : string) : parentsListed (NewCheckSummary issuesRepo).
Proof. intros n info H. cbn in H. by rewrite lookup_empty in H. Qed.

Lemma parentsListed_counted (cs : CheckSummary) (n : Z) (known : IssueInfo) :
  parentsListed cs -> Issues cs !! n = Some known ->
  parentsListed (setIssues cs (<[n := incRefCount known]> (Issues cs))).
Proof.
  intros Hcs Hn k info. cbn [setIssues Issues IssuesRepo]. intros Hk.
  assert (Hold : exists old, Issues cs !! k = Some old
                             /\ ParentNumber info = ParentNumber old
                             /\ Children info = Children old).
  { destruct (decide (k = n)) as [->|Hne].
    - rewrite lookup_insert_eq in Hk. injection Hk as <-. by exists known.
    - rewrite lookup_insert_ne in Hk by done. by exists info. }
  destruct Hold as (old & Hold & -> & ->).
  destruct (Hcs k old Hold) as [H1 H2]. split; [done|].
  destruct H2 as [H2|[Hpos H2]]; [by left|]. right. split; [done|].
  destruct (decide (ParentNumber old = n)) as [Heq|Hne].
  - rewrite Heq in *. rewrite lookup_insert_eq. rewrite Hn in H2. done.
  - rewrite lookup_insert_ne by done. done.
Qed.

(** A new issue stored without being made a child: it names no
    parent, or one that has no entry and cannot be fetched. *)
Lemma parentsListed_stored (cs : CheckSummary) (n : Z) (info : IssueInfo) (issue : Issue) :
  parentsListed cs -> Issues cs !! n = None ->
  GetIssue client (IssuesRepo cs) n = Ok issue ->
  Children info = [] ->
  (ParentNumber info = 0
   \/ 0 < ParentNumber info
      /\ Issues cs !! ParentNumber info = None
      /\ exists e, GetIssue client (IssuesRepo cs) (ParentNumber info) = Err e) ->
  parentsListed (storeIssue cs n info).
Proof.
  intros Hcs Hn Hissue Hchildren Hparent k entry.
  cbn [storeIssue setIssues Issues IssuesRepo]. intros Hk.
  destruct (decide (k = n)) as [->|Hkn].
  - rewrite lookup_insert_eq in Hk. injection Hk as <-. rewrite Hchildren.
    split; [done|]. destruct Hparent as [H|(Hpos & Hnone & e & He)]; [by left|].
    right. split; [done|]. rewrite lookup_insert_ne by congruence. rewrite Hnone. eauto.
  - rewrite lookup_insert_ne in Hk by done.
    destruct (Hcs k entry Hk) as [H1 [H2|[Hpos H2]]]; (split; [done|]); [by left|].
    right. split; [done|].
    destruct (decide (ParentNumber entry = n)) as [Heq|Hne].
    + rewrite Heq, Hn in H2. destruct H2 as [e He]. congruence.
    + rewrite lookup_insert_ne by done. done.
Qed.

(** A new issue stored and made a child of the entry of its parent. *)
Lemma parentsListed_adopted (cs : CheckSummary) (p n : Z) (parent info : IssueInfo)
    (issue : Issue) :
  parentsListed cs -> Issues cs !! p = Some parent -> Issues cs !! n = None ->
  GetIssue client (IssuesRepo cs) n = Ok issue ->
  Children info = [] -> ParentNumber info = p -> 0 < p ->
  parentsListed (storeIssue (setIssues cs (<[p := addChild parent n]> (Issues cs))) n info).
Proof.
  intros Hcs Hp Hn Hissue Hchildren Hparent Hpos k entry.
  cbn [storeIssue setIssues Issues IssuesRepo]. intros Hk.
  assert (Hnp : n <> p) by congruence.
  assert (Hlink : forall q old,
            Issues cs !! q = Some old ->
            ParentNumber old = 0
            \/ 0 < ParentNumber old
               /\ match <[n := info]> (<[p := addChild parent n]> (Issues cs))
                          !! ParentNumber old with
                  | Some parent' => q ∈ Children parent'
                  | None => exists e, GetIssue client (IssuesRepo cs) (ParentNumber old) = Err e
                  end).
  { intros q old Hq. destruct (Hcs q old Hq) as [_ [H2|[Hqpos H2]]]; [by left|].
    right. split; [done|].
    destruct (decide (ParentNumber old = n)) as [Heq|Hne].
    { rewrite Heq, Hn in H2. destruct H2 as [e He]. congruence. }
    rewrite lookup_insert_ne by done.
    destruct (decide (ParentNumber old = p)) as [Heq|Hne'].
    - rewrite Heq in *. rewrite lookup_insert_eq. rewrite Hp in H2.
      cbn [addChild Children]. apply elem_of_app. by left.
    - rewrite lookup_insert_ne by done. done. }
  destruct (decide (k = n)) as [->|Hkn].
  { rewrite lookup_insert_eq in Hk. injection Hk as <-. rewrite Hchildren, Hparent.
    split; [done|]. right. split; [done|].
    rewrite lookup_insert_ne by done. rewrite lookup_insert_eq.
    cbn [addChild Children]. apply elem_of_app. right. by apply list_elem_of_singleton. }
  rewrite lookup_insert_ne in Hk by done.
  destruct (decide (k = p)) as [->|Hkp].
  - rewrite lookup_insert_eq in Hk. injection Hk as <-. split; [done|].
    exact (Hlink p parent Hp).
  - rewrite lookup_insert_ne in Hk by done. split; [|by apply Hlink].
    by destruct (Hcs k entry Hk).
Qed.

(** A call that returns an error has left the summary as it was, and
    the issue could not be fetched. *)
Lemma ProcessIssue_failed (fuel : nat) (cs cs' : CheckSummary) (n : Z) (e : Go.error) :
  ProcessIssue fuel client cs n = Ret (cs', Some e) ->
  cs' = cs /\ Issues cs !! n = None
  /\ exists cause, GetIssue client (IssuesRepo cs) n = Err cause.
Proof.
  destruct fuel as [|fuel]; [discriminate|]. rewrite ProcessIssue_S. cbv zeta.
  destruct (Issues cs !! n); [discriminate|].
  destruct (GetIssue client (IssuesRepo cs) n) as [issue|cause].
  - destruct (GetParentIssueNumber client (IssuesRepo cs) n) as [p|]; [|discriminate].
    destruct (0 <? p); [|discriminate].
    unfold mbind, outcome_bind, Go.bind, appendChild.
    destruct (Issues cs !! p); [discriminate|].
    destruct (ProcessIssue fuel client cs p) as [[cs1 [e1|]]| | |]; try discriminate.
    destruct (Issues cs1 !! p); discriminate.
  - intros [= <- <-]. eauto.
Qed.

Lemma ProcessIssue_parentsListed (fuel : nat) (cs cs' : CheckSummary) (n : Z)
    (err : option Go.error) :
  ProcessIssue fuel client cs n = Ret (cs', err) ->
  parentsListed cs -> parentsListed cs'.
Proof.
  revert cs cs' n err. induction fuel as [|fuel IH]; intros cs cs' n err; [discriminate|].
  intros Hrun Hcs.
  pose proof (ascent_leaves_out client fuel cs) as Hout.
  unfold nextUp in Hout. specialize (fun cs1 p err => Hout cs1 n p err).
  revert Hrun. rewrite ProcessIssue_S. cbv zeta.
  destruct (Issues cs !! n) as [known|] eqn:Hn.
  { intros [= <- <-]. by apply parentsListed_counted. }
  destruct (GetIssue client (IssuesRepo cs) n) as [issue|e] eqn:Hissue;
    [|by intros [= <- <-]].
  pose proof (newIssueInfo_Children n issue) as Hnone.
  assert (Hparentless : ParentNumber (newIssueInfo n issue) = 0).
  { unfold newIssueInfo. by destruct (scanLabels _ _ _ _) as [[? ?] ?]. }
  destruct (GetParentIssueNumber client (IssuesRepo cs) n) as [p|e].
  2:{ intros [= <- <-]. eapply parentsListed_stored; eauto. }
  destruct (0 <? p) eqn:Hpos.
  2:{ intros [= <- <-]. eapply parentsListed_stored; eauto. }
  apply Z.ltb_lt in Hpos.
  destruct (Issues cs !! p) as [parent|] eqn:Hp.
  { unfold appendChild. rewrite Hp. unfold mbind, outcome_bind, Go.bind.
    intros [= <- <-]. eapply parentsListed_adopted; eauto. }
  unfold mbind, outcome_bind, Go.bind.
  pose proof (ProcessIssue_processed fuel client cs p) as Hdone.
  destruct (ProcessIssue fuel client cs p) as [[cs1 err1]| | |] eqn:Hup; try discriminate.
  specialize (Hout cs1 p err1 eq_refl Hup).
  specialize (IH cs cs1 p err1 Hup Hcs).
  pose proof (processed_repo _ _ _ _ Hdone) as Hrepo.
  destruct err1 as [e|].
  - apply ProcessIssue_failed in Hup as (-> & _ & cause & Hcause).
    intros [= <- <-]. eapply parentsListed_stored; eauto.
  - destruct (processed_entry _ _ _ _ Hdone eq_refl) as [parent Hparent].
    unfold appendChild. rewrite Hparent. intros [= <- <-].
    eapply parentsListed_adopted; eauto. by rewrite Hrepo.
Qed.

Lemma processLinked_parentsListed (fuel : nat) (linkedIssues : list Z)
    (summary summary' : CheckSummary) :
  processLinked fuel client linkedIssues summary = Ret summary' ->
  parentsListed summary -> parentsListed summary'.
Proof.
  revert summary. induction linkedIssues as [|n linkedIssues IH]; intros summary;
    cbn [processLinked].
  - by intros [= <-].
  - unfold mbind, outcome_bind, Go.bind.
    destruct (ProcessIssue fuel client summary n) as [[cs1 err]| | |] eqn:Hn;
      try discriminate.
    intros Hrun Hcs. apply (IH cs1 Hrun). by eapply ProcessIssue_parentsListed.
Qed.

Lemma processPRs_parentsListed (fuel : nat) (repo issuesRepoFlag : string)
    (prNumbers : list Z) (summary summary' : CheckSummary) :
  processPRs fuel client repo issuesRepoFlag prNumbers summary = Ret summary' ->
  parentsListed summary -> parentsListed summary'.
Proof.
  revert summary. induction prNumbers as [|prNum prNumbers IH]; intros summary;
    cbn [processPRs].
  - by intros [= <-].
  - destruct (GetPullRequest client repo prNum) as [pr|e]; [|apply IH].
    unfold mbind, outcome_bind, Go.bind.
    destruct (GetLinkedIssues (Body pr) issuesRepoFlag) as [linkedIssues| | |];
      try discriminate.
    destruct (0 <? length linkedIssues)%nat.
    + destruct (processLinked fuel client linkedIssues summary) as [cs1| | |] eqn:Hlinked;
        try discriminate.
      intros Hrun Hcs. apply (IH cs1 Hrun). by eapply processLinked_parentsListed.
    + cbv zeta. intros Hrun Hcs. apply (IH _ Hrun).
      by destruct (existsb _ (prLabels pr)).
Qed.

End ParentLinks.


(** ** [Display]: the lines for the issues *)

(** The lines that [Display] prints under the heading [Issues:], each
    recorded with the entry it is printed from (its text is made of the
    issues repository and the fields of that entry). [TopLine] is the
    line [displayIssue] prints for the entry it is called with,
    [ChildLine] the line [displayChildIssue] prints. *)
Module display.
Import github module_release.

Inductive issueLine : Type :=
| TopLine (info : IssueInfo)
| ChildLine (info : IssueInfo).

Definition lineInfo (line : issueLine) : IssueInfo :=
  match line with TopLine info | ChildLine info => info end.

Definition displayChildIssue (info : IssueInfo) : list issueLine := [ChildLine info].

(** [displayIssue(info, 0)]: the line of the entry, then the lines of
    those of its children that have an entry. *)
Definition displayIssue (cs : CheckSummary) (info : IssueInfo) : list issueLine :=
  TopLine info
  :: flat_map (fun childNum =>
                 match Issues cs !! childNum with
                 | Some childInfo => displayChildIssue childInfo
                 | None => []
                 end) (Children info).

(** The two loops over [cs.Issues]: "Display parent issues with
    children first", then "Display standalone issues". Each is a
    [range] of its own over the map, with an order of its own. *)
Definition displayIssues (ro1 ro2 : rangeOrder) (cs : CheckSummary) : list issueLine :=
  flat_map (fun entry =>
              if (ParentNumber (snd entry) =? 0) && (0 <? length (Children (snd entry)))%nat
              then displayIssue cs (snd entry) else [])
           (ro1 IssueInfo (Issues cs))
  ++ flat_map (fun entry =>
                 if (ParentNumber (snd entry) =? 0)
                    && (length (Children (snd entry)) =? 0)%nat
                 then displayIssue cs (snd entry) else [])
              (ro2 IssueInfo (Issues cs)).

End display.

Section IssuesShown.
Import github module_release cmd display.

Variables (ro1 ro2 : rangeOrder) (cs : CheckSummary).
Hypotheses (ro1_valid : validOrder ro1) (ro2_valid : validOrder ro2).

Lemma in_range (ro : rangeOrder) (entry : Z * IssueInfo) :
  validOrder ro ->
  In entry (ro IssueInfo (Issues cs)) <-> Issues cs !! fst entry = Some (snd entry).
Proof.
  intros Hro. rewrite <- list_elem_of_In, (Hro IssueInfo (Issues cs)).
  destruct entry as [k info]. apply elem_of_map_to_list.
Qed.

Lemma childless (info : IssueInfo) :
  (length (Children info) =? 0)%nat = negb (0 <? length (Children info))%nat.
Proof. by destruct (Children info). Qed.

Lemma TopLine_shown (info : IssueInfo) :
  TopLine info ∈ displayIssues ro1 ro2 cs
  <-> ParentNumber info = 0 /\ exists k, Issues cs !! k = Some info.
Proof.
  assert (Hloop : forall (ro : rangeOrder) (test : IssueInfo -> bool),
            validOrder ro ->
            In (TopLine info)
               (flat_map (fun entry => if test (snd entry) then displayIssue cs (snd entry)
                                       else []) (ro IssueInfo (Issues cs)))
            <-> test info = true /\ exists k, Issues cs !! k = Some info).
  { intros ro test Hro. rewrite in_flat_map. split.
    - intros ([k entry] & Hentry & Hin). apply (in_range ro _ Hro) in Hentry.
      cbn [fst snd] in *. destruct (test entry) eqn:Htest; [|done].
      destruct Hin as [[= ->]|Hin]; [eauto|].
      apply in_flat_map in Hin as (c & _ & Hin).
      destruct (Issues cs !! c); [|done]. by destruct Hin.
    - intros (Htest & k & Hk). exists (k, info).
      split; [by apply (in_range ro _ Hro)|]. cbn [snd]. rewrite Htest. by left. }
  unfold displayIssues. rewrite list_elem_of_In, in_app_iff.
  rewrite (Hloop ro1 (fun i => (ParentNumber i =? 0) && (0 <? length (Children i))%nat)
             ro1_valid).
  rewrite (Hloop ro2 (fun i => (ParentNumber i =? 0) && (length (Children i) =? 0)%nat)
             ro2_valid).
  rewrite childless, !andb_true_iff, Z.eqb_eq.
  destruct (0 <? length (Children info))%nat; cbn [negb]; split.
  - intros [[[H _] Hk]|[[_ H] _]]; [done|discriminate].
  - intros [H Hk]. by left.
  - intros [[[_ H] _]|[[H _] Hk]]; [discriminate|done].
  - intros [H Hk]. by right.
Qed.

Lemma ChildLine_shown (info : IssueInfo) :
  ChildLine info ∈ displayIssues ro1 ro2 cs
  <-> exists k parent c,
        Issues cs !! k = Some parent /\ ParentNumber parent = 0
        /\ c ∈ Children parent /\ Issues cs !! c = Some info.
Proof.
  assert (Hloop : forall (ro : rangeOrder) (test : IssueInfo -> bool),
            validOrder ro ->
            In (ChildLine info)
               (flat_map (fun entry => if test (snd entry) then displayIssue cs (snd entry)
                                       else []) (ro IssueInfo (Issues cs)))
            <-> exists k parent c,
                  Issues cs !! k = Some parent /\ test parent = true
                  /\ c ∈ Children parent /\ Issues cs !! c = Some info).
  { intros ro test Hro. rewrite in_flat_map. split.
    - intros ([k entry] & Hentry & Hin). apply (in_range ro _ Hro) in Hentry.
      cbn [fst snd] in *. destruct (test entry) eqn:Htest; [|done].
      destruct Hin as [[=]|Hin].
      apply in_flat_map in Hin as (c & Hc & Hin). apply list_elem_of_In in Hc.
      destruct (Issues cs !! c) as [child|] eqn:Hchild; [|done].
      destruct Hin as [[= ->]|[]]. by exists k, entry, c.
    - intros (k & parent & c & Hk & Htest & Hc & Hchild). exists (k, parent).
      split; [by apply (in_range ro _ Hro)|]. cbn [snd]. rewrite Htest. right.
      apply in_flat_map. exists c. split; [by apply list_elem_of_In|].
      rewrite Hchild. by left. }
  unfold displayIssues. rewrite list_elem_of_In, in_app_iff.
  rewrite (Hloop ro1 (fun i => (ParentNumber i =? 0) && (0 <? length (Children i))%nat)
             ro1_valid).
  rewrite (Hloop ro2 (fun i => (ParentNumber i =? 0) && (length (Children i) =? 0)%nat)
             ro2_valid).
  split.
  - intros [(k & parent & c & Hk & Htest & H)|(k & parent & c & Hk & Htest & H)];
      apply andb_true_iff in Htest as [Htest _]; apply Z.eqb_eq in Htest;
      by exists k, parent, c.
  - intros (k & parent & c & Hk & Htop & Hc & Hchild). left. exists k, parent, c.
    split; [done|]. split; [|done]. apply andb_true_iff. split; [by apply Z.eqb_eq|].
    destruct (Children parent); [by apply elem_of_nil in Hc|done].
Qed.

End IssuesShown.


Section IssuesShownOnce.
Import github module_release cmd display.

Variables (client : Client) (ro1 ro2 : rangeOrder) (cs : CheckSummary).
Hypotheses (ro1_valid : validOrder ro1) (ro2_valid : validOrder ro2).
Hypotheses (cs_wellFormed : wellFormed cs) (cs_parentsListed : parentsListed client cs).

Definition lineNumber (line : issueLine) : Z := Number (lineInfo line).

Lemma NoDup_flat_map {A B : Type} (g : A -> list B) (l : list A) :
  NoDup l ->
  (forall x, x ∈ l -> NoDup (g x)) ->
  (forall x1 x2 y, x1 ∈ l -> x2 ∈ l -> y ∈ g x1 -> y ∈ g x2 -> x1 = x2) ->
  NoDup (flat_map g l).
Proof.
  induction l as [|x l IH]; cbn [flat_map]; [constructor|].
  intros Hl Hg Hshared. apply NoDup_cons in Hl as [Hx Hl].
  apply NoDup_app. split; [apply Hg; by left|]. split.
  - intros y Hy Hy'. apply list_elem_of_In, in_flat_map in Hy' as (x' & Hx' & Hy').
    apply list_elem_of_In in Hx', Hy'.
    assert (x = x') as <-; [|done].
    apply (Hshared x x' y); [by left|by right|done|done].
  - apply IH; [done| |].
    + intros x' Hx'. apply Hg. by right.
    + intros x1 x2 y H1 H2. apply Hshared; by right.
Qed.

Lemma map_flat_map {A B C : Type} (f : B -> C) (g : A -> list B) (l : list A) :
  map f (flat_map g l) = flat_map (fun x => map f (g x)) l.
Proof. induction l as [|x l IH]; cbn [flat_map map]; [done|]. by rewrite map_app, IH. Qed.

(** The numbers of the lines [displayIssue] prints for an entry: its
    own, then those of its children. *)
Lemma displayIssue_numbers (k : Z) (info : IssueInfo) :
  Issues cs !! k = Some info ->
  map lineNumber (displayIssue cs info) = k :: Children info.
Proof.
  intros Hk. destruct (cs_wellFormed k info Hk) as (Hnumber & _ & _ & Hchildren).
  unfold displayIssue. cbn [map].
  change (lineNumber (TopLine info)) with (Number info). rewrite Hnumber. f_equal.
  induction (Children info) as [|c children IH]; cbn [flat_map]; [done|].
  destruct (Hchildren c) as (child & Hchild & _); [by left|]. rewrite Hchild.
  destruct (cs_wellFormed c child Hchild) as (Hc & _).
  cbn [displayChildIssue app map].
  change (lineNumber (ChildLine child)) with (Number child). rewrite Hc. f_equal.
  apply IH. intros c' Hc'. apply Hchildren. by right.
Qed.

(** Two entries without parent do not share a number in their lines. *)
Lemma shared_number (k1 k2 y : Z) (i1 i2 : IssueInfo) :
  Issues cs !! k1 = Some i1 -> Issues cs !! k2 = Some i2 ->
  ParentNumber i1 = 0 -> ParentNumber i2 = 0 ->
  y ∈ k1 :: Children i1 -> y ∈ k2 :: Children i2 -> k1 = k2.
Proof.
  intros H1 H2 Htop1 Htop2 Hy1 Hy2.
  destruct (cs_wellFormed k1 i1 H1) as (_ & _ & _ & Hc1).
  destruct (cs_wellFormed k2 i2 H2) as (_ & _ & _ & Hc2).
  destruct (cs_parentsListed k1 i1 H1) as [Hpos1 _].
  destruct (cs_parentsListed k2 i2 H2) as [Hpos2 _].
  apply elem_of_cons in Hy1 as [->|Hy1]; apply elem_of_cons in Hy2 as [Hy2|Hy2].
  - done.
  - destruct (Hc2 k1 Hy2) as (child & Hchild & Hparent).
    assert (0 < k2) by (apply Hpos2; intros Hnil; rewrite Hnil in Hy2;
                        by apply elem_of_nil in Hy2).
    assert (child = i1) by congruence. subst child. lia.
  - subst y. destruct (Hc1 k2 Hy1) as (child & Hchild & Hparent).
    assert (0 < k1) by (apply Hpos1; intros Hnil; rewrite Hnil in Hy1;
                        by apply elem_of_nil in Hy1).
    assert (child = i2) by congruence. subst child. lia.
  - destruct (Hc1 y Hy1) as (child & Hchild & Hparent).
    destruct (Hc2 y Hy2) as (child' & Hchild' & Hparent'). congruence.
Qed.

Lemma displayIssues_once : NoDup (map lineNumber (displayIssues ro1 ro2 cs)).
Proof.
  assert (Hentry : forall (ro : rangeOrder) (entry : Z * IssueInfo),
            validOrder ro -> entry ∈ ro IssueInfo (Issues cs) ->
            Issues cs !! fst entry = Some (snd entry)).
  { intros ro entry Hro Hin. by apply (in_range cs ro entry Hro), list_elem_of_In. }
  assert (Hnumbers : forall (ro : rangeOrder) (test : IssueInfo -> bool) entry y,
            validOrder ro -> entry ∈ ro IssueInfo (Issues cs) ->
            y ∈ map lineNumber (if test (snd entry) then displayIssue cs (snd entry) else []) ->
            test (snd entry) = true /\ y ∈ fst entry :: Children (snd entry)).
  { intros ro test entry y Hro Hin Hy. apply (Hentry ro entry Hro) in Hin.
    destruct (test (snd entry)); [|by apply elem_of_nil in Hy].
    by rewrite (displayIssue_numbers _ _ Hin) in Hy. }
  assert (Hsame : forall (x1 x2 : Z * IssueInfo),
            Issues cs !! fst x1 = Some (snd x1) -> Issues cs !! fst x2 = Some (snd x2) ->
            fst x1 = fst x2 -> x1 = x2).
  { intros [k1 i1] [k2 i2]. cbn [fst snd]. intros H1 H2 <-. congruence. }
  assert (Hloop : forall (ro : rangeOrder) (test : IssueInfo -> bool),
            validOrder ro ->
            (forall info, test info = true -> ParentNumber info = 0) ->
            NoDup (flat_map (fun entry =>
                     map lineNumber (if test (snd entry) then displayIssue cs (snd entry)
                                     else [])) (ro IssueInfo (Issues cs)))).
  { intros ro test Hro Htop. apply NoDup_flat_map.
    - rewrite (Hro IssueInfo (Issues cs)). apply NoDup_map_to_list.
    - intros entry Hin. pose proof (Hentry ro entry Hro Hin) as Hk.
      destruct (test (snd entry)); [|constructor].
      rewrite (displayIssue_numbers _ _ Hk).
      destruct (cs_wellFormed _ _ Hk) as (_ & Hnodup & Hself & _).
      by apply NoDup_cons.
    - intros x1 x2 y Hx1 Hx2 Hy1 Hy2.
      apply (Hnumbers ro test x1 y Hro Hx1) in Hy1 as [Ht1 Hy1].
      apply (Hnumbers ro test x2 y Hro Hx2) in Hy2 as [Ht2 Hy2].
      apply (Hentry ro _ Hro) in Hx1, Hx2. apply Hsame; [done|done|].
      apply (shared_number _ _ y (snd x1) (snd x2)); auto. }
  unfold displayIssues. rewrite map_app, !map_flat_map. apply NoDup_app.
  split; [|split].
  - apply (Hloop ro1 (fun i => (ParentNumber i =? 0) && (0 <? length (Children i))%nat)
             ro1_valid). intros info H.
    apply andb_true_iff in H as [H _]. by apply Z.eqb_eq.
  - intros y Hy1 Hy2.
    apply list_elem_of_In, in_flat_map in Hy1 as (x1 & Hx1 & Hy1).
    apply list_elem_of_In, in_flat_map in Hy2 as (x2 & Hx2 & Hy2).
    apply list_elem_of_In in Hx1, Hx2, Hy1, Hy2.
    apply (Hnumbers ro1 (fun i => (ParentNumber i =? 0) && (0 <? length (Children i))%nat)
             x1 y ro1_valid Hx1) in Hy1 as [Ht1 Hy1].
    apply (Hnumbers ro2 (fun i => (ParentNumber i =? 0) && (length (Children i) =? 0)%nat)
             x2 y ro2_valid Hx2) in Hy2 as [Ht2 Hy2].
    apply (Hentry ro1 _ ro1_valid) in Hx1. apply (Hentry ro2 _ ro2_valid) in Hx2.
    cbv beta in Ht1, Ht2.
    apply andb_true_iff in Ht1 as [Htop1 Hsome]. apply andb_true_iff in Ht2 as [Htop2 Hnone].
    apply Z.eqb_eq in Htop1, Htop2.
    assert (x1 = x2) as <-.
    { apply Hsame; [done|done|].
      by apply (shared_number _ _ y (snd x1) (snd x2)). }
    rewrite childless, Hsome in Hnone. discriminate.
  - apply (Hloop ro2 (fun i => (ParentNumber i =? 0) && (length (Children i) =? 0)%nat)
             ro2_valid). intros info H.
    apply andb_true_iff in H as [H _]. by apply Z.eqb_eq.
Qed.

(** The line of an entry that names a parent. *)
Lemma ChildLine_of_entry (n : Z) (info : IssueInfo) :
  Issues cs !! n = Some info ->
  ChildLine info ∈ displayIssues ro1 ro2 cs
  <-> 0 < ParentNumber info
      /\ exists parent,
           Issues cs !! ParentNumber info = Some parent /\ ParentNumber parent = 0.
Proof.
  intros Hn. rewrite (ChildLine_shown ro1 ro2 cs ro1_valid ro2_valid). split.
  - intros (k & parent & c & Hk & Htop & Hc & Hchild).
    destruct (cs_wellFormed k parent Hk) as (_ & _ & _ & Hchildren).
    destruct (Hchildren c Hc) as (child & Hchild' & Hparent).
    assert (child = info) by congruence. subst child.
    destruct (cs_parentsListed k parent Hk) as [Hpos _].
    rewrite Hparent. split; [|by exists parent].
    apply Hpos. intros Hnil. rewrite Hnil in Hc. by apply elem_of_nil in Hc.
  - intros (Hpos & parent & Hparent & Htop).
    exists (ParentNumber info), parent, n. split; [done|]. split; [done|]. split; [|done].
    destruct (cs_parentsListed n info Hn) as [_ [Hzero|[_ Hlisted]]]; [lia|].
    by rewrite Hparent in Hlisted.
Qed.

End IssuesShownOnce.

Section IssuesShownRun.
Import github module_release cmd display.

Lemma findOrphans_issues (repo : string) (commits : list string)
    (commitsInPRs : gmap string bool) (summary : CheckSummary) :
  Issues (findOrphans repo commits commitsInPRs summary) = Issues summary
  /\ IssuesRepo (findOrphans repo commits commitsInPRs summary) = IssuesRepo summary.
Proof.
  revert summary. induction commits as [|sha commits IH]; intros summary;
    cbn [findOrphans]; [done|].
  destruct (negb _); [|apply IH].
  destruct (IH (addOrphan summary (commitURL repo sha))) as [-> ->]. done.
Qed.

Lemma runCheck_shape (fuel : nat) (ro : rangeOrder) (env : Env)
    (repoFlag issuesRepoFlag : string) (summary : CheckSummary)
    (commitsInPRs : gmap string bool) (ready : bool) :
  runCheck fuel ro env repoFlag issuesRepoFlag = Ret (Ok (Reported summary commitsInPRs ready)) ->
  exists client,
    NewClient env = Ok client /\ wellFormed summary /\ parentsListed client summary.
Proof.
  intros Hrun.
  apply runCheck_scanned in Hrun
    as (client & repo & latestRelease & commits & prNumbers & processed
        & Hclient & _ & Hprs & ->).
  exists client. split; [done|].
  pose proof (processPRs_wellFormed client _ _ _ _ _ _ Hprs (wellFormed_new _)) as Hw.
  pose proof (processPRs_parentsListed client _ _ _ _ _ _ Hprs (parentsListed_new client _))
    as Hp.
  destruct (findOrphans_issues repo commits commitsInPRs processed) as [Hissues Hrepo].
  split.
  - intros n info. rewrite Hissues. apply Hw.
  - intros n info. rewrite Hissues, Hrepo. apply Hp.
Qed.

(** X19. The lines a run of [check] prints for the issues of its
    summary, whatever the orders in which the two loops of [Display]
    range over the map. No issue has two lines. An entry has a line of
    its own, with its children below it, exactly when its parent number
    is 0. An entry with a parent number has a line exactly when the
    parent has an entry whose own parent number is 0, and the line is
    then a child line. So an issue whose parent could not be fetched,
    and an issue whose parent has a parent, is in the summary (and
    counts for the verdict) without being printed. *)
Theorem issues_printed_once (fuel : nat) (ro ro1 ro2 : rangeOrder) (env : Env)
    (repoFlag issuesRepoFlag : string) (summary : CheckSummary)
    (commitsInPRs : gmap string bool) (ready : bool) :
  validOrder ro1 -> validOrder ro2 ->
  runCheck fuel ro env repoFlag issuesRepoFlag = Ret (Ok (Reported summary commitsInPRs ready)) ->
  NoDup (map lineNumber (displayIssues ro1 ro2 summary))
  /\ (forall line, line ∈ displayIssues ro1 ro2 summary ->
        Issues summary !! lineNumber line = Some (lineInfo line))
  /\ forall n info,
       Issues summary !! n = Some info ->
       (TopLine info ∈ displayIssues ro1 ro2 summary <-> ParentNumber info = 0)
       /\ (ChildLine info ∈ displayIssues ro1 ro2 summary
           <-> 0 < ParentNumber info
               /\ exists parent,
                    Issues summary !! ParentNumber info = Some parent
                    /\ ParentNumber parent = 0).
Proof.
  intros Hro1 Hro2 Hrun.
  apply runCheck_shape in Hrun as (client & _ & Hw & Hp).
  split; [by apply (displayIssues_once client)|]. split.
  - intros [info|info] Hline; unfold lineNumber; cbn [lineInfo].
    + apply (TopLine_shown ro1 ro2 summary Hro1 Hro2) in Hline as (_ & k & Hk).
      destruct (Hw k info Hk) as (-> & _). done.
    + apply (ChildLine_shown ro1 ro2 summary Hro1 Hro2) in Hline
        as (_ & _ & c & _ & _ & _ & Hc).
      destruct (Hw c info Hc) as (-> & _). done.
  - intros n info Hn. split.
    + rewrite (TopLine_shown ro1 ro2 summary Hro1 Hro2). split; [by intros [? _]|eauto].
    + by apply (ChildLine_of_entry client ro1 ro2 summary Hro1 Hro2 Hw Hp n).
Qed.

(** Pull request 12 links issue 42, whose parent is 41, whose parent is
    40; 40 and 41 are verified, 42 is not. *)
Definition deepClient : Client :=
  {| GetRepository := GetRepository checkClient;
     GetLatestCommit := GetLatestCommit checkClient;
     GetCommitSHA := GetCommitSHA checkClient;
     CompareCommits := CompareCommits checkClient;
     GetMergeBase := GetMergeBase checkClient;
     ListReleases := ListReleases checkClient;
     ViewRelease := ViewRelease checkClient;
     Exec := Exec checkClient;
     GetPullRequestsForCommit := GetPullRequestsForCommit checkClient;
     GetPullRequest := GetPullRequest checkClient;
     GetIssue := fun _ number =>
       Ok {| issueNumber := number; Title := "An issue"; State := "open";
             github.Labels := if number =? 42 then ["testing"] else ["verified"] |};
     queryParent := fun _ _ number =>
       Ok (if number =? 42 then Some 41 else if number =? 41 then Some 40 else None) |}.

Definition deepEnv : Env :=
  {| NewClient := Ok deepClient; GetCurrentRepository := Ok "NethServer/ns8-mail" |}.

Definition leaf : IssueInfo :=
  {| Number := 42; Status := EmojiOpenIssue; Progress := EmojiTesting;
     Labels := ""; RefCount := 1; ParentNumber := 41; Children := [] |}.

Lemma deepEnv_run :
  exists summary commitsInPRs,
    runCheck 4 keyOrder deepEnv "" "NethServer/dev"
    = Ret (Ok (Reported summary commitsInPRs false))
    /\ Issues summary !! 42 = Some leaf
    /\ (exists middle, Issues summary !! 41 = Some middle /\ ParentNumber middle = 40).
Proof.
  eexists _, _. split; [vm_compute; reflexivity|]. split; [reflexivity|].
  eexists. split; reflexivity.
Qed.

Lemma issues_printed_once_witness :
  validOrder keyOrder
  /\ exists summary commitsInPRs,
       runCheck 4 keyOrder deepEnv "" "NethServer/dev"
       = Ret (Ok (Reported summary commitsInPRs false))
       /\ Issues summary !! 42 = Some leaf
       /\ (TopLine leaf ∉ displayIssues keyOrder keyOrder summary)
       /\ (ChildLine leaf ∉ displayIssues keyOrder keyOrder summary).
Proof.
  split; [exact keyOrder_valid|].
  destruct deepEnv_run as (summary & commitsInPRs & Hrun & Hleaf & middle & Hmiddle & Hup).
  destruct (issues_printed_once 4 keyOrder keyOrder keyOrder deepEnv "" "NethServer/dev"
              summary commitsInPRs false keyOrder_valid keyOrder_valid Hrun)
    as (_ & _ & Hlines).
  destruct (Hlines 42 leaf Hleaf) as [Htop Hchild].
  exists summary, commitsInPRs. split; [exact Hrun|]. split; [exact Hleaf|]. split.
  - intros H. apply Htop in H. discriminate H.
  - intros H. apply Hchild in H as (_ & parent & Hparent & Hzero).
    change (ParentNumber leaf) with 41 in Hparent. rewrite Hmiddle in Hparent.
    injection Hparent as <-. rewrite Hup in Hzero. discriminate Hzero.
Defined.

End IssuesShownRun.


(** ** The words a pattern matches *)

Section Language.
Import regexp.

(** Patterns made of literals, classes, groups, alternation and
    repetition: no anchors, no class that steps over a whole rune. *)
Fixpoint plain (r : node) : bool :=
  match r with
  | Empty | Lit _ | Class _ => true
  | AnyNotNL | NegClass _ | BeginText | EndText => false
  | Cat a b | Alt a b => plain a && plain b
  | Star a | Plus a | Quest a | Capture _ a => plain a
  end.

(** The words of such a pattern. *)
Fixpoint lang (r : node) (w : list ascii) : Prop :=
  match r with
  | Empty => w = []
  | Lit c => w = [c]
  | Class ranges => exists c, w = [c] /\ inClass ranges c = true
  | Cat a b => exists w1 w2, w = w1 ++ w2 /\ lang a w1 /\ lang b w2
  | Alt a b => lang a w \/ lang b w
  | Star a => exists ws, w = concat ws /\ Forall (lang a) ws
  | Plus a => exists w1 ws, w = w1 ++ concat ws /\ lang a w1 /\ Forall (lang a) ws
  | Quest a => lang a w \/ w = []
  | Capture _ a => lang a w
  | AnyNotNL | NegClass _ | BeginText | EndText => False
  end.

(** [u] is reached from [t] by reading [w]. *)
Definition reads (t u : thread) (w : list ascii) : Prop :=
  rest t = w ++ rest u /\ pos u = (pos t + length w)%nat.

Lemma reads_nil (t : thread) : reads t t [].
Proof. split; [done|]. cbn [length]. lia. Qed.

Lemma reads_app (t t' u : thread) (w1 w2 : list ascii) :
  reads t t' w1 -> reads t' u w2 -> reads t u (w1 ++ w2).
Proof.
  intros [H1 H2] [H3 H4]. split.
  - by rewrite H1, H3, app_assoc.
  - rewrite length_app. lia.
Qed.

Lemma starFrom_self (step : thread -> list thread) (n : nat) (t : thread) :
  In t (starFrom step n t).
Proof.
  destruct n as [|n]; [by left|]. rewrite starFrom_S. apply in_app_iff. right. by left.
Qed.

Lemma starFrom_sound (step : thread -> list thread) (P : list ascii -> Prop) :
  (forall t u, In u (step t) -> exists w, reads t u w /\ P w) ->
  forall n t u,
    In u (starFrom step n t) -> exists ws, reads t u (concat ws) /\ Forall P ws.
Proof.
  intros Hstep. induction n as [|n IH]; intros t u.
  - intros [<-|[]]. exists []. split; [apply reads_nil|constructor].
  - rewrite starFrom_S, in_app_iff. intros [Hin|[<-|[]]].
    2:{ exists []. split; [apply reads_nil|constructor]. }
    apply in_flat_map in Hin as (t' & Ht' & Hin).
    destruct (pos t <? pos t')%nat; [|done].
    apply Hstep in Ht' as (w & Hw & HP). apply IH in Hin as (ws & Hws & HPs).
    exists (w :: ws). split; [by apply (reads_app t t' u)|by constructor].
Qed.

Lemma starFrom_complete (step : thread -> list thread) (P : list ascii -> Prop) :
  (forall w, P w -> forall t s, rest t = w ++ s ->
     exists u, In u (step t) /\ pos u = (pos t + length w)%nat /\ rest u = s) ->
  forall ws, Forall P ws ->
  forall n t s,
    rest t = concat ws ++ s -> (length (concat ws) <= n)%nat ->
    exists u, In u (starFrom step n t)
              /\ pos u = (pos t + length (concat ws))%nat /\ rest u = s.
Proof.
  intros Hstep ws Hws. induction Hws as [|w ws Hw Hws IH]; intros n t s Hrest Hn.
  - exists t. split; [apply starFrom_self|]. cbn [concat length]. split; [lia|done].
  - cbn [concat] in *. rewrite length_app in *.
    destruct w as [|c w].
    { cbn [app length] in *. by apply IH. }
    destruct n as [|n]; [cbn [length] in Hn; lia|].
    rewrite <- app_assoc in Hrest.
    destruct (Hstep (c :: w) Hw t _ Hrest) as (t' & Ht' & Hpos & Hrest').
    destruct (IH n t' s Hrest') as (u & Hu & Hpos' & Hrest''); [cbn [length] in Hn; lia|].
    exists u. split; [|split; [lia|done]].
    rewrite starFrom_S. apply in_app_iff. left. apply in_flat_map.
    exists t'. split; [done|].
    replace (pos t <? pos t')%nat with true; [done|].
    symmetry. apply Nat.ltb_lt. cbn [length] in Hpos. lia.
Qed.

(** Every thread the matcher gives for a plain pattern has read a word
    of the pattern. *)
Lemma run_sound (r : node) :
  plain r = true ->
  forall t u, In u (run r t) -> exists w, reads t u w /\ lang r w.
Proof.
  induction r as [| c | | ranges | ranges | | | a IHa b IHb | a IHa b IHb
                 | a IHa | a IHa | a IHa | i a IHa];
    cbn [plain]; intros Hplain t u; try discriminate.
  - intros [<-|[]]. exists []. split; [apply reads_nil|done].
  - rewrite run_Lit. destruct (rest t) as [|c' s] eqn:Hrest; [done|].
    destruct (Ascii.eqb_spec c c') as [<-|]; [|done]. intros [<-|[]].
    exists [c]. split; [|done]. split; [by rewrite rest_advance, Hrest|apply pos_advance].
  - rewrite run_Class. destruct (rest t) as [|c' s] eqn:Hrest; [done|].
    destruct (inClass ranges c') eqn:Hc; [|done]. intros [<-|[]].
    exists [c']. split; [|by exists c'].
    split; [by rewrite rest_advance, Hrest|apply pos_advance].
  - apply andb_true_iff in Hplain as [Ha Hb]. rewrite run_Cat. intros Hin.
    apply in_flat_map in Hin as (t' & Ht' & Hu).
    apply (IHa Ha) in Ht' as (w1 & H1 & Hw1). apply (IHb Hb) in Hu as (w2 & H2 & Hw2).
    exists (w1 ++ w2). split; [by apply (reads_app t t' u)|]. by exists w1, w2.
  - apply andb_true_iff in Hplain as [Ha Hb]. cbn [run]. rewrite in_app_iff.
    intros [Hin|Hin].
    + apply (IHa Ha) in Hin as (w & H & Hw). exists w. split; [done|by left].
    + apply (IHb Hb) in Hin as (w & H & Hw). exists w. split; [done|by right].
  - rewrite run_Star. intros Hin.
    apply (starFrom_sound (run a) (lang a) (IHa Hplain)) in Hin as (ws & H & Hws).
    exists (concat ws). split; [done|by exists ws].
  - rewrite run_Plus. intros Hin. apply in_flat_map in Hin as (t' & Ht' & Hu).
    apply (IHa Hplain) in Ht' as (w1 & H1 & Hw1).
    apply (starFrom_sound (run a) (lang a) (IHa Hplain)) in Hu as (ws & H & Hws).
    exists (w1 ++ concat ws). split; [by apply (reads_app t t' u)|by exists w1, ws].
  - cbn [run]. rewrite in_app_iff. intros [Hin|[<-|[]]].
    + apply (IHa Hplain) in Hin as (w & H & Hw). exists w. split; [done|by left].
    + exists []. split; [apply reads_nil|by right].
  - rewrite run_Capture. intros Hin. apply in_map_iff in Hin as (u' & <- & Hin).
    apply (IHa Hplain) in Hin as (w & [H1 H2] & Hw). exists w. split; [|done].
    split; [by rewrite rest_setCap|by rewrite pos_setCap].
Qed.

(** Every word of a plain pattern is read by one of the threads the
    matcher gives. *)
Lemma run_complete (r : node) :
  plain r = true ->
  forall w, lang r w ->
  forall t s, rest t = w ++ s ->
    exists u, In u (run r t) /\ pos u = (pos t + length w)%nat /\ rest u = s.
Proof.
  induction r as [| c | | ranges | ranges | | | a IHa b IHb | a IHa b IHb
                 | a IHa | a IHa | a IHa | i a IHa];
    cbn [plain lang]; intros Hplain w Hw t s Hrest; try discriminate; try done.
  - subst w. exists t. split; [by left|]. cbn [length]. split; [lia|done].
  - subst w. rewrite run_Lit, Hrest. cbn [app]. rewrite Ascii.eqb_refl.
    exists (advance 1 t). split; [by left|]. split; [apply pos_advance|].
    by rewrite rest_advance, Hrest.
  - destruct Hw as (c & -> & Hc). rewrite run_Class, Hrest. cbn [app]. rewrite Hc.
    exists (advance 1 t). split; [by left|]. split; [apply pos_advance|].
    by rewrite rest_advance, Hrest.
  - apply andb_true_iff in Hplain as [Ha Hb]. destruct Hw as (w1 & w2 & -> & Hw1 & Hw2).
    rewrite <- app_assoc in Hrest.
    destruct (IHa Ha w1 Hw1 t _ Hrest) as (t' & Ht' & Hpos & Hrest').
    destruct (IHb Hb w2 Hw2 t' s Hrest') as (u & Hu & Hpos' & Hrest'').
    exists u. split; [|split; [rewrite length_app; lia|done]].
    rewrite run_Cat. apply in_flat_map. by exists t'.
  - apply andb_true_iff in Hplain as [Ha Hb]. destruct Hw as [Hw|Hw].
    + destruct (IHa Ha w Hw t s Hrest) as (u & Hu & H). exists u. split; [|done].
      cbn [run]. apply in_app_iff. by left.
    + destruct (IHb Hb w Hw t s Hrest) as (u & Hu & H). exists u. split; [|done].
      cbn [run]. apply in_app_iff. by right.
  - destruct Hw as (ws & -> & Hws). rewrite run_Star.
    apply (starFrom_complete (run a) (lang a) (IHa Hplain) ws Hws); [done|].
    rewrite Hrest, length_app. lia.
  - destruct Hw as (w1 & ws & -> & Hw1 & Hws). rewrite <- app_assoc in Hrest.
    destruct (IHa Hplain w1 Hw1 t _ Hrest) as (t' & Ht' & Hpos & Hrest').
    destruct (starFrom_complete (run a) (lang a) (IHa Hplain) ws Hws
                (length (rest t')) t' s Hrest') as (u & Hu & Hpos' & Hrest'').
    { rewrite Hrest', length_app. lia. }
    exists u. split; [|split; [rewrite length_app; lia|done]].
    rewrite run_Plus. apply in_flat_map. by exists t'.
  - destruct Hw as [Hw| ->].
    + destruct (IHa Hplain w Hw t s Hrest) as (u & Hu & H). exists u. split; [|done].
      cbn [run]. apply in_app_iff. by left.
    + exists t. split; [cbn [run]; apply in_app_iff; right; by left|].
      cbn [length]. split; [lia|done].
  - destruct (IHa Hplain w Hw t s Hrest) as (u & Hu & Hpos & Hrest').
    exists (setCap i (pos t) (pos u) u).
    split; [rewrite run_Capture; apply in_map_iff; by exists u|].
    by rewrite pos_setCap, rest_setCap.
Qed.

Lemma run_catOf_app (l1 l2 : list node) (t : thread) :
  run (catOf (l1 ++ l2)) t = flat_map (run (catOf l2)) (run (catOf l1) t).
Proof.
  revert t. induction l1 as [|r l1 IH]; intros t.
  - cbn [app catOf run flat_map]. by rewrite app_nil_r.
  - destruct l1 as [|r' l1].
    + cbn [app]. destruct l2 as [|r2 l2].
      * cbn [catOf run]. induction (run r t) as [|x l IHl]; [done|].
        cbn [flat_map app]. by rewrite <- IHl.
      * change (catOf (r :: r2 :: l2)) with (Cat r (catOf (r2 :: l2))).
        by rewrite run_Cat.
    + change (catOf ((r :: r' :: l1) ++ l2)) with (Cat r (catOf ((r' :: l1) ++ l2))).
      change (catOf (r :: r' :: l1)) with (Cat r (catOf (r' :: l1))).
      rewrite !run_Cat, flat_map_flat_map.
      apply flat_map_ext. intros t'. apply IH.
Qed.

End Language.


(** ** [IsSemver]: the versions it accepts *)

Section AnchoredMatch.
Import regexp.

(** A pattern [^ parts $] matches a string exactly when the whole
    string is a word of [parts]. *)
Lemma MatchString_anchored (parts : list node) (n : nat) (s : string) :
  parts <> [] ->
  plain (catOf parts) = true ->
  MatchString {| prog := catOf (BeginText :: parts ++ [EndText]); NumSubexp := n |} s = true
  <-> lang (catOf parts) (list_ascii_of_string s).
Proof.
  intros Hparts Hplain.
  set (re := {| prog := catOf (BeginText :: parts ++ [EndText]); NumSubexp := n |}).
  assert (Hrun : forall t,
            run (prog re) t
            = if (pos t =? 0)%nat
              then flat_map (run EndText) (run (catOf parts) t) else []).
  { intros t. cbn [prog re].
    destruct parts as [|r parts']; [done|].
    change (catOf (BeginText :: (r :: parts') ++ [EndText]))
      with (Cat BeginText (catOf ((r :: parts') ++ [EndText]))).
    rewrite run_Cat.
    change (run BeginText t) with (if (pos t =? 0)%nat then [t] else []).
    destruct (pos t =? 0)%nat; [|done]. cbn [flat_map]. rewrite app_nil_r.
    apply run_catOf_app. }
  rewrite MatchString_start.
  2:{ intros p Hp. rewrite matchAt_eq, Hrun.
      change (pos (startThread re (list_ascii_of_string s) p)) with p.
      by replace (p =? 0)%nat with false by (symmetry; apply Nat.eqb_neq; lia). }
  rewrite Hrun. change (pos (startThread re _ 0) =? 0)%nat with true. cbv iota.
  set (input := list_ascii_of_string s).
  set (t := startThread re input 0).
  assert (Hrest : rest t = input) by (subst t; cbn [rest startThread]; by rewrite drop_0).
  split.
  - intros Hmatch.
    destruct (flat_map _ _) as [|v l] eqn:Hflat; [discriminate|].
    assert (Hin : In v (flat_map (run EndText) (run (catOf parts) t)))
      by (rewrite Hflat; by left).
    apply in_flat_map in Hin as (u & Hu & Hv).
    apply (run_sound _ Hplain) in Hu as (w & [Hw _] & Hlang).
    cbn [run] in Hv. destruct (rest u); [|done].
    rewrite app_nil_r, Hrest in Hw. by rewrite Hw.
  - intros Hlang.
    destruct (run_complete _ Hplain input Hlang t []) as (u & Hu & _ & Hend).
    { by rewrite app_nil_r. }
    assert (Hin : In u (flat_map (run EndText) (run (catOf parts) t))).
    { apply in_flat_map. exists u. split; [done|]. cbn [run]. rewrite Hend. by left. }
    by destruct (flat_map _ _).
Qed.

End AnchoredMatch.

Section SemverPattern.
Import regexp github module_release.

Definition positiveRanges : list (ascii * ascii) := [("1"%char, "9"%char)].

(** Letters and the hyphen: the non-digits of an identifier. *)
Definition letterRanges : list (ascii * ascii) :=
  [("a"%char, "z"%char); ("A"%char, "Z"%char); ("-"%char, "-"%char)].

Definition identRanges : list (ascii * ascii) := ("0"%char, "9"%char) :: letterRanges.

(** [0|[1-9][0-9]*] *)
Definition numeralNode : node :=
  Alt (Lit "0") (Cat (Class positiveRanges) (Star (Class digitRanges))).

(** [0|[1-9][0-9]*|[0-9]*[a-zA-Z-][0-9a-zA-Z-]*] *)
Definition identNode : node :=
  Alt (Lit "0")
    (Alt (Cat (Class positiveRanges) (Star (Class digitRanges)))
         (Cat (Star (Class digitRanges))
              (Cat (Class letterRanges) (Star (Class identRanges))))).

Definition prereleaseNode : node :=
  Capture 4
    (Cat (Lit "-")
       (Capture 5
          (Cat (Capture 6 identNode)
               (Star (Capture 7 (Cat (Lit ".") (Capture 8 identNode))))))).

Definition buildNode : node :=
  Capture 9
    (Cat (Lit "+")
       (Capture 10
          (Cat (Plus (Class identRanges))
               (Star (Capture 11 (Cat (Lit ".") (Plus (Class identRanges)))))))).

Definition semverParts : list node :=
  [ Capture 1 numeralNode; Lit "."; Capture 2 numeralNode; Lit ".";
    Capture 3 numeralNode; Quest prereleaseNode; Quest buildNode ].

Lemma compile_semver :
  semverRegex
  = Ret {| prog := catOf (BeginText :: semverParts ++ [EndText]); NumSubexp := 11 |}.
Proof. vm_compute. reflexivity. Qed.

End SemverPattern.


Section SemverWords.
Import regexp github module_release.

Lemma lang_star_class (ranges : list (ascii * ascii)) (w : list ascii) :
  lang (Star (Class ranges)) w <-> forallb (inClass ranges) w = true.
Proof.
  cbn [lang]. split.
  - intros (ws & -> & Hws). induction Hws as [|x ws (c & -> & Hc) _ IH]; [done|].
    cbn [concat app forallb]. by rewrite Hc, IH.
  - intros Hw. exists (map (fun c => [c]) w). split.
    + induction w as [|c w IH]; [done|]. cbn [map concat app].
      cbn [forallb] in Hw. apply andb_true_iff in Hw as [_ Hw]. by rewrite <- IH.
    + induction w as [|c w IH]; [constructor|].
      cbn [forallb] in Hw. apply andb_true_iff in Hw as [Hc Hw].
      constructor; [by exists c|by apply IH].
Qed.

Lemma lang_plus_class (ranges : list (ascii * ascii)) (w : list ascii) :
  lang (Plus (Class ranges)) w <-> w <> [] /\ forallb (inClass ranges) w = true.
Proof.
  pose proof (lang_star_class ranges) as Hstar. cbn [lang] in *. split.
  - intros (w1 & ws & -> & (c & -> & Hc) & Hws). split; [done|].
    cbn [app forallb]. rewrite Hc. apply Hstar. by exists ws.
  - intros [Hne Hw]. destruct w as [|c w]; [done|].
    cbn [forallb] in Hw. apply andb_true_iff in Hw as [Hc Hw].
    apply Hstar in Hw as (ws & -> & Hws). exists [c], ws. split; [done|].
    split; [by exists c|done].
Qed.

(** A first identifier and further ones, each after a dot. *)
Definition dottedWord (P : list ascii -> bool) (w : list ascii) : Prop :=
  exists id ids,
    w = id ++ concat (map (cons "."%char) ids)
    /\ P id = true /\ Forall (fun x => P x = true) ids.

Lemma lang_dotted (first next : node) (i : nat) (P : list ascii -> bool) (w : list ascii) :
  (forall x, lang first x <-> P x = true) ->
  (forall x, lang next x <-> P x = true) ->
  lang (Cat first (Star (Capture i (Cat (Lit ".") next)))) w <-> dottedWord P w.
Proof.
  intros Hfirst Hnext. cbn [lang]. split.
  - intros (id & tail & -> & Hid & ws & -> & Hws).
    assert (Hids : exists ids, ws = map (cons "."%char) ids
                               /\ Forall (fun x => P x = true) ids).
    { induction Hws as [|x ws (d & y & -> & -> & Hy) _ (ids & -> & Hids)].
      - by exists [].
      - exists (y :: ids). split; [done|]. constructor; [by apply Hnext|done]. }
    destruct Hids as (ids & -> & Hids). exists id, ids.
    split; [done|]. split; [by apply Hfirst|done].
  - intros (id & ids & -> & Hid & Hids). exists id, (concat (map (cons "."%char) ids)).
    split; [done|]. split; [by apply Hfirst|].
    exists (map (cons "."%char) ids). split; [done|].
    induction Hids as [|y ids Hy _ IH]; [constructor|].
    constructor; [|done]. exists ["."%char], y. split; [done|]. split; [done|by apply Hnext].
Qed.

(** Numeric identifiers: [0], or digits that do not start with [0]. *)
Definition numericId (w : list ascii) : bool :=
  match w with
  | [] => false
  | [c] => inClass digitRanges c
  | c :: ds => inClass positiveRanges c && forallb (inClass digitRanges) ds
  end.

(** Alphanumeric identifiers: letters, digits and hyphens, with at
    least one that is not a digit. *)
Definition alphanumericId (w : list ascii) : bool :=
  forallb (inClass identRanges) w && existsb (inClass letterRanges) w.

Definition prereleaseId (w : list ascii) : bool := numericId w || alphanumericId w.

Definition buildId (w : list ascii) : bool :=
  match w with
  | [] => false
  | _ :: _ => forallb (inClass identRanges) w
  end.

Lemma digit_cases (c : ascii) :
  inClass digitRanges c = true <-> c = "0"%char \/ inClass positiveRanges c = true.
Proof.
  destruct c as [[|] [|] [|] [|] [|] [|] [|] [|]]; vm_compute;
    split; try discriminate; auto; intros [H|H]; discriminate H.
Qed.

Lemma ident_cases (c : ascii) :
  inClass identRanges c = inClass digitRanges c || inClass letterRanges c.
Proof. unfold identRanges, digitRanges, inClass. cbn [existsb]. by rewrite orb_false_r. Qed.

Lemma letter_not_digit (c : ascii) :
  inClass letterRanges c = true -> inClass digitRanges c = false.
Proof.
  destruct c as [[|] [|] [|] [|] [|] [|] [|] [|]]; vm_compute; try discriminate; done.
Qed.

Lemma lang_numeral (w : list ascii) : lang numeralNode w <-> numericId w = true.
Proof.
  unfold numeralNode. cbn [lang].
  setoid_rewrite (lang_star_class digitRanges). split.
  - intros [->|(w1 & ds & -> & (c & -> & Hc) & Hds)]; [done|].
    cbn [app numericId]. destruct ds as [|d ds]; [apply digit_cases; by right|].
    by rewrite Hc, Hds.
  - destruct w as [|c [|d ds]]; cbn [numericId]; [done| |].
    + intros Hc. apply digit_cases in Hc as [->|Hc]; [by left|].
      right. exists [c], []. split; [done|]. split; [by exists c|done].
    + intros H. apply andb_true_iff in H as [Hc Hds].
      right. exists [c], (d :: ds). split; [done|]. split; [by exists c|done].
Qed.

Lemma lang_alphanumeric (w : list ascii) :
  lang (Cat (Star (Class digitRanges))
          (Cat (Class letterRanges) (Star (Class identRanges)))) w
  <-> alphanumericId w = true.
Proof.
  change (lang (Cat ?a (Cat ?b ?c)) w)
    with (exists w1 w2, w = w1 ++ w2 /\ lang a w1
                        /\ exists w3 w4, w2 = w3 ++ w4 /\ lang b w3 /\ lang c w4).
  setoid_rewrite (lang_star_class digitRanges).
  setoid_rewrite (lang_star_class identRanges).
  unfold alphanumericId. rewrite andb_true_iff. split.
  - intros (ds & w2 & -> & Hds & w3 & tail & -> & (c & -> & Hc) & Htail).
    rewrite forallb_app, existsb_app. cbn [app forallb existsb].
    rewrite Htail, Hc, ident_cases, Hc, !orb_true_r. split; [|done].
    rewrite andb_true_r. clear -Hds.
    induction ds as [|d ds IH]; [done|]. cbn [forallb] in *.
    apply andb_true_iff in Hds as [Hd Hds]. by rewrite ident_cases, Hd, IH.
  - intros [Hall Hsome]. induction w as [|c w IH]; [discriminate|].
    cbn [forallb existsb] in Hall, Hsome. apply andb_true_iff in Hall as [Hc Hall].
    destruct (inClass letterRanges c) eqn:Hletter.
    + exists [], (c :: w). split; [done|]. split; [done|].
      exists [c], w. split; [done|]. split; [by exists c|done].
    + cbn [orb] in Hsome.
      destruct (IH Hall Hsome) as (ds & w2 & -> & Hds & Hrest).
      exists (c :: ds), w2. split; [done|]. split; [|done].
      cbn [forallb]. rewrite Hds, andb_true_r.
      rewrite ident_cases, Hletter, orb_false_r in Hc. done.
Qed.

Lemma lang_ident (w : list ascii) : lang identNode w <-> prereleaseId w = true.
Proof.
  unfold identNode, prereleaseId.
  change (lang (Alt ?a (Alt ?b ?c)) w) with (lang a w \/ lang b w \/ lang c w).
  rewrite lang_alphanumeric, orb_true_iff, <- lang_numeral. unfold numeralNode.
  change (lang (Alt ?a ?b) w) with (lang a w \/ lang b w). tauto.
Qed.

Lemma lang_buildId (w : list ascii) :
  lang (Plus (Class identRanges)) w <-> buildId w = true.
Proof.
  rewrite lang_plus_class. unfold buildId. destruct w as [|c w]; [|by intuition].
  split; [by intros [? _]|discriminate].
Qed.

(** The words of the pattern between [^] and [$], spelt out. *)
Definition semverWord (w : list ascii) : Prop :=
  exists major minor patch pre build,
    w = major ++ "."%char :: minor ++ "."%char :: patch ++ pre ++ build
    /\ numericId major = true /\ numericId minor = true /\ numericId patch = true
    /\ (pre = [] \/ exists p, pre = "-"%char :: p /\ dottedWord prereleaseId p)
    /\ (build = [] \/ exists b, build = "+"%char :: b /\ dottedWord buildId b).

Lemma lang_prerelease (w : list ascii) :
  lang (Quest prereleaseNode) w
  <-> w = [] \/ exists p, w = "-"%char :: p /\ dottedWord prereleaseId p.
Proof.
  pose proof (fun p => lang_dotted (Capture 6 identNode) (Capture 8 identNode) 7
                         prereleaseId p lang_ident lang_ident) as Hdotted.
  unfold prereleaseNode.
  change (lang (Quest (Capture 4 (Cat (Lit "-") (Capture 5 ?body)))) w)
    with ((exists w1 w2, w = w1 ++ w2 /\ w1 = ["-"%char] /\ lang body w2) \/ w = []).
  split.
  - intros [(w1 & p & -> & -> & Hp)| ->]; [right|by left].
    exists p. split; [done|]. by apply Hdotted.
  - intros [->|(p & -> & Hp)]; [by right|left].
    exists ["-"%char], p. split; [done|]. split; [done|]. by apply Hdotted.
Qed.

Lemma lang_build (w : list ascii) :
  lang (Quest buildNode) w
  <-> w = [] \/ exists b, w = "+"%char :: b /\ dottedWord buildId b.
Proof.
  pose proof (fun b => lang_dotted (Plus (Class identRanges)) (Plus (Class identRanges)) 11
                         buildId b lang_buildId lang_buildId) as Hdotted.
  unfold buildNode.
  change (lang (Quest (Capture 9 (Cat (Lit "+") (Capture 10 ?body)))) w)
    with ((exists w1 w2, w = w1 ++ w2 /\ w1 = ["+"%char] /\ lang body w2) \/ w = []).
  split.
  - intros [(w1 & b & -> & -> & Hb)| ->]; [right|by left].
    exists b. split; [done|]. by apply Hdotted.
  - intros [->|(b & -> & Hb)]; [by right|left].
    exists ["+"%char], b. split; [done|]. split; [done|]. by apply Hdotted.
Qed.

Lemma lang_semver (w : list ascii) : lang (catOf semverParts) w <-> semverWord w.
Proof.
  unfold semverParts.
  change (lang (catOf [Capture 1 ?a; Lit ?d; Capture 2 ?b; Lit ?e; Capture 3 ?c; ?p; ?q]) w)
    with (exists w1 r1, w = w1 ++ r1 /\ lang a w1 /\
          exists w2 r2, r1 = w2 ++ r2 /\ w2 = [d] /\
          exists w3 r3, r2 = w3 ++ r3 /\ lang b w3 /\
          exists w4 r4, r3 = w4 ++ r4 /\ w4 = [e] /\
          exists w5 r5, r4 = w5 ++ r5 /\ lang c w5 /\
          exists w6 w7, r5 = w6 ++ w7 /\ lang p w6 /\ lang q w7).
  unfold semverWord. split.
  - intros (major & r1 & -> & Hmajor & w2 & r2 & -> & -> & minor & r3 & -> & Hminor
            & w4 & r4 & -> & -> & patch & r5 & -> & Hpatch & pre & build & -> & Hpre & Hbuild).
    exists major, minor, patch, pre, build. split; [done|].
    split; [by apply lang_numeral|]. split; [by apply lang_numeral|].
    split; [by apply lang_numeral|]. split; [by apply lang_prerelease|by apply lang_build].
  - intros (major & minor & patch & pre & build & -> & Hmajor & Hminor & Hpatch
            & Hpre & Hbuild).
    exists major, ("."%char :: minor ++ "."%char :: patch ++ pre ++ build).
    split; [done|]. split; [by apply lang_numeral|].
    exists ["."%char], (minor ++ "."%char :: patch ++ pre ++ build).
    split; [done|]. split; [done|].
    exists minor, ("."%char :: patch ++ pre ++ build).
    split; [done|]. split; [by apply lang_numeral|].
    exists ["."%char], (patch ++ pre ++ build). split; [done|]. split; [done|].
    exists patch, (pre ++ build). split; [done|]. split; [by apply lang_numeral|].
    exists pre, build. split; [done|].
    split; [by apply lang_prerelease|by apply lang_build].
Qed.

Lemma plain_semver : plain (catOf semverParts) = true.
Proof. reflexivity. Qed.

End SemverWords.


(** ** The grammar of semantic versions, checked by splitting *)

(** The check that semver.org describes in words, written without any
    pattern: what follows the first [+] is the build metadata, what
    follows the first [-] before it is the pre-release; the rest is
    three numeric identifiers separated by dots; pre-release and build
    metadata, when present, are identifiers separated by dots. *)
Module grammar.
Import regexp.

(** [w] up to the first [sep], and what follows it, if [sep] occurs. *)
Fixpoint cut (sep : ascii) (w : list ascii) : list ascii * option (list ascii) :=
  match w with
  | [] => ([], None)
  | c :: w' =>
    if Ascii.eqb c sep then ([], Some w')
    else let '(a, b) := cut sep w' in (c :: a, b)
  end.

(** The parts of [w] between the occurrences of [sep]. *)
Fixpoint fields (sep : ascii) (w : list ascii) : list (list ascii) :=
  match w with
  | [] => [[]]
  | c :: w' =>
    if Ascii.eqb c sep then [] :: fields sep w'
    else match fields sep w' with
         | f :: fs => (c :: f) :: fs
         | [] => [[c]]
         end
  end.

Definition checkSemver (w : list ascii) : bool :=
  let '(front, build) := cut "+" w in
  let '(core, pre) := cut "-" front in
  match fields "." core with
  | [major; minor; patch] => numericId major && numericId minor && numericId patch
  | _ => false
  end
  && match pre with
     | Some p => forallb prereleaseId (fields "." p)
     | None => true
     end
  && match build with
     | Some b => forallb buildId (fields "." b)
     | None => true
     end.

Definition validSemver (version : string) : bool :=
  checkSemver (list_ascii_of_string version).

End grammar.

Section SemverGrammar.
Import regexp github module_release grammar.

Lemma cut_app (sep : ascii) (a b : list ascii) :
  sep ∉ a -> cut sep (a ++ sep :: b) = (a, Some b).
Proof.
  induction a as [|c a IH]; intros Ha; cbn [app cut].
  - by rewrite Ascii.eqb_refl.
  - apply not_elem_of_cons in Ha as [Hc Ha].
    destruct (Ascii.eqb_spec c sep) as [->|_]; [done|]. by rewrite (IH Ha).
Qed.

Lemma cut_none (sep : ascii) (a : list ascii) : sep ∉ a -> cut sep a = (a, None).
Proof.
  induction a as [|c a IH]; intros Ha; cbn [cut]; [done|].
  apply not_elem_of_cons in Ha as [Hc Ha].
  destruct (Ascii.eqb_spec c sep) as [->|_]; [done|]. by rewrite (IH Ha).
Qed.

Lemma cut_parts (sep : ascii) (w a : list ascii) (b : option (list ascii)) :
  cut sep w = (a, b) ->
  w = a ++ match b with Some b' => sep :: b' | None => [] end.
Proof.
  revert a. induction w as [|c w IH]; intros a; cbn [cut].
  - by intros [= <- <-].
  - destruct (Ascii.eqb_spec c sep) as [->|_]; [by intros [= <- <-]|].
    destruct (cut sep w) as [a' b']. intros [= <- <-]. cbn [app]. f_equal. by apply IH.
Qed.

Lemma fields_app (sep : ascii) (a b : list ascii) :
  sep ∉ a -> fields sep (a ++ sep :: b) = a :: fields sep b.
Proof.
  induction a as [|c a IH]; intros Ha; cbn [app fields].
  - by rewrite Ascii.eqb_refl.
  - apply not_elem_of_cons in Ha as [Hc Ha].
    destruct (Ascii.eqb_spec c sep) as [->|_]; [done|]. by rewrite (IH Ha).
Qed.

Lemma fields_one (sep : ascii) (a : list ascii) : sep ∉ a -> fields sep a = [a].
Proof.
  induction a as [|c a IH]; intros Ha; cbn [fields]; [done|].
  apply not_elem_of_cons in Ha as [Hc Ha].
  destruct (Ascii.eqb_spec c sep) as [->|_]; [done|]. by rewrite (IH Ha).
Qed.

Lemma fields_parts (sep : ascii) (w : list ascii) :
  exists f fs, fields sep w = f :: fs /\ w = f ++ concat (map (cons sep) fs).
Proof.
  induction w as [|c w (f & fs & Hf & Hw)]; cbn [fields].
  - by exists [], [].
  - destruct (Ascii.eqb_spec c sep) as [->|_].
    + exists [], (f :: fs). rewrite Hf. split; [done|]. cbn [map concat app]. by rewrite <- Hw.
    + rewrite Hf. exists (c :: f), fs. split; [done|]. cbn [app]. by rewrite <- Hw.
Qed.

Lemma fields_dotted (sep : ascii) (id : list ascii) (ids : list (list ascii)) :
  sep ∉ id -> Forall (fun x => sep ∉ x) ids ->
  fields sep (id ++ concat (map (cons sep) ids)) = id :: ids.
Proof.
  intros Hid Hids. revert id Hid. induction Hids as [|x ids Hx _ IH]; intros id Hid.
  - cbn [map concat]. rewrite app_nil_r. by apply fields_one.
  - cbn [map concat]. rewrite <- app_comm_cons, fields_app by done. by rewrite IH.
Qed.

Lemma class_excludes (ranges : list (ascii * ascii)) (c : ascii) (w : list ascii) :
  inClass ranges c = false -> forallb (inClass ranges) w = true -> c ∉ w.
Proof.
  intros Hc Hw Hin. apply list_elem_of_In in Hin.
  rewrite forallb_forall in Hw. apply Hw in Hin. congruence.
Qed.

Lemma digits_ident (w : list ascii) :
  forallb (inClass digitRanges) w = true -> forallb (inClass identRanges) w = true.
Proof.
  induction w as [|c w IH]; [done|]. cbn [forallb]. intros H.
  apply andb_true_iff in H as [Hc Hw]. by rewrite ident_cases, Hc, IH.
Qed.

Lemma numericId_digits (w : list ascii) :
  numericId w = true -> forallb (inClass digitRanges) w = true.
Proof.
  destruct w as [|c [|d ds]]; cbn [numericId forallb]; [done| |].
  - intros ->. done.
  - intros H. apply andb_true_iff in H as [Hc Hds].
    assert (Hdigit : inClass digitRanges c = true) by (apply digit_cases; by right).
    by rewrite Hdigit.
Qed.

Lemma prereleaseId_ident (w : list ascii) :
  prereleaseId w = true -> forallb (inClass identRanges) w = true.
Proof.
  unfold prereleaseId, alphanumericId. intros H. apply orb_true_iff in H as [H|H].
  - by apply digits_ident, numericId_digits.
  - by apply andb_true_iff in H as [H _].
Qed.

Lemma buildId_ident (w : list ascii) :
  buildId w = true -> forallb (inClass identRanges) w = true.
Proof. by destruct w. Qed.

Lemma dotted_excludes (c : ascii) (ids : list (list ascii)) :
  c <> "."%char -> Forall (fun x => c ∉ x) ids -> c ∉ concat (map (cons "."%char) ids).
Proof.
  intros Hc Hids. induction Hids as [|x ids Hx _ IH]; cbn [map concat].
  - apply not_elem_of_nil.
  - apply not_elem_of_app. split; [|done]. apply not_elem_of_cons. by split.
Qed.

Lemma dotted_fields (P : list ascii -> bool) (w : list ascii) :
  (forall x, P x = true -> forallb (inClass identRanges) x = true) ->
  dottedWord P w <-> forallb P (fields "." w) = true.
Proof.
  intros Hident. split.
  - intros (id & ids & -> & Hid & Hids).
    rewrite fields_dotted.
    + cbn [forallb]. rewrite Hid. cbn [andb]. apply forallb_forall. intros x Hx.
      rewrite Forall_forall in Hids. by apply Hids, list_elem_of_In.
    + by apply (class_excludes identRanges), Hident.
    + eapply Forall_impl; [exact Hids|]. intros x Hx. cbv beta.
      by apply (class_excludes identRanges), Hident.
  - intros Hall. destruct (fields_parts "." w) as (f & fs & Hf & Hw).
    rewrite Hf in Hall. cbn [forallb] in Hall. apply andb_true_iff in Hall as [Hid Hids].
    exists f, fs. split; [done|]. split; [done|].
    apply Forall_forall. intros x Hx. rewrite forallb_forall in Hids.
    by apply Hids, list_elem_of_In.
Qed.

Lemma dotted_without (P : list ascii -> bool) (c : ascii) (w : list ascii) :
  (forall x, P x = true -> forallb (inClass identRanges) x = true) ->
  inClass identRanges c = false -> c <> "."%char ->
  dottedWord P w -> c ∉ w.
Proof.
  intros Hident Hc Hdot (id & ids & -> & Hid & Hids).
  apply not_elem_of_app. split; [by apply (class_excludes identRanges), Hident|].
  apply dotted_excludes; [done|].
  eapply Forall_impl; [exact Hids|]. intros x Hx. cbv beta.
  by apply (class_excludes identRanges), Hident.
Qed.

Lemma semverWord_check (w : list ascii) : semverWord w <-> checkSemver w = true.
Proof.
  split.
  - intros (major & minor & patch & pre & build & -> & Hmajor & Hminor & Hpatch
            & Hpre & Hbuild).
    set (core := major ++ "."%char :: minor ++ "."%char :: patch).
    assert (Hw : major ++ "."%char :: minor ++ "."%char :: patch ++ pre ++ build
                 = (core ++ pre) ++ build).
    { subst core. by repeat first [rewrite <- app_assoc | progress cbn [app]]. }
    rewrite Hw. clear Hw.
    assert (Hfree : forall c x, inClass digitRanges c = false ->
                      numericId x = true -> c ∉ x).
    { intros c x Hc Hx. by apply (class_excludes digitRanges), numericId_digits. }
    assert (Hcore : forall c, inClass digitRanges c = false -> c <> "."%char -> c ∉ core).
    { intros c Hc Hdot. subst core.
      apply not_elem_of_app. split; [by apply Hfree|].
      apply not_elem_of_cons. split; [done|].
      apply not_elem_of_app. split; [by apply Hfree|].
      apply not_elem_of_cons. split; [done|]. by apply Hfree. }
    assert (Hfields : fields "." core = [major; minor; patch]).
    { subst core. rewrite fields_app by (by apply Hfree).
      rewrite fields_app by (by apply Hfree). by rewrite fields_one by (by apply Hfree). }
    assert (Hplus : "+"%char ∉ core ++ pre).
    { apply not_elem_of_app. split; [by apply Hcore|].
      destruct Hpre as [->|(p & -> & Hp)]; [apply not_elem_of_nil|].
      apply not_elem_of_cons. split; [done|].
      by apply (dotted_without prereleaseId "+" p prereleaseId_ident). }
    assert (Hcut : cut "+" ((core ++ pre) ++ build)
                   = (core ++ pre,
                      match build with [] => None | _ :: b => Some b end)
                   /\ match build with
                      | [] => True
                      | _ :: b => forallb buildId (fields "." b) = true
                      end).
    { destruct Hbuild as [->|(b & -> & Hb)].
      - rewrite app_nil_r. split; [by apply cut_none|done].
      - split; [by apply cut_app|]. by apply (dotted_fields buildId b buildId_ident). }
    destruct Hcut as [Hcut Hb].
    assert (Hcut' : cut "-" (core ++ pre)
                    = (core, match pre with [] => None | _ :: p => Some p end)
                    /\ match pre with
                       | [] => True
                       | _ :: p => forallb prereleaseId (fields "." p) = true
                       end).
    { destruct Hpre as [->|(p & -> & Hp)].
      - rewrite app_nil_r. split; [by apply cut_none, Hcore|done].
      - split; [by apply cut_app, Hcore|].
        by apply (dotted_fields prereleaseId p prereleaseId_ident). }
    destruct Hcut' as [Hcut' Hp].
    unfold checkSemver. rewrite Hcut, Hcut', Hfields, Hmajor, Hminor, Hpatch.
    cbn [andb]. destruct pre; destruct build; cbn [andb]; try done.
    + by rewrite Hp.
    + by rewrite Hp.
  - unfold checkSemver.
    destruct (cut "+" w) as [front build] eqn:Hfront.
    destruct (cut "-" front) as [core pre] eqn:Hcore.
    apply cut_parts in Hfront, Hcore.
    destruct (fields_parts "." core) as (f & fs & Hf & Hjoin). rewrite Hf.
    destruct fs as [|minor [|patch [|extra fs]]];
      try (cbn [andb]; discriminate).
    intros H. apply andb_true_iff in H as [H Hbuild].
    apply andb_true_iff in H as [H Hpre].
    apply andb_true_iff in H as [H Hpatch].
    apply andb_true_iff in H as [Hmajor Hminor].
    exists f, minor, patch,
      (match pre with Some p => "-"%char :: p | None => [] end),
      (match build with Some b => "+"%char :: b | None => [] end).
    split.
    { rewrite Hfront, Hcore, Hjoin. cbn [map concat]. rewrite app_nil_r.
      by repeat first [rewrite <- app_assoc | progress cbn [app]]. }
    split; [done|]. split; [done|]. split; [done|]. split.
    + destruct pre as [p|]; [right|by left]. exists p. split; [done|].
      by apply (dotted_fields prereleaseId p prereleaseId_ident).
    + destruct build as [b|]; [right|by left]. exists b. split; [done|].
      by apply (dotted_fields buildId b buildId_ident).
Qed.

(** The compiled pattern of [semverRegex]. *)
Definition semverCompiled : Regexp :=
  {| prog := catOf (BeginText :: semverParts ++ [EndText]); NumSubexp := 11 |}.

Lemma IsSemver_MatchString (version : string) :
  IsSemver version = Ret (MatchString semverCompiled version).
Proof. unfold IsSemver. rewrite compile_semver. reflexivity. Qed.

Lemma MatchString_semver (version : string) :
  MatchString semverCompiled version = validSemver version.
Proof.
  apply eq_true_iff_eq. unfold semverCompiled.
  rewrite (MatchString_anchored semverParts 11 version); [|done|exact plain_semver].
  rewrite lang_semver. apply semverWord_check.
Qed.

(** X20. [IsSemver] always returns, and it accepts exactly the
    versions of the grammar of semver.org: checked by cutting the
    version at its first [+] and the part before that at its first [-],
    the core is three numeric identifiers separated by dots, each [0]
    or digits that do not start with [0]; the pre-release, when there
    is one, is identifiers separated by dots, each numeric or made of
    letters, digits and hyphens with at least one that is not a digit;
    the build metadata, when there is some, is non-empty runs of
    letters, digits and hyphens separated by dots. *)
Theorem IsSemver_grammar (version : string) :
  IsSemver version = Ret (validSemver version).
Proof. rewrite IsSemver_MatchString. f_equal. apply MatchString_semver. Qed.

End SemverGrammar.


(** ** The names [NextTestingRelease] generates *)

Section GeneratedNames.
Import regexp github module_release grammar.

(** Whether a list can be cut in two parts that pass a test. *)
Lemma split_dec {A : Type} (P : list A -> list A -> bool) (l : list A) :
  (exists p s, l = p ++ s /\ P p s = true)
  \/ (forall p s, l = p ++ s -> P p s = false).
Proof.
  revert P. induction l as [|a l IH]; intros P.
  - destruct (P [] []) eqn:H0; [left; by exists [], []|right].
    intros p s Heq. symmetry in Heq. apply app_eq_nil in Heq as [-> ->]. done.
  - destruct (P [] (a :: l)) eqn:H0; [left; by exists [], (a :: l)|].
    destruct (IH (fun p s => P (a :: p) s)) as [(p & s & -> & HP)|Hnone].
    + left. by exists (a :: p), s.
    + right. intros [|a' p] s Heq.
      * cbn [app] in Heq. by subst s.
      * injection Heq as <- Heq. by apply Hnone.
Qed.

(** A tag that [incrementTestingNumber] accepts ends with [-testing.]
    and a run of digits. *)
Lemma incrementTestingNumber_inv (version next : string) :
  incrementTestingNumber version = Ret (Ok next) ->
  exists prefix digits,
    version = prefix +:+ "-testing." +:+ digits /\ oneLine prefix /\ decimal digits.
Proof.
  intros Hrun.
  set (P := fun p s : list ascii =>
              forallb (fun c => negb (Ascii.eqb c newline)) p
              && gostrings.hasPrefix testingSuffix s
              && match drop 9 s with [] => false | ds => strconv.allDigits ds end).
  destruct (split_dec P (list_ascii_of_string version)) as [(p & s & Heq & HP)|Hnone].
  - subst P. cbv beta in HP.
    apply andb_true_iff in HP as [HP Hds]. apply andb_true_iff in HP as [Hp Hs].
    apply hasPrefix_app in Hs as [ds ->].
    change (drop 9 (testingSuffix ++ ds)) with ds in Hds.
    exists (string_of_list_ascii p), (string_of_list_ascii ds). split; [|split].
    + apply string_of_lists. rewrite !list_of_append, !list_string_inv. exact Heq.
    + unfold oneLine. rewrite list_string_inv. intros Hin.
      apply list_elem_of_In in Hin. rewrite forallb_forall in Hp. apply Hp in Hin.
      by rewrite Ascii.eqb_refl in Hin.
    + unfold decimal. rewrite list_string_inv. destruct ds; [discriminate|]. by split.
  - rewrite incrementTestingNumber_other in Hrun; [discriminate Hrun|].
    intros prefix digits Hversion Hline [Hne Hdigits].
    specialize (Hnone (list_ascii_of_string prefix)
                  (testingSuffix ++ list_ascii_of_string digits)).
    rewrite Hversion, !list_of_append in Hnone. specialize (Hnone eq_refl).
    subst P. cbv beta in Hnone.
    change (drop 9 (testingSuffix ++ list_ascii_of_string digits))
      with (list_ascii_of_string digits) in Hnone.
    assert (Hp : forallb (fun c => negb (Ascii.eqb c newline)) (list_ascii_of_string prefix)
                 = true).
    { apply forallb_forall. intros c Hc. apply list_elem_of_In in Hc.
      destruct (Ascii.eqb_spec c newline) as [->|]; [by apply Hline in Hc|done]. }
    assert (Hs : gostrings.hasPrefix testingSuffix
                   (testingSuffix ++ list_ascii_of_string digits) = true)
      by (apply hasPrefix_app; eauto).
    rewrite Hp, Hs in Hnone. destruct digits as [|c digits]; [done|].
    cbn [list_ascii_of_string andb] in Hnone, Hdigits. rewrite Hdigits in Hnone.
    discriminate Hnone.
Qed.

(** A positive number is printed without a leading zero. *)
Lemma to_uint_head (p : positive) :
  match Pos.to_uint p with
  | Decimal.Nil | Decimal.D0 _ => False
  | _ => True
  end.
Proof.
  pose proof (DecimalPos.Unsigned.to_of (Pos.to_uint p)) as Hnorm.
  rewrite DecimalPos.Unsigned.of_to in Hnorm. cbn [N.to_uint] in Hnorm.
  pose proof (DecimalPos.Unsigned.to_uint_nonzero p) as Hnonzero.
  destruct (Pos.to_uint p) as [|u|u|u|u|u|u|u|u|u|u] eqn:Hp; try done.
  rewrite DecimalFacts.unorm_D0 in Hnorm. unfold Decimal.unorm in Hnorm.
  pose proof (DecimalFacts.nzhead_nonzero u u) as Hhead.
  destruct (Decimal.nzhead u) eqn:Hu; by symmetry in Hnorm.
Qed.

Lemma uint_digits (d : Decimal.uint) :
  forallb (inClass digitRanges) (list_ascii_of_string (NilEmpty.string_of_uint d)) = true.
Proof. rewrite forallb_digit. apply (printed_uint d). Qed.

Lemma FormatInt_numeric (z : Z) :
  0 <= z -> numericId (list_ascii_of_string (fmt.FormatInt z)) = true.
Proof.
  intros Hz. unfold fmt.FormatInt. destruct z as [|p|p]; [done| |lia].
  cbn [Z.to_int NilZero.string_of_int].
  pose proof (to_uint_head p) as Hhead.
  destruct (Pos.to_uint p) as [|u|u|u|u|u|u|u|u|u|u]; try done;
    cbn [NilZero.string_of_uint NilEmpty.string_of_uint list_ascii_of_string numericId];
    pose proof (uint_digits u) as Hu;
    destruct (list_ascii_of_string (NilEmpty.string_of_uint u)); try done;
    by rewrite Hu.
Qed.

Lemma FormatInt_identifier (z : Z) :
  prereleaseId (list_ascii_of_string (fmt.FormatInt z)) = true.
Proof.
  destruct (Z.le_gt_cases 0 z) as [Hz|Hz].
  { unfold prereleaseId. by rewrite FormatInt_numeric. }
  unfold fmt.FormatInt. destruct z as [|p|p]; try lia.
  cbn [Z.to_int NilZero.string_of_int list_ascii_of_string].
  unfold prereleaseId, alphanumericId. apply orb_true_iff. right.
  cbn [forallb existsb]. change (inClass letterRanges "-") with true.
  change (inClass identRanges "-") with true. cbn [andb orb].
  rewrite andb_true_r. apply digits_ident.
  unfold NilZero.string_of_uint. pose proof (uint_digits (Pos.to_uint p)) as Hd.
  by destruct (Pos.to_uint p).
Qed.

Lemma cut_found (sep : ascii) (x a b tail : list ascii) :
  cut sep x = (a, Some b) -> cut sep (x ++ tail) = (a, Some (b ++ tail)).
Proof.
  revert a. induction x as [|c x IH]; intros a; cbn [app cut]; [discriminate|].
  destruct (Ascii.eqb c sep); [by intros [= <- <-]|].
  destruct (cut sep x) as [a' b'] eqn:Hx. intros [= <- ->]. by rewrite (IH a').
Qed.

Lemma cut_missing (sep : ascii) (x a : list ascii) :
  cut sep x = (a, None) -> sep ∉ x.
Proof.
  revert a. induction x as [|c x IH]; intros a; cbn [cut]; [intros _; apply not_elem_of_nil|].
  destruct (Ascii.eqb_spec c sep) as [|Hc]; [discriminate|].
  destruct (cut sep x) as [a' b'] eqn:Hx. intros [= <- ->].
  apply not_elem_of_cons. split; [congruence|by apply (IH a')].
Qed.

Lemma fields_snoc (sep : ascii) (y n : list ascii) :
  sep ∉ n -> fields sep (y ++ sep :: n) = fields sep y ++ [n].
Proof.
  intros Hn. induction y as [|c y IH]; cbn [app fields].
  - by rewrite Ascii.eqb_refl, fields_one.
  - destruct (Ascii.eqb c sep); [by rewrite IH|]. rewrite IH.
    destruct (fields_parts sep y) as (f & fs & -> & _). done.
Qed.

Lemma forallb_snoc {A : Type} (f : A -> bool) (l : list A) (x : A) :
  forallb f (l ++ [x]) = forallb f l && f x.
Proof. rewrite forallb_app. cbn [forallb]. by rewrite andb_true_r. Qed.

Lemma prereleaseId_buildId (n : list ascii) : prereleaseId n = true -> buildId n = true.
Proof.
  intros Hn. pose proof (prereleaseId_ident n Hn) as Hident. by destruct n.
Qed.

(** The last identifier of a version with a hyphen can be replaced by
    another identifier. *)
Lemma check_bump (x n n' : list ascii) :
  "-"%char ∈ x ->
  "+"%char ∉ n -> "."%char ∉ n ->
  prereleaseId n' = true ->
  checkSemver (x ++ "."%char :: n) = true ->
  checkSemver (x ++ "."%char :: n') = true.
Proof.
  intros Hdash Hplus Hdot Hid.
  pose proof (prereleaseId_ident n' Hid) as Hident.
  assert (Hplus' : "+"%char ∉ n') by (by apply (class_excludes identRanges)).
  assert (Hdot' : "."%char ∉ n') by (by apply (class_excludes identRanges)).
  unfold checkSemver. destruct (cut "+" x) as [front [b|]] eqn:Hfront.
  - rewrite !(cut_found _ _ _ _ _ Hfront). destruct (cut "-" front) as [core pre].
    rewrite !fields_snoc, !forallb_snoc by done.
    rewrite (prereleaseId_buildId n' Hid). intros H.
    apply andb_true_iff in H as [H1 H2]. apply andb_true_iff in H2 as [H2 _].
    by rewrite H1, H2.
  - apply cut_missing in Hfront as Hfree.
    rewrite (cut_none "+" (x ++ "."%char :: n)), (cut_none "+" (x ++ "."%char :: n')).
    2,3: apply not_elem_of_app; split; [done|]; apply not_elem_of_cons; by split.
    destruct (cut "-" x) as [core [p|]] eqn:Hcore.
    2:{ by apply cut_missing in Hcore. }
    rewrite !(cut_found _ _ _ _ _ Hcore).
    rewrite !fields_snoc, !forallb_snoc by done.
    rewrite Hid, !andb_true_r. intros H.
    apply andb_true_iff in H as [H1 H2]. apply andb_true_iff in H2 as [H2 _].
    by rewrite H1, H2.
Qed.

Lemma bumped_testing_valid (prefix digits : string) (z : Z) :
  decimal digits ->
  validSemver (prefix +:+ "-testing." +:+ digits) = true ->
  validSemver (prefix +:+ "-testing." +:+ fmt.FormatInt z) = true.
Proof.
  intros [_ Hdigits]. unfold validSemver. rewrite !list_of_append.
  change (list_ascii_of_string "-testing.")
    with (list_ascii_of_string "-testing" ++ ["."%char]).
  rewrite <- !app_assoc. cbn [app]. rewrite !app_assoc.
  rewrite <- forallb_digit in Hdigits.
  apply check_bump.
  - apply elem_of_app. right. by left.
  - by apply (class_excludes digitRanges).
  - by apply (class_excludes digitRanges).
  - apply FormatInt_identifier.
Qed.

(** A valid version starts with three numeric identifiers, and what
    follows them does not start with a digit. *)
Lemma validSemver_core (version : string) :
  validSemver version = true ->
  exists major minor patch rest_,
    version = major +:+ "." +:+ minor +:+ "." +:+ patch +:+ rest_
    /\ decimal major /\ decimal minor /\ decimal patch /\ noLeadingDigit rest_
    /\ numericId (list_ascii_of_string major) = true
    /\ numericId (list_ascii_of_string minor) = true.
Proof.
  unfold validSemver. intros Hvalid.
  apply semverWord_check in Hvalid
    as (major & minor & patch & pre & build & Hw & Hmajor & Hminor & Hpatch & Hpre & Hbuild).
  assert (Hdec : forall x, numericId x = true -> decimal (string_of_list_ascii x)).
  { intros x Hx. unfold decimal. rewrite list_string_inv, <- forallb_digit.
    split; [by destruct x|by apply numericId_digits]. }
  exists (string_of_list_ascii major), (string_of_list_ascii minor),
    (string_of_list_ascii patch), (string_of_list_ascii (pre ++ build)).
  rewrite !list_string_inv.
  split.
  { apply string_of_lists.
    repeat first [rewrite list_of_append | rewrite list_string_inv
                 | progress cbn [list_ascii_of_string app]].
    exact Hw. }
  split; [by apply Hdec|]. split; [by apply Hdec|]. split; [by apply Hdec|].
  split; [|done].
  destruct Hpre as [->|(p & -> & _)]; [|done].
  destruct Hbuild as [->|(b & -> & _)]; done.
Qed.

Lemma digits_without (c : ascii) (s : string) :
  Go.isDigit c = false -> decimal s -> c ∉ list_ascii_of_string s.
Proof.
  intros Hc [_ Hs]. rewrite <- forallb_digit in Hs. rewrite <- inClass_digit in Hc.
  by apply (class_excludes digitRanges).
Qed.

(** The name made from a patch number that wrapped around. *)
Lemma wrapped_patch_invalid (major minor : string) :
  decimal major -> decimal minor ->
  validSemver (major +:+ "." +:+ minor +:+ "." +:+ fmt.FormatInt Go.MinInt +:+ "-testing.1")
  = false.
Proof.
  intros Hmajor Hminor.
  assert (Hmin : fmt.FormatInt Go.MinInt = "-9223372036854775808")
    by (vm_compute; reflexivity).
  rewrite Hmin. unfold validSemver.
  set (tail := list_ascii_of_string "9223372036854775808-testing.1").
  set (ma := list_ascii_of_string major). set (mi := list_ascii_of_string minor).
  assert (Hfree : forall c, Go.isDigit c = false -> c <> "."%char ->
                    c ∉ ma ++ "."%char :: mi ++ ["."%char]).
  { intros c Hc Hdot. apply not_elem_of_app. split; [by apply digits_without|].
    apply not_elem_of_cons. split; [done|].
    apply not_elem_of_app. split; [by apply digits_without|].
    apply not_elem_of_cons. split; [done|apply not_elem_of_nil]. }
  assert (Hw : list_ascii_of_string
                 (major +:+ "." +:+ minor +:+ "." +:+ "-9223372036854775808" +:+ "-testing.1")
               = (ma ++ "."%char :: mi ++ ["."%char]) ++ "-"%char :: tail).
  { subst ma mi tail.
    repeat first [rewrite list_of_append | rewrite <- app_assoc
                 | progress cbn [list_ascii_of_string app]].
    reflexivity. }
  rewrite Hw. unfold checkSemver.
  rewrite cut_none.
  2:{ apply not_elem_of_app. split; [by apply Hfree|].
      subst tail. vm_compute. intros H.
      repeat (apply elem_of_cons in H as [H|H]; [discriminate H|]).
      by apply elem_of_nil in H. }
  rewrite cut_app by (by apply Hfree).
  rewrite fields_app by (by apply digits_without).
  rewrite fields_app by (by apply digits_without).
  cbn [fields numericId]. by rewrite !andb_false_r.
Qed.

Lemma incremented_patch_valid (major minor : string) (z : Z) :
  numericId (list_ascii_of_string major) = true ->
  numericId (list_ascii_of_string minor) = true ->
  0 <= z ->
  validSemver (major +:+ "." +:+ minor +:+ "." +:+ fmt.FormatInt z +:+ "-testing.1") = true.
Proof.
  intros Hmajor Hminor Hz. unfold validSemver. apply semverWord_check.
  exists (list_ascii_of_string major), (list_ascii_of_string minor),
    (list_ascii_of_string (fmt.FormatInt z)), (list_ascii_of_string "-testing.1"), [].
  split.
  { repeat first [rewrite list_of_append | progress cbn [list_ascii_of_string app]].
    reflexivity. }
  split; [done|]. split; [done|]. split; [by apply FormatInt_numeric|].
  split; [|by left]. right. exists (list_ascii_of_string "testing.1"). split; [done|].
  exists (list_ascii_of_string "testing"), [list_ascii_of_string "1"].
  split; [done|]. split; [done|]. by constructor.
Qed.

End GeneratedNames.


Section GeneratedNamesValid.
Import regexp github module_release grammar.

Lemma IsSemver_valid (version : string) (b : bool) :
  validSemver version = b -> IsSemver version = Ret b.
Proof. intros <-. rewrite IsSemver_MatchString. f_equal. apply MatchString_semver. Qed.

(** X21. A name that [NextTestingRelease] generates is itself accepted
    by [IsSemver], with one exception. After a pre-release
    [prefix-testing.N] the name is always accepted, also when the
    number wraps around to a negative one, which is read as an
    identifier with a hyphen. After a stable release the name is
    accepted unless the patch number was the largest [int]: the name is
    then [major.minor.-9223372036854775808-testing.1], and [IsSemver]
    refuses it. *)
Theorem generated_name_valid (client : Client) (repo next : string) :
  NextTestingRelease client repo = Ret (Ok next) ->
  IsSemver next = Ret true
  \/ exists major minor,
       next = major +:+ "." +:+ minor +:+ "." +:+ fmt.FormatInt Go.MinInt +:+ "-testing.1"
       /\ IsSemver next = Ret false.
Proof.
  unfold NextTestingRelease, mbind, outcome_bind, Go.bind. intros H.
  repeat (head_match H; clash H).
  all: match goal with
       | Hv : IsSemver (TagName ?r) = Ret ?v, Hn : negb ?v = false |- _ =>
         rewrite IsSemver_MatchString, MatchString_semver in Hv;
         apply negb_false_iff in Hn; subst v;
         assert (Hvalid : validSemver (TagName r) = true) by (by injection Hv);
         clear Hv; set (tag := TagName r) in *
       end.
  - left. apply incrementTestingNumber_inv in H as Hform.
    destruct Hform as (prefix & digits & Htag & Hline & Hdec).
    rewrite Htag in H, Hvalid.
    rewrite (incrementTestingNumber_form prefix digits Hline Hdec) in H.
    destruct (valueOf digits <=? Go.MaxInt); [|discriminate H].
    injection H as <-. rewrite append_assoc.
    apply IsSemver_valid. exact (bumped_testing_valid prefix digits _ Hdec Hvalid).
  - apply validSemver_core in Hvalid
      as (major & minor & patch & rest_ & Htag & H1 & H2 & H3 & Hrest & Hmajor & Hminor).
    rewrite Htag in H.
    rewrite (incrementPatch_form major minor patch rest_ H1 H2 H3 Hrest) in H.
    pose proof (decimalValue_nonneg _ (proj2 H3)) as Hpos. fold (valueOf patch) in Hpos.
    destruct (valueOf patch <=? Go.MaxInt) eqn:Hle; [|discriminate H].
    apply Z.leb_le in Hle. injection H as <-.
    destruct (Z.eq_dec (valueOf patch) Go.MaxInt) as [Hmax|Hless].
    + right. exists major, minor. rewrite Hmax.
      assert (Hwrap : Go.wrap (Go.MaxInt + 1) = Go.MinInt) by (vm_compute; reflexivity).
      rewrite Hwrap. split; [reflexivity|].
      apply IsSemver_valid. by apply wrapped_patch_invalid.
    + left. rewrite wrap_small by (unfold Go.MinInt, Go.MaxInt in *; lia).
      apply IsSemver_valid. apply incremented_patch_valid; [done|done|lia].
Qed.

Lemma generated_name_valid_witness :
  NextTestingRelease checkClient "NethServer/ns8-mail" = Ret (Ok "1.0.1-testing.1")
  /\ IsSemver "1.0.1-testing.1" = Ret true.
Proof.
  assert (Hrun : NextTestingRelease checkClient "NethServer/ns8-mail"
                 = Ret (Ok "1.0.1-testing.1")) by (vm_compute; reflexivity).
  split; [exact Hrun|].
  destruct (generated_name_valid checkClient "NethServer/ns8-mail" "1.0.1-testing.1" Hrun)
    as [Hvalid|(major & minor & _ & Hinvalid)]; [exact Hvalid|].
  exfalso. vm_compute in Hinvalid. discriminate Hinvalid.
Defined.

End GeneratedNamesValid.


(** ** Which issues are in the summary *)

Section TrackedIssues.
Import github module_release cmd.

Variables (client : Client) (repo issuesRepo : string).

(** The issues a run of [check] keeps track of: those a fetched pull
    request of the range links, and the parents of tracked issues, in
    both cases when the issue itself can be fetched. *)
Inductive tracked (prNumbers : list Z) : Z -> Prop :=
| tracked_linked (n : Z) (issue : Issue) :
    linkedBy client repo issuesRepo prNumbers n ->
    GetIssue client issuesRepo n = Ok issue ->
    tracked prNumbers n
| tracked_parent (c p : Z) (issue : Issue) :
    tracked prNumbers c ->
    GetParentIssueNumber client issuesRepo c = Ok p -> 0 < p ->
    GetIssue client issuesRepo p = Ok issue ->
    tracked prNumbers p.

(** The parent of an entry has an entry too, when it can be fetched. *)
Definition closedUp (cs : CheckSummary) : Prop :=
  forall k p issue,
    is_Some (Issues cs !! k) ->
    GetParentIssueNumber client (IssuesRepo cs) k = Ok p -> 0 < p ->
    GetIssue client (IssuesRepo cs) p = Ok issue ->
    is_Some (Issues cs !! p).

Lemma closedUp_stored (cs : CheckSummary) (n : Z) (info : IssueInfo) :
  closedUp cs ->
  (forall p issue,
     GetParentIssueNumber client (IssuesRepo cs) n = Ok p -> 0 < p ->
     GetIssue client (IssuesRepo cs) p = Ok issue -> is_Some (Issues cs !! p)) ->
  closedUp (storeIssue cs n info).
Proof.
  intros Hcs Hn k p issue. cbn [storeIssue setIssues Issues IssuesRepo].
  rewrite !lookup_insert_is_Some. intros [<-|[Hne Hk]] Hp Hpos Hissue.
  - destruct (decide (n = p)); [by left|]. right. split; [done|]. by eapply Hn.
  - destruct (decide (n = p)); [by left|]. right. split; [done|]. by eapply Hcs.
Qed.

Lemma closedUp_keys (cs cs' : CheckSummary) :
  IssuesRepo cs' = IssuesRepo cs ->
  (forall k, is_Some (Issues cs' !! k) <-> is_Some (Issues cs !! k)) ->
  closedUp cs -> closedUp cs'.
Proof.
  intros Hrepo Hkeys Hcs k p issue. rewrite Hrepo, !Hkeys. apply Hcs.
Qed.

Lemma appendChild_keys (cs cs2 : CheckSummary) (p n : Z) :
  appendChild cs p n = Ret cs2 ->
  IssuesRepo cs2 = IssuesRepo cs
  /\ forall k, is_Some (Issues cs2 !! k) <-> is_Some (Issues cs !! k).
Proof.
  unfold appendChild. destruct (Issues cs !! p) as [parent|] eqn:Hp; [|discriminate].
  intros [= <-]. split; [done|]. intros k. cbn [setIssues Issues].
  rewrite lookup_insert_is_Some. split; [intros [<-|[_ H]]; eauto|].
  intros H. destruct (decide (p = k)); auto.
Qed.

Lemma ProcessIssue_closedUp (fuel : nat) (cs cs' : CheckSummary) (n : Z)
    (err : option Go.error) :
  ProcessIssue fuel client cs n = Ret (cs', err) -> closedUp cs -> closedUp cs'.
Proof.
  revert cs cs' n err. induction fuel as [|fuel IH]; intros cs cs' n err; [discriminate|].
  rewrite ProcessIssue_S. cbv zeta. intros Hrun Hcs. revert Hrun.
  destruct (Issues cs !! n) as [known|] eqn:Hn.
  { intros [= <- <-]. apply (closedUp_keys cs); [done| |done].
    intros k. cbn [setIssues Issues]. rewrite lookup_insert_is_Some.
    split; [intros [<-|[_ H]]; eauto|]. intros H. destruct (decide (n = k)); auto. }
  destruct (GetIssue client (IssuesRepo cs) n) as [issue|e]; [|by intros [= <- <-]].
  destruct (GetParentIssueNumber client (IssuesRepo cs) n) as [p|e] eqn:Hparent.
  2:{ intros [= <- <-]. apply closedUp_stored; [done|]. rewrite Hparent. intros ? ? [=]. }
  destruct (0 <? p) eqn:Hpos.
  2:{ intros [= <- <-]. apply closedUp_stored; [done|]. rewrite Hparent.
      intros ? ? [= <-] H. apply Z.ltb_nlt in Hpos. done. }
  destruct (Issues cs !! p) as [parent|] eqn:Hp.
  { unfold mbind, outcome_bind, Go.bind.
    destruct (appendChild cs p n) as [cs2| | |] eqn:Hcs2; try discriminate.
    apply appendChild_keys in Hcs2 as [Hrepo Hkeys].
    intros [= <- <-]. apply closedUp_stored.
    - by apply (closedUp_keys cs).
    - rewrite Hrepo, Hparent. intros ? ? [= <-] _ _. apply Hkeys. by rewrite Hp. }
  unfold mbind, outcome_bind, Go.bind.
  pose proof (ProcessIssue_processed fuel client cs p) as Hdone.
  destruct (ProcessIssue fuel client cs p) as [[cs1 err1]| | |] eqn:Hup; try discriminate.
  specialize (IH cs cs1 p err1 Hup Hcs).
  pose proof (processed_repo _ _ _ _ Hdone) as Hrepo1.
  destruct err1 as [e|].
  - apply ProcessIssue_failed in Hup as (-> & _ & cause & Hcause).
    intros [= <- <-]. apply closedUp_stored; [done|].
    rewrite Hparent. intros ? ? [= <-] _ Hok. congruence.
  - destruct (appendChild cs1 p n) as [cs2| | |] eqn:Hcs2; try discriminate.
    apply appendChild_keys in Hcs2 as [Hrepo Hkeys].
    intros [= <- <-]. apply closedUp_stored.
    + by apply (closedUp_keys cs1).
    + rewrite Hrepo, Hrepo1, Hparent. intros ? ? [= <-] _ _. apply Hkeys.
      by apply (processed_entry _ _ _ _ Hdone).
Qed.

(** The entries a call adds are fetched issues: the issue of the call
    and, from parent to parent, those above it. *)
Lemma ProcessIssue_keys (J : Z -> Prop) (fuel : nat) (cs cs' : CheckSummary) (n : Z)
    (err : option Go.error) :
  (forall c p issue,
     J c -> GetParentIssueNumber client (IssuesRepo cs) c = Ok p -> 0 < p ->
     GetIssue client (IssuesRepo cs) p = Ok issue -> J p) ->
  ProcessIssue fuel client cs n = Ret (cs', err) ->
  (forall issue, GetIssue client (IssuesRepo cs) n = Ok issue -> J n) ->
  (forall k, is_Some (Issues cs !! k) -> J k) ->
  forall k, is_Some (Issues cs' !! k) -> J k.
Proof.
  intros Hclosed. revert cs' n err.
  induction fuel as [|fuel IH]; intros cs' n err; [discriminate|].
  rewrite ProcessIssue_S. cbv zeta. intros Hrun Hn Hcs. revert Hrun.
  assert (Hstore : forall cs0 info,
            (forall k, is_Some (Issues cs0 !! k) -> J k) -> J n ->
            forall k, is_Some (Issues (storeIssue cs0 n info) !! k) -> J k).
  { intros cs0 info H0 HJ k. cbn [storeIssue setIssues Issues].
    rewrite lookup_insert_is_Some. intros [<-|[_ H]]; auto. }
  destruct (Issues cs !! n) as [known|] eqn:Hknown.
  { intros [= <- <-] k. cbn [setIssues Issues]. rewrite lookup_insert_is_Some.
    intros [<-|[_ H]]; [apply Hcs; by rewrite Hknown|by apply Hcs]. }
  destruct (GetIssue client (IssuesRepo cs) n) as [issue|e]; [|by intros [= <- <-]].
  specialize (Hn issue eq_refl).
  destruct (GetParentIssueNumber client (IssuesRepo cs) n) as [p|e] eqn:Hparent.
  2:{ intros [= <- <-]. by apply Hstore. }
  destruct (0 <? p) eqn:Hpos.
  2:{ intros [= <- <-]. by apply Hstore. }
  apply Z.ltb_lt in Hpos.
  destruct (Issues cs !! p) as [parent|] eqn:Hp.
  { unfold mbind, outcome_bind, Go.bind.
    destruct (appendChild cs p n) as [cs2| | |] eqn:Hcs2; try discriminate.
    apply appendChild_keys in Hcs2 as [_ Hkeys].
    intros [= <- <-]. apply Hstore; [|done]. intros k Hk. by apply Hcs, Hkeys. }
  unfold mbind, outcome_bind, Go.bind.
  destruct (ProcessIssue fuel client cs p) as [[cs1 err1]| | |] eqn:Hup; try discriminate.
  assert (Hcs1 : forall k, is_Some (Issues cs1 !! k) -> J k).
  { apply (IH cs1 p err1 Hup); [|done]. intros issue' Hissue'. by eapply Hclosed. }
  destruct err1 as [e|].
  - intros [= <- <-]. by apply Hstore.
  - destruct (appendChild cs1 p n) as [cs2| | |] eqn:Hcs2; try discriminate.
    apply appendChild_keys in Hcs2 as [_ Hkeys].
    intros [= <- <-]. apply Hstore; [|done]. intros k Hk. by apply Hcs1, Hkeys.
Qed.

(** A call for an issue that can be fetched leaves an entry for it. *)
Lemma ProcessIssue_enters (fuel : nat) (cs cs' : CheckSummary) (n : Z)
    (err : option Go.error) (issue : Issue) :
  ProcessIssue fuel client cs n = Ret (cs', err) ->
  GetIssue client (IssuesRepo cs) n = Ok issue ->
  is_Some (Issues cs' !! n).
Proof.
  intros Hrun Hissue.
  pose proof (ProcessIssue_processed fuel client cs n) as Hdone. rewrite Hrun in Hdone.
  destruct err as [e|]; [|by apply (processed_entry _ _ _ _ Hdone)].
  apply ProcessIssue_failed in Hrun as (_ & _ & cause & Hcause). congruence.
Qed.

Record linkedDone (J : Z -> Prop) (cs cs' : CheckSummary) (linked : list Z) : Prop :=
  { done_repo : IssuesRepo cs' = IssuesRepo cs;
    done_keeps : forall k, is_Some (Issues cs !! k) -> is_Some (Issues cs' !! k);
    done_closed : closedUp cs -> closedUp cs';
    done_sound : (forall k, is_Some (Issues cs !! k) -> J k) ->
                 forall k, is_Some (Issues cs' !! k) -> J k;
    done_enters : forall n issue,
                    n ∈ linked -> GetIssue client (IssuesRepo cs) n = Ok issue ->
                    is_Some (Issues cs' !! n) }.

Lemma processLinked_done (J : Z -> Prop) (fuel : nat) (linkedIssues : list Z)
    (summary summary' : CheckSummary) :
  (forall c p issue,
     J c -> GetParentIssueNumber client (IssuesRepo summary) c = Ok p -> 0 < p ->
     GetIssue client (IssuesRepo summary) p = Ok issue -> J p) ->
  (forall n issue,
     n ∈ linkedIssues -> GetIssue client (IssuesRepo summary) n = Ok issue -> J n) ->
  processLinked fuel client linkedIssues summary = Ret summary' ->
  linkedDone J summary summary' linkedIssues.
Proof.
  revert summary. induction linkedIssues as [|n linkedIssues IH]; intros summary Hclosed HJ;
    cbn [processLinked].
  - intros [= <-]. split; try done. intros n issue Hn. by apply elem_of_nil in Hn.
  - unfold mbind, outcome_bind, Go.bind.
    pose proof (ProcessIssue_processed fuel client summary n) as Hdone.
    destruct (ProcessIssue fuel client summary n) as [[cs1 err]| | |] eqn:Hn;
      try discriminate.
    pose proof (processed_repo _ _ _ _ Hdone) as Hrepo.
    intros Hrun. apply IH in Hrun as [H1 H2 H3 H4 H5].
    2:{ rewrite Hrepo. exact Hclosed. }
    2:{ rewrite Hrepo. intros n' issue Hn'. apply HJ. by right. }
    split.
    + congruence.
    + intros k Hk. by apply H2, (processed_keeps _ _ _ _ Hdone).
    + intros Hcs. by apply H3, (ProcessIssue_closedUp _ _ _ _ _ Hn).
    + intros Hcs. apply H4.
      apply (ProcessIssue_keys J fuel summary cs1 n err Hclosed Hn); [|done].
      intros issue. apply HJ. by left.
    + intros n' issue Hn' Hissue. apply elem_of_cons in Hn' as [->|Hn'].
      * by apply H2, (ProcessIssue_enters _ _ _ _ _ issue Hn).
      * apply (H5 n' issue Hn'). by rewrite Hrepo.
Qed.

Lemma processPRs_tracked (all : list Z) (fuel : nat) (prNumbers : list Z)
    (summary summary' : CheckSummary) :
  IssuesRepo summary = issuesRepo ->
  (forall prNum, prNum ∈ prNumbers -> prNum ∈ all) ->
  processPRs fuel client repo issuesRepo prNumbers summary = Ret summary' ->
  IssuesRepo summary' = issuesRepo
  /\ (forall k, is_Some (Issues summary !! k) -> is_Some (Issues summary' !! k))
  /\ (closedUp summary -> closedUp summary')
  /\ ((forall k, is_Some (Issues summary !! k) -> tracked all k) ->
      forall k, is_Some (Issues summary' !! k) -> tracked all k)
  /\ forall n issue,
       linkedBy client repo issuesRepo prNumbers n ->
       GetIssue client issuesRepo n = Ok issue ->
       is_Some (Issues summary' !! n).
Proof.
  revert summary. induction prNumbers as [|prNum prNumbers IH]; intros summary Hrepo Hall;
    cbn [processPRs].
  { intros [= <-]. repeat split; try done.
    intros n issue (p & _ & _ & H & _). by apply elem_of_nil in H. }
  assert (Hall' : forall p, p ∈ prNumbers -> p ∈ all) by (intros p Hp; apply Hall; by right).
  assert (Hrest : forall cs1 : CheckSummary,
            IssuesRepo cs1 = issuesRepo ->
            (forall k, is_Some (Issues summary !! k) -> is_Some (Issues cs1 !! k)) ->
            (closedUp summary -> closedUp cs1) ->
            ((forall k, is_Some (Issues summary !! k) -> tracked all k) ->
             forall k, is_Some (Issues cs1 !! k) -> tracked all k) ->
            (forall n issue pr linked,
               GetPullRequest client repo prNum = Ok pr ->
               GetLinkedIssues (Body pr) issuesRepo = Ret linked ->
               n ∈ linked -> GetIssue client issuesRepo n = Ok issue ->
               is_Some (Issues cs1 !! n)) ->
            processPRs fuel client repo issuesRepo prNumbers cs1 = Ret summary' ->
            IssuesRepo summary' = issuesRepo
            /\ (forall k, is_Some (Issues summary !! k) -> is_Some (Issues summary' !! k))
            /\ (closedUp summary -> closedUp summary')
            /\ ((forall k, is_Some (Issues summary !! k) -> tracked all k) ->
                forall k, is_Some (Issues summary' !! k) -> tracked all k)
            /\ forall n issue,
                 linkedBy client repo issuesRepo (prNum :: prNumbers) n ->
                 GetIssue client issuesRepo n = Ok issue ->
                 is_Some (Issues summary' !! n)).
  { intros cs1 Hrepo1 Hkeeps Hclosed Hsound Henters Hrun.
    destruct (IH cs1 Hrepo1 Hall' Hrun) as (H1 & H2 & H3 & H4 & H5).
    split; [done|]. split; [auto|]. split; [auto|]. split; [auto|].
    intros n issue (p & pr & linked & Hp & Hpr & Hlinked & Hn) Hissue.
    apply elem_of_cons in Hp as [->|Hp].
    - by apply H2, (Henters n issue pr linked).
    - apply (H5 n issue); [|done]. by exists p, pr, linked. }
  destruct (GetPullRequest client repo prNum) as [pr|e] eqn:Hpr.
  2:{ intros Hrun. apply (Hrest summary); try done. }
  unfold mbind, outcome_bind, Go.bind.
  destruct (GetLinkedIssues (Body pr) issuesRepo) as [linkedIssues| | |] eqn:Hlinked;
    try discriminate.
  destruct (0 <? length linkedIssues)%nat eqn:Hsome.
  - destruct (processLinked fuel client linkedIssues summary) as [cs1| | |] eqn:Hprocess;
      try discriminate.
    apply (processLinked_done (tracked all)) in Hprocess as [H1 H2 H3 H4 H5].
    + intros Hrun. apply (Hrest cs1); try done; [congruence|].
      intros n issue pr' linked Hp' Hl Hn Hissue.
      rewrite ?Hpr in Hp'. injection Hp' as <-. rewrite Hlinked in Hl. injection Hl as <-.
      apply (H5 n issue Hn). by rewrite Hrepo.
    + rewrite Hrepo. intros c p issue Hc Hparent Hpos Hissue.
      by apply (tracked_parent all c p issue).
    + rewrite Hrepo. intros n issue Hn Hissue. apply (tracked_linked all n issue); [|done].
      exists prNum, pr, linkedIssues. split; [apply Hall; by left|done].
  - cbv zeta. intros Hrun.
    assert (Hnil : linkedIssues = []) by (by destruct linkedIssues).
    destruct (existsb _ (prLabels pr));
      (match type of Hrun with
       | processPRs _ _ _ _ _ ?cs1 = _ =>
         refine (Hrest cs1 Hrepo (fun k H => H) (fun H => H) (fun H => H) _ Hrun)
       end);
      intros n issue pr' linked Hp' Hl Hn;
      rewrite ?Hpr in Hp'; injection Hp' as <-; rewrite Hlinked in Hl; injection Hl as <-;
      subst linkedIssues; by apply elem_of_nil in Hn.
Qed.

End TrackedIssues.


Section TrackedIssuesRun.
Import github module_release cmd.

(** X22. The issues that are in the summary a run of [check] displays
    are exactly the tracked ones: the issues that a fetched pull
    request of the range links and that can be fetched, and, going up
    from them, every parent that the platform names with a positive
    number and that can be fetched. An issue that cannot be fetched
    has no entry, and neither has anything above it that is not
    reached another way. (The platform is taken to answer the same
    request the same way during the run.) *)
Theorem summary_issues_tracked (fuel : nat) (ro : rangeOrder) (env : Env)
    (repoFlag issuesRepoFlag : string) (summary : CheckSummary)
    (commitsInPRs : gmap string bool) (ready : bool) :
  runCheck fuel ro env repoFlag issuesRepoFlag = Ret (Ok (Reported summary commitsInPRs ready)) ->
  exists client repo latestRelease prNumbers,
    NewClient env = Ok client
    /\ ScanForPRs ro client repo (TagName latestRelease) "main" = Ok prNumbers
    /\ forall n,
         is_Some (Issues summary !! n)
         <-> tracked client repo issuesRepoFlag prNumbers n.
Proof.
  intros Hrun.
  apply runCheck_scanned in Hrun
    as (client & repo & latestRelease & commits & prNumbers & processed
        & Hclient & Hscan & Hprs & ->).
  exists client, repo, latestRelease, prNumbers.
  split; [exact Hclient|]. split; [exact Hscan|].
  destruct (findOrphans_issues repo commits commitsInPRs processed) as [-> _].
  apply (processPRs_tracked client repo issuesRepoFlag prNumbers) in Hprs
    as (Hrepo & _ & Hclosed & Hsound & Henters); [|reflexivity|done].
  assert (Hempty : forall k, ~ is_Some (Issues (NewCheckSummary issuesRepoFlag) !! k)).
  { intros k [x Hx]. cbn in Hx. by rewrite lookup_empty in Hx. }
  intros n. split.
  - apply Hsound. intros k Hk. by apply Hempty in Hk.
  - intros Htracked. induction Htracked as [n issue Hlinked Hissue|c p issue _ IH Hp Hpos Hissue].
    + by apply (Henters n issue).
    + apply (Hclosed (fun k p' issue' Hk => False_ind _ (Hempty k Hk)) c p issue IH);
        rewrite ?Hrepo; done.
Qed.

Lemma summary_issues_tracked_witness :
  runCheck 3 keyOrder checkEnv "" "NethServer/dev"
  = Ret (Ok (Reported checkedSummary {[ "c1" := true ]} true))
  /\ exists repo prNumbers,
       is_Some (Issues checkedSummary !! 40)
       /\ tracked checkClient repo "NethServer/dev" prNumbers 40.
Proof.
  split; [exact checkEnv_run|].
  destruct (summary_issues_tracked 3 keyOrder checkEnv "" "NethServer/dev" checkedSummary
              _ true checkEnv_run)
    as (client & repo & latestRelease & prNumbers & Hclient & _ & Hkeys).
  injection Hclient as <-.
  assert (H40 : is_Some (Issues checkedSummary !! 40)) by (vm_compute; eauto).
  exists repo, prNumbers. split; [exact H40|]. by apply Hkeys.
Defined.

End TrackedIssuesRun.


(** ** The reference count of an entry *)

Section ReferenceCounts.
Import github module_release cmd.

Variables (client : Client) (repo issuesRepo : string).

(** The issue numbers on which the loop over the pull requests calls
    [ProcessIssue], in the order of the calls: the linked issues of
    each pull request that could be fetched, as often as
    [GetLinkedIssues] returns them. *)
Definition references (prNumbers : list Z) : list Z :=
  flat_map (fun prNum =>
              match GetPullRequest client repo prNum with
              | Ok pr =>
                match GetLinkedIssues (Body pr) issuesRepo with
                | Ret linkedIssues => linkedIssues
                | _ => []
                end
              | Err _ => []
              end) prNumbers.

Definition timesIn (refs : list Z) (n : Z) : Z := Z.of_nat (count_occ Z.eq_dec refs n).

Lemma timesIn_snoc (refs : list Z) (n k : Z) :
  timesIn (refs ++ [n]) k = if decide (k = n) then timesIn refs k + 1 else timesIn refs k.
Proof.
  unfold timesIn. rewrite count_occ_app. cbn [count_occ].
  destruct (Z.eq_dec n k) as [->|Hne].
  - rewrite decide_True by done. lia.
  - rewrite decide_False by congruence. lia.
Qed.

Lemma wrap_succ (z : Z) : Go.wrap (Go.wrap z + 1) = Go.wrap (z + 1).
Proof.
  unfold Go.wrap.
  replace ((z + 2 ^ 63) mod 2 ^ 64 - 2 ^ 63 + 1 + 2 ^ 63)
    with ((z + 2 ^ 63) mod 2 ^ 64 + 1) by lia.
  rewrite Zplus_mod_idemp_l. f_equal. f_equal. lia.
Qed.

(** What one call does to the counts: the entry of the issue is
    created with the count 1 or its count goes up by one; an entry
    created for an issue above it has the count 1 and a child; nothing
    else changes, and no entry loses its children. *)
Lemma ProcessIssue_counts (fuel : nat) (cs cs' : CheckSummary) (n : Z)
    (err : option Go.error) :
  ProcessIssue fuel client cs n = Ret (cs', err) ->
  forall k info',
    Issues cs' !! k = Some info' ->
    (exists info,
       Issues cs !! k = Some info
       /\ RefCount info' = (if decide (k = n) then Go.wrap (RefCount info + 1)
                            else RefCount info)
       /\ (Children info' = [] -> Children info = []))
    \/ (Issues cs !! k = None /\ RefCount info' = 1
        /\ (k <> n -> Children info' <> [])).
Proof.
  revert cs cs' n err. induction fuel as [|fuel IH]; intros cs cs' n err; [discriminate|].
  intros Hrun.
  pose proof (ascent_leaves_out client fuel cs) as Hout.
  unfold nextUp in Hout. specialize (fun cs1 p err => Hout cs1 n p err).
  revert Hrun. rewrite ProcessIssue_S. cbv zeta.
  destruct (Issues cs !! n) as [known|] eqn:Hn.
  { intros [= <- <-] k info'. cbn [setIssues Issues].
    destruct (Z.eqb_spec k n) as [->|Hne].
    - rewrite lookup_insert_eq. intros [= <-]. left. exists known.
      by rewrite decide_True.
    - rewrite lookup_insert_ne by done. intros Hk. left. exists info'.
      by rewrite decide_False. }
  assert (Hold : forall k info,
            Issues cs !! k = Some info ->
            (exists info0,
               Issues cs !! k = Some info0
               /\ RefCount info = (if decide (k = n) then Go.wrap (RefCount info0 + 1)
                                   else RefCount info0)
               /\ (Children info = [] -> Children info0 = []))
            \/ (Issues cs !! k = None /\ RefCount info = 1
                /\ (k <> n -> Children info <> []))).
  { intros k info Hk. left. exists info. rewrite decide_False by congruence. done. }
  destruct (GetIssue client (IssuesRepo cs) n) as [issue|e].
  2:{ intros [= <- <-] k info' Hk. by apply Hold. }
  pose proof (newIssueInfo_Children n issue) as Hnone.
  assert (Hone : forall p, RefCount (setParentNumber (newIssueInfo n issue) p) = 1).
  { intros p. unfold newIssueInfo. by destruct (scanLabels _ _ _ _) as [[? ?] ?]. }
  assert (Hone' : RefCount (newIssueInfo n issue) = 1) by exact (Hone 0).
  assert (Hnew : forall info,
            RefCount info = 1 ->
            (exists info0,
               Issues cs !! n = Some info0
               /\ RefCount info = (if decide (n = n) then Go.wrap (RefCount info0 + 1)
                                   else RefCount info0)
               /\ (Children info = [] -> Children info0 = []))
            \/ (Issues cs !! n = None /\ RefCount info = 1
                /\ (n <> n -> Children info <> []))).
  { intros info Hinfo. right. done. }
  assert (Hstore : forall info,
            RefCount info = 1 ->
            forall k info',
              Issues (storeIssue cs n info) !! k = Some info' ->
              (exists info0,
                 Issues cs !! k = Some info0
                 /\ RefCount info' = (if decide (k = n) then Go.wrap (RefCount info0 + 1)
                                      else RefCount info0)
                 /\ (Children info' = [] -> Children info0 = []))
              \/ (Issues cs !! k = None /\ RefCount info' = 1
                  /\ (k <> n -> Children info' <> []))).
  { intros info Hinfo k info'. cbn [storeIssue setIssues Issues].
    destruct (Z.eqb_spec k n) as [Heq|Hne].
    - subst k. rewrite lookup_insert_eq. intros [= <-]. by apply Hnew.
    - rewrite lookup_insert_ne by done. apply Hold. }
  destruct (GetParentIssueNumber client (IssuesRepo cs) n) as [p|e].
  2:{ intros [= <- <-]. by apply Hstore. }
  destruct (0 <? p).
  2:{ intros [= <- <-]. by apply Hstore. }
  destruct (Issues cs !! p) as [parent|] eqn:Hp.
  { unfold appendChild. rewrite Hp. unfold mbind, outcome_bind, Go.bind.
    intros [= <- <-] k info'. cbn [storeIssue setIssues Issues].
    destruct (Z.eqb_spec k n) as [Heq|Hne].
    { subst k. rewrite lookup_insert_eq. intros [= <-]. by apply Hnew. }
    rewrite lookup_insert_ne by done.
    destruct (Z.eqb_spec k p) as [Hkp|Hkp].
    - subst k. rewrite lookup_insert_eq. intros [= <-]. left. exists parent.
      rewrite decide_False by done. split; [done|]. split; [done|].
      cbn [addChild Children]. intros H. by apply app_eq_nil in H as [_ H].
    - rewrite lookup_insert_ne by done. apply Hold. }
  unfold mbind, outcome_bind, Go.bind.
  pose proof (ProcessIssue_processed fuel client cs p) as Hdone.
  destruct (ProcessIssue fuel client cs p) as [[cs1 err1]| | |] eqn:Hup; try discriminate.
  specialize (Hout cs1 p err1 eq_refl Hup).
  specialize (IH cs cs1 p err1 Hup).
  destruct err1 as [e|].
  - apply ProcessIssue_failed in Hup as (-> & _). intros [= <- <-]. by apply Hstore.
  - destruct (processed_entry _ _ _ _ Hdone eq_refl) as [parent Hparent].
    unfold appendChild. rewrite Hparent.
    intros [= <- <-] k info'. cbn [storeIssue setIssues Issues].
    destruct (Z.eqb_spec k n) as [Heq|Hne].
    { subst k. rewrite lookup_insert_eq. intros [= <-]. by apply Hnew. }
    rewrite lookup_insert_ne by done.
    destruct (Z.eqb_spec k p) as [Hkp|Hkp].
    + subst k. rewrite lookup_insert_eq. intros [= <-]. right. split; [done|].
      destruct (IH p parent Hparent) as [(info0 & H0 & _)|(_ & Hcount & _)]; [congruence|].
      split; [done|]. intros _. cbn [addChild Children].
      intros H. by apply app_eq_nil in H as [_ H].
    + rewrite lookup_insert_ne by done. intros Hk.
      destruct (IH k info' Hk) as [(info0 & H0 & Hcount & Hchildren)|(H0 & Hcount & Hchildren)].
      * left. exists info0. rewrite decide_False in Hcount by done.
        rewrite decide_False by done. done.
      * right. split; [done|]. split; [done|]. intros _. by apply Hchildren.
Qed.

(** The counts after the calls for [refs]. *)
Definition counted (refs : list Z) (cs : CheckSummary) : Prop :=
  (forall k info,
     Issues cs !! k = Some info ->
     (RefCount info = Go.wrap (timesIn refs k)
      \/ RefCount info = Go.wrap (timesIn refs k + 1))
     /\ (Children info = [] -> RefCount info = Go.wrap (timesIn refs k)))
  /\ forall k issue,
       Issues cs !! k = None -> GetIssue client (IssuesRepo cs) k = Ok issue ->
       timesIn refs k = 0.

Lemma counted_step (fuel : nat) (refs : list Z) (cs cs' : CheckSummary) (n : Z)
    (err : option Go.error) :
  ProcessIssue fuel client cs n = Ret (cs', err) ->
  counted refs cs -> counted (refs ++ [n]) cs'.
Proof.
  intros Hrun [Hentries Habsent].
  pose proof (ProcessIssue_processed fuel client cs n) as Hdone. rewrite Hrun in Hdone.
  pose proof (processed_repo _ _ _ _ Hdone) as Hrepo.
  split.
  - intros k info' Hk. rewrite timesIn_snoc.
    destruct (ProcessIssue_counts fuel cs cs' n err Hrun k info' Hk)
      as [(info & H0 & Hcount & Hchildren)|(H0 & Hcount & Hchildren)].
    + destruct (Hentries k info H0) as [Hboth Hexact].
      destruct (decide (k = n)) as [->|Hne]; rewrite Hcount.
      * split.
        -- destruct Hboth as [-> | ->]; rewrite wrap_succ; auto.
        -- intros Hnil. by rewrite (Hexact (Hchildren Hnil)), wrap_succ.
      * split; [done|]. intros Hnil. by apply Hexact, Hchildren.
    + assert (Hzero : timesIn refs k = 0).
      { destruct (decide (k = n)) as [->|Hne].
        - destruct (GetIssue client (IssuesRepo cs) n) as [issue|e] eqn:Hissue;
            [by apply (Habsent n issue)|].
          destruct fuel as [|fuel]; [discriminate Hrun|].
          rewrite ProcessIssue_S, H0, Hissue in Hrun. injection Hrun as <- <-. congruence.
        - assert (His : is_Some (Issues cs' !! k)) by eauto.
          apply (ProcessIssue_keys client (fun j => is_Some (Issues cs !! j) \/
                   exists issue, GetIssue client (IssuesRepo cs) j = Ok issue)
                   fuel cs cs' n err) in His.
          + destruct His as [[x Hx]|[issue Hissue]]; [congruence|].
            by apply (Habsent k issue).
          + intros c p issue _ _ _ Hissue. eauto.
          + exact Hrun.
          + intros issue Hissue. eauto.
          + auto. }
      rewrite Hcount, Hzero.
      destruct (decide (k = n)) as [->|Hne].
      * split; [by left|]. done.
      * split; [by right|]. intros Hnil. by apply Hchildren in Hnil.
  - intros k issue Hk Hissue. rewrite Hrepo in Hissue. rewrite timesIn_snoc.
    assert (Hk0 : Issues cs !! k = None).
    { destruct (Issues cs !! k) eqn:H0; [|done].
      destruct (processed_keeps _ _ _ _ Hdone k) as [x Hx]; [eauto|]. congruence. }
    destruct (decide (k = n)) as [->|Hne]; [|by apply (Habsent k issue)].
    destruct (ProcessIssue_enters client fuel cs cs' n err issue Hrun Hissue) as [x Hx].
    congruence.
Qed.

Lemma processLinked_counted (fuel : nat) (linkedIssues refs : list Z)
    (summary summary' : CheckSummary) :
  processLinked fuel client linkedIssues summary = Ret summary' ->
  counted refs summary -> counted (refs ++ linkedIssues) summary'.
Proof.
  revert refs summary. induction linkedIssues as [|n linkedIssues IH]; intros refs summary;
    cbn [processLinked].
  - intros [= <-]. by rewrite app_nil_r.
  - unfold mbind, outcome_bind, Go.bind.
    destruct (ProcessIssue fuel client summary n) as [[cs1 err]| | |] eqn:Hn;
      try discriminate.
    intros Hrun Hcs. replace (refs ++ n :: linkedIssues) with ((refs ++ [n]) ++ linkedIssues)
      by (by rewrite <- app_assoc).
    apply (IH _ cs1 Hrun). by apply (counted_step fuel refs summary cs1 n err).
Qed.

End ReferenceCounts.


Section ReferenceCountsRun.
Import github module_release cmd.

Lemma processPRs_counted (client : Client) (repo issuesRepo : string) (fuel : nat)
    (prNumbers refs : list Z) (summary summary' : CheckSummary) :
  processPRs fuel client repo issuesRepo prNumbers summary = Ret summary' ->
  counted client refs summary ->
  counted client (refs ++ references client repo issuesRepo prNumbers) summary'.
Proof.
  revert refs summary. induction prNumbers as [|prNum prNumbers IH]; intros refs summary;
    cbn [processPRs references flat_map].
  - intros [= <-]. by rewrite app_nil_r.
  - fold (references client repo issuesRepo prNumbers).
    destruct (GetPullRequest client repo prNum) as [pr|e]; [|apply IH].
    unfold mbind, outcome_bind, Go.bind.
    destruct (GetLinkedIssues (Body pr) issuesRepo) as [linkedIssues| | |];
      try discriminate.
    destruct (0 <? length linkedIssues)%nat eqn:Hsome.
    + destruct (processLinked fuel client linkedIssues summary) as [cs1| | |] eqn:Hlinked;
        try discriminate.
      intros Hrun Hcs. rewrite app_assoc. apply (IH _ cs1 Hrun).
      by apply (processLinked_counted client fuel linkedIssues refs summary).
    + cbv zeta. intros Hrun Hcs.
      assert (Hnil : linkedIssues = []) by (by destruct linkedIssues). subst linkedIssues.
      cbn [app]. apply (IH _ _ Hrun). by destruct (existsb _ (prLabels pr)).
Qed.

Lemma timesIn_bounds (refs : list Z) (n : Z) :
  0 <= timesIn refs n <= Z.of_nat (length refs).
Proof.
  unfold timesIn. pose proof (count_occ_bound Z.eq_dec n refs). lia.
Qed.

(** X23. The count [RefCount] of an entry of the summary a run of
    [check] displays, which is printed in brackets on the line of the
    issue. It counts the calls of [ProcessIssue] for the issue from
    the loop over the pull requests: one for each time the issue is in
    the list [GetLinkedIssues] returns for a fetched pull request, so a
    body that names the issue twice counts twice. For an entry without
    children that is the count; an entry with children may count one
    more, for its creation on the way up from a child. The count is an
    [int] and wraps around like one. *)
Theorem reference_counts (fuel : nat) (ro : rangeOrder) (env : Env)
    (repoFlag issuesRepoFlag : string) (summary : CheckSummary)
    (commitsInPRs : gmap string bool) (ready : bool) :
  runCheck fuel ro env repoFlag issuesRepoFlag = Ret (Ok (Reported summary commitsInPRs ready)) ->
  exists client repo latestRelease prNumbers,
    NewClient env = Ok client
    /\ ScanForPRs ro client repo (TagName latestRelease) "main" = Ok prNumbers
    /\ forall n info,
         Issues summary !! n = Some info ->
         (RefCount info
          = Go.wrap (timesIn (references client repo issuesRepoFlag prNumbers) n)
          \/ RefCount info
             = Go.wrap (timesIn (references client repo issuesRepoFlag prNumbers) n + 1))
         /\ (Children info = [] ->
             RefCount info
             = Go.wrap (timesIn (references client repo issuesRepoFlag prNumbers) n))
         /\ (Z.of_nat (length (references client repo issuesRepoFlag prNumbers)) < Go.MaxInt ->
             timesIn (references client repo issuesRepoFlag prNumbers) n <= RefCount info
             <= timesIn (references client repo issuesRepoFlag prNumbers) n + 1).
Proof.
  intros Hrun.
  apply runCheck_scanned in Hrun
    as (client & repo & latestRelease & commits & prNumbers & processed
        & Hclient & Hscan & Hprs & ->).
  exists client, repo, latestRelease, prNumbers.
  split; [exact Hclient|]. split; [exact Hscan|].
  destruct (findOrphans_issues repo commits commitsInPRs processed) as [-> _].
  apply (processPRs_counted client repo issuesRepoFlag fuel prNumbers []) in Hprs
    as [Hentries _].
  2:{ split.
      - intros k info Hk. cbn in Hk. by rewrite lookup_empty in Hk.
      - intros k issue _ _. reflexivity. }
  cbn [app] in Hentries. intros n info Hn.
  destruct (Hentries n info Hn) as [Hboth Hexact].
  split; [exact Hboth|]. split; [exact Hexact|].
  intros Hshort.
  pose proof (timesIn_bounds (references client repo issuesRepoFlag prNumbers) n) as Hb.
  destruct Hboth as [-> | ->]; rewrite wrap_small;
    unfold Go.MinInt, Go.MaxInt in *; lia.
Qed.

Lemma reference_counts_witness :
  runCheck 3 keyOrder checkEnv "" "NethServer/dev"
  = Ret (Ok (Reported checkedSummary {[ "c1" := true ]} true))
  /\ exists repo prNumbers,
       Go.wrap (timesIn (references checkClient repo "NethServer/dev" prNumbers) 42) = 1.
Proof.
  split; [exact checkEnv_run|].
  destruct (reference_counts 3 keyOrder checkEnv "" "NethServer/dev" checkedSummary
              _ true checkEnv_run)
    as (client & repo & latestRelease & prNumbers & Hclient & _ & Hcounts).
  injection Hclient as <-.
  assert (H42 : Issues checkedSummary !! 42
                = Some {| Number := 42; Status := EmojiOpenIssue; Progress := EmojiVerified;
                          Labels := "bug"; RefCount := 1; ParentNumber := 40;
                          Children := [] |}) by (vm_compute; reflexivity).
  destruct (Hcounts 42 _ H42) as (_ & Hexact & _).
  exists repo, prNumbers. symmetry. exact (Hexact eq_refl).
Defined.

End ReferenceCountsRun.


(** ** [runCreate]: the notes of the request, and the runs without notes *)

Section CreateNotes.
Import github module_release cmd.













End CreateNotes.
